(* ===== verification/_CoqProject ===== *)
-Q . S2P
Prelude.v
Effects.v
Sched.v
Errors.v
Strconv.v
Base64.v
Text.v
Types.v
Ports.v
Jmes.v
DemoLib.v
EdgeFlap.v
EdgeProps.v
StoreSpec.v
MemStore.v
EdgeHistory.v
Refinement.v
Concurrency.v
Ttl.v
Flow.v
FlowProps.v
ConfigCache.v
Http.v
HttpProps.v
Lambda.v
LambdaProps.v
System.v
PublishOnce.v
Tags.v
DdbSpec.v
Ddb.v
DdbProps.v
DdbMem.v
DdbRate.v
DdbClaims.v
RedisSpec.v
RedisStore.v
RedisProps.v
RedisSeq.v
RedisRace.v
Backends.v
LambdaMain.v
Stack.v
Server.v
ServerProps.v
