(* ===== verification/Prelude.v ===== *)
(** * enoti: verification of an edge-triggered notification service

    enoti receives notifications over HTTP ([POST /notify]) or from an SQS queue,
    watches one field of their payload per client, and publishes to SNS when its
    value changes. Flips inside a time window can be suppressed or collected into
    aggregates; requests are rate limited per address, client and target. State
    and configurations are kept in DynamoDB or Redis.

    ** The program and its model

    Code with effects is a tree of external calls ([Effects.v], [prog E A]) over
    the signature of the interface it calls; it is read in three ways: all
    executions under arbitrary replies ([exec], [wp]), runs against a handler
    ([run]), and interleavings of several programs on a shared state
    ([pool_step]). Goroutines that block on channels are scheduled in [Sched.v].
    Two recursive predicates on programs carry the whole-service invariants:
    [guarantee] ([System.v]), what a request promises to the others, and [watch]
    ([PublishOnce.v]), the phases it goes through. Go's multiple results are tuples, [option error] is an error
    result, [Panic] a run-time panic or the exit of the process.

    - [Prelude.v]: integers, strings as bytes, automation, shared lemmas.
    - [Effects.v]: programs, executions, runs, interleavings, and the simulation
      between a pool at an interface and the pool of its implementation
      ([lockstep_pool]). [Sched.v]: calls that block, fair runs, and bounds on the
      number of calls ([within]).
    - [Errors.v], [Strconv.v], [Base64.v], [Text.v]: the parts of Go's standard
      library the code uses ([errors], [strconv], [encoding/base64], [strings],
      [net], [net/textproto], [hash/fnv], [unicode/utf8]); [Errors.v] also has
      [internal/types/errors.go].
    - [Types.v]: [internal/types/config.go] and [state.go]: configurations with
      [Validate], the edge state and [AppendRecent].
    - [Ports.v]: [internal/ports]: the interfaces as call signatures, the calls of
      a request handler ([AppE]), and the third-party functions ([Lib]).
    - [Jmes.v]: [flow/jmes.go], [flow/passthrough.go].
    - [EdgeFlap.v]: [flow/edge_flap.go], [flow/common.go]: the evaluation of a
      value, and the list of all its executions. [EdgeProps.v]: its invariant and
      its behaviour under arbitrary replies of the store.
    - [StoreSpec.v]: the contract of [ports.DataStore] (class [DataStore]), a
      process ([World]) and the abstract behaviour [observe]; [MemStore.v]: an
      in-memory implementation of the ports. [EdgeHistory.v]: sequences of
      observations. [Refinement.v]: the code run on a conforming store is the
      abstract behaviour, and what follows for sequences of evaluations.
      [Concurrency.v]: many processes on one scope.
    - [Ttl.v]: [flow/ttl.go] and the cache of the process. [Flow.v]: [flow/flow.go] ([Auth], [Run],
      [LoadCachedClientConfig], [ComputeKey]); [FlowProps.v], [ConfigCache.v]:
      their properties.
    - [Http.v], [HttpProps.v]: [api/httphandler.go]. [Lambda.v],
      [LambdaProps.v]: the message handling of [cmd/lambda-sqs/main.go].
    - [System.v]: the whole service: any requests and batches of any clients at
      once. [PublishOnce.v]: those of one client that report the same change.
    - [Tags.v]: the [json] and [dynamodbav] tags of the structs of
      [internal/types], as the trees of named fields that are encoded.
    - [DdbSpec.v]: DynamoDB's calls, expressions and documented laws, and the
      laws of the SDK's encoder; [Ddb.v]: [backends/ddb]; [DdbProps.v]: the data
      store is an instance of the contract; [DdbMem.v]: a concrete service and
      encoder; [DdbRate.v], [DdbClaims.v]: rate limits, configurations.
    - [RedisSpec.v]: Redis's calls and documented laws, with the deadlines of keys
      and a concrete server; [RedisStore.v]: [backends/redis]; [RedisProps.v],
      [RedisSeq.v]: one process at a time; [RedisRace.v]: several processes.
    - [Backends.v]: [backends/helpers.go], the constructors of the stores and
      [pub/sns.go]. [LambdaMain.v]: [main] of [cmd/lambda-sqs/main.go].
    - [Stack.v]: [api.Handler] wired to the DynamoDB stores and SNS, down to the
      requests to the services.
    - [Server.v], [ServerProps.v]: [api/app.go]: the [http.Server], the two
      goroutines of [RunServerInterruptible] and their channels, on a model of how
      [net/http] listens, accepts and shuts down as time passes.
    - [DemoLib.v]: concrete third-party functions for examples.

    ** What the theorems show

    - Evaluation: no panic; one load and at most one conditional write; a
      notification is announced only after its state was committed; the state
      invariant is kept; a conforming store makes the code behave as [observe],
      so that on a reliable one, without flap control, exactly the changes are
      forwarded; with a threshold that fits the history, no tolerance and no
      cooldown, exactly every n-th flip of a window sends an aggregate and each
      flip is in one aggregate or still held; without aggregation the tolerance
      counts flips. Aggregates keep their cooldown. Of concurrent evaluations of
      one new value at most one announces it.
    - The whole service: HTTP requests and batches that report the same change at
      the same time publish it at most once; the stored state keeps its types and
      its invariant under any mix of requests; every request ends after a bounded
      number of calls without a panic; with the code of the DynamoDB store in
      place of its interface, a change is still announced at most once.
    - Life cycle: the queue entry point starts with both stores reached, by the
      options of the environment, or stops with one message; the HTTP server
      reports its end exactly once, in every fair run a stop signal is honoured,
      and its shutdown waits for the requests in flight for fifteen seconds; but
      the report can come while requests are still in flight.
    - Requests: nothing reaches the stores or the publisher before
      authentication and admission; what is published was granted by every limit
      and committed; every request is answered, from a fixed set of statuses; the
      queue entry point makes the same calls as the HTTP one; a batch reports
      exactly the records that failed; configurations are cached for 300 seconds.
    - DynamoDB: [UpsertCAS] is an atomic compare-and-set, states and
      configurations are read back, rate limits hold in any interleaving, and
      [Suppress] suppresses as long as a row exists.
    - Redis: the sequential behaviour (updates, rate limits that are exact while
      the window's key lives, configurations read back, what [ClearAll] leaves
      behind), which keys coincide, and theorems that the creation of a state,
      concurrent updates and concurrent rate limits are not what the interface
      asks for, on any server and for any number of processes. Both stores' [ListClients] find no client.

    The names of the integration tests in [EdgeHistory.v] are those of
    [tests/], replayed on the model.

    ** Assumptions, bounds and fuel

    Third-party code is a parameter: DynamoDB, the attribute encoder, Redis and
    the JSON texts it stores have law classes with a concrete instance each; JSON,
    JMESPath and zstd are functions of [Lib] with hypotheses stated where they are
    used. Texts are bytes; what is stored exactly is UTF-8 text, so theorems about
    the stores ask for it. [int] and [int64] wrap at 64 bits. Times are
    nanoseconds. Loops have fuel by construction: 20 digits for a 64-bit integer,
    the length of the history for an aggregate, the length of the text for the
    scanners of [Text.v]. The bounds on the calls of a request, 19 for HTTP and 12
    for a message, are those of the longest branch of each step added up. Liveness
    assumes a fair scheduler: a goroutine that can move is not starved for ever. The
    client store is asked for configurations of UTF-8 text and, where requests of
    one client race, for an unchanged configuration. A request to Redis is served
    at one time of the server, and theorems about rate windows ask that this lies
    before the deadline of the window's key. DynamoDB items are not removed in the
    background. A slice that is nil and one that is empty are the same list.

    ** Not modelled

    [SetTimNowFn] and [RestoreTimeNow] of [flow/common.go], which exchange the
    clock in tests: the clock returns arbitrary readings instead. The protocols
    beneath the calls (HTTP parsing, TLS, the wire formats of DynamoDB, Redis and
    SNS) belong to libraries. Logging has no effect. Request paths are taken as
    clean. Messages of library errors are not modelled; no response shows them. *)

From stdpp Require Export base tactics option list gmap strings.
From Stdlib Require Export ZArith Lia.
From Stdlib Require Export Ascii.

#[global] Open Scope Z_scope.

(** ** Machine integers

    Go's [int] and [int64] are 64 bits wide on the supported targets and
    wrap around; [uint32] is used by the FNV hash only. *)
Definition int64_min : Z := - 2 ^ 63.
Definition int64_max : Z := 2 ^ 63 - 1.
Definition is_int64 (z : Z) : Prop := int64_min <= z <= int64_max.
Definition int64 (z : Z) : Z := (z + 2 ^ 63) mod 2 ^ 64 - 2 ^ 63.
Definition uint32 (z : Z) : Z := z mod 2 ^ 32.

#[global] Instance is_int64_dec z : Decision (is_int64 z).
Proof. unfold is_int64. apply _. Defined.

(** ** Automation

    [enoti] collects the lemmas that close routine side conditions; the
    rewrite database of the same name normalises wrapped integers whose
    range is known. *)
Create HintDb enoti discriminated.
Create Rewrite HintDb enoti.

(** Membership in a list written out. *)
Ltac in_list := solve [left | right; in_list].

(** Splits every conditional on a decidable proposition, then simplifies. *)
Ltac split_decide :=
  repeat (case_decide || case_match); simplify_eq/=.

(** Integer side conditions: unfold the widths, then call [lia]. *)
Ltac int_lia :=
  unfold is_int64, int64_min, int64_max, uint32 in *; lia.

Lemma int64_range z : is_int64 (int64 z).
Proof. unfold int64. pose proof (Z.mod_pos_bound (z + 2 ^ 63) (2 ^ 64)). int_lia. Qed.

Lemma int64_id z : is_int64 z → int64 z = z.
Proof. intros. unfold int64. rewrite Z.mod_small; int_lia. Qed.

Lemma uint32_range z : 0 <= uint32 z < 2 ^ 32.
Proof. apply Z.mod_pos_bound. lia. Qed.

(** Counting modulo [a]: the residue goes up by one, or wraps to zero. *)
Lemma mod_succ n a :
  0 < a → (n + 1) mod a = if decide (n mod a + 1 = a) then 0 else n mod a + 1.
Proof.
  intros Ha. pose proof (Z.div_mod n a). pose proof (Z.mod_pos_bound n a Ha). symmetry.
  case_decide.
  - apply (Z.mod_unique _ _ (n / a + 1)); lia.
  - apply (Z.mod_unique _ _ (n / a)); lia.
Qed.

#[export] Hint Resolve int64_range uint32_range : enoti.

(** ** Lists *)

(** The last [n] elements: [xs\[len(xs)-n:\]] for [0 <= n <= len(xs)]. *)
Definition last_n {A} (n : nat) (l : list A) : list A := drop (length l - n) l.

Lemma length_last_n {A} n (l : list A) : length (last_n n l) = Nat.min n (length l).
Proof. unfold last_n. rewrite length_drop. lia. Qed.

Lemma last_n_all {A} n (l : list A) : (length l ≤ n)%nat → last_n n l = l.
Proof. intros. unfold last_n. by replace (length l - n)%nat with 0%nat by lia. Qed.

Lemma last_n_snoc {A} n (l : list A) x : last_n (S n) (l ++ [x]) = last_n n l ++ [x].
Proof.
  unfold last_n. rewrite length_app; simpl.
  replace (length l + 1 - S n)%nat with (length l - n)%nat by lia.
  rewrite drop_app_le; [done | lia].
Qed.

Lemma last_n_last_n {A} n m (l : list A) :
  (n ≤ m)%nat → last_n n (last_n m l) = last_n n l.
Proof.
  intros. unfold last_n. rewrite drop_drop, length_drop. f_equal. lia.
Qed.

Lemma take_min_length {A} n (l : list A) : take (n `min` length l)%nat l = take n l.
Proof.
  destruct (decide (n ≤ length l)%nat).
  - by rewrite Nat.min_l.
  - rewrite Nat.min_r by lia. by rewrite !take_ge by lia.
Qed.

Lemma fmap_rev {A B} (f : A → B) (l : list A) : f <$> rev l = rev (f <$> l).
Proof. induction l as [|x l IH]; [done|]. simpl. by rewrite fmap_app, IH. Qed.

#[export] Hint Rewrite @length_last_n : enoti.

(** ** Strings *)

Lemma string_cons_app a s t : String a s +:+ t = String a (s +:+ t).
Proof. reflexivity. Qed.

Lemma string_app_nil_r s : s +:+ "" = s.
Proof. induction s as [|a s IH]; [done|]. by rewrite string_cons_app, IH. Qed.

Lemma string_app_assoc s t u : (s +:+ t) +:+ u = s +:+ t +:+ u.
Proof. induction s as [|a s IH]; [done|]. by rewrite !string_cons_app, IH. Qed.

Lemma string_length_app s t : String.length (s +:+ t) = (String.length s + String.length t)%nat.
Proof. induction s as [|a s IH]; [done|]. rewrite string_cons_app; simpl. by rewrite IH. Qed.

Lemma string_app_inj_l s t u : s +:+ t = s +:+ u → t = u.
Proof.
  induction s as [|a s IH]; [done|]. rewrite !string_cons_app. intros [= H]. auto.
Qed.

Lemma string_app_inj s s' t t' :
  String.length s = String.length s' → s +:+ t = s' +:+ t' → s = s' ∧ t = t'.
Proof.
  revert s'. induction s as [|a s IH]; intros [|a' s']; simpl; try done.
  rewrite !string_cons_app. intros Hl [= -> H].
  destruct (IH s') as [-> ->]; [lia|done|done].
Qed.

Lemma string_app_inj_r s s' t : s +:+ t = s' +:+ t → s = s'.
Proof.
  intros H. assert (String.length s = String.length s') as Hl.
  { apply (f_equal String.length) in H. rewrite !string_length_app in H. lia. }
  by apply (string_app_inj s s' t t Hl) in H as [-> _].
Qed.

(** Bytes of a Go string, and back. *)
Fixpoint bytes (s : string) : list ascii :=
  match s with
  | EmptyString => []
  | String c s => c :: bytes s
  end.

Fixpoint of_bytes (l : list ascii) : string :=
  match l with
  | [] => EmptyString
  | c :: l => String c (of_bytes l)
  end.

Lemma of_bytes_bytes s : of_bytes (bytes s) = s.
Proof. induction s as [|a s IH]; simpl; [done|]. by rewrite IH. Qed.

Lemma bytes_of_bytes l : bytes (of_bytes l) = l.
Proof. induction l as [|a s IH]; simpl; [done|]. by rewrite IH. Qed.

Lemma bytes_app s t : bytes (s +:+ t) = bytes s ++ bytes t.
Proof. induction s as [|a s IH]; [done|]. rewrite string_cons_app; simpl. by rewrite IH. Qed.

Lemma length_bytes s : length (bytes s) = String.length s.
Proof. induction s as [|a s IH]; simpl; [done|]. by rewrite IH. Qed.

Lemma bytes_inj s t : bytes s = bytes t → s = t.
Proof. intros H. by rewrite <- (of_bytes_bytes s), H, of_bytes_bytes. Qed.

(** The byte as an integer in [0, 256). *)
Definition byte_val (c : ascii) : Z := Z.of_N (Ascii.N_of_ascii c).
Definition byte_of (z : Z) : ascii := Ascii.ascii_of_N (Z.to_N (z mod 256)).

Lemma byte_val_range c : 0 <= byte_val c < 256.
Proof. unfold byte_val. pose proof (Ascii.N_ascii_bounded c). lia. Qed.

Lemma byte_of_val c : byte_of (byte_val c) = c.
Proof.
  unfold byte_of. rewrite Z.mod_small by apply byte_val_range.
  unfold byte_val. rewrite N2Z.id. apply Ascii.ascii_N_embedding.
Qed.

Lemma byte_val_of z : 0 <= z < 256 → byte_val (byte_of z) = z.
Proof.
  intros. unfold byte_val, byte_of. rewrite Z.mod_small by done.
  rewrite Ascii.N_ascii_embedding; lia.
Qed.

#[export] Hint Resolve byte_val_range : enoti.

(** A pair from its first component. *)
Lemma pair_fst_snd {A B} (p : A * B) a : p.1 = a → p = (a, p.2).
Proof. by destruct p; intros <-. Qed.
