(* ===== verification/Effects.v ===== *)
(** * Effectful Go code

    A Go function that talks to the outside (a store, the clock, a response
    writer) is a value of [prog E A]: a tree whose nodes are the external
    calls it makes, in order, each with the continuation for its reply.
    [Panic] is a Go run-time panic. Trees are finite: the code has no
    unbounded loop around an external call.

    Three readings of a program are used:
    - [exec p t o]: the program can make exactly the calls [t], receiving
      the replies recorded in [t], and end in [o] ([None] is a panic). The
      replies are arbitrary, so a statement about every [exec] holds
      whatever the stores, the network and concurrent processes do;
      [wp] is the matching weakest precondition;
    - [run h p s]: the program run alone against a handler [h] with state
      [s];
    - [pool_step h]: several programs interleaved on one shared state, each
      external call being atomic. *)

From S2P Require Import Prelude.

Section prog.
Context {E : Type → Type}.

Inductive prog (A : Type) : Type :=
| Ret (a : A)
| Panic
| Vis (X : Type) (e : E X) (k : X → prog A).

End prog.
Arguments prog : clear implicits.
Arguments Ret {E A} a.
Arguments Panic {E A}.
Arguments Vis {E A X} e k.

Section monad.
Context {E : Type → Type}.

Fixpoint prog_bind {A B} (f : A → prog E B) (p : prog E A) : prog E B :=
  match p with
  | Ret a => f a
  | Panic => Panic
  | Vis e k => Vis e (λ x, prog_bind f (k x))
  end.

(** One external call. *)
Definition trigger {X} (e : E X) : prog E X := Vis e Ret.

(** A pure computation that may panic. *)
Definition or_panic {A} (o : option A) : prog E A :=
  match o with Some a => Ret a | None => Panic end.

End monad.

#[global] Instance prog_mret E : MRet (prog E) := λ A, Ret.
#[global] Instance prog_mbind E : MBind (prog E) := λ A B, prog_bind.

(** Exposes the calls of a program written with the monad notation. *)
Ltac prog_simpl := unfold mret, mbind, prog_mret, prog_mbind, trigger, or_panic in *; simpl in *.

(** Replaces every call of [E] by a program over [F]: the code of an
    interface's implementation is run where the interface is called. *)
Fixpoint interp {E F : Type → Type} (f : ∀ X, E X → prog F X) {A} (p : prog E A) : prog F A :=
  match p with
  | Ret a => Ret a
  | Panic => Panic
  | Vis e k => prog_bind (λ x, interp f (k x)) (f _ e)
  end.

(** Renames calls. *)
Definition translate {E F : Type → Type} (inj : ∀ X, E X → F X) {A} (p : prog E A) : prog F A :=
  interp (λ X e, trigger (inj X e)) p.

(** ** Executions against an arbitrary environment *)

Inductive event (E : Type → Type) : Type :=
| Ev (X : Type) (e : E X) (x : X).
Arguments Ev {E X} e x.

Section exec.
Context {E : Type → Type}.

Fixpoint exec {A} (p : prog E A) (t : list (event E)) (o : option A) : Prop :=
  match p with
  | Ret a => t = [] ∧ o = Some a
  | Panic => t = [] ∧ o = None
  | Vis e k => ∃ x t', t = Ev e x :: t' ∧ exec (k x) t' o
  end.

Fixpoint wp {A} (p : prog E A) (Q : list (event E) → option A → Prop) : Prop :=
  match p with
  | Ret a => Q [] (Some a)
  | Panic => Q [] None
  | Vis e k => ∀ x, wp (k x) (λ t, Q (Ev e x :: t))
  end.

Lemma wp_exec {A} (p : prog E A) Q : wp p Q ↔ ∀ t o, exec p t o → Q t o.
Proof.
  revert Q. induction p as [a| |X e k IH]; intros Q; simpl.
  - split; [by intros H t o [-> ->]|eauto].
  - split; [by intros H t o [-> ->]|eauto].
  - split.
    + intros H t o (x & t' & -> & Hx). by apply (proj1 (IH x _) (H x)).
    + intros H x. apply IH. intros t o Hx. apply H. eauto.
Qed.

Lemma wp_mono {A} (p : prog E A) (Q R : list (event E) → option A → Prop) :
  (∀ t o, Q t o → R t o) → wp p Q → wp p R.
Proof. rewrite !wp_exec. eauto. Qed.

Lemma wp_bind {A B} (f : A → prog E B) (p : prog E A) Q :
  wp p (λ t o, match o with
               | Some a => wp (f a) (λ t', Q (t ++ t'))
               | None => Q t None
               end) →
  wp (prog_bind f p) Q.
Proof.
  revert Q. induction p as [a| |X e k IH]; intros Q; simpl; [done..|].
  intros H x. apply IH. by apply H.
Qed.

(** The rule for one call. *)
Lemma wp_call {X B} (e : E X) (f : X → prog E B) Q :
  (∀ x, wp (f x) (λ t, Q (Ev e x :: t))) → wp (prog_bind f (trigger e)) Q.
Proof. done. Qed.

Lemma exec_bind {A B} (f : A → prog E B) (p : prog E A) t o :
  exec (prog_bind f p) t o ↔
  (∃ t1 t2 a, t = t1 ++ t2 ∧ exec p t1 (Some a) ∧ exec (f a) t2 o) ∨
  (o = None ∧ exec p t None).
Proof.
  revert t. induction p as [a| |X e k IH]; intros t; simpl.
  - split.
    + intros. left. exists [], t, a. eauto.
    + intros [(t1 & t2 & a' & -> & [-> Ha] & Hf)|[_ [_ Ha]]]; by simplify_eq.
  - split; [intros [-> ->]; eauto|].
    intros [(t1 & t2 & a' & -> & [-> Ha] & Hf)|[-> [-> _]]]; by simplify_eq.
  - split.
    + intros (x & t' & -> & H). apply IH in H as [(t1 & t2 & a & -> & H1 & H2)|[-> H]].
      * left. exists (Ev e x :: t1), t2, a. eauto 6.
      * right. eauto 6.
    + intros [(t1 & t2 & a & -> & (x & t' & -> & H1) & H2)|[-> (x & t' & -> & H1)]].
      * exists x, (t' ++ t2). split; [done|]. apply IH. left. eauto 8.
      * exists x, t'. split; [done|]. apply IH. by right.
Qed.

End exec.

(** The calls of a renamed program are the renamed calls. *)
Definition event_map {E F : Type → Type} (inj : ∀ X, E X → F X) (ev : event E) : event F :=
  match ev with Ev e x => Ev (inj _ e) x end.

Lemma wp_translate {E F : Type → Type} {A} (inj : ∀ X, E X → F X) (p : prog E A) Q :
  wp p (λ t, Q (event_map inj <$> t)) → wp (translate inj p) Q.
Proof.
  revert Q. induction p as [a| |X e k IH]; intros Q; [done..|].
  intros H x. apply IH. by apply (wp_mono _ _ _ (λ t o Hq, Hq) (H x)).
Qed.

(** The program never panics, whatever the replies. *)
Definition no_panic {E A} (p : prog E A) : Prop := wp p (λ _ o, o ≠ None).

Lemma no_panic_bind {E A B} (f : A → prog E B) (p : prog E A) :
  no_panic p → (∀ a, no_panic (f a)) → no_panic (prog_bind f p).
Proof.
  intros Hp Hf. apply wp_bind. eapply wp_mono; [|exact Hp].
  intros t [a|] H; [|done]. eapply wp_mono; [|apply Hf]. done.
Qed.

Lemma no_panic_interp {E F A} (f : ∀ X, E X → prog F X) (p : prog E A) :
  no_panic p → (∀ X e, no_panic (f X e)) → no_panic (interp f p).
Proof.
  intros Hp Hf. induction p as [a| |X e k IH]; [done| |]; simpl in *.
  - by destruct Hp.
  - apply no_panic_bind; [done|]. intros x. apply IH. by apply (Hp x).
Qed.

(** ** Sequential runs *)

Definition handler (E : Type → Type) (S : Type) : Type := ∀ X, E X → S → option X * S.

Section run.
Context {E : Type → Type} {S : Type} (h : handler E S).

Fixpoint run {A} (p : prog E A) (s : S) : option A * S :=
  match p with
  | Ret a => (Some a, s)
  | Panic => (None, s)
  | Vis e k =>
      match h _ e s with
      | (Some x, s') => run (k x) s'
      | (None, s') => (None, s')
      end
  end.

Lemma run_bind {A B} (f : A → prog E B) (p : prog E A) s :
  run (prog_bind f p) s =
  match run p s with
  | (Some a, s') => run (f a) s'
  | (None, s') => (None, s')
  end.
Proof.
  revert s. induction p as [a| |X e k IH]; intros s; simpl; [done..|].
  destruct (h X e s) as [[x|] s']; auto.
Qed.

Lemma run_trigger {X} (e : E X) s : run (trigger e) s = h X e s.
Proof. simpl. by destruct (h X e s) as [[x|] s']. Qed.

(** The replies recorded in a trace are those of the handler, from [s] to [s']. *)
Fixpoint replay (t : list (event E)) (s s' : S) : Prop :=
  match t with
  | [] => s = s'
  | Ev e x :: t => ∃ s1, h _ e s = (Some x, s1) ∧ replay t s1 s'
  end.

(** A run is one of the executions. *)
Lemma run_exec {A} (p : prog E A) s a s' :
  run p s = (Some a, s') → ∃ t, exec p t (Some a) ∧ replay t s s'.
Proof.
  revert s. induction p as [a'| |X e k IH]; intros s; simpl.
  - intros [= -> ->]. by exists [].
  - done.
  - destruct (h X e s) as [[x|] s1] eqn:Hh; [|done].
    intros (t & Ht & Hr)%IH. exists (Ev e x :: t). simpl. eauto 10.
Qed.

(** The calls of a run with their replies, and its outcome ([None] if the handler
    did not reply). *)
Fixpoint record {A} (p : prog E A) (s : S) : list (event E) * option (option A) :=
  match p with
  | Ret a => ([], Some (Some a))
  | Panic => ([], Some None)
  | Vis e k =>
      match h _ e s with
      | (Some x, s') => let '(t, o) := record (k x) s' in (Ev e x :: t, o)
      | (None, _) => ([], None)
      end
  end.

Lemma record_exec {A} (p : prog E A) s o :
  (record p s).2 = Some o → exec p (record p s).1 o.
Proof.
  revert s. induction p as [a| |X e k IH]; intros s; simpl; [by intros [= <-]..|].
  destruct (h X e s) as [[x|] s1]; [|done]. specialize (IH x s1).
  destruct (record (k x) s1) as [t o']. simpl in *. eauto.
Qed.

(** A handler that always replies. *)
Definition total_handler : Prop := ∀ X (e : E X) s, ∃ x s', h X e s = (Some x, s').

(** A program that does not panic runs to a result. *)
Lemma run_total {A} (p : prog E A) s :
  total_handler → no_panic p → ∃ a s', run p s = (Some a, s').
Proof.
  intros Ht. revert s. induction p as [a| |X e k IH]; intros s Hp; simpl.
  - eauto.
  - by destruct Hp.
  - destruct (Ht X e s) as (x & s' & Hx). rewrite Hx. apply IH, (Hp x).
Qed.

End run.

(** Running an interface call through its implementation is running the
    implementation: the composition of layers is sequential composition. *)
Lemma run_interp {E F S A} (h : handler F S) (f : ∀ X, E X → prog F X) (p : prog E A) s :
  run h (interp f p) s = run (λ X e, run h (f X e)) p s.
Proof.
  revert s. induction p as [a| |X e k IH]; intros s; simpl; [done..|].
  rewrite run_bind. destruct (run h (f X e) s) as [[x|] s']; auto.
Qed.

(** ** Interleaved runs *)

Section pool.
Context {E : Type → Type} {S A : Type} (h : handler E S).

(** Thread [i] makes its next call; the call is atomic on the shared state.
    A call whose handler panics kills that thread only. *)
Inductive pool_step : list (prog E A) * S → list (prog E A) * S → Prop :=
| pool_step_call i X (e : E X) k ps s x s' :
    ps !! i = Some (Vis e k) →
    h X e s = (Some x, s') →
    pool_step (ps, s) (<[i := k x]> ps, s')
| pool_step_panic i X (e : E X) k ps s s' :
    ps !! i = Some (Vis e k) →
    h X e s = (None, s') →
    pool_step (ps, s) (<[i := Panic]> ps, s').

(** A schedule: which thread moves next. Executable counterpart of
    [pool_step], used to exhibit concrete interleavings. *)
Fixpoint run_schedule (sched : list nat) (ps : list (prog E A)) (s : S) : list (prog E A) * S :=
  match sched with
  | [] => (ps, s)
  | i :: sched =>
      match ps !! i with
      | Some (Vis e k) =>
          match h _ e s with
          | (Some x, s') => run_schedule sched (<[i := k x]> ps) s'
          | (None, s') => run_schedule sched (<[i := Panic]> ps) s'
          end
      | _ => run_schedule sched ps s
      end
  end.

Lemma run_schedule_steps sched ps s :
  rtc pool_step (ps, s) (run_schedule sched ps s).
Proof.
  revert ps s. induction sched as [|i sched IH]; intros ps s; simpl; [done|].
  destruct (ps !! i) as [[a| |X e k]|] eqn:Hi; [done..| |done].
  destruct (h X e s) as [[x|] s'] eqn:Hh; (eapply rtc_l; [|apply IH]).
  - by eapply pool_step_call.
  - by eapply pool_step_panic.
Qed.

(** The same with the number of calls made. *)
Lemma run_schedule_nsteps sched ps s :
  ∃ n, (n <= length sched)%nat ∧ nsteps pool_step n (ps, s) (run_schedule sched ps s).
Proof.
  revert ps s. induction sched as [|i sched IH]; intros ps s; simpl; [exists 0%nat; split; [done|constructor]|].
  assert (∀ c, pool_step (ps, s) c → (∃ n, (n <= length sched)%nat ∧ nsteps pool_step n c (run_schedule sched c.1 c.2)) →
    ∃ n, (n <= Datatypes.S (length sched))%nat ∧ nsteps pool_step n (ps, s) (run_schedule sched c.1 c.2)) as Hstep.
  { intros c Hc (n & Hn & Hs). exists (Datatypes.S n). split; [lia|]. by eapply nsteps_l. }
  assert ((∃ n, (n <= length sched)%nat ∧ nsteps pool_step n (ps, s) (run_schedule sched ps s)) →
    ∃ n, (n <= Datatypes.S (length sched))%nat ∧ nsteps pool_step n (ps, s) (run_schedule sched ps s)) as Hskip.
  { intros (n & Hn & Hs). exists n. split; [lia|done]. }
  destruct (ps !! i) as [[a| |X e k]|] eqn:Hi; [by apply Hskip..| |by apply Hskip].
  destruct (h X e s) as [[x|] s'] eqn:Hh.
  - apply (Hstep (_, _)); [by eapply pool_step_call|apply IH].
  - apply (Hstep (_, _)); [by eapply pool_step_panic|apply IH].
Qed.

Lemma run_schedule_app sched sched' ps s :
  run_schedule (sched ++ sched') ps s =
  run_schedule sched' (run_schedule sched ps s).1 (run_schedule sched ps s).2.
Proof.
  revert ps s. induction sched as [|i sched IH]; intros ps s; simpl; [done|].
  destruct (ps !! i) as [[a| |X e k]|]; [apply IH..| |apply IH].
  destruct (h X e s) as [[x|] s']; apply IH.
Qed.

(** One thread alone makes up to [j] calls. *)
Lemma run_schedule_alone j i ps p p' s s' :
  ps !! i = Some p → run_schedule (replicate j 0%nat) [p] s = ([p'], s') →
  run_schedule (replicate j i) ps s = (<[i := p']> ps, s').
Proof.
  revert ps p s. induction j as [|j IH]; intros ps p s Hi Hrun.
  { simpl in Hrun. simplify_eq. by rewrite list_insert_id. }
  rewrite !replicate_S in *. simpl in Hrun. cbn [run_schedule].
  destruct (ps !! i) as [p0|] eqn:Hi0; [|done]. injection Hi as ->. destruct p as [a| |X e k]; [by eapply IH..|].
  assert ((i < length ps)%nat) as Hlt by by eapply lookup_lt_Some.
  destruct (h X e s) as [[x|] s1];
    (erewrite IH; [by rewrite list_insert_insert_eq|by apply list_lookup_insert_eq|exact Hrun]).
Qed.

(** A round in which every thread in turn makes up to [j] calls. [I i] holds of the
    state when [i] of them have moved. *)
Definition round (j threads : nat) : list nat := concat (replicate j <$> seq 0 threads).

Lemma run_schedule_rest {B} j (f g : B → prog E A) (I : nat → S → Prop) (l1 l2 : list B) s :
  (∀ i b s, (l1 ++ l2) !! i = Some b → I i s →
     ∃ s', run_schedule (replicate j 0%nat) [f b] s = ([g b], s') ∧ I (Datatypes.S i) s') →
  I (length l1) s →
  ∃ s', run_schedule (concat (replicate j <$> seq (length l1) (length l2))) ((g <$> l1) ++ (f <$> l2)) s =
          (g <$> l1 ++ l2, s') ∧ I (length (l1 ++ l2)) s'.
Proof.
  revert l1 s. induction l2 as [|b l2 IH]; intros l1 s Hmove HI.
  { exists s. by rewrite !app_nil_r. }
  destruct (Hmove (length l1) b s) as (s' & Hstep & HI'); [by rewrite lookup_app_r, Nat.sub_diag|done|].
  destruct (IH (l1 ++ [b]) s') as (s2 & Hrun & HI2).
  - intros i b' s0. rewrite <- app_assoc. apply Hmove.
  - rewrite length_app. simpl. by rewrite Nat.add_1_r.
  - exists s2. rewrite <- app_assoc in Hrun, HI2. split; [|done].
    cbn [length seq]. rewrite fmap_cons. cbn [concat]. rewrite run_schedule_app.
    rewrite (run_schedule_alone j (length l1) _ (f b) (g b) s s');
      [|by rewrite lookup_app_r, length_fmap, Nat.sub_diag by (by rewrite length_fmap)|done].
    cbn [fst snd]. rewrite fmap_app, <- app_assoc, length_app, Nat.add_1_r in Hrun. simpl in Hrun.
    rewrite <- Hrun. f_equal.
    rewrite fmap_cons, insert_app_r_alt, length_fmap, Nat.sub_diag by by rewrite length_fmap. done.
Qed.

Lemma run_schedule_round {B} j (f g : B → prog E A) (I : nat → S → Prop) (l : list B) s :
  (∀ i b s, l !! i = Some b → I i s →
     ∃ s', run_schedule (replicate j 0%nat) [f b] s = ([g b], s') ∧ I (Datatypes.S i) s') →
  I 0%nat s →
  ∃ s', run_schedule (round j (length l)) (f <$> l) s = (g <$> l, s') ∧ I (length l) s'.
Proof. apply (run_schedule_rest j f g I []). Qed.

(** A state predicate that every single call preserves holds after any
    interleaving. *)
Lemma pool_invariant (I : S → Prop) ps s ps' s' :
  (∀ X e s x s', h X e s = (x, s') → I s → I s') →
  rtc pool_step (ps, s) (ps', s') → I s → I s'.
Proof.
  intros HI Hrtc. remember (ps, s) as c eqn:Hc. remember (ps', s') as c' eqn:Hc'.
  revert ps s Hc Hc'. induction Hrtc as [c|c1 c2 c3 Hstep Hrtc IH]; intros ps s -> Heq.
  - by simplify_eq.
  - intros Hs. inversion Hstep; subst; eapply IH; eauto.
Qed.

End pool.

(** ** Counting threads *)

Section tally.
Context {P : Type} (f : P → bool).

(** The number of threads with a property. *)
Definition tally (ps : list P) : Z := Z.of_nat (length (List.filter f ps)).

Lemma tally_nonneg ps : 0 <= tally ps.
Proof. unfold tally. lia. Qed.

Lemma tally_none ps : Forall (λ p, f p = false) ps → tally ps = 0.
Proof. unfold tally. induction 1 as [|p ps Hp _ IH]; [done|]. simpl. by rewrite Hp. Qed.

Lemma tally_insert ps i p q :
  ps !! i = Some p → tally (<[i := q]> ps) = tally ps - Z.b2z (f p) + Z.b2z (f q).
Proof.
  unfold tally. revert i. induction ps as [|r ps IH]; intros [|i] Hi; simplify_eq/=.
  - destruct (f p), (f q); simpl; lia.
  - specialize (IH i Hi). destruct (f r); simpl; lia.
Qed.

Lemma tally_lookup ps i p : ps !! i = Some p → Z.b2z (f p) <= tally ps.
Proof.
  unfold tally. revert i. induction ps as [|r ps IH]; intros [|i] Hi; simplify_eq/=.
  - destruct (f p); simpl; lia.
  - specialize (IH i Hi). destruct (f r); simpl; lia.
Qed.

End tally.

Lemma tally_fmap {P Q} (f : P → bool) (g : Q → bool) (m : P → Q) ps :
  Forall (λ p, g (m p) = f p) ps → tally g (m <$> ps) = tally f ps.
Proof.
  unfold tally. induction 1 as [|p ps Hp _ IH]; [done|]. rewrite fmap_cons. simpl. rewrite Hp.
  destruct (f p); simpl; lia.
Qed.

(** ** Implementations that make one call per operation *)

(** The next state of a thread and of the shared state. *)
Definition thread_step {E S A} (h : handler E S) (p : prog E A) (s : S) : option (prog E A * S) :=
  match p with
  | Vis e k =>
      match h _ e s with
      | (Some x, s') => Some (k x, s')
      | (None, s') => Some (Panic, s')
      end
  | _ => None
  end.

Lemma pool_step_thread {E S A} (h : handler E S) (ps : list (prog E A)) s ps' s' :
  pool_step h (ps, s) (ps', s') ↔
  ∃ i p p', ps !! i = Some p ∧ thread_step h p s = Some (p', s') ∧ ps' = <[i := p']> ps.
Proof.
  split.
  - intros Hs. inversion Hs as [i X e k ? ? x ? Hi Hh|i X e k ? ? ? Hi Hh]; subst;
      (eexists i, _, _; split; [exact Hi|]); simpl; by rewrite Hh.
  - intros (i & p & p' & Hi & Hp & ->). destruct p as [a| |X e k]; [done..|]. simpl in Hp.
    destruct (h X e s) as [[x|] s1] eqn:Hh; simplify_eq; by econstructor.
Qed.

(** The program is one call followed by a result. *)
Definition single {E A} (p : prog E A) : Prop :=
  match p with
  | Vis e k => ∀ x, match k x with Ret _ => True | _ => False end
  | _ => False
  end.

Lemma single_translate {E F : Type → Type} {A} (inj : ∀ X, E X → F X) (p : prog E A) :
  single p → single (translate inj p).
Proof. destruct p as [| |X e k]; [done..|]. intros H x. specialize (H x). simpl. by destruct (k x). Qed.

Section lockstep.
Context {E F : Type → Type} {S A : Type}.
Context (f : ∀ X, E X → prog F X) (hE : handler E S) (hF : handler F S).

(** The next operation of the thread is one call, and its meaning for the
    interface is the call's. *)
Definition atomic_next (p : prog E A) : Prop :=
  match p with
  | Vis e k => single (f _ e) ∧ ∀ s, hE _ e s = run hF (f _ e) s
  | _ => True
  end.

Lemma lockstep_thread p s q' s' :
  total_handler hF → atomic_next p → thread_step hF (interp f p) s = Some (q', s') →
  ∃ p', q' = interp f p' ∧ thread_step hE p s = Some (p', s').
Proof.
  intros Ht Hp. destruct p as [a| |X e k]; [done..|]. destruct Hp as [Hs He]. simpl. rewrite He.
  destruct (f X e) as [a| |Y e' k']; [done..|]. simpl in *.
  destruct (Ht Y e' s) as (y & s1 & Hy). rewrite Hy. intros [= <- <-]. specialize (Hs y).
  destruct (k' y) as [a| |]; [|done..]. simpl. eauto.
Qed.

(** Threads that run the implementation move in lockstep with threads that call
    the interface. *)
Lemma lockstep_pool (I : list (prog E A) * S → Prop) ps s qs' s' :
  total_handler hF →
  (∀ c c', I c → pool_step hE c c' → I c') → (∀ c, I c → Forall atomic_next c.1) → I (ps, s) →
  rtc (pool_step hF) (interp f <$> ps, s) (qs', s') →
  ∃ ps', qs' = interp f <$> ps' ∧ I (ps', s') ∧ rtc (pool_step hE) (ps, s) (ps', s').
Proof.
  intros Ht Hstep Hat HI Hrtc.
  remember (interp f <$> ps, s) as c eqn:Hc. remember (qs', s') as c' eqn:Hc'.
  revert ps s Hc Hc' HI. induction Hrtc as [c|c1 [qs1 s1] c3 Hs Hrtc IH]; intros ps s -> Heq HI.
  { simplify_eq. by exists ps. }
  apply pool_step_thread in Hs as (i & q & q' & Hi & Hq & ->).
  rewrite list_lookup_fmap in Hi. destruct (ps !! i) as [p|] eqn:Hp; simplify_eq/=.
  destruct (lockstep_thread p s q' s1) as (p' & -> & Hp'); [done|by eapply (Forall_lookup_1 _ _ _ _ (Hat _ HI))|done|].
  assert (pool_step hE (ps, s) (<[i := p']> ps, s1)) as Hs' by (apply pool_step_thread; eauto 10).
  destruct (IH (<[i := p']> ps) s1) as (ps' & Hps' & HI' & Hr); [by rewrite list_fmap_insert|done|by eapply Hstep|].
  exists ps'. split; [done|]. split; [done|]. by eapply rtc_l.
Qed.

End lockstep.
