(* ===== verification/Sched.v ===== *)
(** * Goroutines that block, and fair runs

    [pool_step] of [Effects.v] interleaves calls that always reply. A channel
    operation or an accept loop waits instead: here a handler answers [None]
    when the call has to wait, and the state also changes by itself (clients,
    timers, the caller of the code). [fair] describes the infinite runs of a
    Go scheduler that does not stop while some goroutine can move; the lemmas
    say that goroutines making boundedly many calls come to rest. *)

From S2P Require Import Prelude Effects.

(** [None]: the call waits in this state. *)
Definition waiting_handler (E : Type → Type) (S : Type) : Type := ∀ X, E X → S → option (X * S).

(** The program makes at most [n] more calls, whatever the replies. *)
Fixpoint within {E A} (n : nat) (p : prog E A) {struct p} : Prop :=
  match p with
  | Ret _ | Panic => True
  | Vis e k => match n with O => False | Datatypes.S n => ∀ x, within n (k x) end
  end.

Lemma within_le {E A} (p : prog E A) m n : within m p → (m <= n)%nat → within n p.
Proof.
  revert m n. induction p as [a| |X e k IH]; intros [|m] [|n] H Hle; simpl in *; try done; [lia|].
  intros x. eapply IH; [apply H|lia].
Qed.

Lemma within_bind {E A B} (f : A → prog E B) (p : prog E A) m n :
  within m p → (∀ a, within n (f a)) → within (m + n) (prog_bind f p).
Proof.
  intros Hp Hf. revert m Hp. induction p as [a| |X e k IH]; intros m Hp; simpl.
  - eapply within_le; [apply Hf|lia].
  - done.
  - destruct m as [|m]; [done|]. simpl. intros x. by apply IH.
Qed.

Section sched.
Context {E : Type → Type} {S A : Type}.
Context (h : waiting_handler E S) (env : S → S → Prop).

(** One call of a goroutine. *)
Definition step_thread (p : prog E A) (s : S) : option (prog E A * S) :=
  match p with
  | Vis e k => '(x, s') ← h _ e s; Some (k x, s')
  | _ => None
  end.

Inductive go_step : list (prog E A) * S → list (prog E A) * S → Prop :=
| go_step_call i p ps s p' s' :
    ps !! i = Some p →
    step_thread p s = Some (p', s') →
    go_step (ps, s) (<[i := p']> ps, s').

(** Any goroutine moves, or the surroundings do. *)
Inductive step : list (prog E A) * S → list (prog E A) * S → Prop :=
| step_go c c' : go_step c c' → step c c'
| step_env ps s s' : env s s' → step (ps, s) (ps, s').

Definition enabled (c : list (prog E A) * S) : Prop := ∃ c', go_step c c'.

(** An infinite run; stuttering stands for the time nothing happens. *)
Definition infinite_run (σ : nat → list (prog E A) * S) : Prop :=
  ∀ n, step (σ n) (σ (Datatypes.S n)) ∨ σ (Datatypes.S n) = σ n.

(** Goroutines are not starved: again and again one of them moves or none can. *)
Definition fair (σ : nat → list (prog E A) * S) : Prop :=
  infinite_run σ ∧
  ∀ n, ∃ m, (n <= m)%nat ∧ (go_step (σ m) (σ (Datatypes.S m)) ∨ ¬ enabled (σ m)).

(** A predicate every step preserves holds along a run. *)
Lemma run_invariant (I : list (prog E A) * S → Prop) σ :
  infinite_run σ → (∀ c c', I c → step c c' → I c') → ∀ n, I (σ 0%nat) → I (σ n).
Proof.
  intros Hrun HI n H0. induction n as [|n IH]; [done|].
  destruct (Hrun n) as [Hs|Heq]; [eauto|by rewrite Heq].
Qed.

Lemma run_invariant_from (I : list (prog E A) * S → Prop) σ n m :
  infinite_run σ → (∀ c c', I c → step c c' → I c') → (n <= m)%nat → I (σ n) → I (σ m).
Proof.
  intros Hrun HI Hle Hn. induction Hle as [|m _ IH]; [done|].
  destruct (Hrun m) as [Hs|Heq]; [eauto|by rewrite Heq].
Qed.

(** ** Coming to rest *)

(** The goroutines make at most [b] more calls between them. *)
Definition budget (b : nat) (ps : list (prog E A)) : Prop :=
  ∃ ns, Forall2 within ns ps ∧ (sum_list ns <= b)%nat.

Lemma sum_list_insert ns i n m :
  ns !! i = Some n → (sum_list (<[i := m]> ns) + n = sum_list ns + m)%nat.
Proof.
  revert i. induction ns as [|k ns IH]; intros [|i] Hi; simplify_eq/=; [lia|].
  specialize (IH i Hi). lia.
Qed.

Lemma budget_go ps s ps' s' b :
  budget b ps → go_step (ps, s) (ps', s') → ∃ b', (b' < b)%nat ∧ budget b' ps'.
Proof.
  intros (ns & Hns & Hle) Hs. inversion Hs as [i p ps0 s0 p' s1 Hi Hp]; subst.
  destruct (Forall2_lookup_r _ _ _ _ _ Hns Hi) as (n & Hn & Hw).
  destruct p as [a| |X e k]; [done..|]. destruct n as [|n]; [done|]. simpl in Hp.
  destruct (h X e s) as [[x s2]|]; [|done]. simplify_eq/=.
  pose proof (sum_list_insert ns i _ n Hn).
  exists (sum_list (<[i := n]> ns)). split; [lia|].
  exists (<[i := n]> ns). split; [|done]. apply Forall2_insert; auto.
Qed.

Lemma budget_step c c' b : budget b c.1 → step c c' → ∃ b', (b' <= b)%nat ∧ budget b' c'.1.
Proof.
  intros Hb Hs. destruct Hs as [[ps s] [ps' s'] Hs|ps s s' _].
  - destruct (budget_go _ _ _ _ _ Hb Hs) as (b' & ? & ?). exists b'. split; [lia|done].
  - by exists b.
Qed.

Lemma budget_run σ n m b :
  infinite_run σ → (n <= m)%nat → budget b (σ n).1 → ∃ b', (b' <= b)%nat ∧ budget b' (σ m).1.
Proof.
  intros Hrun Hle Hb. induction Hle as [|m _ (b' & Hb' & IH)]; [eauto|].
  destruct (Hrun m) as [Hs|Heq].
  - destruct (budget_step _ _ _ IH Hs) as (b2 & ? & ?). exists b2. split; [lia|done].
  - rewrite Heq. eauto.
Qed.

(** Whatever the surroundings do, goroutines with a bounded number of calls
    reach a state in which each has returned or waits. *)
Lemma fair_rest σ n b :
  fair σ → budget b (σ n).1 → ∃ m, (n <= m)%nat ∧ ¬ enabled (σ m).
Proof.
  intros [Hrun Hfair]. revert n. induction (lt_wf b) as [b _ IH]; intros n Hb.
  destruct (Hfair n) as (m & Hle & [Hgo|Hno]); [|eauto].
  destruct (budget_run σ n m b Hrun Hle Hb) as (b1 & Hb1 & Hm).
  destruct (σ m) as [ps s] eqn:Em, (σ (Datatypes.S m)) as [ps' s'] eqn:Em'.
  destruct (budget_go _ _ _ _ _ Hm Hgo) as (b2 & Hb2 & Hm').
  destruct (IH b2 ltac:(lia) (Datatypes.S m)) as (r & Hr & Hrest); [by rewrite Em'|].
  exists r. split; [lia|done].
Qed.

(** ** Executable runs *)

(** The goroutine that moves, or a change of the surroundings. *)
Definition advance (i : nat) (c : list (prog E A) * S) : option (list (prog E A) * S) :=
  p ← c.1 !! i;
  '(p', s') ← step_thread p c.2;
  Some (<[i := p']> c.1, s').

Lemma advance_go i c c' : advance i c = Some c' → go_step c c'.
Proof.
  destruct c as [ps s]. unfold advance. simpl. intros H.
  destruct (ps !! i) as [p|] eqn:Hi; [|done]. simpl in H.
  destruct (step_thread p s) as [[p' s']|] eqn:Hp; [|done]. simplify_eq/=.
  by eapply go_step_call.
Qed.

Lemma not_enabled ps s i p : ¬ enabled (ps, s) → ps !! i = Some p → step_thread p s = None.
Proof.
  intros Hno Hi. destruct (step_thread p s) as [[p' s']|] eqn:Hp; [|done].
  destruct Hno. eexists. by eapply go_step_call.
Qed.

End sched.
