(* ===== verification/Errors.v ===== *)
(** * Go error values and the errors of [internal/types/errors.go]

    An error is the tree that [errors.Is] and [errors.As] walk: a sentinel,
    a formatted message, a wrapped or joined error, a [strconv.NumError], a
    [base64.CorruptInputError], a [net.OpError] or an error of a service client
    with its documented code. *)

From S2P Require Import Prelude.

(** Package-level error variables compared by identity. *)
Inductive sentinel :=
| ErrNotFound
| ErrPrecondition
| ErrInvalidClientConfig
| ErrInvalidBackend
| ErrDataStoreAccess
| RedisNil
| ErrServerClosed.

#[global] Instance sentinel_eq_dec : EqDecision sentinel.
Proof. solve_decision. Defined.

Inductive NumErrKind := ErrSyntax | ErrRange.

#[global] Instance NumErrKind_eq_dec : EqDecision NumErrKind.
Proof. solve_decision. Defined.

Inductive error : Type :=
| Sentinel (s : sentinel)
| Errorf (msg : string)                       (* fmt.Errorf without %w *)
| Wrapf (msg : string) (inner : error)        (* fmt.Errorf("msg: %w", inner) *)
| Join (es : list error)                      (* errors.Join *)
| NumError (Func Num : string) (Err : NumErrKind)
| CorruptInputError                           (* base64; the offset is not kept *)
| OpError (Op msg : string)                   (* net; it wraps an error of the system *)
| ServiceError (code msg : string).           (* an error of a service client *)

Definition sentinel_text (s : sentinel) : string :=
  match s with
  | ErrNotFound => "not found"
  | ErrPrecondition => "precondition failed"
  | ErrInvalidClientConfig => "invalid client config"
  | ErrInvalidBackend => "invalid backend"
  | ErrDataStoreAccess => "data store read/write error"
  | RedisNil => "redis: nil"
  | ErrServerClosed => "http: Server closed"
  end.

(** [err.Error()] for the errors the service builds itself; the texts of the
    errors of libraries are not modelled ([None]). *)
Fixpoint Error (e : error) : option string :=
  match e with
  | Sentinel s => Some (sentinel_text s)
  | Errorf msg => Some msg
  | Wrapf msg e => inner ← Error e; Some (msg +:+ ": " +:+ inner)
  | _ => None
  end.

(** [errors.Is(err, target)] for a sentinel target. *)
Fixpoint errors_Is (e : error) (target : sentinel) : bool :=
  match e with
  | Sentinel s => bool_decide (s = target)
  | Wrapf _ e => errors_Is e target
  | Join es => existsb (λ e, errors_Is e target) es
  | _ => false
  end.

(** [errors.As(err, &x)] for [x] the client's exception type with this code. *)
Fixpoint errors_As (e : error) (code : string) : bool :=
  match e with
  | ServiceError c _ => bool_decide (c = code)
  | Wrapf _ e => errors_As e code
  | Join es => existsb (λ e, errors_As e code) es
  | _ => false
  end.

(** [errors.Join]: nil arguments are dropped, and all nil gives nil. *)
Definition errors_Join (es : list (option error)) : option error :=
  match omap id es with
  | [] => None
  | es => Some (Join es)
  end.

(** [types.Err]. [errorf] is [fmt.Errorf] applied to the template and the
    arguments of the call. *)
Definition Err {Any : Type} (errorf : string → list Any → error)
    (typedError innerErr : option error) (msgTemplate : string) (args : list Any) : option error :=
  if decide (msgTemplate = "") then
    errors_Join [typedError; innerErr]
  else
    errors_Join [typedError; innerErr; Some (errorf msgTemplate args)].

(** A typed error stays recognisable: whatever the inner error and the
    message, [errors.Is] finds the typed error given, and also every sentinel
    the inner error carries. *)
Lemma Err_Is {Any} errorf (s : sentinel) inner msg (args : list Any) :
  ∃ e, Err errorf (Some (Sentinel s)) inner msg args = Some e ∧
       errors_Is e s = true ∧
       ∀ ie s', inner = Some ie → errors_Is ie s' = true → errors_Is e s' = true.
Proof.
  assert (bool_decide (s = s) = true) as Hs by by apply bool_decide_eq_true.
  unfold Err, errors_Join.
  destruct (decide (msg = "")), inner as [ie|];
    (eexists; split; [reflexivity|]); simpl; rewrite Hs;
    (split; [reflexivity|]); intros ie' s' [= <-] ->; by rewrite orb_true_r.
Qed.
