(* ===== verification/Strconv.v ===== *)
(** * Go's [strconv], base 10

    [FormatInt], [ParseInt], [Atoi] and [ParseBool] as the backends use them
    on versions, timestamps, counters and environment variables. *)

From S2P Require Import Prelude Errors.

(** [1<<64 - 1], and [maxUint64/10 + 1]: the smallest [n] with [n*10] over 64 bits. *)
Definition max_uint64 : Z := 18446744073709551615.
Definition parse_cutoff : Z := 1844674407370955162.

Definition digit (d : Z) : ascii := byte_of (48 + d).

(** The loop of [formatBits]: digits from the least significant one. A 64-bit
    value has at most 20 digits, so the fuel never runs out. *)
Fixpoint format_digits (fuel : nat) (u : Z) (acc : string) : string :=
  match fuel with
  | O => acc
  | S fuel =>
      let acc := String (digit (u mod 10)) acc in
      if decide (u < 10) then acc else format_digits fuel (u / 10) acc
  end.

Definition FormatUint (u : Z) : string := format_digits 20 u "".

Definition FormatInt (i : Z) : string :=
  if decide (i < 0) then "-" +:+ FormatUint (- i) else FormatUint i.

(** The loop of [ParseUint]: a byte that is not a digit is a syntax error, a
    value over 64 bits a range error, whichever comes first. *)
Fixpoint parse_digits (s : string) (n : Z) : Z + NumErrKind :=
  match s with
  | EmptyString => inl n
  | String c s =>
      let d := byte_val c - 48 in
      if decide (0 <= d <= 9) then
        if decide (parse_cutoff <= n) then inr ErrRange
        else
          let n1 := n * 10 + d in
          if decide (max_uint64 < n1) then inr ErrRange else parse_digits s n1
      else inr ErrSyntax
  end.

Definition parse_uint (s : string) : Z + NumErrKind :=
  if decide (s = "") then inr ErrSyntax else parse_digits s 0.

Definition strip_sign (s : string) : bool * string :=
  match s with
  | String "+" s => (false, s)
  | String "-" s => (true, s)
  | _ => (false, s)
  end.

Definition parse_int (s : string) : Z + NumErrKind :=
  if decide (s = "") then inr ErrSyntax
  else
    let '(neg, s) := strip_sign s in
    match parse_uint s with
    | inr e => inr e
    | inl un =>
        if negb neg && bool_decide (2 ^ 63 <= un) then inr ErrRange
        else if neg && bool_decide (2 ^ 63 < un) then inr ErrRange
        else inl (if neg then - un else un)
    end.

Definition ParseInt (s : string) : Z + error :=
  match parse_int s with
  | inl n => inl n
  | inr e => inr (NumError "ParseInt" s e)
  end.

Definition Atoi (s : string) : Z + error :=
  match parse_int s with
  | inl n => inl n
  | inr e => inr (NumError "Atoi" s e)
  end.

Definition ParseBool (s : string) : bool + error :=
  if bool_decide (s ∈ ["1"; "t"; "T"; "true"; "TRUE"; "True"]) then inl true
  else if bool_decide (s ∈ ["0"; "f"; "F"; "false"; "FALSE"; "False"]) then inl false
  else inr (NumError "ParseBool" s ErrSyntax).

(** ** Round trip *)

Lemma digit_val d : 0 <= d < 10 → byte_val (digit d) = 48 + d.
Proof. intros. unfold digit. apply byte_val_of. lia. Qed.

(** Parsing what [format_digits] wrote in front of [acc] leaves the value as
    the accumulator for [acc]. *)
Lemma parse_format_digits fuel u acc :
  0 <= u < 10 ^ Z.of_nat fuel → u <= max_uint64 →
  parse_digits (format_digits fuel u acc) 0 = parse_digits acc u.
Proof.
  unfold max_uint64. revert u acc. induction fuel as [|fuel IH]; intros u acc Hu Hmax.
  { simpl in *. by replace u with 0 by lia. }
  rewrite Nat2Z.inj_succ, Z.pow_succ_r in Hu by lia. cbn [format_digits].
  pose proof (Z.mod_pos_bound u 10) as Hm. pose proof (Z.div_mod u 10) as Hd.
  case_decide as Hlt.
  - rewrite Z.mod_small by lia. cbn [parse_digits].
    rewrite digit_val by lia. unfold parse_cutoff, max_uint64.
    rewrite decide_True, !decide_False by lia. f_equal. lia.
  - rewrite IH by lia. cbn [parse_digits]. rewrite digit_val by lia.
    unfold parse_cutoff, max_uint64.
    rewrite decide_True, !decide_False by lia. f_equal. lia.
Qed.

Lemma format_digits_nonempty fuel u acc : acc ≠ "" → format_digits fuel u acc ≠ "".
Proof.
  revert u acc. induction fuel as [|fuel IH]; intros u acc Hacc; [done|]. simpl.
  case_decide; [done|]. by apply IH.
Qed.

Lemma FormatUint_nonempty u : FormatUint u ≠ "".
Proof.
  unfold FormatUint. cbn [format_digits]. case_decide; [done|].
  by apply (format_digits_nonempty 19).
Qed.

Lemma parse_uint_FormatUint u : 0 <= u <= max_uint64 → parse_uint (FormatUint u) = inl u.
Proof.
  intros. unfold parse_uint. rewrite decide_False by apply FormatUint_nonempty.
  unfold FormatUint. rewrite parse_format_digits; [done| |lia].
  unfold max_uint64 in *. simpl. lia.
Qed.

(** Every byte written is a decimal digit. *)
Definition is_digit (c : ascii) : Prop := 48 <= byte_val c <= 57.

Lemma format_digits_all fuel u acc :
  0 <= u → Forall is_digit (bytes acc) → Forall is_digit (bytes (format_digits fuel u acc)).
Proof.
  revert u acc. induction fuel as [|fuel IH]; intros u acc Hu Hacc; [done|]. simpl.
  pose proof (Z.mod_pos_bound u 10).
  assert (is_digit (digit (u mod 10))) by (unfold is_digit; rewrite digit_val; lia).
  case_decide; [by constructor|]. apply IH; [by apply Z.div_pos|by constructor].
Qed.

Lemma FormatUint_digits u : 0 <= u → Forall is_digit (bytes (FormatUint u)).
Proof. intros. by apply format_digits_all. Qed.

Lemma strip_sign_digits s :
  Forall is_digit (bytes s) → strip_sign s = (false, s).
Proof.
  intros H. destruct s as [|c s]; [done|]. inversion H as [|? ? Hc _]; subst.
  unfold is_digit in Hc.
  unfold strip_sign. repeat case_match; try done; subst; exfalso; revert Hc; vm_compute; intuition congruence.
Qed.

Lemma parse_int_FormatInt z : is_int64 z → parse_int (FormatInt z) = inl z.
Proof.
  unfold is_int64, int64_min, int64_max. intros Hz. unfold parse_int, FormatInt.
  destruct (decide (z < 0)) as [Hneg|Hneg].
  - rewrite decide_False by done.
    change (strip_sign ("-" +:+ FormatUint (- z))) with (true, FormatUint (- z)).
    cbn beta iota. rewrite parse_uint_FormatUint by (unfold max_uint64; lia). simpl.
    rewrite bool_decide_false by lia. f_equal. lia.
  - rewrite decide_False by apply FormatUint_nonempty.
    rewrite strip_sign_digits by (apply FormatUint_digits; lia). cbn beta iota.
    rewrite parse_uint_FormatUint by (unfold max_uint64; lia). simpl.
    by rewrite bool_decide_false by lia.
Qed.

Lemma ParseInt_FormatInt z : is_int64 z → ParseInt (FormatInt z) = inl z.
Proof. intros H. unfold ParseInt. by rewrite parse_int_FormatInt. Qed.

Lemma Atoi_FormatInt z : is_int64 z → Atoi (FormatInt z) = inl z.
Proof. intros H. unfold Atoi. by rewrite parse_int_FormatInt. Qed.

Lemma FormatInt_inj y z : is_int64 y → is_int64 z → FormatInt y = FormatInt z → y = z.
Proof.
  intros Hy Hz H. apply parse_int_FormatInt in Hy, Hz. rewrite H in Hy. congruence.
Qed.

(** A parsed integer always fits its type. *)
Lemma parse_digits_range s n u :
  0 <= n <= max_uint64 → parse_digits s n = inl u → 0 <= u <= max_uint64.
Proof.
  unfold max_uint64. revert n. induction s as [|c s IH]; intros n Hn; simpl; [intros [= <-]; lia|].
  repeat case_decide; try done. apply IH. unfold max_uint64 in *. lia.
Qed.

Lemma parse_int_range s z : parse_int s = inl z → is_int64 z.
Proof.
  unfold parse_int, parse_uint. case_decide; [done|].
  destruct (strip_sign s) as [neg s']. case_decide; [done|].
  destruct (parse_digits s' 0) as [u|] eqn:Hu; [|done].
  apply parse_digits_range in Hu; [|unfold max_uint64; lia].
  destruct neg; simpl; case_bool_decide; try done; intros [= <-]; int_lia.
Qed.

#[export] Hint Resolve parse_int_range : enoti.

Lemma FormatInt_ascii z : Forall (λ c, byte_val c < 128) (bytes (FormatInt z)).
Proof.
  assert (∀ l, Forall is_digit l → Forall (λ c, byte_val c < 128) l) as Hl.
  { intros l Hd. eapply Forall_impl; [exact Hd|]. unfold is_digit. intros c. lia. }
  unfold FormatInt. case_decide.
  - rewrite bytes_app. apply Forall_app_2; [by repeat constructor|]. apply Hl, FormatUint_digits. lia.
  - apply Hl, FormatUint_digits. lia.
Qed.
