(* ===== verification/Base64.v ===== *)
(** * Go's [base64.RawURLEncoding]

    Unpadded URL-safe base64, as [flow.EncodePayload] and
    [flow.DecodePayload] use it, with the decoder's tolerance for line
    breaks, and the round trip between the two. *)

From S2P Require Import Prelude Errors.

(** ** The alphabet [A-Z a-z 0-9 - _] *)

Definition enc_char (v : Z) : ascii :=
  if decide (v < 26) then byte_of (65 + v)
  else if decide (v < 52) then byte_of (97 + (v - 26))
  else if decide (v < 62) then byte_of (48 + (v - 52))
  else if decide (v = 62) then "-"%char
  else "_"%char.

Definition dec_char (c : ascii) : option Z :=
  let b := byte_val c in
  if decide (65 <= b <= 90) then Some (b - 65)
  else if decide (97 <= b <= 122) then Some (b - 97 + 26)
  else if decide (48 <= b <= 57) then Some (b - 48 + 52)
  else if decide (b = 45) then Some 62
  else if decide (b = 95) then Some 63
  else None.

(** ** Encoding: three bytes to four characters, then the 1 or 2 bytes left *)

Fixpoint encode_bytes (l : list ascii) : list ascii :=
  match l with
  | [] => []
  | [x] =>
      let v := byte_val x * 2 ^ 16 in
      [enc_char (v / 2 ^ 18 mod 64); enc_char (v / 2 ^ 12 mod 64)]
  | [x; y] =>
      let v := byte_val x * 2 ^ 16 + byte_val y * 2 ^ 8 in
      [enc_char (v / 2 ^ 18 mod 64); enc_char (v / 2 ^ 12 mod 64);
       enc_char (v / 2 ^ 6 mod 64)]
  | x :: y :: z :: l =>
      let v := byte_val x * 2 ^ 16 + byte_val y * 2 ^ 8 + byte_val z in
      enc_char (v / 2 ^ 18 mod 64) :: enc_char (v / 2 ^ 12 mod 64) ::
      enc_char (v / 2 ^ 6 mod 64) :: enc_char (v mod 64) :: encode_bytes l
  end.

Definition EncodeToString (b : string) : string := of_bytes (encode_bytes (bytes b)).

(** ** Decoding *)

Definition is_newline (c : ascii) : bool := bool_decide (c = "010"%char ∨ c = "013"%char).

(** [decodeQuantum]: four characters give three bytes; at the end of the
    input two give one byte and three give two, one is an error. Trailing bits
    are not checked (the encoding is not strict). *)
Fixpoint decode_quanta (l : list ascii) : option (list ascii) :=
  match l with
  | [] => Some []
  | [_] => None
  | [a; b] =>
      a ← dec_char a; b ← dec_char b;
      let v := a * 2 ^ 18 + b * 2 ^ 12 in
      Some [byte_of (v / 2 ^ 16)]
  | [a; b; c] =>
      a ← dec_char a; b ← dec_char b; c ← dec_char c;
      let v := a * 2 ^ 18 + b * 2 ^ 12 + c * 2 ^ 6 in
      Some [byte_of (v / 2 ^ 16); byte_of (v / 2 ^ 8)]
  | a :: b :: c :: d :: l =>
      a ← dec_char a; b ← dec_char b; c ← dec_char c; d ← dec_char d;
      let v := a * 2 ^ 18 + b * 2 ^ 12 + c * 2 ^ 6 + d in
      rest ← decode_quanta l;
      Some (byte_of (v / 2 ^ 16) :: byte_of (v / 2 ^ 8) :: byte_of v :: rest)
  end.

Definition DecodeString (s : string) : string + error :=
  match decode_quanta (List.filter (λ c, negb (is_newline c)) (bytes s)) with
  | Some l => inl (of_bytes l)
  | None => inr CorruptInputError
  end.

(** ** Round trip *)

#[local] Ltac Zify.zify_post_hook ::= Z.to_euclidean_division_equations.

Lemma forall_below (P : Z → bool) n z :
  forallb (λ k, P (Z.of_nat k)) (seq 0 n) = true → 0 <= z < Z.of_nat n → P z = true.
Proof.
  rewrite forallb_forall. intros H Hz. rewrite <- (Z2Nat.id z) by lia.
  apply H, in_seq. lia.
Qed.

Lemma dec_enc_char v : 0 <= v < 64 → dec_char (enc_char v) = Some v.
Proof.
  intros Hv.
  pose proof (forall_below (λ v, bool_decide (dec_char (enc_char v) = Some v)) 64 v) as H.
  by apply bool_decide_eq_true in H.
Qed.

Lemma enc_char_not_newline v : 0 <= v < 64 → is_newline (enc_char v) = false.
Proof.
  intros Hv. apply negb_true_iff.
  by apply (forall_below (λ v, negb (is_newline (enc_char v))) 64 v).
Qed.

Definition list_ind3 {A} (P : list A → Prop) (H0 : P []) (H1 : ∀ x, P [x]) (H2 : ∀ x y, P [x; y])
    (H3 : ∀ x y z l, P l → P (x :: y :: z :: l)) : ∀ l, P l :=
  fix go l :=
    match l with
    | [] => H0
    | [x] => H1 x
    | [x; y] => H2 x y
    | x :: y :: z :: l => H3 x y z l (go l)
    end.

Lemma encode_no_newline l :
  List.filter (λ c, negb (is_newline c)) (encode_bytes l) = encode_bytes l.
Proof.
  induction l using list_ind3; simpl;
    rewrite ?enc_char_not_newline by (apply Z.mod_pos_bound; lia); simpl; congruence.
Qed.

(** The six-bit groups of a 24-bit value reassemble it. *)
Lemma sextets v : 0 <= v < 2 ^ 24 →
  (v / 2 ^ 18 mod 64) * 2 ^ 18 + (v / 2 ^ 12 mod 64) * 2 ^ 12 +
  (v / 2 ^ 6 mod 64) * 2 ^ 6 + v mod 64 = v.
Proof.
  intros Hv. change (2 ^ 24) with 16777216 in Hv.
  change (2 ^ 18) with (64 * (64 * 64)). change (2 ^ 12) with (64 * 64). change (2 ^ 6) with 64.
  rewrite <- !Z.div_div by lia. lia.
Qed.

(** The bytes of a 24-bit value. *)
Lemma octets x y z :
  let v := byte_val x * 2 ^ 16 + byte_val y * 2 ^ 8 + byte_val z in
  0 <= v < 2 ^ 24 ∧
  byte_of (v / 2 ^ 16) = x ∧ byte_of (v / 2 ^ 8) = y ∧ byte_of v = z.
Proof.
  pose proof (byte_val_range x). pose proof (byte_val_range y). pose proof (byte_val_range z).
  intros v. assert (v / 2 ^ 16 = byte_val x) as Hx by (subst v; lia).
  assert ((v / 2 ^ 8) mod 256 = byte_val y) as Hy by (subst v; lia).
  assert (v mod 256 = byte_val z) as Hz by (subst v; lia).
  split; [subst v; lia|]. rewrite Hx, byte_of_val. split; [done|].
  rewrite <- (byte_of_val y), <- (byte_of_val z) at 1. rewrite <- Hy, <- Hz.
  unfold byte_of. by rewrite !Zmod_mod.
Qed.

(** The short final groups are 24-bit values whose low bytes are zero. *)
Lemma sextets_2 x y :
  let v := byte_val x * 2 ^ 16 + byte_val y * 2 ^ 8 in
  (v / 2 ^ 18 mod 64) * 2 ^ 18 + (v / 2 ^ 12 mod 64) * 2 ^ 12 + (v / 2 ^ 6 mod 64) * 2 ^ 6 = v.
Proof.
  intros v. pose proof (byte_val_range x). pose proof (byte_val_range y).
  rewrite <- (sextets v) at 4 by (subst v; lia).
  assert (v mod 64 = 0) as -> by (subst v; lia). lia.
Qed.

Lemma sextets_1 x :
  let v := byte_val x * 2 ^ 16 in
  (v / 2 ^ 18 mod 64) * 2 ^ 18 + (v / 2 ^ 12 mod 64) * 2 ^ 12 = v.
Proof.
  intros v. pose proof (byte_val_range x). pose proof (sextets_2 x "000"%char) as H2.
  change (byte_val "000"%char) with 0 in H2. rewrite Z.mul_0_l, Z.add_0_r in H2. fold v in H2.
  rewrite <- H2 at 3. assert (v / 2 ^ 6 mod 64 = 0) as -> by (subst v; lia). lia.
Qed.

Lemma decode_encode_bytes l : decode_quanta (encode_bytes l) = Some l.
Proof.
  induction l as [|x|x y|x y z l IH] using list_ind3; [done|..];
    cbn [encode_bytes decode_quanta];
    rewrite !dec_enc_char by (apply Z.mod_pos_bound; lia); cbn.
  - rewrite sextets_1. destruct (octets x "000"%char "000"%char) as (_ & Hx & _).
    change (byte_val "000"%char) with 0 in Hx. rewrite !Z.mul_0_l, !Z.add_0_r in Hx. by rewrite Hx.
  - rewrite sextets_2. destruct (octets x y "000"%char) as (_ & Hx & Hy & _).
    change (byte_val "000"%char) with 0 in Hx, Hy. rewrite !Z.add_0_r in Hx, Hy. by rewrite Hx, Hy.
  - destruct (octets x y z) as (Hv & Hx & Hy & Hz). rewrite sextets by done.
    by rewrite IH, Hx, Hy, Hz.
Qed.

Lemma DecodeString_EncodeToString b : DecodeString (EncodeToString b) = inl b.
Proof.
  unfold DecodeString, EncodeToString.
  rewrite bytes_of_bytes, encode_no_newline, decode_encode_bytes. simpl.
  by rewrite of_bytes_bytes.
Qed.

(** The empty string is the encoding of nothing but the empty string. *)
Lemma EncodeToString_nonempty b : b ≠ "" → EncodeToString b ≠ "".
Proof.
  intros Hb H. pose proof (DecodeString_EncodeToString b) as Hr. rewrite H in Hr.
  vm_compute in Hr. congruence.
Qed.

(** Encoded text is ASCII. *)
Lemma enc_char_ascii v : 0 <= v < 64 → byte_val (enc_char v) < 128.
Proof.
  intros Hv. apply Z.ltb_lt.
  by apply (forall_below (λ v, byte_val (enc_char v) <? 128) 64 v).
Qed.

Lemma EncodeToString_ascii b : Forall (λ c, byte_val c < 128) (bytes (EncodeToString b)).
Proof.
  unfold EncodeToString. rewrite bytes_of_bytes.
  induction (bytes b) using list_ind3; simpl; repeat constructor; try done;
    apply enc_char_ascii, Z.mod_pos_bound; lia.
Qed.
