(* ===== verification/Text.v ===== *)
(** * Text functions of Go's standard library

    What the sources use of [strings], [net], [net/http] headers, [fmt]
    scanning and [hash/fnv], on byte strings. *)

From S2P Require Import Prelude Errors.

(** ** [strings] *)

Fixpoint index_byte (c : ascii) (l : list ascii) : option nat :=
  match l with
  | [] => None
  | x :: l => if decide (x = c) then Some 0%nat else S <$> index_byte c l
  end.

Fixpoint last_index_byte (c : ascii) (l : list ascii) : option nat :=
  match l with
  | [] => None
  | x :: l =>
      match last_index_byte c l with
      | Some i => Some (S i)
      | None => if decide (x = c) then Some 0%nat else None
      end
  end.

(** [strings.Split(s, sep)] for a one-byte separator: never empty. *)
Fixpoint split_bytes (sep : ascii) (l : list ascii) : list (list ascii) :=
  match l with
  | [] => [[]]
  | c :: l =>
      if decide (c = sep) then [] :: split_bytes sep l
      else match split_bytes sep l with
           | p :: ps => (c :: p) :: ps
           | [] => [[c]]
           end
  end.

Definition Split (s : string) (sep : ascii) : list string := of_bytes <$> split_bytes sep (bytes s).

(** [strings.HasPrefix]. *)
Definition has_prefix (p l : list ascii) : bool := bool_decide (take (length p) l = p).
Definition HasPrefix (s p : string) : bool := has_prefix (bytes p) (bytes s).

(** Unicode white space (UTF-8 encoded), the runes of [unicode.IsSpace]:
    U+0009-000D, U+0020, U+0085, U+00A0, U+1680, U+2000-200A, U+2028, U+2029,
    U+202F, U+205F and U+3000. *)
Definition white_space : list (list ascii) :=
  map (λ z, [byte_of z]) [9; 10; 11; 12; 13; 32] ++
  map (map byte_of)
    ([[194; 133]; [194; 160]; [225; 154; 128]; [226; 128; 168]; [226; 128; 169];
      [226; 128; 175]; [226; 129; 159]; [227; 128; 128]] ++
     map (λ k, [226; 128; 128 + Z.of_nat k]) (seq 0 11)).

(** Removes one space rune, given the list of their encodings. *)
Definition strip_one (spaces : list (list ascii)) (l : list ascii) : option (list ascii) :=
  match List.find (λ p, has_prefix p l) spaces with
  | Some p => Some (drop (length p) l)
  | None => None
  end.

(** Each round removes at least one byte, so the length is enough fuel. *)
Fixpoint strip_spaces (fuel : nat) (spaces : list (list ascii)) (l : list ascii) : list ascii :=
  match fuel with
  | O => l
  | S fuel =>
      match strip_one spaces l with
      | Some l => strip_spaces fuel spaces l
      | None => l
      end
  end.

Definition trim_left (l : list ascii) : list ascii := strip_spaces (length l) white_space l.
Definition trim_right (l : list ascii) : list ascii :=
  rev (strip_spaces (length l) (map (@rev ascii) white_space) (rev l)).

Definition TrimSpace (s : string) : string := of_bytes (trim_right (trim_left (bytes s))).

(** ** [net.SplitHostPort] *)

Definition addrErr (addr why : string) : (string * string) + error :=
  inr (Errorf ("address " +:+ addr +:+ ": " +:+ why)).

(** The checks and the result common to both address forms: [host] is known,
    [\[] may appear before index [j] and [\]] before index [k] only. *)
Definition split_rest (hostport : string) (i j k : nat) (host : list ascii) : (string * string) + error :=
  let l := bytes hostport in
  match index_byte "["%char (drop j l), index_byte "]"%char (drop k l) with
  | Some _, _ => addrErr hostport "unexpected '[' in address"
  | None, Some _ => addrErr hostport "unexpected ']' in address"
  | None, None => inl (of_bytes host, of_bytes (drop (S i) l))
  end.

Definition SplitHostPort (hostport : string) : (string * string) + error :=
  let l := bytes hostport in
  match last_index_byte ":"%char l with
  | None => addrErr hostport "missing port in address"
  | Some i =>
      if decide (head l = Some "["%char) then
        match index_byte "]"%char l with
        | None => addrErr hostport "missing ']' in address"
        | Some en =>
            if decide (S en = length l) then addrErr hostport "missing port in address"
            else if decide (S en = i) then
              split_rest hostport i 1 (S en) (drop 1 (take en l))
            else if decide (l !! S en = Some ":"%char) then
              addrErr hostport "too many colons in address"
            else addrErr hostport "missing port in address"
        end
      else
        let host := take i l in
        match index_byte ":"%char host with
        | Some _ => addrErr hostport "too many colons in address"
        | None => split_rest hostport i 0 0 host
        end
  end.

(** ** [net/http] headers *)

(** Bytes allowed in a header field name (RFC 7230 [tchar]). *)
Definition valid_header_byte (c : ascii) : bool :=
  let b := byte_val c in
  bool_decide (48 <= b <= 57 ∨ 65 <= b <= 90 ∨ 97 <= b <= 122 ∨
               b ∈ [33; 35; 36; 37; 38; 39; 42; 43; 45; 46; 94; 95; 96; 124; 126]).

Fixpoint canonical_bytes (upper : bool) (l : list ascii) : list ascii :=
  match l with
  | [] => []
  | c :: l =>
      let b := byte_val c in
      let c' := if upper && bool_decide (97 <= b <= 122) then byte_of (b - 32)
                else if negb upper && bool_decide (65 <= b <= 90) then byte_of (b + 32)
                else c in
      c' :: canonical_bytes (bool_decide (c' = "-"%char)) l
  end.

Definition CanonicalMIMEHeaderKey (s : string) : string :=
  if forallb valid_header_byte (bytes s) then of_bytes (canonical_bytes true (bytes s)) else s.

(** [http.Header.Get]: the first value of the canonical key, or the empty string. *)
Definition Header_Get (h : gmap string (list string)) (key : string) : string :=
  default "" (head (default [] (h !! CanonicalMIMEHeaderKey key))).

(** ** [fmt.Sscanf] with a literal prefix and one [%s] verb

    The input must start with the prefix; white space before the word is
    skipped, except that a line feed is an error; the word ends at the next
    white space; the rest of the input is ignored. The input is taken to be
    valid UTF-8. *)
Fixpoint take_word (fuel : nat) (l : list ascii) : list ascii :=
  match fuel, l with
  | S fuel, c :: l' =>
      match strip_one white_space l with
      | Some _ => []
      | None => c :: take_word fuel l'
      end
  | _, _ => []
  end.

Definition sscanf_word (prefix input : string) : string + error :=
  let l := bytes input in
  if has_prefix (bytes prefix) l then
    let l := drop (String.length prefix) l in
    let l' := trim_left l in
    if decide ("010"%char ∈ take (length l - length l') l) then inr (Errorf "unexpected newline")
    else if decide (l' = []) then inr (Errorf "unexpected EOF")
    else inl (of_bytes (take_word (length l') l'))
  else inr (Errorf "input does not match format").

(** ** [hash/fnv], 32-bit FNV-1a *)

Definition fnv_offset32 : Z := 2166136261.
Definition fnv_prime32 : Z := 16777619.

Definition fnv32a (s : string) : Z :=
  foldl (λ h c, uint32 (Z.lxor h (byte_val c) * fnv_prime32)) fnv_offset32 (bytes s).

(** ** [unicode/utf8.ValidString] *)

Definition in_range (lo hi : Z) (c : ascii) : bool := bool_decide (lo <= byte_val c <= hi).
Definition cont_byte : ascii → bool := in_range 128 191.

Fixpoint valid_utf8 (l : list ascii) : bool :=
  match l with
  | [] => true
  | a :: l =>
      if in_range 0 127 a then valid_utf8 l
      else match l with
      | [] => false
      | b :: l =>
          if in_range 194 223 a then cont_byte b && valid_utf8 l
          else match l with
          | [] => false
          | c :: l =>
              if in_range 224 239 a then
                (if decide (byte_val a = 224) then in_range 160 191 b
                 else if decide (byte_val a = 237) then in_range 128 159 b else cont_byte b) &&
                cont_byte c && valid_utf8 l
              else match l with
              | [] => false
              | d :: l =>
                  in_range 240 244 a &&
                  (if decide (byte_val a = 240) then in_range 144 191 b
                   else if decide (byte_val a = 244) then in_range 128 143 b else cont_byte b) &&
                  cont_byte c && cont_byte d && valid_utf8 l
              end
          end
      end
  end.

Definition ValidString (s : string) : bool := valid_utf8 (bytes s).

(** ** Facts *)

Lemma valid_utf8_ascii l : Forall (λ c, byte_val c < 128) l → valid_utf8 l = true.
Proof.
  induction 1 as [|c l Hc Hl IH]; [done|]. simpl.
  unfold in_range at 1. rewrite bool_decide_true by (pose proof (byte_val_range c); lia). done.
Qed.

Lemma index_byte_None c l : index_byte c l = None ↔ c ∉ l.
Proof.
  induction l as [|x l IH]; simpl; [split; [by intros _ ?%elem_of_nil|done]|].
  rewrite not_elem_of_cons. case_decide; subst.
  - split; [done|by intros [? _]].
  - rewrite fmap_None, IH. naive_solver.
Qed.

Lemma split_bytes_cons sep l : ∃ p ps, split_bytes sep l = p :: ps.
Proof.
  induction l as [|c l (p & ps & IH)]; simpl; [by eauto|].
  case_decide; [eauto|]. rewrite IH. eauto.
Qed.

(** The first part of a split is what precedes the first separator. *)
Lemma split_bytes_head sep l1 l2 :
  sep ∉ l1 → head (split_bytes sep (l1 ++ sep :: l2)) = Some l1.
Proof.
  induction l1 as [|c l1 IH]; intros Hn; simpl; [by rewrite decide_True|].
  rewrite not_elem_of_cons in Hn. rewrite decide_False by naive_solver.
  destruct (split_bytes_cons sep (l1 ++ sep :: l2)) as (p & ps & Heq). rewrite Heq in *.
  simpl in *. f_equal. destruct Hn as [_ Hn]. apply IH in Hn. congruence.
Qed.

Lemma split_bytes_none sep l : sep ∉ l → split_bytes sep l = [l].
Proof.
  induction l as [|c l IH]; intros Hn; simpl; [done|].
  rewrite not_elem_of_cons in Hn. rewrite decide_False, IH; naive_solver.
Qed.

Lemma fnv32a_range s : 0 <= fnv32a s < 2 ^ 32.
Proof.
  unfold fnv32a. destruct (bytes s) as [|c l] using rev_ind; [unfold fnv_offset32; simpl; lia|].
  rewrite foldl_snoc. apply uint32_range.
Qed.

(** Published FNV-1a test vectors. *)
Example fnv32a_vectors :
  map fnv32a [""; "a"; "b"; "foobar"] = [2166136261; 3826002220; 3876335077; 3214735720].
Proof. reflexivity. Qed.

Example TrimSpace_ex : TrimSpace "	 10.0.0.1  " = "10.0.0.1".
Proof. reflexivity. Qed.

Example SplitHostPort_ex :
  map SplitHostPort ["10.0.0.1:8080"; "[::1]:80"] =
  [inl ("10.0.0.1", "8080"); inl ("::1", "80")].
Proof. reflexivity. Qed.

Example CanonicalMIMEHeaderKey_ex :
  map CanonicalMIMEHeaderKey ["x-client-id"; "x-client-key"; "X-Forwarded-For"; "bad key"] =
  ["X-Client-Id"; "X-Client-Key"; "X-Forwarded-For"; "bad key"].
Proof. reflexivity. Qed.
