(* ===== verification/Types.v ===== *)
(** * [internal/types]: configuration, persisted state, dynamic values

    The structs of [config.go] and [state.go] as records with the source's
    field names (prefixed where Go would qualify them by the struct), the
    validation of a client configuration, and the bounded list of recent
    flips. *)

From S2P Require Import Prelude Errors Strconv.
From Stdlib Require SpecFloat.

(** ** Dynamic values ([any])

    The dynamic types that reach the code: JSON scalars (a JSON number decodes
    to a [float64]), the [int]/[int64] fields of an aggregate, slices and
    string-keyed maps. A map may be nil. *)
Inductive any : Type :=
| VNil
| VBool (b : bool)
| VFloat64 (f : SpecFloat.spec_float)
| VInt (z : Z)
| VString (s : string)
| VSlice (l : list any)
| VMap (m : option (list (string * any))).

(** [map\[string\]any]: nil, or its entries. *)
Definition gomap : Type := option (list (string * any)).

(** ** [config.go] *)

Definition ClientIDMinLength : Z := 4.
Definition ClientKeyMinLength : Z := 8.
Definition ClientIDHdrName : string := "x-client-id".
Definition ClientKeyHdrName : string := "x-client-key".
Definition MinWindowSizeSeconds : Z := 10.

Record Passthrough := mkPassthrough {
  pt_FieldExpr : string;
  pt_Negate : bool;
}.

Record TargetConfig := mkTargetConfig {
  SNSArn : string;
  SNSRPM : Z;
}.

Record FlapConfig := mkFlapConfig {
  WindowSeconds : Z;
  SuppressBelow : Z;
  AggregateAt : Z;
  AggregateMaxItems : Z;
  AggregateCooldownSeconds : Z;
}.

Record TriggerConfig := mkTriggerConfig {
  tr_FieldExpr : string;
  ScopeFields : list string;
  Target : TargetConfig;
  Flapping : option FlapConfig;
}.

Record ClientConfig := mkClientConfig {
  ClientID : string;
  ClientName : string;
  ClientKey : string;
  IPRPM : Z;
  ClientRPM : Z;
  cc_Passthrough : Passthrough;
  Trigger : TriggerConfig;
}.

(** The zero values [types.Passthrough{}] to [types.ClientConfig{}]. *)
Definition zeroClientConfig : ClientConfig :=
  mkClientConfig "" "" "" 0 0 (mkPassthrough "" false)
    (mkTriggerConfig "" [] (mkTargetConfig "" 0) None).

Definition len (s : string) : Z := Z.of_nat (String.length s).

(** [ClientConfig.Validate]. *)
Definition Validate (c : ClientConfig) : option error :=
  if decide (ClientID c = "") then Some (Errorf "client_id is required")
  else if decide (ClientName c = "") then Some (Errorf "client_name is required")
  else if decide (ClientKey c = "") then Some (Errorf "client_key is required")
  else if decide (len (ClientKey c) < ClientKeyMinLength) then
    Some (Errorf ("api_key must be at least " +:+ FormatInt ClientKeyMinLength +:+ " characters"))
  else if decide (IPRPM c < 0) then Some (Errorf "ip_rpm must be non-negative. 0 for non limit")
  else if decide (ClientRPM c < 0) then Some (Errorf "client_rpm must be non-negative. 0 for non limit")
  else
    match Flapping (Trigger c) with
    | Some flapping =>
        if decide (WindowSeconds flapping < MinWindowSizeSeconds) then
          Some (Errorf ("flapping.window_seconds must be greater than or equal to " +:+
                        FormatInt MinWindowSizeSeconds +:+ " seconds"))
        else if decide (SuppressBelow flapping < 0 ∨ SuppressBelow flapping > WindowSeconds flapping) then
          Some (Errorf "flapping.suppress_below must be non-negative and less than or equal to window_seconds")
        else None
    | None => None
    end.

(** ** [state.go] *)

Definition HardLimitRecentItems : Z := 128.

Record Flip := mkFlip {
  At : Z;
  From : string;
  To : string;
  fl_Payload : string;
}.

Record Edge := mkEdge {
  ScopeKey : string;
  LastValue : string;
  LastChangeTS : Z;
  WindowStart : Z;
  FlipCount : Z;
  Recent : list Flip;
  AggUntilTS : Z;
  Version : Z;
}.

#[global] Instance Flip_eq_dec : EqDecision Flip.
Proof. solve_decision. Defined.
#[global] Instance Edge_eq_dec : EqDecision Edge.
Proof. solve_decision. Defined.

(** Field assignments on a local [types.Edge]. *)
Definition set_ScopeKey (v : string) (e : Edge) : Edge :=
  mkEdge v (LastValue e) (LastChangeTS e) (WindowStart e) (FlipCount e) (Recent e) (AggUntilTS e) (Version e).
Definition set_LastValue (v : string) (e : Edge) : Edge :=
  mkEdge (ScopeKey e) v (LastChangeTS e) (WindowStart e) (FlipCount e) (Recent e) (AggUntilTS e) (Version e).
Definition set_LastChangeTS (v : Z) (e : Edge) : Edge :=
  mkEdge (ScopeKey e) (LastValue e) v (WindowStart e) (FlipCount e) (Recent e) (AggUntilTS e) (Version e).
Definition set_WindowStart (v : Z) (e : Edge) : Edge :=
  mkEdge (ScopeKey e) (LastValue e) (LastChangeTS e) v (FlipCount e) (Recent e) (AggUntilTS e) (Version e).
Definition set_FlipCount (v : Z) (e : Edge) : Edge :=
  mkEdge (ScopeKey e) (LastValue e) (LastChangeTS e) (WindowStart e) v (Recent e) (AggUntilTS e) (Version e).
Definition set_Recent (v : list Flip) (e : Edge) : Edge :=
  mkEdge (ScopeKey e) (LastValue e) (LastChangeTS e) (WindowStart e) (FlipCount e) v (AggUntilTS e) (Version e).
Definition set_AggUntilTS (v : Z) (e : Edge) : Edge :=
  mkEdge (ScopeKey e) (LastValue e) (LastChangeTS e) (WindowStart e) (FlipCount e) (Recent e) v (Version e).
Definition set_Version (v : Z) (e : Edge) : Edge :=
  mkEdge (ScopeKey e) (LastValue e) (LastChangeTS e) (WindowStart e) (FlipCount e) (Recent e) (AggUntilTS e) v.

(** [xs\[lo:\]]: [None] is the slice-bounds panic. *)
Definition slice_from {A} (l : list A) (lo : Z) : option (list A) :=
  if decide (0 <= lo <= Z.of_nat (length l)) then Some (drop (Z.to_nat lo) l) else None.

(** [AppendRecent]. *)
Definition AppendRecent (rs : list Flip) (f : Flip) (cap : Z) : option (list Flip) :=
  let rs := rs ++ [f] in
  if decide (Z.of_nat (length rs) > cap) then slice_from rs (Z.of_nat (length rs) - cap)
  else Some rs.

(** Arithmetic with the constants of the package. *)
Ltac types_lia :=
  unfold HardLimitRecentItems, MinWindowSizeSeconds, ClientKeyMinLength in *; int_lia.

(** ** Properties *)

(** What a configuration accepted by [Validate] guarantees. *)
Record valid_config (c : ClientConfig) : Prop := {
  vc_id : ClientID c ≠ "";
  vc_name : ClientName c ≠ "";
  vc_key : ClientKeyMinLength <= len (ClientKey c);
  vc_ip : 0 <= IPRPM c;
  vc_client : 0 <= ClientRPM c;
  vc_window : ∀ f, Flapping (Trigger c) = Some f → MinWindowSizeSeconds <= WindowSeconds f;
  vc_suppress : ∀ f, Flapping (Trigger c) = Some f → 0 <= SuppressBelow f <= WindowSeconds f;
}.

Lemma Validate_valid c : Validate c = None ↔ valid_config c.
Proof.
  unfold Validate. split.
  - intros H. repeat case_decide; try discriminate.
    destruct (Flapping (Trigger c)) as [f|] eqn:Hf; constructor; try done; try lia;
      intros f' Hf'; rewrite Hf in Hf'; simplify_eq; repeat case_decide; try discriminate;
      types_lia.
  - intros [Hid Hname Hkey Hip Hcl Hw Hs].
    assert (ClientKey c ≠ "") by (intros Hk; rewrite Hk in Hkey; by vm_compute in Hkey).
    rewrite !decide_False by (done || lia).
    destruct (Flapping (Trigger c)) as [f|] eqn:Hf; [|done].
    specialize (Hw f eq_refl). specialize (Hs f eq_refl).
    rewrite !decide_False by lia. done.
Qed.

(** [AppendRecent] keeps the last [cap] elements, in order, and never panics
    for a non-negative capacity. *)
Lemma AppendRecent_spec rs f cap :
  0 <= cap → AppendRecent rs f cap = Some (last_n (Z.to_nat cap) (rs ++ [f])).
Proof.
  intros Hcap. unfold AppendRecent, slice_from. set (l := rs ++ [f]).
  destruct (decide (Z.of_nat (length l) > cap)).
  - rewrite decide_True by lia. unfold last_n. do 2 f_equal. lia.
  - rewrite last_n_all by lia. done.
Qed.

(** With a negative capacity the slice expression is out of range. *)
Lemma AppendRecent_negative rs f cap : cap < 0 → AppendRecent rs f cap = None.
Proof.
  intros Hcap. unfold AppendRecent, slice_from. rewrite decide_True by lia.
  by rewrite decide_False by lia.
Qed.
