(* ===== verification/Ports.v ===== *)
(** * [internal/ports]: the interfaces the service calls, as call signatures

    Each Go interface is an indexed type of calls: the index is the tuple of
    values the method returns (Go methods return the value and the error
    together, so the reply carries both). [AppE] is everything a request
    handler can do. [Lib] gathers the third-party functions the flow calls:
    JMESPath evaluation, JSON encoding and zstd compression; they are arguments
    of the definitions that use them. *)

From S2P Require Import Prelude Errors Types Effects.

(** ** Time: nanoseconds since the epoch *)

Definition Second : Z := 1000000000.
Definition Minute : Z := 60 * Second.

(** [time.Time.Unix]. *)
Definition Unix (t : Z) : Z := t / Second.

(** [time.Now], and the replaceable [flow.timeNow] (its default is [time.Now]). *)
Inductive ClockE : Type → Type :=
| TimeNow : ClockE Z
| FlowTimeNow : ClockE Z.

(** ** [ports.DataStore] *)
Inductive DataStoreE : Type → Type :=
| Acquire (scope : string) (ratePerWindow : Z) (window : Z) : DataStoreE (bool * option error)
| Load (clientID scopeKey : string) : DataStoreE (option Edge * Z * option error)
| UpsertCAS (clientID scopeKey : string) (prevVersion : Z) (next : Edge) :
    DataStoreE (bool * option error).

(** ** [ports.ClientStore] *)
Inductive ClientStoreE : Type → Type :=
| GetClientConfig (clientID : string) : ClientStoreE (ClientConfig * option error)
| ListClients : ClientStoreE (list string * option error)
| PutClientConfig (clientID : string) (config : ClientConfig) : ClientStoreE (option error)
| DeleteClientConfig (clientID : string) : ClientStoreE (option error)
| ClearAll : ClientStoreE (option error).

(** ** [ports.Publisher] *)
Inductive PublisherE : Type → Type :=
| PublishRaw (arn payload : string) : PublisherE (option error).

(** ** The shared map of a [flow.TTL] cache; each access holds its mutex. *)
Record entry (V : Type) := mkEntry {
  val : V;
  exp : Z;
}.
Arguments mkEntry {V} val exp.
Arguments val {V} e.
Arguments exp {V} e.

Inductive MapE (V : Type) : Type → Type :=
| MapRead (k : string) : MapE V (option (entry V))
| MapWrite (k : string) (e : entry V) : MapE V unit.
Arguments MapRead {V} k.
Arguments MapWrite {V} k e.

(** ** [http.ResponseWriter] *)
Inductive ResponseE : Type → Type :=
| SetHeader (key value : string) : ResponseE unit
| WriteHeader (code : Z) : ResponseE unit
| Write (body : string) : ResponseE (option error).

(** ** All the calls of a request handler *)
Inductive AppE : Type → Type :=
| clockE {X} (e : ClockE X) : AppE X
| dataE {X} (e : DataStoreE X) : AppE X
| clientE {X} (e : ClientStoreE X) : AppE X
| pubE {X} (e : PublisherE X) : AppE X
| cacheE {X} (e : MapE ClientConfig X) : AppE X
| respE {X} (e : ResponseE X) : AppE X.

(** ** Third-party functions *)
Class Lib := {
  (** [jmespath.Search(expression, data)] *)
  jmespath_Search : string → any → any + error;
  (** goccy/go-json [Marshal], and [Unmarshal] into a nil [map\[string\]any]:
      the map as left by the call, and the error. *)
  json_Marshal : any → string + error;
  json_Unmarshal : string → gomap * option error;
  (** klauspost/compress zstd [EncodeAll] and [DecodeAll] on an empty
      destination. *)
  zstd_EncodeAll : string → string;
  zstd_DecodeAll : string → string + error;
}.

(** ** The calls of an execution, by interface

    Projections of a trace: which calls were made, in order, with their
    arguments and replies. *)

Definition as_load (ev : event AppE) : option (string * string * (option Edge * Z * option error)) :=
  match ev with
  | Ev e x =>
      match e in AppE X return X → _ with
      | dataE e =>
          match e in DataStoreE X return X → _ with
          | Load c k => λ r, Some (c, k, r)
          | _ => λ _, None
          end
      | _ => λ _, None
      end x
  end.

Definition as_upsert (ev : event AppE) : option (string * string * Z * Edge * (bool * option error)) :=
  match ev with
  | Ev e x =>
      match e in AppE X return X → _ with
      | dataE e =>
          match e in DataStoreE X return X → _ with
          | UpsertCAS c k v next => λ r, Some (c, k, v, next, r)
          | _ => λ _, None
          end
      | _ => λ _, None
      end x
  end.

Definition as_acquire (ev : event AppE) : option (string * Z * Z * (bool * option error)) :=
  match ev with
  | Ev e x =>
      match e in AppE X return X → _ with
      | dataE e =>
          match e in DataStoreE X return X → _ with
          | Acquire s n w => λ r, Some (s, n, w, r)
          | _ => λ _, None
          end
      | _ => λ _, None
      end x
  end.

Definition as_publish (ev : event AppE) : option (string * string * option error) :=
  match ev with
  | Ev e x =>
      match e in AppE X return X → _ with
      | pubE e => match e in PublisherE X return X → _ with PublishRaw a p => λ r, Some (a, p, r) end
      | _ => λ _, None
      end x
  end.

Definition as_status (ev : event AppE) : option Z :=
  match ev with
  | Ev e x =>
      match e in AppE X return X → _ with
      | respE e => match e in ResponseE X return X → _ with WriteHeader c => λ _, Some c | _ => λ _, None end
      | _ => λ _, None
      end x
  end.

Definition as_body (ev : event AppE) : option string :=
  match ev with
  | Ev e x =>
      match e in AppE X return X → _ with
      | respE e => match e in ResponseE X return X → _ with Write b => λ _, Some b | _ => λ _, None end
      | _ => λ _, None
      end x
  end.

Definition loads (t : list (event AppE)) := omap as_load t.
Definition upserts (t : list (event AppE)) := omap as_upsert t.
Definition acquires (t : list (event AppE)) := omap as_acquire t.
Definition publishes (t : list (event AppE)) := omap as_publish t.
Definition statuses (t : list (event AppE)) := omap as_status t.
Definition bodies (t : list (event AppE)) := omap as_body t.

Lemma loads_app t u : loads (t ++ u) = loads t ++ loads u.
Proof. apply omap_app. Qed.
Lemma upserts_app t u : upserts (t ++ u) = upserts t ++ upserts u.
Proof. apply omap_app. Qed.
Lemma acquires_app t u : acquires (t ++ u) = acquires t ++ acquires u.
Proof. apply omap_app. Qed.
Lemma publishes_app t u : publishes (t ++ u) = publishes t ++ publishes u.
Proof. apply omap_app. Qed.
Lemma statuses_app t u : statuses (t ++ u) = statuses t ++ statuses u.
Proof. apply omap_app. Qed.

#[export] Hint Rewrite loads_app upserts_app acquires_app publishes_app statuses_app : enoti.
