(* ===== verification/Jmes.v ===== *)
(** * [flow/jmes.go] and [flow/passthrough.go]: selecting values by JMESPath *)

From S2P Require Import Prelude Errors Types Effects Ports.

Section jmes.
Context `{L : Lib}.

(** [EvalAny]. *)
Definition EvalAny (expression : string) (payload : gomap) : any + error :=
  match jmespath_Search expression (VMap payload) with
  | inr err => inr (Wrapf "jmespath" err)
  | inl v => inl v
  end.

(** [EvalString]: [None] is the nil pointer. A failed [Marshal] leaves nil
    bytes, hence the empty string. *)
Definition EvalString (expression : string) (payload : gomap) : option string + error :=
  match EvalAny expression payload with
  | inr err => inr err
  | inl VNil => inl None
  | inl (VString t) => inl (Some t)
  | inl t => inl (Some (match json_Marshal t with inl b => b | inr _ => "" end))
  end.

(** [CheckPassthrough]. *)
Definition CheckPassthrough (passthroughCfg : Passthrough) (payload : gomap) : bool :=
  if decide (pt_FieldExpr passthroughCfg = "") then false
  else
    match EvalAny (pt_FieldExpr passthroughCfg) payload with
    | inr _ => false
    | inl (VBool matched) => if pt_Negate passthroughCfg then negb matched else matched
    | inl _ => false
    end.

(** A payload passes through exactly when the rule is set, evaluates to a
    boolean, and that boolean is the one asked for: an evaluation error or any
    other value never lets a payload bypass the edge logic, negated or not. *)
Lemma CheckPassthrough_true cfg payload :
  CheckPassthrough cfg payload = true ↔
  pt_FieldExpr cfg ≠ "" ∧
  jmespath_Search (pt_FieldExpr cfg) (VMap payload) = inl (VBool (negb (pt_Negate cfg))).
Proof.
  unfold CheckPassthrough, EvalAny. case_decide as Hf; [naive_solver|].
  destruct (jmespath_Search _ _) as [[]|]; simpl; try naive_solver.
  destruct (pt_Negate cfg), b; naive_solver.
Qed.

End jmes.
