(* ===== verification/DemoLib.v ===== *)
(** * A concrete instance of the third-party functions

    Used by witnesses and replayed scenarios only: payloads with one string
    field are written [key=value], expressions are field names, compression is
    the identity. No theorem about the service depends on it. *)

From S2P Require Import Prelude Errors Strconv Text Types Ports.

Definition demo_search (expr : string) (v : any) : any + error :=
  match v with
  | VMap (Some l) =>
      match List.find (λ kv, bool_decide (kv.1 = expr)) l with
      | Some (_, v) => inl v
      | None => inl VNil
      end
  | _ => inl VNil
  end.

Definition demo_marshal (v : any) : string + error :=
  match v with
  | VString s => inl s
  | VInt z => inl (FormatInt z)
  | VBool b => inl (if b then "true" else "false")
  | VMap (Some [(k, VString s)]) => inl (k +:+ "=" +:+ s)
  | VMap None | VNil => inl "null"
  | _ => inl "{}"
  end.

Definition demo_unmarshal (s : string) : gomap * option error :=
  match Split s "="%char with
  | [k; v] => (Some [(k, VString v)], None)
  | _ => if decide (s = "null") then (None, None) else (None, Some (Errorf "invalid json"))
  end.

#[global] Instance demoLib : Lib := {|
  jmespath_Search := demo_search;
  json_Marshal := demo_marshal;
  json_Unmarshal := demo_unmarshal;
  zstd_EncodeAll := id;
  zstd_DecodeAll := inl;
|}.

(** A payload whose field [v] is the given value. *)
Definition demo_payload (v : string) : gomap := Some [("v", VString v)].
