(* ===== verification/EdgeFlap.v ===== *)
(** * [flow/edge_flap.go]: edge detection and flap control

    [EvaluateEdgeAndFlap] loads the state of a scope, decides what to do with
    an observed value, and writes the new state back by compare-and-set. The
    parts of its body are definitions of their own (recording a flip, rolling
    the window, the aggregate), composed in the order of the source. *)

From S2P Require Import Prelude Errors Types Effects Ports Base64.

(** ** [flow/common.go] *)

Inductive Action :=
| NoOp
| SuppressFlapping
| SuppressDedup
| EdgeTriggeredForward
| ForwardedAsIs
| AggregateSent.

#[global] Instance Action_eq_dec : EqDecision Action.
Proof. solve_decision. Defined.

Definition StatusTextMap (a : Action) : string :=
  match a with
  | NoOp => "no_op"
  | SuppressFlapping => "suppress_flap"
  | SuppressDedup => "suppress_dedup"
  | EdgeTriggeredForward => "edge_triggered_forward"
  | ForwardedAsIs => "forwarded_as_is"
  | AggregateSent => "aggregate_sent"
  end.

(** [EpochTime]: seconds. *)
Definition EpochTime : prog AppE Z :=
  t ← trigger (clockE FlowTimeNow);
  mret (Unix t).

Section edge_flap.
Context `{L : Lib}.

(** ** Stored payloads *)

(** [EncodePayload]: JSON, zstd, base64. *)
Definition EncodePayload (d : gomap) : string + error :=
  match json_Marshal (VMap d) with
  | inr err => inr err
  | inl s => inl (EncodeToString (zstd_EncodeAll s))
  end.

(** [DecodePayload]: the JSON text of a stored payload. *)
Definition DecodePayload (inp : string) : string + error :=
  match DecodeString inp with
  | inr err => inr err
  | inl b =>
      match zstd_DecodeAll b with
      | inr err => inr err
      | inl out => inl out
      end
  end.

(** ** The aggregate *)

(** The payload of one item: nil when there is none or it does not decode;
    a JSON error is only logged. *)
Definition item_payload (it : Flip) : gomap :=
  if decide (fl_Payload it ≠ "") then
    match DecodePayload (fl_Payload it) with
    | inl b => fst (json_Unmarshal b)
    | inr _ => None
    end
  else None.

Definition aggregate_item (it : Flip) : any :=
  VMap (Some [("at", VInt (At it)); ("from", VString (From it));
              ("to", VString (To it)); ("payload", VMap (item_payload it))]).

(** [xs\[i\]]: [None] is the index panic. *)
Definition index {A} (l : list A) (i : Z) : option A :=
  if decide (0 <= i) then l !! Z.to_nat i else None.

(** [for i := num - 1; i > num-k-1; i--]: one round per index, so the number
    of elements is enough fuel. *)
Fixpoint aggregate_loop (fuel : nat) (recent : list Flip) (i stop : Z) (items : list any) : option (list any) :=
  match fuel with
  | O => Some items
  | S fuel =>
      if decide (i > stop) then
        it ← index recent i;
        aggregate_loop fuel recent (i - 1) stop (items ++ [aggregate_item it])
      else Some items
  end.

Definition aggregate_items (recent : list Flip) (k : Z) : option (list any) :=
  let num := Z.of_nat (length recent) in
  if decide (k > 0 ∧ num > 0) then
    let k := if decide (k > num) then num else k in
    aggregate_loop (length recent) recent (num - 1) (num - k - 1) []
  else Some [].

(** [BuildAggregate]. *)
Definition BuildAggregate (edgeInfo : Edge) (k : Z) : option gomap :=
  items ← aggregate_items (Recent edgeInfo) k;
  Some (Some [("type", VString "flap_aggregate"); ("scope", VString (ScopeKey edgeInfo));
              ("last_value", VString (LastValue edgeInfo));
              ("window_start", VInt (WindowStart edgeInfo));
              ("flip_count", VInt (FlipCount edgeInfo)); ("recent", VSlice items)]).

(** ** The parts of [EvaluateEdgeAndFlap] *)

(** The state of a first observation. *)
Definition first_edge (newVal : string) (now : Z) : Edge :=
  mkEdge "" newVal now now 0 [] 0 0.

(** A flip is recorded: the bounded history, the value, the change time. *)
Definition record_flip (now : Z) (newVal encoded : string) (edgeInfo : Edge) : option Edge :=
  recent ← AppendRecent (Recent edgeInfo) (mkFlip now (LastValue edgeInfo) newVal encoded)
             HardLimitRecentItems;
  Some (set_LastChangeTS now (set_LastValue newVal (set_Recent recent edgeInfo))).

(** The window check: a flip outside the window opens a new one and is its
    first flip; otherwise the count goes up. *)
Definition roll_window (now : Z) (f : FlapConfig) (edgeInfo : Edge) : option (Edge * bool) :=
  if decide (WindowSeconds f > 0 ∧ int64 (now - WindowStart edgeInfo) > WindowSeconds f) then
    let edgeInfo := set_FlipCount 1 (set_WindowStart now edgeInfo) in
    if decide (Z.of_nat (length (Recent edgeInfo)) > 0) then
      recent ← slice_from (Recent edgeInfo) (Z.of_nat (length (Recent edgeInfo)) - 1);
      Some (set_Recent recent edgeInfo, true)
    else Some (edgeInfo, true)
  else Some (set_FlipCount (int64 (FlipCount edgeInfo + 1)) edgeInfo, false).

(** Whether the aggregate is due: the count is a multiple of the threshold, the
    cooldown is over and enough flips are kept. The guard [AggregateAt > 0] of
    the caller rules out the division by zero. *)
Definition aggregate_due (now : Z) (f : FlapConfig) (edgeInfo : Edge) : bool :=
  bool_decide (Z.rem (FlipCount edgeInfo) (AggregateAt f) = 0) &&
  bool_decide (now >= AggUntilTS edgeInfo) &&
  bool_decide (Z.of_nat (length (Recent edgeInfo)) >= AggregateAt f).

(** The aggregate path up to the write: the action, the aggregate and the state. *)
Definition aggregate_step (now : Z) (f : FlapConfig) (edgeInfo : Edge) : option (Action * gomap * Edge) :=
  if aggregate_due now f edgeInfo then
    let edgeInfo := set_AggUntilTS (int64 (now + AggregateCooldownSeconds f)) edgeInfo in
    agg ← BuildAggregate edgeInfo (AggregateMaxItems f);
    Some (AggregateSent, agg, set_Recent [] edgeInfo)
  else Some (SuppressFlapping, None, edgeInfo).

(** The final write of the function: forward if the compare-and-set succeeds,
    nothing if it raced. *)
Definition forward_edge (clientID scopeKey : string) (ver : Z) (edgeInfo : Edge) :
    prog AppE (Action * gomap * option error) :=
  '(ok, err) ← trigger (dataE (UpsertCAS clientID scopeKey ver edgeInfo));
  match err with
  | Some err => mret (NoOp, None, Some err)
  | None =>
      if (ok : bool) then mret (EdgeTriggeredForward, None, None)
      else mret (NoOp, None, None)
  end.

(** [EvaluateEdgeAndFlap]. *)
Definition EvaluateEdgeAndFlap (clientID scopeKey newVal : string) (f : option FlapConfig)
    (payload : gomap) : prog AppE (Action * gomap * option error) :=
  now ← EpochTime;
  '(edgeInfo, ver, err) ← trigger (dataE (Load clientID scopeKey));
  match err with
  | Some err => mret (NoOp, None, Some err)
  | None =>
  match edgeInfo with
  | None =>
      '(ok, err) ← trigger (dataE (UpsertCAS clientID scopeKey 0 (first_edge newVal now)));
      match err with
      | Some err => mret (NoOp, None, Some err)
      | None =>
          if (ok : bool) then mret (EdgeTriggeredForward, None, None)
          else mret (SuppressFlapping, None, None)
      end
  | Some edgeInfo =>
      if decide (LastValue edgeInfo = newVal) then mret (NoOp, None, None)
      else
        match EncodePayload payload with
        | inr err => mret (NoOp, None, Some err)
        | inl encoded =>
            edgeInfo ← or_panic (record_flip now newVal encoded edgeInfo);
            match f with
            | Some f =>
                '(edgeInfo, newWindow) ← or_panic (roll_window now f edgeInfo);
                if decide (FlipCount edgeInfo <= SuppressBelow f) then
                  (* an error of this write is only logged *)
                  _ ← trigger (dataE (UpsertCAS clientID scopeKey ver edgeInfo));
                  mret (SuppressFlapping, None, None)
                else if decide (AggregateAt f > 0 ∧ newWindow = false) then
                  '(action, agg, edgeInfo) ← or_panic (aggregate_step now f edgeInfo);
                  '(ok, err) ← trigger (dataE (UpsertCAS clientID scopeKey ver edgeInfo));
                  match err with
                  | Some err => mret (SuppressFlapping, None, Some err)
                  | None =>
                      if (ok : bool) then mret (action, agg, None)
                      else mret (NoOp, None, None)
                  end
                else forward_edge clientID scopeKey ver edgeInfo
            | None => forward_edge clientID scopeKey ver edgeInfo
            end
        end
  end
  end.

End edge_flap.

(** ** The decision as a pure function

    [flip_next] is the new state of a flip together with the way its write is
    settled; the lemma [evaluate_exec] below lists every execution of
    [EvaluateEdgeAndFlap] in terms of it. *)

Inductive flip_outcome :=
| Tolerated                          (* under [SuppressBelow]: write, then suppress *)
| Aggregating (a : Action) (agg : gomap)
| Forwarding.

Definition settle (o : flip_outcome) (r : bool * option error) : Action * gomap * option error :=
  match o, r with
  | Tolerated, _ => (SuppressFlapping, None, None)
  | Aggregating _ _, (_, Some err) => (SuppressFlapping, None, Some err)
  | Aggregating a agg, (true, None) => (a, agg, None)
  | Forwarding, (_, Some err) => (NoOp, None, Some err)
  | Forwarding, (true, None) => (EdgeTriggeredForward, None, None)
  | _, (false, None) => (NoOp, None, None)
  end.

Definition settle_first (r : bool * option error) : Action * gomap * option error :=
  match r with
  | (_, Some err) => (NoOp, None, Some err)
  | (true, None) => (EdgeTriggeredForward, None, None)
  | (false, None) => (SuppressFlapping, None, None)
  end.

Section decision.
Context `{L : Lib}.

Definition flip_next (now : Z) (newVal encoded : string) (f : option FlapConfig) (e : Edge) :
    option (Edge * flip_outcome) :=
  e ← record_flip now newVal encoded e;
  match f with
  | None => Some (e, Forwarding)
  | Some f =>
      '(e, newWindow) ← roll_window now f e;
      if decide (FlipCount e <= SuppressBelow f) then Some (e, Tolerated)
      else if decide (AggregateAt f > 0 ∧ newWindow = false) then
        '(a, agg, e) ← aggregate_step now f e;
        Some (e, Aggregating a agg)
      else Some (e, Forwarding)
  end.

(** The executions of [EvaluateEdgeAndFlap]: [now] is read first, then the
    state is loaded, and at most one write follows. *)
Inductive evaluate_trace (cid key newVal : string) (f : option FlapConfig) (payload : gomap) :
    list (event AppE) → option (Action * gomap * option error) → Prop :=
| trace_load_error t st ver err :
    evaluate_trace cid key newVal f payload
      [Ev (clockE FlowTimeNow) t; Ev (dataE (Load cid key)) (st, ver, Some err)]
      (Some (NoOp, None, Some err))
| trace_first t ver r :
    evaluate_trace cid key newVal f payload
      [Ev (clockE FlowTimeNow) t; Ev (dataE (Load cid key)) (None, ver, None);
       Ev (dataE (UpsertCAS cid key 0 (first_edge newVal (Unix t)))) r]
      (Some (settle_first r))
| trace_stable t e ver :
    LastValue e = newVal →
    evaluate_trace cid key newVal f payload
      [Ev (clockE FlowTimeNow) t; Ev (dataE (Load cid key)) (Some e, ver, None)]
      (Some (NoOp, None, None))
| trace_encode_error t e ver err :
    LastValue e ≠ newVal → EncodePayload payload = inr err →
    evaluate_trace cid key newVal f payload
      [Ev (clockE FlowTimeNow) t; Ev (dataE (Load cid key)) (Some e, ver, None)]
      (Some (NoOp, None, Some err))
| trace_flip t e ver encoded e' o r :
    LastValue e ≠ newVal → EncodePayload payload = inl encoded →
    flip_next (Unix t) newVal encoded f e = Some (e', o) →
    evaluate_trace cid key newVal f payload
      [Ev (clockE FlowTimeNow) t; Ev (dataE (Load cid key)) (Some e, ver, None);
       Ev (dataE (UpsertCAS cid key ver e')) r]
      (Some (settle o r)).

(** *** No slice or index is out of range *)

Lemma slice_from_Some {A} (l : list A) lo :
  0 <= lo <= Z.of_nat (length l) → slice_from l lo = Some (drop (Z.to_nat lo) l).
Proof. intros. unfold slice_from. by rewrite decide_True. Qed.

Definition flipped (now : Z) (newVal encoded : string) (e : Edge) : Edge :=
  set_LastChangeTS now (set_LastValue newVal
    (set_Recent (last_n 128 (Recent e ++ [mkFlip now (LastValue e) newVal encoded])) e)).

Lemma record_flip_eq now newVal encoded e :
  record_flip now newVal encoded e = Some (flipped now newVal encoded e).
Proof. unfold record_flip. by rewrite AppendRecent_spec. Qed.

(** Whether a flip at [now] falls outside the window of [e]. *)
Definition window_over (now : Z) (f : FlapConfig) (e : Edge) : Prop :=
  WindowSeconds f > 0 ∧ int64 (now - WindowStart e) > WindowSeconds f.

#[global] Instance window_over_dec now f e : Decision (window_over now f e).
Proof. unfold window_over. apply _. Defined.

Definition rolled (now : Z) (f : FlapConfig) (e : Edge) : Edge :=
  if decide (window_over now f e) then
    set_Recent (last_n 1 (Recent e)) (set_FlipCount 1 (set_WindowStart now e))
  else set_FlipCount (int64 (FlipCount e + 1)) e.

Lemma roll_window_eq now f e :
  roll_window now f e = Some (rolled now f e, bool_decide (window_over now f e)).
Proof.
  unfold roll_window, rolled. destruct (decide (window_over now f e)) as [Hw|Hw].
  - rewrite (bool_decide_true (window_over _ _ _)), decide_True by done. simpl. case_decide as Hl.
    + rewrite slice_from_Some by lia. simpl. unfold last_n.
      by replace (Z.to_nat (Z.of_nat (length (Recent e)) - 1))
        with (length (Recent e) - 1)%nat by lia.
    + by destruct e as [? ? ? ? ? [|] ? ?]; simpl in *; [|lia].
  - by rewrite (bool_decide_false (window_over _ _ _)), decide_False.
Qed.

Lemma aggregate_loop_eq fuel recent n m items :
  (n ≤ fuel)%nat → (n + m ≤ length recent)%nat →
  aggregate_loop fuel recent (Z.of_nat (n + m) - 1) (Z.of_nat m - 1) items =
  Some (items ++ (aggregate_item <$> rev (take n (drop m recent)))).
Proof.
  revert n items. induction fuel as [|fuel IH]; intros n items Hf Hn; simpl.
  { replace n with 0%nat by lia. by rewrite take_0, app_nil_r. }
  destruct n as [|n].
  { rewrite decide_False by lia. by rewrite take_0, app_nil_r. }
  rewrite decide_True by lia.
  destruct (lookup_lt_is_Some_2 recent (n + m)) as [it Hit]; [lia|].
  unfold index. rewrite decide_True by lia.
  replace (Z.to_nat (Z.of_nat (S n + m) - 1)) with (n + m)%nat by lia. rewrite Hit. simpl.
  replace (Z.of_nat (S (n + m)) - 1 - 1) with (Z.of_nat (n + m) - 1) by lia.
  rewrite IH by lia. f_equal. rewrite <- app_assoc. f_equal.
  rewrite (take_S_r _ _ it) by (by rewrite lookup_drop, Nat.add_comm).
  by rewrite rev_unit.
Qed.

(** The items of an aggregate are the [k] most recent flips, newest first. *)
Lemma aggregate_items_eq recent k :
  aggregate_items recent k = Some (aggregate_item <$> take (Z.to_nat k) (rev recent)).
Proof.
  unfold aggregate_items. case_decide as Hk; last first.
  { destruct (decide (k > 0)).
    - destruct recent; simpl in *; [by rewrite take_nil|lia].
    - by replace (Z.to_nat k) with 0%nat by lia. }
  set (n := Nat.min (Z.to_nat k) (length recent)).
  assert (n ≤ length recent)%nat as Hn by (subst n; lia).
  assert ((if decide (k > Z.of_nat (length recent)) then Z.of_nat (length recent) else k) = Z.of_nat n)
    as -> by (subst n; case_decide; lia).
  pose proof (aggregate_loop_eq (length recent) recent n (length recent - n) []) as H.
  replace (Z.of_nat (length recent) - 1) with (Z.of_nat (n + (length recent - n)) - 1) by lia.
  replace (Z.of_nat (length recent) - Z.of_nat n - 1)
    with (Z.of_nat (length recent - n) - 1) by lia.
  rewrite H by lia. simpl. do 2 f_equal.
  rewrite (take_ge (drop _ _)) by (rewrite length_drop; lia).
  rewrite <- firstn_rev. subst n. by rewrite <- (length_rev recent), take_min_length.
Qed.

Lemma BuildAggregate_eq e k :
  BuildAggregate e k =
  Some (Some [("type", VString "flap_aggregate"); ("scope", VString (ScopeKey e));
              ("last_value", VString (LastValue e)); ("window_start", VInt (WindowStart e));
              ("flip_count", VInt (FlipCount e));
              ("recent", VSlice (aggregate_item <$> take (Z.to_nat k) (rev (Recent e))))]).
Proof. unfold BuildAggregate. by rewrite aggregate_items_eq. Qed.

Lemma flip_next_total now newVal encoded f e :
  ∃ e' o, flip_next now newVal encoded f e = Some (e', o).
Proof.
  unfold flip_next. rewrite record_flip_eq. simpl. destruct f as [f|]; [|eauto].
  rewrite roll_window_eq. simpl. repeat case_decide; [eauto| |eauto].
  unfold aggregate_step. rewrite BuildAggregate_eq. destruct (aggregate_due _ _ _); simpl; eauto.
Qed.

(** *** All executions *)

Lemma evaluate_exec cid key newVal f payload t o :
  exec (EvaluateEdgeAndFlap cid key newVal f payload) t o →
  evaluate_trace cid key newVal f payload t o.
Proof.
  revert t o. apply wp_exec. unfold EvaluateEdgeAndFlap, EpochTime, forward_edge.
  prog_simpl. intros t [[st ver] err].
  destruct err as [err|]; [constructor|].
  destruct st as [e|]; last first.
  { intros r. pose proof (trace_first cid key newVal f payload t ver r) as Hr.
    by destruct r as [[] [err|]]. }
  case_decide as Hval; [by constructor|].
  destruct (EncodePayload payload) as [encoded|err] eqn:Henc; [|by constructor].
  destruct (flip_next_total (Unix t) newVal encoded f e) as (e' & o & Hn).
  pose proof (λ r, trace_flip cid key newVal f payload t e ver encoded e' o r Hval Henc Hn) as Hflip.
  revert Hn. unfold flip_next. rewrite record_flip_eq. simpl. destruct f as [f|].
  - rewrite roll_window_eq. simpl. case_decide; [|case_decide].
    + intros [= <- <-] r. apply (Hflip r).
    + destruct (aggregate_step _ _ _) as [[[a agg] e'']|]; [|done]. simpl.
      intros [= <- <-] r. specialize (Hflip r). by destruct r as [[] [err|]].
    + intros [= <- <-] r. specialize (Hflip r). by destruct r as [[] [err|]].
  - intros [= <- <-] r. specialize (Hflip r). by destruct r as [[] [err|]].
Qed.

Lemma evaluate_total cid key newVal f payload :
  no_panic (EvaluateEdgeAndFlap cid key newVal f payload).
Proof. apply wp_exec. intros t o H%evaluate_exec. by destruct H. Qed.

End decision.
