(* ===== verification/EdgeProps.v ===== *)
(** * Properties of edge detection and flap control

    First the properties of one call of [EvaluateEdgeAndFlap] under arbitrary
    replies of the store (errors, races, any loaded state), then those of a
    sequence of observations of one scope. [demoLib] is a small concrete
    instance of the third-party functions on which the witnesses run. *)

From S2P Require Import Prelude Errors Types Effects Ports Base64 DemoLib EdgeFlap.

(** ** The state invariant *)

(** [linked v rs w]: the flips of [rs] lead from the value [v] to the value
    [w], each starting where the previous one ended and each a real change. *)
Fixpoint linked (v : string) (rs : list Flip) (w : string) : Prop :=
  match rs with
  | [] => v = w
  | r :: rs => From r = v ∧ From r ≠ To r ∧ linked (To r) rs w
  end.

Record edge_wf (e : Edge) : Prop := {
  wf_cap : Z.of_nat (length (Recent e)) <= HardLimitRecentItems;
  wf_linked : ∃ v, linked v (Recent e) (LastValue e);
  wf_last : ∀ r, last (Recent e) = Some r → At r = LastChangeTS e;
  wf_count : is_int64 (FlipCount e);
}.

Lemma linked_snoc v rs w r :
  linked v rs w → From r = w → From r ≠ To r → linked v (rs ++ [r]) (To r).
Proof. revert v. induction rs as [|r' rs IH]; simpl; [by intros v -> ->|naive_solver]. Qed.

Lemma linked_drop n v rs w : linked v rs w → ∃ v', linked v' (drop n rs) w.
Proof.
  revert v rs. induction n as [|n IH]; intros v rs H; [by exists v; rewrite drop_0|].
  destruct rs as [|r rs]; [by exists v|]. destruct H as (_ & _ & H). by apply IH in H.
Qed.

Lemma linked_last_n n v rs w : linked v rs w → ∃ v', linked v' (last_n n rs) w.
Proof. apply linked_drop. Qed.

Lemma last_last_n {A} n (l : list A) : (0 < n)%nat → last (last_n n l) = last l.
Proof.
  intros Hn. destruct n as [|n]; [lia|].
  destruct l as [|x l _] using rev_ind; [done|]. by rewrite last_n_snoc, !last_snoc.
Qed.

Section invariant.
Context `{L : Lib}.

Lemma first_edge_wf v now : edge_wf (first_edge v now).
Proof. split; simpl; [types_lia| by exists v | done | done]. Qed.

Lemma flipped_wf now newVal encoded e :
  edge_wf e → LastValue e ≠ newVal → edge_wf (flipped now newVal encoded e).
Proof.
  intros [Hcap [v Hl] Hlast Hc] Hne. split; simpl; [| | |done].
  - rewrite length_last_n. types_lia.
  - apply (linked_last_n 128 v). by apply (linked_snoc _ _ (LastValue e) (mkFlip _ _ _ _)).
  - intros r. rewrite last_last_n, last_snoc by lia. by intros [= <-].
Qed.

Lemma rolled_wf now f e : edge_wf e → edge_wf (rolled now f e).
Proof.
  intros [Hcap [v Hl] Hlast Hc]. unfold rolled. case_decide; split; simpl; try done; try apply int64_range.
  - rewrite length_last_n. types_lia.
  - by apply (linked_last_n 1 v).
  - intros r. rewrite last_last_n by lia. apply Hlast.
  - by exists v.
Qed.

Lemma cleared_wf ts e : edge_wf e → edge_wf (set_Recent [] (set_AggUntilTS ts e)).
Proof. intros [Hcap _ _ Hc]. split; simpl; try done. eauto. Qed.

Lemma aggregate_step_eq now f e :
  aggregate_step now f e =
  Some (if aggregate_due now f e then
          let e' := set_AggUntilTS (int64 (now + AggregateCooldownSeconds f)) e in
          (AggregateSent, default None (BuildAggregate e' (AggregateMaxItems f)), set_Recent [] e')
        else (SuppressFlapping, None, e)).
Proof.
  unfold aggregate_step. destruct (aggregate_due now f e); [|done].
  by rewrite BuildAggregate_eq.
Qed.

Lemma flip_next_wf now newVal encoded f e e' o :
  edge_wf e → LastValue e ≠ newVal →
  flip_next now newVal encoded f e = Some (e', o) → edge_wf e'.
Proof.
  intros Hwf Hne. unfold flip_next. rewrite record_flip_eq. simpl.
  pose proof (flipped_wf now newVal encoded e Hwf Hne) as Hf.
  destruct f as [f|]; [|by intros [= <- <-]].
  rewrite roll_window_eq. simpl. pose proof (rolled_wf now f _ Hf) as Hr.
  repeat case_decide; [by intros [= <- <-]| |by intros [= <- <-]].
  rewrite aggregate_step_eq. simpl. destruct (aggregate_due _ _ _); simpl; intros [= <- <-]; [|done].
  by apply cleared_wf.
Qed.

(** The new state always holds the observed value. *)
Lemma flip_next_value now newVal encoded f e e' o :
  flip_next now newVal encoded f e = Some (e', o) → LastValue e' = newVal.
Proof.
  unfold flip_next. rewrite record_flip_eq. simpl. destruct f as [f|]; [|by intros [= <- <-]].
  rewrite roll_window_eq. simpl. unfold rolled.
  repeat case_decide; try by intros [= <- <-].
  all: rewrite aggregate_step_eq; simpl; destruct (aggregate_due _ _ _); by intros [= <- <-].
Qed.

End invariant.

(** ** One evaluation, whatever the store answers *)

Section claims.
Context `{L : Lib}.
Implicit Types (t : list (event AppE)) (e : Edge).

(** An evaluation never panics: no slice or index of the flip history is
    out of range, whatever state the store returns. *)
Theorem evaluate_no_panic cid key newVal f payload :
  no_panic (EvaluateEdgeAndFlap cid key newVal f payload).
Proof. apply evaluate_total. Qed.

(** A notification is only announced (forwarded or aggregated) after the new
    state was written: the evaluation then made a compare-and-set that the
    store accepted, carrying the observed value, and reports no error. *)
Theorem evaluate_commit_first cid key newVal f payload t a agg err :
  exec (EvaluateEdgeAndFlap cid key newVal f payload) t (Some (a, agg, err)) →
  a = EdgeTriggeredForward ∨ a = AggregateSent →
  err = None ∧
  ∃ ver next, upserts t = [(cid, key, ver, next, (true, None))] ∧ LastValue next = newVal.
Proof.
  intros Hx%evaluate_exec Ha. inversion Hx as [| ? ver r Ht Ho | | |? e ver ? e' o r ? ? Hn Ht Ho];
    simplify_eq; try by destruct Ha.
  - destruct r as [[] [?|]]; simplify_eq/=; (by eauto) || by destruct Ha.
  - pose proof (flip_next_value _ _ _ _ _ _ _ Hn).
    destruct o, r as [[] [?|]]; simplify_eq/=; (by eauto) || by destruct Ha.
Qed.

(** An evaluation reads the state once and writes at most once, on condition
    of exactly the version that was read (of absence when nothing was read): a
    lost compare-and-set is not retried. *)
Theorem evaluate_single_attempt cid key newVal f payload t o :
  exec (EvaluateEdgeAndFlap cid key newVal f payload) t o →
  ∃ st ver lerr, loads t = [(cid, key, (st, ver, lerr))] ∧
    (upserts t = [] ∨
     lerr = None ∧ ∃ next r,
       upserts t = [(cid, key, match st with Some _ => ver | None => 0 end, next, r)]).
Proof. intros []%evaluate_exec; simpl; eauto 10. Qed.

(** C15: the state invariant is kept by every write: if the state that was read
    satisfies it, so does the state written, whatever else happens. The
    history never exceeds its hard limit, its flips form a path of real value
    changes that ends in the stored value, and the last one carries the time of
    the last change. *)
Theorem evaluate_keeps_invariant cid key newVal f payload t o st ver lerr ver' next r :
  exec (EvaluateEdgeAndFlap cid key newVal f payload) t o →
  loads t = [(cid, key, (st, ver, lerr))] →
  (∀ e, st = Some e → edge_wf e) →
  upserts t = [(cid, key, ver', next, r)] →
  edge_wf next.
Proof.
  intros Hx%evaluate_exec Hl Hwf Hu.
  destruct Hx as [| | | |? e v ? e' o r' Hne ? Hn]; simplify_eq/=.
  - apply first_edge_wf.
  - eapply flip_next_wf; [|done|done]. auto.
Qed.

(** A threshold over the history limit of 128 can never be met: with such an
    [AggregateAt] no evaluation ever sends an aggregate. *)
Theorem aggregate_unreachable cid key newVal f payload t a agg err :
  AggregateAt f > HardLimitRecentItems →
  exec (EvaluateEdgeAndFlap cid key newVal (Some f) payload) t (Some (a, agg, err)) →
  a ≠ AggregateSent.
Proof.
  intros Hat Hx%evaluate_exec ->.
  inversion Hx as [| ? ? r Ht Ho | | |? e ? ? e' o r ? ? Hn Ht Ho]; simplify_eq.
  - by destruct r as [[] [?|]].
  - revert Hn. unfold flip_next. rewrite record_flip_eq. simpl. rewrite roll_window_eq. simpl.
    repeat case_decide; try (intros [= <- <-]; by destruct r as [[] [?|]]).
    rewrite aggregate_step_eq. simpl.
    destruct (aggregate_due _ _ _) eqn:Hdue; simpl;
      (intros [= <- <-]; destruct r as [[] [?|]]; simplify_eq/=).
    unfold aggregate_due in Hdue. rewrite !andb_true_iff, !bool_decide_eq_true in Hdue.
    destruct Hdue as [_ Hlen]. unfold rolled in Hlen.
    case_decide; simpl in Hlen; rewrite ?length_last_n in Hlen; types_lia.
Qed.

(** C21: an aggregate lists the newest flips: the loop of [BuildAggregate], which
    walks the history down by index, gives the reference list of the [k] most
    recent flips, newest first, all of them when there are fewer; with [k] zero or
    negative it gives none, although the documentation of the limit says that zero
    means all. No index is out of range. *)
Theorem aggregate_newest_first e k :
  BuildAggregate e k =
    Some (Some [("type", VString "flap_aggregate"); ("scope", VString (ScopeKey e));
                ("last_value", VString (LastValue e)); ("window_start", VInt (WindowStart e));
                ("flip_count", VInt (FlipCount e));
                ("recent", VSlice (aggregate_item <$> take (Z.to_nat k) (reverse (Recent e))))]) ∧
  (k <= 0 → take (Z.to_nat k) (reverse (Recent e)) = []) ∧
  (Z.of_nat (length (Recent e)) <= k → take (Z.to_nat k) (reverse (Recent e)) = reverse (Recent e)).
Proof.
  rewrite BuildAggregate_eq. unfold reverse. rewrite rev_append_rev, app_nil_r. split_and!; [done| |].
  - intros Hk. by replace (Z.to_nat k) with 0%nat by lia.
  - intros Hk. apply take_ge. rewrite length_rev. lia.
Qed.

(** A stored payload decodes to the JSON text that was stored, when
    decompression inverts compression. *)
Lemma payload_roundtrip d s :
  (∀ b, zstd_DecodeAll (zstd_EncodeAll b) = inl b) →
  EncodePayload d = inl s →
  ∃ b, json_Marshal (VMap d) = inl b ∧ DecodePayload s = inl b.
Proof.
  intros Hz. unfold EncodePayload, DecodePayload.
  destruct (json_Marshal (VMap d)) as [b|]; [|done]. intros [= <-].
  rewrite DecodeString_EncodeToString, Hz. eauto.
Qed.

End claims.

(** ** Witnesses *)

(** Proves a concrete execution, call by call. *)
Ltac solve_exec :=
  repeat (hnf; do 2 eexists; split; [reflexivity|]); hnf; split; vm_compute; reflexivity.

Definition demo_state : Edge := mkEdge "k" "a" 3 3 0 [] 0 0.

(** A first observation of the value [b] at second 5, accepted by the store. *)
Definition demo_first : list (event AppE) :=
  [Ev (clockE FlowTimeNow) (5 * Second); Ev (dataE (Load "c" "k")) (None, 0, None);
   Ev (dataE (UpsertCAS "c" "k" 0 (first_edge "b" 5))) (true, None)].

(** A change from [a] to [b] at second 5, version 7, accepted by the store. *)
Definition demo_flip : list (event AppE) :=
  [Ev (clockE FlowTimeNow) (5 * Second); Ev (dataE (Load "c" "k")) (Some demo_state, 7, None);
   Ev (dataE (UpsertCAS "c" "k" 7 (flipped 5 "b" "dj1i" demo_state))) (true, None)].

Lemma demo_first_exec :
  exec (EvaluateEdgeAndFlap "c" "k" "b" None (demo_payload "b")) demo_first
    (Some (EdgeTriggeredForward, None, None)).
Proof. solve_exec. Qed.

Lemma demo_flip_exec :
  exec (EvaluateEdgeAndFlap "c" "k" "b" None (demo_payload "b")) demo_flip
    (Some (EdgeTriggeredForward, None, None)).
Proof. solve_exec. Qed.

Lemma demo_state_wf : edge_wf demo_state.
Proof. split; simpl; [done|by exists "a"|done|done]. Qed.

Lemma evaluate_commit_first_witness :
  (None : option error) = None ∧
  ∃ ver next, upserts demo_flip = [("c", "k", ver, next, (true, None))] ∧ LastValue next = "b".
Proof.
  exact (evaluate_commit_first "c" "k" "b" None (demo_payload "b") demo_flip EdgeTriggeredForward
           None None demo_flip_exec (or_introl eq_refl)).
Defined.

Lemma evaluate_single_attempt_witness :
  ∃ st ver lerr, loads demo_flip = [("c", "k", (st, ver, lerr))] ∧
    (upserts demo_flip = [] ∨
     lerr = None ∧ ∃ next r,
       upserts demo_flip = [("c", "k", match st with Some _ => ver | None => 0 end, next, r)]).
Proof.
  exact (evaluate_single_attempt "c" "k" "b" None (demo_payload "b") demo_flip
           (Some (EdgeTriggeredForward, None, None)) demo_flip_exec).
Defined.

Lemma evaluate_keeps_invariant_witness : edge_wf (flipped 5 "b" "dj1i" demo_state).
Proof.
  apply (evaluate_keeps_invariant "c" "k" "b" None (demo_payload "b") demo_flip
           (Some (EdgeTriggeredForward, None, None)) (Some demo_state) 7 None 7
           (flipped 5 "b" "dj1i" demo_state) (true, None) demo_flip_exec).
  - reflexivity.
  - intros e [= <-]. exact demo_state_wf.
  - reflexivity.
Defined.

(** A threshold of 200 flips. *)
Definition demo_far : FlapConfig := mkFlapConfig 60 0 200 10 0.

Definition demo_far_flip : list (event AppE) :=
  [Ev (clockE FlowTimeNow) (5 * Second); Ev (dataE (Load "c" "k")) (Some demo_state, 7, None);
   Ev (dataE (UpsertCAS "c" "k" 7 (rolled 5 demo_far (flipped 5 "b" "dj1i" demo_state)))) (true, None)].

Lemma aggregate_unreachable_witness : SuppressFlapping ≠ AggregateSent.
Proof.
  apply (aggregate_unreachable "c" "k" "b" demo_far (demo_payload "b") demo_far_flip
           SuppressFlapping None None).
  - reflexivity.
  - solve_exec.
Defined.

Lemma payload_roundtrip_witness :
  ∃ b, json_Marshal (VMap (demo_payload "b")) = inl b ∧ DecodePayload "dj1i" = inl b.
Proof.
  apply (payload_roundtrip (demo_payload "b") "dj1i").
  - reflexivity.
  - reflexivity.
Defined.
