(* ===== verification/StoreSpec.v ===== *)
(** * The contract of [ports.DataStore] and the sequential reading of an
      evaluation

    [DataStore] states what the interface promises about edge state:
    loading is exact and has no effect on it, a compare-and-set commits exactly
    when the stored version is the one given (absence for version 0), and an
    error leaves either the old state or the committed one. The clients'
    theorems are proved against this class; the DynamoDB backend is shown to be
    an instance in [Ddb.v].

    [observe] is the abstract behaviour of one evaluation on the state of its
    scope; [run_evaluate] shows that running the code against any store with
    the contract is [observe]. *)

From S2P Require Import Prelude Errors Text Types Effects Ports Base64 DemoLib EdgeFlap EdgeProps.

(** ** Values that the backends can represent: 64-bit integers and UTF-8 text *)

Record flip_typed (r : Flip) : Prop := {
  ft_at : is_int64 (At r);
  ft_from : ValidString (From r) = true;
  ft_to : ValidString (To r) = true;
  ft_payload : ValidString (fl_Payload r) = true;
}.

Record edge_typed (e : Edge) : Prop := {
  et_value : ValidString (LastValue e) = true;
  et_change : is_int64 (LastChangeTS e);
  et_start : is_int64 (WindowStart e);
  et_count : is_int64 (FlipCount e);
  et_recent : Forall flip_typed (Recent e);
  et_agg : is_int64 (AggUntilTS e);
}.

(** ** The contract *)

(** What a store keeps of a written edge: the key it was written under; the
    version is kept beside it. *)
Definition stored (key : string) (e : Edge) : Edge := set_Version 0 (set_ScopeKey key e).

(** The condition of a compare-and-set on the stored state and version. *)
Definition cas_pre (cur : option (Edge * Z)) (prev : Z) : Prop :=
  match cur with
  | None => prev = 0
  | Some (_, ver) => prev ≠ 0 ∧ prev = ver
  end.

Class DataStore {St : Type} (h : handler DataStoreE St) := {
  (** The states the store's own writes lead to. *)
  ds_inv : St → Prop;
  (** The stored edge of a scope and its version. *)
  ds_edge : St → string → string → option (Edge * Z);
  ds_total : total_handler h;
  ds_load s c k st ver err s' :
    ds_inv s → ValidString c = true → ValidString k = true → h _ (Load c k) s = (Some (st, ver, err), s') →
    ds_inv s' ∧ (∀ c' k', ds_edge s' c' k' = ds_edge s c' k') ∧
    (err = None →
     match st with
     | None => ds_edge s c k = None ∧ ver = 0
     | Some e => ds_edge s c k = Some (set_Version 0 e, ver) ∧ ver ≠ 0
     end);
  ds_upsert s c k prev next ok err s' :
    ds_inv s → ValidString c = true → ValidString k = true →
    edge_typed next → 0 <= prev < int64_max →
    h _ (UpsertCAS c k prev next) s = (Some (ok, err), s') →
    ds_inv s' ∧ (∀ c' k', (c', k') ≠ (c, k) → ds_edge s' c' k' = ds_edge s c' k') ∧
    match err, ok with
    | None, true =>
        cas_pre (ds_edge s c k) prev ∧ ds_edge s' c k = Some (stored k next, prev + 1)
    | None, false =>
        ¬ cas_pre (ds_edge s c k) prev ∧ ds_edge s' c k = ds_edge s c k
    | Some _, _ =>
        ds_edge s' c k = ds_edge s c k ∨
        (cas_pre (ds_edge s c k) prev ∧ ds_edge s' c k = Some (stored k next, prev + 1))
    end;
  ds_acquire s scope rate window r s' :
    ds_inv s → ValidString scope = true → h _ (Acquire scope rate window) s = (Some r, s') →
    ds_inv s' ∧ ∀ c k, ds_edge s' c k = ds_edge s c k;
}.

(** The error of a reply. *)
Definition reply_error {X} (e : DataStoreE X) : X → option error :=
  match e in DataStoreE X return X → option error with
  | Acquire _ _ _ => λ r, r.2
  | Load _ _ => λ r, r.2
  | UpsertCAS _ _ _ _ => λ r, r.2
  end.

(** A store whose calls do not fail. *)
Definition reliable {St} (h : handler DataStoreE St) `{!DataStore h} : Prop :=
  ∀ X (e : DataStoreE X) s x s', ds_inv s → h X e s = (Some x, s') → reply_error e x = None.

(** ** A process: the store, the other services, its clock and its memory *)

Section world.
Context {St CSt PSt : Type}.

Record World := mkWorld {
  w_clock : nat → Z;        (* the successive readings of the clock *)
  w_tick : nat;             (* readings made so far *)
  w_data : St;
  w_client : CSt;
  w_pub : PSt;
  w_cache : gmap string (entry ClientConfig);
  w_status : list Z;        (* WriteHeader calls, in order *)
  w_body : list string;     (* Write calls, in order *)
}.

Definition set_tick (n : nat) (w : World) : World :=
  mkWorld (w_clock w) n (w_data w) (w_client w) (w_pub w) (w_cache w) (w_status w) (w_body w).
Definition set_data (s : St) (w : World) : World :=
  mkWorld (w_clock w) (w_tick w) s (w_client w) (w_pub w) (w_cache w) (w_status w) (w_body w).
Definition set_client (s : CSt) (w : World) : World :=
  mkWorld (w_clock w) (w_tick w) (w_data w) s (w_pub w) (w_cache w) (w_status w) (w_body w).
Definition set_pub (s : PSt) (w : World) : World :=
  mkWorld (w_clock w) (w_tick w) (w_data w) (w_client w) s (w_cache w) (w_status w) (w_body w).
Definition set_cache (c : gmap string (entry ClientConfig)) (w : World) : World :=
  mkWorld (w_clock w) (w_tick w) (w_data w) (w_client w) (w_pub w) c (w_status w) (w_body w).
Definition add_status (c : Z) (w : World) : World :=
  mkWorld (w_clock w) (w_tick w) (w_data w) (w_client w) (w_pub w) (w_cache w) (w_status w ++ [c]) (w_body w).
Definition add_body (b : string) (w : World) : World :=
  mkWorld (w_clock w) (w_tick w) (w_data w) (w_client w) (w_pub w) (w_cache w) (w_status w) (w_body w ++ [b]).

(** The next reading of the clock. *)
Definition w_now (w : World) : Z := w_clock w (w_tick w).

Context (hd : handler DataStoreE St) (hc : handler ClientStoreE CSt) (hp : handler PublisherE PSt).

Definition map_handler : handler (MapE ClientConfig) World := λ X e w,
  match e with
  | MapRead k => (Some (w_cache w !! k), w)
  | MapWrite k v => (Some tt, set_cache (<[k := v]> (w_cache w)) w)
  end.

Definition resp_handler : handler ResponseE World := λ X e w,
  match e with
  | SetHeader _ _ => (Some tt, w)
  | WriteHeader c => (Some tt, add_status c w)
  | Write b => (Some None, add_body b w)
  end.

Definition clock_handler : handler ClockE World := λ X e w,
  match e with
  | TimeNow => (Some (w_now w), set_tick (S (w_tick w)) w)
  | FlowTimeNow => (Some (w_now w), set_tick (S (w_tick w)) w)
  end.

Definition app_handler : handler AppE World := λ X e w,
  match e with
  | clockE e => clock_handler _ e w
  | dataE e => let '(r, s) := hd _ e (w_data w) in (r, set_data s w)
  | clientE e => let '(r, s) := hc _ e (w_client w) in (r, set_client s w)
  | pubE e => let '(r, s) := hp _ e (w_pub w) in (r, set_pub s w)
  | cacheE e => map_handler _ e w
  | respE e => resp_handler _ e w
  end.

End world.
Arguments World : clear implicits.

(** ** The abstract behaviour of one observation *)

Section observe.
Context `{L : Lib}.

(** The state of a scope after a value was observed at time [now], and what the
    evaluation returns. *)
Definition observe (key : string) (f : option FlapConfig) (now : Z) (newVal : string) (payload : gomap)
    (st : option Edge) : option Edge * (Action * gomap * option error) :=
  match st with
  | None => (Some (stored key (first_edge newVal now)), (EdgeTriggeredForward, None, None))
  | Some e =>
      if decide (LastValue e = newVal) then (st, (NoOp, None, None))
      else
        match EncodePayload payload with
        | inr err => (st, (NoOp, None, Some err))
        | inl encoded =>
            match flip_next now newVal encoded f e with
            | Some (e', o) => (Some (stored key e'), settle o (true, None))
            | None => (st, (NoOp, None, None))
            end
        end
  end.

(** The version is not looked at. *)
Lemma rolled_version now f e n : rolled now f (set_Version n e) = set_Version n (rolled now f e).
Proof.
  unfold rolled.
  destruct (decide (window_over now f (set_Version n e))), (decide (window_over now f e)); done.
Qed.

Lemma aggregate_step_version now f e n :
  aggregate_step now f (set_Version n e) =
  (λ p, (p.1, set_Version n p.2)) <$> aggregate_step now f e.
Proof.
  rewrite !aggregate_step_eq. simpl.
  change (aggregate_due now f (set_Version n e)) with (aggregate_due now f e).
  by destruct (aggregate_due now f e).
Qed.

Lemma flip_next_version now newVal encoded f e n :
  flip_next now newVal encoded f (set_Version n e) =
  (λ p, (set_Version n p.1, p.2)) <$> flip_next now newVal encoded f e.
Proof.
  unfold flip_next. rewrite !record_flip_eq. simpl. destruct f as [f|]; [|done].
  change (flipped now newVal encoded (set_Version n e))
    with (set_Version n (flipped now newVal encoded e)).
  generalize (flipped now newVal encoded e) as e1. intros e1.
  rewrite !roll_window_eq, rolled_version. simpl.
  rewrite (bool_decide_ext (window_over now f (set_Version n e1)) (window_over now f e1)) by done.
  repeat case_decide; [done| |done]. rewrite aggregate_step_version.
  by destruct (aggregate_step _ _ _) as [[[] ?]|].
Qed.

Lemma EncodePayload_text d s : EncodePayload d = inl s → ValidString s = true.
Proof.
  unfold EncodePayload. destruct (json_Marshal _) as [b|]; [|done]. intros [= <-].
  apply valid_utf8_ascii, EncodeToString_ascii.
Qed.

Lemma first_edge_typed v now :
  ValidString v = true → is_int64 now → edge_typed (first_edge v now).
Proof. intros. by split. Qed.

Lemma Forall_last_n {A} (P : A → Prop) n l : Forall P l → Forall P (last_n n l).
Proof. apply Forall_drop. Qed.

Lemma flip_next_typed now newVal encoded f e e' o :
  edge_typed e → is_int64 now → ValidString newVal = true → ValidString encoded = true →
  flip_next now newVal encoded f e = Some (e', o) → edge_typed e'.
Proof.
  intros [Hv Hc Hs Hn Hr Ha] Hnow Hnew Henc. unfold flip_next. rewrite record_flip_eq. simpl.
  assert (edge_typed (flipped now newVal encoded e)) as Hf.
  { split; simpl; try done. apply Forall_last_n, Forall_app_2, Forall_singleton; [done|]. by split. }
  revert Hf. generalize (flipped now newVal encoded e) as e1. clear e Hv Hc Hs Hn Hr Ha.
  intros e1 Hf. destruct f as [f|]; [|by intros [= <- <-]].
  rewrite roll_window_eq. simpl.
  assert (edge_typed (rolled now f e1)) as Hr.
  { destruct Hf. unfold rolled. case_decide; split; simpl; try done; try apply int64_range.
    by apply Forall_last_n. }
  repeat case_decide; [by intros [= <- <-]| |by intros [= <- <-]].
  rewrite aggregate_step_eq. simpl. destruct (aggregate_due _ _ _); simpl; intros [= <- <-]; [|done].
  destruct Hr. split; simpl; try done. apply int64_range.
Qed.

(** ** Running the code is [observe] *)

Context {St CSt PSt : Type} (hd : handler DataStoreE St).
Context (hc : handler ClientStoreE CSt) (hp : handler PublisherE PSt).
Context `{!DataStore hd} (Hc : total_handler hc) (Hp : total_handler hp).

#[local] Notation world := (World St CSt PSt).
#[local] Notation app := (app_handler hd hc hp).

Lemma app_total : total_handler app.
Proof using Hc Hp DataStore0.
  intros X e w. destruct e as [X []|X e|X e|X e|X []|X []]; simpl; eauto.
  - destruct (ds_total _ e (w_data w)) as (x & s' & ->). eauto.
  - destruct (Hc _ e (w_client w)) as (x & s' & ->). eauto.
  - destruct (Hp _ e (w_pub w)) as (x & s' & ->). eauto.
Qed.

(** The state of a scope in a world. *)
Definition scope_state (w : world) (c k : string) : option (Edge * Z) := ds_edge (w_data w) c k.

(** The fields of a stored edge and its version fit their types. *)
Definition scope_typed (st : option (Edge * Z)) : Prop :=
  ∀ e ver, st = Some (e, ver) → edge_typed e ∧ 0 < ver < int64_max.

Lemma app_load w c k r w' :
  reliable hd → ds_inv (w_data w) → ValidString c = true → ValidString k = true → app _ (dataE (Load c k)) w = (Some r, w') →
  w_clock w' = w_clock w ∧ w_tick w' = w_tick w ∧ ds_inv (w_data w') ∧
  (∀ c' k', scope_state w' c' k' = scope_state w c' k') ∧
  ∃ st ver, r = (st, ver, None) ∧
  match st with
  | None => scope_state w c k = None ∧ ver = 0
  | Some e => scope_state w c k = Some (set_Version 0 e, ver) ∧ ver ≠ 0
  end.
Proof.
  intros Hrel Hinv Htc Htk. simpl. destruct (hd _ (Load c k) (w_data w)) as [[r'|] s'] eqn:Hh; [|done].
  intros [= <- <-]. destruct r' as [[st ver] err].
  pose proof (Hrel _ _ _ _ _ Hinv Hh) as Herr. simpl in Herr. subst err.
  apply ds_load in Hh as (Hinv' & Hview & Hst); [|done..]. split_and!; [done..|].
  exists st, ver. split; [done|]. by apply Hst.
Qed.

Lemma app_upsert w c k prev next r w' :
  reliable hd → ds_inv (w_data w) → ValidString c = true → ValidString k = true → edge_typed next → 0 <= prev < int64_max →
  cas_pre (scope_state w c k) prev →
  app _ (dataE (UpsertCAS c k prev next)) w = (Some r, w') →
  r = (true, None) ∧ w_clock w' = w_clock w ∧ w_tick w' = w_tick w ∧ ds_inv (w_data w') ∧
  scope_state w' c k = Some (stored k next, prev + 1) ∧
  (∀ c' k', (c', k') ≠ (c, k) → scope_state w' c' k' = scope_state w c' k').
Proof.
  intros Hrel Hinv Htc Htk Hty Hprev Hpre. simpl.
  destruct (hd _ (UpsertCAS c k prev next) (w_data w)) as [[[ok err]|] s'] eqn:Hh; [|done].
  intros [= <- <-]. pose proof (Hrel _ _ _ _ _ Hinv Hh) as Herr. simpl in Herr. subst err.
  apply ds_upsert in Hh as (Hinv' & Hframe & Hcas); [|done..].
  destruct ok; [|by destruct Hcas]. destruct Hcas as [_ Hs']. split_and!; eauto.
Qed.

(** What an evaluation does to the world, relative to [observe]. *)
Record evaluated (c k newVal : string) (f : option FlapConfig) (payload : gomap) (w w' : world)
    (res : Action * gomap * option error) : Prop := {
  ev_result : res = (observe k f (Unix (w_now w)) newVal payload (fst <$> scope_state w c k)).2;
  ev_inv : ds_inv (w_data w');
  ev_clock : w_clock w' = w_clock w ∧ w_tick w' = S (w_tick w);
  ev_state : fst <$> scope_state w' c k =
             (observe k f (Unix (w_now w)) newVal payload (fst <$> scope_state w c k)).1;
  ev_frame c' k' : (c', k') ≠ (c, k) → scope_state w' c' k' = scope_state w c' k';
  ev_typed e ver : scope_state w' c k = Some (e, ver) →
             edge_typed e ∧ 0 < ver <= 1 + default 0 (snd <$> scope_state w c k);
}.

(** The clock reading and the load every evaluation starts with. *)
Lemma replay_start c k t0 r t w w' :
  reliable hd → ds_inv (w_data w) → ValidString c = true → ValidString k = true →
  replay app (Ev (clockE FlowTimeNow) t0 :: Ev (dataE (Load c k)) r :: t) w w' →
  t0 = w_now w ∧ ∃ st ver w2, r = (st, ver, None) ∧
  w_clock w2 = w_clock w ∧ w_tick w2 = S (w_tick w) ∧ ds_inv (w_data w2) ∧
  (∀ c' k', scope_state w2 c' k' = scope_state w c' k') ∧
  replay app t w2 w' ∧
  match st with
  | None => scope_state w c k = None ∧ ver = 0
  | Some e => scope_state w c k = Some (set_Version 0 e, ver) ∧ ver ≠ 0
  end.
Proof.
  intros Hrel Hinv Htc Htk (w1 & [= <- <-] & w2 & Hl & Hr). split; [done|].
  apply app_load in Hl as (Hcl & Htick & Hinv' & Hview & st & ver & -> & Hst); [|done..].
  exists st, ver, w2. split_and!; done.
Qed.

Lemma edge_typed_version n e : edge_typed (set_Version n e) ↔ edge_typed e.
Proof. split; intros []; by split. Qed.

Lemma run_evaluate c k newVal f payload w :
  reliable hd → ds_inv (w_data w) → ValidString c = true → ValidString k = true →
  scope_typed (scope_state w c k) → is_int64 (Unix (w_now w)) → ValidString newVal = true →
  ∃ res w', run app (EvaluateEdgeAndFlap c k newVal f payload) w = (Some res, w') ∧
            evaluated c k newVal f payload w w' res.
Proof using Hc Hp.
  intros Hrel Hinv Htc Htk Hty Hnow Hnew.
  destruct (run_total app (EvaluateEdgeAndFlap c k newVal f payload) w app_total
              (evaluate_total c k newVal f payload)) as (res & w' & Hrun).
  exists res, w'. split; [done|]. apply run_exec in Hrun as (t & Hx%evaluate_exec & Hr).
  inversion Hx as [t0 st ver err Ht Ho|t0 ver r Ht Ho|t0 e ver Hv Ht Ho|t0 e ver err Hv He Ht Ho
                  |t0 e ver enc e' o r Hv He Hn Ht Ho]; clear Hx; subst t;
    apply replay_start in Hr as (-> & st' & ver' & w2 & Heq & Hcl & Htick & Hinv2 & Hview & Hr & Hst);
    try done; injection Heq as <- <-; destruct Hst as [Hst Hver].
  - destruct Hr as (w3 & Hu & <-).
    apply app_upsert in Hu as (-> & Hcl' & Htick' & Hinv' & Hs' & Hframe);
      [|done|done|done|done|by apply first_edge_typed|int_lia|by rewrite Hview, Hst].
    split; rewrite ?Hs', ?Hst; simpl; try done; [split; congruence| |].
    + intros c' k' Hne. rewrite Hframe; auto.
    + intros e v [= <- <-]. split; [|lia]. by split.
  - rewrite <- Hr. split; rewrite ?Hview, ?Hst; simpl; rewrite ?decide_True; try done.
    intros e0 v [= <- <-]. destruct (Hty _ _ Hst). split; [done|lia].
  - rewrite <- Hr. split; rewrite ?Hview, ?Hst; simpl; rewrite ?decide_False, ?He; try done.
    intros e0 v [= <- <-]. destruct (Hty _ _ Hst). split; [done|lia].
  - destruct Hr as (w3 & Hu & <-). destruct (Hty _ _ Hst) as [Hte Htv].
    assert (edge_typed e') as Hte'.
    { eapply flip_next_typed; [|done|done|by eapply EncodePayload_text|done].
      by eapply edge_typed_version. }
    apply app_upsert in Hu as (-> & Hcl' & Htick' & Hinv' & Hs' & Hframe);
      [|done|done|done|done|done|lia|by rewrite Hview, Hst].
    split; rewrite ?Hs', ?Hst; simpl; rewrite ?decide_False, ?He, ?flip_next_version, ?Hn; simpl; try done.
    + split; congruence.
    + intros c' k' Hne. rewrite Hframe; auto.
    + intros e0 v [= <- <-]. split; [|lia]. destruct Hte'. by split.
Qed.

End observe.
