(* ===== verification/MemStore.v ===== *)
(** * In-memory stores and publisher

    Concrete implementations of the ports, on which witnesses and scenarios run.
    The data store is shown to satisfy the contract of [StoreSpec.v], so the
    theorems proved against it have instances; the windows of its rate limits
    never end. *)

From S2P Require Import Prelude Errors Text Types Effects Ports Base64 DemoLib EdgeFlap EdgeProps StoreSpec.

(** Versions are positive: 0 is the absence of an edge. *)
Record Mem := mkMem {
  mem_edges : gmap (string * string) (Edge * positive);
  mem_counts : gmap string Z;
}.

Definition mem_empty : Mem := mkMem ∅ ∅.

#[global] Instance cas_pre_dec cur prev : Decision (cas_pre cur prev).
Proof. destruct cur as [[? ?]|]; simpl; apply _. Defined.

Definition mem_view (m : Mem) (c k : string) : option (Edge * Z) :=
  (λ p, (set_Version 0 p.1, Zpos p.2)) <$> mem_edges m !! (c, k).

Definition mem_data : handler DataStoreE Mem := λ X e m,
  match e with
  | Acquire scope rate _ =>
      let n := default 0 (mem_counts m !! scope) in
      if decide (n < rate) then (Some (true, None), mkMem (mem_edges m) (<[scope := n + 1]> (mem_counts m)))
      else (Some (false, None), m)
  | Load c k =>
      match mem_edges m !! (c, k) with
      | Some (e, ver) => (Some (Some (set_Version (Zpos ver) e), Zpos ver, None), m)
      | None => (Some (None, 0, None), m)
      end
  | UpsertCAS c k prev next =>
      if decide (cas_pre (mem_view m c k) prev) then
        (Some (true, None),
         mkMem (<[(c, k) := (stored k next, Z.to_pos (prev + 1))]> (mem_edges m)) (mem_counts m))
      else (Some (false, None), m)
  end.

#[global, program] Instance mem_store : DataStore mem_data := {| ds_inv := λ _, True; ds_edge := mem_view |}.
Next Obligation.
  intros X [] m; simpl.
  - case_decide; eauto.
  - destruct (mem_edges m !! _) as [[]|]; eauto.
  - case_decide; eauto.
Qed.
Next Obligation.
  intros m c k st ver err m' _ _ _. simpl.
  destruct (mem_edges m !! (c, k)) as [[e v]|] eqn:He; intros [= <- <- <- <-];
    (split; [done|]); (split; [done|]); intros _; unfold mem_view; rewrite He; [|done]. by destruct e.
Qed.
Next Obligation.
  intros m c k prev next ok err m' _ _ _ Hty Hprev. simpl. case_decide as Hcas; intros [= <- <- <-]; (split; [done|]).
  - split; [|split; [done|]].
    + intros c' k' Hne. unfold mem_view. simpl. by rewrite lookup_insert_ne.
    + unfold mem_view. simpl. rewrite lookup_insert_eq. simpl. rewrite Z2Pos.id by lia. by destruct next.
  - done.
Qed.
Next Obligation.
  intros m scope rate window r m' _ _. simpl. by case_decide; intros [= <- <-].
Qed.

Lemma mem_reliable : reliable mem_data.
Proof.
  intros X [] m x m' _; simpl.
  - by case_decide; intros [= <- <-].
  - by destruct (mem_edges m !! _) as [[]|]; intros [= <- <-].
  - by case_decide; intros [= <- <-].
Qed.

Definition mem_clients : handler ClientStoreE (gmap string ClientConfig) := λ X e m,
  match e with
  | GetClientConfig id =>
      match m !! id with
      | Some cc => (Some (cc, None), m)
      | None => (Some (zeroClientConfig, Some (Sentinel ErrNotFound)), m)
      end
  | ListClients => (Some ((map_to_list m).*1, None), m)
  | PutClientConfig id cc => (Some None, <[id := cc]> m)
  | DeleteClientConfig id => (Some None, delete id m)
  | ClearAll => (Some None, ∅)
  end.

Definition mem_pub : handler PublisherE (list (string * string)) := λ X e l,
  match e with
  | PublishRaw arn p => (Some None, l ++ [(arn, p)])
  end.

Lemma mem_clients_total : total_handler mem_clients.
Proof. intros X [] m; simpl; eauto. destruct (m !! _); eauto. Qed.

Lemma mem_pub_total : total_handler mem_pub.
Proof. intros X [] m; simpl; eauto. Qed.

(** A process on these stores. *)
Definition MemWorld : Type := World Mem (gmap string ClientConfig) (list (string * string)).

Definition mem_app : handler AppE MemWorld := app_handler mem_data mem_clients mem_pub.

(** A process that just started, with a clock that ticks by seconds from [start]. *)
Definition mem_world (start : Z) (clients : gmap string ClientConfig) : MemWorld :=
  mkWorld (λ n, (start + Z.of_nat n) * Second) 0 mem_empty clients [] ∅ [] [].

(** A clock that stands at second 1000. *)
Definition still_world : MemWorld :=
  mkWorld (λ _, 1000 * Second) 0 mem_empty ∅ [] ∅ [] [].
