(* ===== verification/EdgeHistory.v ===== *)
(** * Sequences of observations of one scope

    What a client sees over time: forwarding reports exactly the changes of the
    watched value; inside a window every [AggregateAt]-th flip reports all the
    flips since the previous report, none lost and none twice; aggregates keep
    their cooldown. The lemmas are about [observe], the abstract behaviour;
    [Refinement.v] states them of runs of the code. *)

From S2P Require Import Prelude Errors Text Types Effects Ports Base64 DemoLib EdgeFlap EdgeProps StoreSpec.

(** One notification that reached the edge logic: its time in seconds, the
    value of the watched field, the payload. *)
Record Obs := mkObs {
  ob_now : Z;
  ob_val : string;
  ob_payload : gomap;
}.

Section history.
Context `{L : Lib} (key : string).

(** The state after a sequence of observations, and the result of each. *)
Fixpoint observe_all (f : option FlapConfig) (obs : list Obs) (st : option Edge) :
    option Edge * list (Action * gomap * option error) :=
  match obs with
  | [] => (st, [])
  | o :: obs =>
      let '(st, res) := observe key f (ob_now o) (ob_val o) (ob_payload o) st in
      let '(st, rs) := observe_all f obs st in
      (st, res :: rs)
  end.

(** Every payload can be encoded. *)
Definition encodable (o : Obs) : Prop := ∃ s, EncodePayload (ob_payload o) = inl s.

(** *** Plain edge triggering *)

(** The specification: forward a value that differs from the one before it. *)
Fixpoint changes (prev : option string) (vals : list string) : list Action :=
  match vals with
  | [] => []
  | v :: vals =>
      (if decide (prev = Some v) then NoOp else EdgeTriggeredForward) :: changes (Some v) vals
  end.

Lemma observe_plain o st :
  encodable o →
  ∃ e, observe key None (ob_now o) (ob_val o) (ob_payload o) st =
       (Some e, (if decide (LastValue <$> st = Some (ob_val o)) then NoOp else EdgeTriggeredForward,
                 None, None)) ∧
       LastValue e = ob_val o.
Proof.
  intros [s Hs]. unfold observe. destruct st as [e|]; simpl; [|eauto].
  destruct (decide (LastValue e = ob_val o)) as [Hv|Hv].
  - rewrite decide_True by congruence. eauto.
  - rewrite Hs, decide_False by congruence. unfold flip_next. rewrite record_flip_eq. simpl. eauto.
Qed.

Lemma observe_all_plain obs st :
  Forall encodable obs →
  (observe_all None obs st).2 = (λ a, (a, None, None)) <$> changes (LastValue <$> st) (ob_val <$> obs) ∧
  LastValue <$> (observe_all None obs st).1 =
    match last (ob_val <$> obs) with Some v => Some v | None => LastValue <$> st end.
Proof.
  intros H. revert st. induction H as [|o obs Ho _ IH]; intros st; [done|]. simpl.
  destruct (observe_plain o st Ho) as (e & -> & He).
  destruct (IH (Some e)) as [IH1 IH2]. destruct (observe_all None obs (Some e)) as [st' rs]. simpl in *.
  rewrite IH1, IH2, He, last_cons. by destruct (last _).
Qed.

(** *** Aggregation in a window *)

(** A configuration that aggregates without a cooldown, with a threshold that
    the history can hold and that tolerance does not reach. *)
Record steady (f : FlapConfig) : Prop := {
  sd_at : 2 <= AggregateAt f <= HardLimitRecentItems;
  sd_suppress : SuppressBelow f <= 0;
  sd_cooldown : AggregateCooldownSeconds f = 0;
}.

(** Between aggregates the history holds exactly the flips not yet reported. *)
Record agg_inv (f : FlapConfig) (e : Edge) : Prop := {
  ai_count : 0 <= FlipCount e;
  ai_recent : Z.of_nat (length (Recent e)) = FlipCount e mod AggregateAt f;
  ai_until : AggUntilTS e <= LastChangeTS e;
}.

(** The flip that an observation is, from the value before it. *)
Definition flip_of (v : string) (o : Obs) : Flip :=
  mkFlip (ob_now o) v (ob_val o) (match EncodePayload (ob_payload o) with inl s => s | inr _ => "" end).

Definition aggregate_of (e : Edge) (f : FlapConfig) (rs : list Flip) : gomap :=
  Some [("type", VString "flap_aggregate"); ("scope", VString (ScopeKey e));
        ("last_value", VString (LastValue e)); ("window_start", VInt (WindowStart e));
        ("flip_count", VInt (FlipCount e));
        ("recent", VSlice (aggregate_item <$> take (Z.to_nat (AggregateMaxItems f)) (rev rs)))].

Lemma observe_steady f e o :
  steady f → agg_inv f e → ScopeKey e = key → encodable o →
  LastValue e ≠ ob_val o → LastChangeTS e <= ob_now o → is_int64 (ob_now o) →
  FlipCount e < int64_max → ¬ window_over (ob_now o) f e →
  let rs := Recent e ++ [flip_of (LastValue e) o] in
  let n := FlipCount e + 1 in
  ∃ e', observe key (Some f) (ob_now o) (ob_val o) (ob_payload o) (Some e) =
        (Some e', if decide (n mod AggregateAt f = 0) then (AggregateSent, aggregate_of e' f rs, None)
                  else (SuppressFlapping, None, None)) ∧
        agg_inv f e' ∧ ScopeKey e' = key ∧ FlipCount e' = n ∧ WindowStart e' = WindowStart e ∧
        LastValue e' = ob_val o ∧ LastChangeTS e' = ob_now o ∧
        Recent e' = if decide (n mod AggregateAt f = 0) then [] else rs.
Proof.
  intros [Hat Hsup Hcool] [Hcnt Hrec Huntil] Hkey [s Hs] Hne Hnow Hint Hmax Hwin rs n.
  unfold observe. rewrite decide_False by done. rewrite Hs.
  assert (flip_of (LastValue e) o = mkFlip (ob_now o) (LastValue e) (ob_val o) s) as Hfl
    by (unfold flip_of; by rewrite Hs).
  unfold flip_next. rewrite record_flip_eq. simpl. rewrite roll_window_eq. simpl.
  pose proof (Z.mod_pos_bound (FlipCount e) (AggregateAt f)).
  assert (rolled (ob_now o) f (flipped (ob_now o) (ob_val o) s e) =
          mkEdge (ScopeKey e) (ob_val o) (ob_now o) (WindowStart e) n rs (AggUntilTS e) (Version e)) as ->.
  { unfold rolled. rewrite decide_False by done. unfold flipped. simpl.
    rewrite int64_id by int_lia. rewrite last_n_all by (rewrite length_app; simpl; types_lia).
    subst rs n. by rewrite Hfl. }
  rewrite bool_decide_false by done. rewrite decide_False by (simpl; lia).
  rewrite decide_True by (split; [lia|done]). rewrite aggregate_step_eq. simpl.
  assert (Z.of_nat (length rs) = FlipCount e mod AggregateAt f + 1) as Hlen
    by (subst rs; rewrite length_app; simpl; lia).
  assert (n mod AggregateAt f = if decide (FlipCount e mod AggregateAt f + 1 = AggregateAt f)
          then 0 else FlipCount e mod AggregateAt f + 1) as Hmod by (apply mod_succ; lia).
  set (e1 := mkEdge _ _ _ _ _ _ _ _).
  assert (aggregate_due (ob_now o) f e1 = bool_decide (n mod AggregateAt f = 0)) as ->.
  { unfold aggregate_due. simpl. rewrite Z.rem_mod_nonneg by lia.
    rewrite (bool_decide_true (ob_now o >= _)) by lia.
    destruct (decide (n mod AggregateAt f = 0)) as [Hz|Hz].
    - rewrite (bool_decide_true (Z.of_nat _ >= _)) by (case_decide; lia). by rewrite !andb_true_r.
    - by rewrite bool_decide_false. }
  destruct (decide (n mod AggregateAt f = 0)) as [Hz|Hz].
  - rewrite bool_decide_true by done. rewrite BuildAggregate_eq. simpl.
    rewrite Hcool, Z.add_0_r, int64_id by done.
    exists (stored key (set_Recent [] (set_AggUntilTS (ob_now o) e1))).
    split; [by rewrite <- Hkey|]. simpl. split_and!; try done. split; simpl; lia.
  - rewrite bool_decide_false by done. simpl.
    eexists. split; [reflexivity|]. simpl. split_and!; try done.
    split; simpl; [lia| |lia]. case_decide; lia.
Qed.

(** *** A whole stretch of flips in one window *)

(** The flips of a sequence of observations: one per change of value. *)
Fixpoint flips_of (v : string) (obs : list Obs) : list Flip :=
  match obs with
  | [] => []
  | o :: obs =>
      if decide (v = ob_val o) then flips_of v obs
      else flip_of v o :: flips_of (ob_val o) obs
  end.

(** The flips listed by the aggregates among some results, oldest first. *)
Definition items_of (res : Action * gomap * option error) : list any :=
  match res with
  | (AggregateSent, Some m, None) =>
      match List.find (λ kv, bool_decide (kv.1 = "recent")) m with
      | Some (_, VSlice items) => rev items
      | _ => []
      end
  | _ => []
  end.

Definition reported (rs : list (Action * gomap * option error)) : list any := concat (items_of <$> rs).

(** Observations inside the window that started at [ws], with a clock that does
    not go back. *)
Inductive in_window (f : FlapConfig) (ws : Z) : Z → list Obs → Prop :=
| in_window_nil now : in_window f ws now []
| in_window_cons now o obs :
    now <= ob_now o → is_int64 (ob_now o) → encodable o →
    int64 (ob_now o - ws) <= WindowSeconds f →
    in_window f ws (ob_now o) obs → in_window f ws now (o :: obs).

Lemma items_of_aggregate e f rs :
  Z.of_nat (length rs) <= AggregateMaxItems f →
  items_of (AggregateSent, aggregate_of e f rs, None) = aggregate_item <$> rs.
Proof.
  intros Hlen. simpl. rewrite take_ge by (rewrite length_rev; lia).
  by rewrite fmap_rev, rev_involutive.
Qed.

Lemma observe_stable f e o :
  LastValue e = ob_val o →
  observe key (Some f) (ob_now o) (ob_val o) (ob_payload o) (Some e) = (Some e, (NoOp, None, None)).
Proof. intros H. unfold observe. by rewrite decide_True. Qed.

Lemma observe_all_steady f obs e :
  steady f → AggregateAt f <= AggregateMaxItems f →
  agg_inv f e → ScopeKey e = key →
  in_window f (WindowStart e) (LastChangeTS e) obs →
  FlipCount e + Z.of_nat (length obs) <= int64_max →
  ∃ e', (observe_all (Some f) obs (Some e)).1 = Some e' ∧
    agg_inv f e' ∧
    FlipCount e' = FlipCount e + Z.of_nat (length (flips_of (LastValue e) obs)) ∧
    reported (observe_all (Some f) obs (Some e)).2 ++ (aggregate_item <$> Recent e') =
      aggregate_item <$> (Recent e ++ flips_of (LastValue e) obs).
Proof.
  intros Hsd Hmax Hinv Hkey Hwin. revert e Hinv Hkey Hwin.
  induction obs as [|o obs IH]; intros e Hinv Hkey Hwin Hcnt.
  { exists e. simpl. rewrite app_nil_r, Z.add_0_r. split_and!; try done. }
  inversion Hwin as [|now' o' obs' Hnow Hint Henc Hws Hrest]; subst. cbn [length] in Hcnt.
  cbn [observe_all flips_of]. destruct (decide (LastValue e = ob_val o)) as [Hv|Hv].
  - rewrite observe_stable by done. destruct (observe_all (Some f) obs (Some e)) as [st rs] eqn:Ho.
    destruct (IH e) as (e' & He' & Hi' & Hc' & Hr'); [done|done| |lia|].
    { inversion Hrest; subst; constructor; try done. lia. }
    rewrite Ho in *. exists e'. split_and!; try done.
  - destruct (observe_steady f e o) as (e1 & Hobs & Hi1 & Hk1 & Hc1 & Hw1 & Hv1 & Ht1 & Hr1);
      [done|done|done|done|done|lia|done|lia| |].
    { intros [_ Hover]. lia. }
    rewrite Hobs. destruct (observe_all (Some f) obs (Some e1)) as [st rs] eqn:Ho.
    destruct (IH e1) as (e' & He' & Hi' & Hc' & Hr');
      [done|done|by rewrite Hw1, Ht1|lia|]. rewrite Ho, Hv1 in *. simpl in He', Hc', Hr'.
    exists e'. split; [done|]. split; [done|]. split; [simpl; lia|].
    cbn [snd]. unfold reported in *. rewrite fmap_cons. cbn [concat].
    rewrite <- app_assoc, Hr', Hr1.
    destruct (decide ((FlipCount e + 1) mod AggregateAt f = 0)).
    + rewrite items_of_aggregate.
      * rewrite app_nil_l, <- fmap_app, <- app_assoc. done.
      * rewrite length_app. destruct Hsd, Hinv.
        pose proof (Z.mod_pos_bound (FlipCount e) (AggregateAt f)). simpl. lia.
    + simpl. by rewrite <- app_assoc.
Qed.

(** *** Tolerance *)

(** The specification: in a window, the flips up to number [s] are suppressed
    and the later ones forwarded; [c] flips were seen before. *)
Fixpoint tolerate (s c : Z) (v : string) (obs : list Obs) : list Action :=
  match obs with
  | [] => []
  | o :: obs =>
      if decide (v = ob_val o) then NoOp :: tolerate s c v obs
      else (if decide (c + 1 <= s) then SuppressFlapping else EdgeTriggeredForward)
             :: tolerate s (c + 1) (ob_val o) obs
  end.

Lemma observe_tolerant f e o :
  AggregateAt f <= 0 → encodable o → LastValue e ≠ ob_val o →
  is_int64 (FlipCount e + 1) → ¬ window_over (ob_now o) f e →
  ∃ e', observe key (Some f) (ob_now o) (ob_val o) (ob_payload o) (Some e) =
        (Some e', (if decide (FlipCount e + 1 <= SuppressBelow f) then SuppressFlapping
                   else EdgeTriggeredForward, None, None)) ∧
        FlipCount e' = FlipCount e + 1 ∧ WindowStart e' = WindowStart e ∧ LastValue e' = ob_val o.
Proof.
  intros Hat [s Hs] Hne Hint Hwin. unfold observe. rewrite decide_False by done. rewrite Hs.
  unfold flip_next. rewrite record_flip_eq. simpl. rewrite roll_window_eq. simpl.
  assert (rolled (ob_now o) f (flipped (ob_now o) (ob_val o) s e) =
          set_FlipCount (FlipCount e + 1) (flipped (ob_now o) (ob_val o) s e)) as ->.
  { unfold rolled. rewrite decide_False by done. simpl. by rewrite int64_id. }
  simpl.
  case_decide; simpl; [|rewrite decide_False by lia]; eexists; (split; [reflexivity|done]).
Qed.

Lemma observe_all_tolerant f obs e now :
  AggregateAt f <= 0 → in_window f (WindowStart e) now obs →
  0 <= FlipCount e → FlipCount e + Z.of_nat (length obs) <= int64_max →
  (observe_all (Some f) obs (Some e)).2 =
  (λ a, (a, None, None)) <$> tolerate (SuppressBelow f) (FlipCount e) (LastValue e) obs.
Proof.
  intros Hat. revert e now. induction obs as [|o obs IH]; intros e now Hwin H0 Hcnt; [done|].
  inversion Hwin as [|now' o' obs' Hnow Hint Henc Hws Hrest]; subst. cbn [length] in Hcnt.
  cbn [observe_all tolerate]. destruct (decide (LastValue e = ob_val o)) as [Hv|Hv].
  - rewrite observe_stable by done. specialize (IH e (ob_now o) Hrest H0).
    destruct (observe_all (Some f) obs (Some e)) as [st rs]. simpl in *. rewrite IH; [done|lia].
  - destruct (observe_tolerant f e o) as (e1 & Hobs & Hc1 & Hw1 & Hv1);
      [done|done|done|int_lia| |].
    { intros [_ Hover]. lia. }
    rewrite Hobs. rewrite <- Hw1 in Hrest. specialize (IH e1 (ob_now o) Hrest).
    destruct (observe_all (Some f) obs (Some e1)) as [st rs]. simpl in *.
    rewrite IH by lia. by rewrite Hc1, Hv1.
Qed.

(** *** Cooldown *)

Definition is_aggregate (res : Action * gomap * option error) : Prop := res.1.1 = AggregateSent.

(** An aggregate is only sent once the time in the state has come, and then
    moves that time; nothing else moves it. *)
Lemma observe_until f e o :
  ∃ e' res, observe key (Some f) (ob_now o) (ob_val o) (ob_payload o) (Some e) = (Some e', res) ∧
  (is_aggregate res ∧ AggUntilTS e <= ob_now o ∧
     AggUntilTS e' = int64 (ob_now o + AggregateCooldownSeconds f) ∨
   ¬ is_aggregate res ∧ AggUntilTS e' = AggUntilTS e).
Proof.
  unfold observe, is_aggregate. case_decide; [by eauto 10|].
  destruct (EncodePayload _) as [s|]; [|by eauto 10].
  unfold flip_next. rewrite record_flip_eq. simpl. rewrite roll_window_eq. simpl.
  assert (AggUntilTS (rolled (ob_now o) f (flipped (ob_now o) (ob_val o) s e)) = AggUntilTS e) as Hr
    by (unfold rolled; by case_decide).
  repeat case_decide; [by eauto 10| |by eauto 10].
  rewrite aggregate_step_eq. simpl. destruct (aggregate_due _ _ _) eqn:Hdue; simpl; [|by eauto 10].
  unfold aggregate_due in Hdue. rewrite !andb_true_iff, !bool_decide_eq_true in Hdue.
  do 2 eexists. split; [reflexivity|]. left. split_and!; [done|lia|done].
Qed.

Lemma observe_all_until f obs e j o res :
  0 <= AggregateCooldownSeconds f →
  Forall (λ o, is_int64 (ob_now o + AggregateCooldownSeconds f)) obs →
  obs !! j = Some o → (observe_all (Some f) obs (Some e)).2 !! j = Some res → is_aggregate res →
  AggUntilTS e <= ob_now o.
Proof.
  intros Hcd Hobs. revert e j. induction Hobs as [|o1 obs Ho1 _ IH]; intros e j Hj Hr Ha; [done|].
  cbn [observe_all] in Hr. destruct (observe_until f e o1) as (e' & res' & Heq & Hu).
  rewrite Heq in Hr. specialize (IH e').
  destruct (observe_all (Some f) obs (Some e')) as [st rs]. simpl in *.
  destruct j as [|j]; simplify_eq/=.
  - by destruct Hu as [(_ & Hu & _)|[Hn _]].
  - specialize (IH j Hj Hr Ha). destruct Hu as [(_ & Hu & Hu')|[_ Hu']]; [|lia].
    rewrite int64_id in Hu' by done. lia.
Qed.

Lemma observe_all_cooldown f obs e i j oi oj ri rj :
  0 <= AggregateCooldownSeconds f →
  Forall (λ o, is_int64 (ob_now o + AggregateCooldownSeconds f)) obs →
  (i < j)%nat → obs !! i = Some oi → obs !! j = Some oj →
  (observe_all (Some f) obs (Some e)).2 !! i = Some ri →
  (observe_all (Some f) obs (Some e)).2 !! j = Some rj →
  is_aggregate ri → is_aggregate rj →
  ob_now oi + AggregateCooldownSeconds f <= ob_now oj.
Proof.
  intros Hcd Hobs. revert e i j. induction Hobs as [|o1 obs Ho1 Hobs IH]; intros e i j Hij Hi Hj; [done|].
  cbn [observe_all]. destruct (observe_until f e o1) as (e' & res' & Heq & Hu). rewrite Heq.
  specialize (IH e'). pose proof (observe_all_until f obs e') as Hnext.
  destruct (observe_all (Some f) obs (Some e')) as [st rs]. cbn [snd] in *.
  destruct j as [|j]; [lia|]. destruct i as [|i]; simplify_eq/=.
  - intros [= ->] Hrj Hai Haj. destruct Hu as [(_ & Hu & Hu')|[Hn _]]; [|done].
    specialize (Hnext j oj rj Hcd Hobs Hj Hrj Haj). rewrite int64_id in Hu' by done. lia.
  - intros. apply (IH i j); [lia|done..].
Qed.

End history.

(** ** Claims *)

Section claims.
Context `{L : Lib} (key : string).


End claims.

(** ** The scenarios of [tests/edge_trigger_test.go] and
       [tests/edge_trigger_advanced_test.go], replayed *)

(** Observations one second apart, starting at second [t0]. *)
Definition demo_obs (t0 : Z) (vals : list string) : list Obs :=
  imap (λ i v, mkObs (t0 + Z.of_nat i) v (demo_payload v)) vals.

Definition demo_vals (n m : nat) : list string :=
  (λ i, "e" +:+ Strconv.FormatInt (Z.of_nat (i mod m))) <$> seq 0 n.

Definition actions (f : option FlapConfig) (obs : list Obs) : list Action :=
  (λ r, r.1.1) <$> (observe_all "e1" f obs None).2.

Definition published (l : list Action) : nat :=
  length (List.filter (λ a, bool_decide (a = EdgeTriggeredForward ∨ a = AggregateSent)) l).

(** [configs/edge_trigger_agg.yml], [..._agg_short_window.yml],
    [..._suppress.yml], [..._cooldown.yml]. *)
Definition cfg_agg := mkFlapConfig 300 0 3 10 0.
Definition cfg_short := mkFlapConfig 10 0 5 10 0.
Definition cfg_suppress := mkFlapConfig 60 3 0 10 0.
Definition cfg_cooldown := mkFlapConfig 60 0 3 10 5.

Example TestEdgeTriggerAggregate1 :
  actions (Some cfg_agg) (demo_obs 1000 (demo_vals 5 2)) =
  [EdgeTriggeredForward; SuppressFlapping; SuppressFlapping; AggregateSent; SuppressFlapping].
Proof. vm_compute. reflexivity. Qed.

Example TestEdgeTriggerAggregate2 :
  published (actions (Some cfg_agg) (demo_obs 1000 (demo_vals 100 5))) = 34%nat.
Proof. vm_compute. reflexivity. Qed.

Example TestEdgeTriggerAggregateCrossWindows :
  actions (Some cfg_short) (demo_obs 1000 (demo_vals 25 5)) =
  (λ i, if decide (i ∈ [0; 11; 22]) then EdgeTriggeredForward
        else if decide (i mod 5 = 0) then AggregateSent else SuppressFlapping)
  <$> seqZ 0 25.
Proof. vm_compute. reflexivity. Qed.

Example TestEdgeTriggerSuppressBelow :
  actions (Some cfg_suppress) (demo_obs 1000 ["e1"; "e2"; "e3"; "e2"; "e9"]) =
  [EdgeTriggeredForward; SuppressFlapping; SuppressFlapping; SuppressFlapping; EdgeTriggeredForward].
Proof. vm_compute. reflexivity. Qed.

Example TestEdgeTriggerAggregateCooldown :
  actions (Some cfg_cooldown)
    (demo_obs 1000 (demo_vals 7 7) ++ demo_obs 1009 ["e7"; "e8"; "e9"]) =
  [EdgeTriggeredForward; SuppressFlapping; SuppressFlapping; AggregateSent;
   SuppressFlapping; SuppressFlapping; SuppressFlapping;
   SuppressFlapping; SuppressFlapping; AggregateSent].
Proof. vm_compute. reflexivity. Qed.

Example TestEdgeTriggerStableAfterFlapping :
  actions None (demo_obs 1000 ["e1"; "e1"; "e2"; "e2"; "e1"]) =
  [EdgeTriggeredForward; NoOp; EdgeTriggeredForward; NoOp; EdgeTriggeredForward].
Proof. vm_compute. reflexivity. Qed.

(** ** Witness *)

