(* ===== verification/Refinement.v ===== *)
(** * The code refines its abstract behaviour

    A process that evaluates a sequence of notifications of one scope against
    any store with the contract of [StoreSpec.v] produces exactly the results
    of [observe_all]; the lemmas of [EdgeHistory.v] become statements about runs
    of the code: what is forwarded, aggregated and suppressed over time. *)

From S2P Require Import Prelude Errors Text Types Effects Ports Base64 DemoLib EdgeFlap EdgeProps StoreSpec MemStore EdgeHistory.

Section refinement.
Context `{L : Lib}.
Context {St CSt PSt : Type} (hd : handler DataStoreE St).
Context (hc : handler ClientStoreE CSt) (hp : handler PublisherE PSt).
Context `{!DataStore hd}.

#[local] Notation world := (World St CSt PSt).
#[local] Notation app := (app_handler hd hc hp).

(** Evaluations one after the other: value and payload of each notification. *)
Fixpoint evaluate_all (cid key : string) (f : option FlapConfig) (items : list (string * gomap)) :
    prog AppE (list (Action * gomap * option error)) :=
  match items with
  | [] => Ret []
  | (v, p) :: items =>
      res ← EvaluateEdgeAndFlap cid key v f p;
      rs ← evaluate_all cid key f items;
      Ret (res :: rs)
  end.

(** The observations of a process: its clock gives their times. *)
Definition observations (clock : nat → Z) (tick : nat) (items : list (string * gomap)) : list Obs :=
  imap (λ i '(v, p), mkObs (Unix (clock (tick + i)%nat)) v p) items.

Lemma observations_cons clock tick v p items :
  observations clock tick ((v, p) :: items) =
  mkObs (Unix (clock tick)) v p :: observations clock (S tick) items.
Proof.
  unfold observations. simpl. rewrite Nat.add_0_r. f_equal.
  apply imap_ext. intros i [v' p'] _. simpl. by rewrite Nat.add_succ_r.
Qed.

(** The stored version leaves room for [n] more writes. *)
Definition version_room (st : option (Edge * Z)) (n : nat) : Prop :=
  default 0 (snd <$> st) + Z.of_nat n < int64_max.

Lemma run_evaluate_all c k f items (w : world) :
  total_handler hc → total_handler hp → reliable hd →
  ValidString c = true → ValidString k = true →
  ds_inv (w_data w) → scope_typed (scope_state hd w c k) →
  version_room (scope_state hd w c k) (length items) →
  (∀ n, is_int64 (Unix (w_clock w n))) → Forall (λ i, ValidString i.1 = true) items →
  ∃ w', run app (evaluate_all c k f items) w =
          (Some (observe_all k f (observations (w_clock w) (w_tick w) items)
                   (fst <$> scope_state hd w c k)).2, w') ∧
        ds_inv (w_data w') ∧
        fst <$> scope_state hd w' c k =
          (observe_all k f (observations (w_clock w) (w_tick w) items)
             (fst <$> scope_state hd w c k)).1.
Proof.
  intros Hc Hp Hrel Htc Htk. revert w. induction items as [|[v p] items IH];
    intros w Hinv Hty Hroom Hclock Hval; [by exists w|].
  inversion Hval as [|? ? Hv Hval']; subst. simpl in Hv.
  destruct (run_evaluate hd hc hp Hc Hp c k v f p w Hrel Hinv Htc Htk Hty (Hclock _) Hv)
    as (res & w1 & Hrun & [Hres Hinv1 [Hcl Htick] Hst Hframe Htyped]).
  unfold version_room in *. simpl length in Hroom.
  destruct (IH w1) as (w' & Hrun' & Hinv' & Hst'); [done| | |by rewrite Hcl|done|].
  - intros e ver He. destruct (Htyped _ _ He). split; [done|lia].
  - destruct (scope_state hd w1 c k) as [[e ver]|] eqn:He; simpl; [|].
    + destruct (Htyped _ _ eq_refl) as [_ Hver]. lia.
    + destruct (scope_state hd w c k) as [[e0 v0]|] eqn:He0; simpl in *; [|lia].
      destruct (Hty _ _ eq_refl). lia.
  - exists w'. rewrite observations_cons. cbn [evaluate_all observe_all]. unfold mbind, prog_mbind.
    fold (w_now w). rewrite run_bind, Hrun, run_bind, Hrun'. cbn [run ob_now ob_val ob_payload].
    rewrite Hcl, Htick, Hst in *. subst res.
    destruct (observe _ _ _ _ _ _) as [st r]. simpl in *. by destruct (observe_all _ _ _ _).
Qed.

(** C11: running the code is the abstract behaviour: against any data store that
    keeps its contract and does not fail, a sequence of evaluations of one scope
    returns exactly the results of [observe_all] on the values and times
    observed, and leaves its final state in the store. *)
Theorem evaluations_refine_observe_all c k f items (w : world) :
  total_handler hc → total_handler hp → reliable hd →
  ValidString c = true → ValidString k = true →
  ds_inv (w_data w) → scope_typed (scope_state hd w c k) →
  version_room (scope_state hd w c k) (length items) →
  (∀ n, is_int64 (Unix (w_clock w n))) → Forall (λ i, ValidString i.1 = true) items →
  ∃ w', run app (evaluate_all c k f items) w =
          (Some (observe_all k f (observations (w_clock w) (w_tick w) items)
                   (fst <$> scope_state hd w c k)).2, w') ∧
        ds_inv (w_data w') ∧
        fst <$> scope_state hd w' c k =
          (observe_all k f (observations (w_clock w) (w_tick w) items)
             (fst <$> scope_state hd w c k)).1.
Proof. apply run_evaluate_all. Qed.

(** ** What runs of the code do over time *)

(** A scope in a state the stores can hold, with room for [n] more writes. *)
Record serviceable (c k : string) (n : nat) (w : world) : Prop := {
  sv_client : ValidString c = true;
  sv_key : ValidString k = true;
  sv_store : ds_inv (w_data w);
  sv_typed : scope_typed (scope_state hd w c k);
  sv_room : version_room (scope_state hd w c k) n;
  sv_clock i : is_int64 (Unix (w_clock w i));
}.

(** Values of UTF-8 text with payloads that can be encoded. *)
Definition observable (i : string * gomap) : Prop :=
  ValidString i.1 = true ∧ ∃ s, EncodePayload i.2 = inl s.

Lemma observations_encodable clock tick items :
  Forall observable items → Forall encodable (observations clock tick items).
Proof.
  intros H. revert tick. induction H as [|[v p] items [_ Hp] _ IH]; intros tick; [done|].
  rewrite observations_cons. by constructor.
Qed.

Lemma observations_values clock tick items : ob_val <$> observations clock tick items = items.*1.
Proof.
  revert tick. induction items as [|[v p] items IH]; intros tick; [done|].
  rewrite observations_cons, !fmap_cons. simpl. by rewrite IH.
Qed.

Lemma observations_length clock tick items : length (observations clock tick items) = length items.
Proof. apply length_imap. Qed.

Context (Hc : total_handler hc) (Hp : total_handler hp) (Hrel : reliable hd).

Lemma run_observations c k f items (w : world) :
  serviceable c k (length items) w → Forall observable items →
  let obs := observations (w_clock w) (w_tick w) items in
  ∃ w', run app (evaluate_all c k f items) w = (Some (observe_all k f obs (fst <$> scope_state hd w c k)).2, w') ∧
        fst <$> scope_state hd w' c k = (observe_all k f obs (fst <$> scope_state hd w c k)).1.
Proof using Hc Hp Hrel.
  intros [] Hobs. destruct (run_evaluate_all c k f items w) as (w' & H1 & _ & H2); try done.
  - eapply Forall_impl; [exact Hobs|]. by intros i [].
  - by exists w'.
Qed.

End refinement.

Section claims.
Context `{L : Lib}.
Context {St CSt PSt : Type} (hd : handler DataStoreE St).
Context (hc : handler ClientStoreE CSt) (hp : handler PublisherE PSt).
Context `{!DataStore hd}.

#[local] Notation world := (World St CSt PSt).
#[local] Notation app := (app_handler hd hc hp).

(** C12: without flap control the code forwards exactly the changes of the watched
    value. Evaluating any sequence of notifications of a scope against a store
    that keeps its contract and does not fail, a notification is forwarded when
    its value differs from the one before it (the stored one for the first, or
    when nothing was stored) and ignored otherwise; the store is left with the
    last value. *)
Theorem edges_are_changes c k items (w : world) :
  total_handler hc → total_handler hp → reliable hd →
  serviceable hd c k (length items) w → Forall observable items →
  let prev := LastValue ∘ fst <$> scope_state hd w c k in
  ∃ w', run app (evaluate_all c k None items) w =
          (Some ((λ a, (a, None, None)) <$> changes prev items.*1), w') ∧
        LastValue ∘ fst <$> scope_state hd w' c k =
          match last items.*1 with Some v => Some v | None => prev end.
Proof.
  intros Hc Hp Hrel Hsv Hobs. cbv zeta.
  destruct (run_observations hd hc hp Hc Hp Hrel c k None items w Hsv Hobs) as (w' & Hrun & Hst).
  destruct (observe_all_plain k (observations (w_clock w) (w_tick w) items) (fst <$> scope_state hd w c k))
    as [H1 H2]; [by apply observations_encodable|].
  exists w'. rewrite observations_values in H1, H2. rewrite !option_fmap_compose. by rewrite Hrun, H1, Hst.
Qed.

(** C5: while a window is open, aggregation neither loses a flip nor reports one
    twice, provided that the threshold is between 2 and the history limit of 128
    and at most [AggregateMaxItems], and that there is neither tolerance nor
    cooldown. Then, after any sequence of evaluations inside the window, the flips
    listed by the aggregates that were sent, followed by the flips still held back
    in the stored state, are exactly the flips held before followed by those
    observed, in order; fewer than [AggregateAt] are held back. (The counter must
    not overflow.) *)
Theorem aggregates_lose_nothing c k f items (w : world) e ver :
  total_handler hc → total_handler hp → reliable hd →
  serviceable hd c k (length items) w → Forall observable items →
  scope_state hd w c k = Some (e, ver) → ScopeKey e = k →
  steady f → AggregateAt f <= AggregateMaxItems f → agg_inv f e →
  let obs := observations (w_clock w) (w_tick w) items in
  in_window f (WindowStart e) (LastChangeTS e) obs →
  FlipCount e + Z.of_nat (length items) <= int64_max →
  ∃ rs e' ver' w',
    run app (evaluate_all c k (Some f) items) w = (Some rs, w') ∧
    scope_state hd w' c k = Some (e', ver') ∧
    reported rs ++ (aggregate_item <$> Recent e') =
      aggregate_item <$> (Recent e ++ flips_of (LastValue e) obs) ∧
    Z.of_nat (length (Recent e')) < AggregateAt f ∧ agg_inv f e'.
Proof.
  intros Hc Hp Hrel Hsv Hobs Hst Hkey Hsd Hmax Hinv obs Hwin Hcnt.
  destruct (run_observations hd hc hp Hc Hp Hrel c k (Some f) items w Hsv Hobs) as (w' & Hrun & Hst').
  rewrite Hst in Hrun, Hst'. simpl in Hrun, Hst'.
  destruct (observe_all_steady k f obs e) as (e' & H1 & Hinv' & _ & Hrep); try done.
  { subst obs. by rewrite observations_length. }
  subst obs. rewrite H1 in Hst'. destruct (scope_state hd w' c k) as [[e1 ver']|] eqn:Hs'; simplify_eq/=.
  eexists _, e', ver', w'. split_and!; [done..| |done].
  destruct Hinv' as [_ -> _], Hsd. apply Z.mod_pos_bound. lia.
Qed.

(** C19: aggregates are periodic: with a threshold between 2 and 128 and neither
    tolerance nor cooldown, the evaluation of a flip inside an open window sends
    an aggregate exactly when the number of the flip in its window is a multiple
    of [AggregateAt]; that aggregate lists the flips held, newest first, up to
    [AggregateMaxItems], and the stored history is emptied; every other flip is
    suppressed and kept. *)
Theorem aggregate_every_nth c k f v p (w : world) e ver s :
  total_handler hc → total_handler hp → reliable hd →
  serviceable hd c k 1 w → ValidString v = true → EncodePayload p = inl s →
  scope_state hd w c k = Some (e, ver) → ScopeKey e = k →
  steady f → agg_inv f e →
  let now := Unix (w_now w) in
  LastValue e ≠ v → LastChangeTS e <= now → FlipCount e < int64_max → ¬ window_over now f e →
  let rs := Recent e ++ [mkFlip now (LastValue e) v s] in
  let n := FlipCount e + 1 in
  ∃ e' ver' w',
    run app (EvaluateEdgeAndFlap c k v (Some f) p) w =
      (Some (if decide (n mod AggregateAt f = 0) then (AggregateSent, aggregate_of e' f rs, None)
             else (SuppressFlapping, None, None)), w') ∧
    scope_state hd w' c k = Some (e', ver') ∧
    FlipCount e' = n ∧ Recent e' = (if decide (n mod AggregateAt f = 0) then [] else rs) ∧ agg_inv f e'.
Proof.
  intros Hc Hp Hrel [] Hv Hs Hst Hkey Hsd Hinv now Hne Hts Hcnt Hwin.
  destruct (run_evaluate hd hc hp Hc Hp c k v (Some f) p w) as (res & w' & Hrun & [Hres _ _ Hst' _ _]); try done; [apply sv_clock0|].
  destruct (observe_steady k f e (mkObs now v p)) as (e' & Hobs & Hi & _ & Hn & _ & _ & _ & Hr); try done; [by exists s|apply sv_clock0|].
  unfold flip_of in Hobs, Hr. cbn [ob_now ob_val ob_payload] in Hobs, Hn, Hr. rewrite Hs in Hobs, Hr.
  rewrite Hst in Hres, Hst'. change (fst <$> Some (e, ver)) with (Some e) in Hres, Hst'.
  subst now. rewrite Hobs in Hres, Hst'.
  destruct (scope_state hd w' c k) as [[e1 ver']|] eqn:Hs'; simplify_eq/=.
  exists e', ver', w'. by split_and!.
Qed.

(** C31: with tolerance and without aggregation, evaluating any notifications inside
    a window suppresses the flips of the window numbered up to [SuppressBelow] and
    forwards all later ones; unchanged values are ignored. The bound counts flips,
    not seconds. *)
Theorem suppress_counts_flips c k f items (w : world) e ver now :
  total_handler hc → total_handler hp → reliable hd →
  serviceable hd c k (length items) w → Forall observable items →
  scope_state hd w c k = Some (e, ver) → AggregateAt f <= 0 →
  let obs := observations (w_clock w) (w_tick w) items in
  in_window f (WindowStart e) now obs →
  0 <= FlipCount e → FlipCount e + Z.of_nat (length items) <= int64_max →
  ∃ w', run app (evaluate_all c k (Some f) items) w =
          (Some ((λ a, (a, None, None)) <$> tolerate (SuppressBelow f) (FlipCount e) (LastValue e) obs), w').
Proof.
  intros Hc Hp Hrel Hsv Hobs Hst Hat obs Hwin H0 Hcnt.
  destruct (run_observations hd hc hp Hc Hp Hrel c k (Some f) items w Hsv Hobs) as (w' & Hrun & _).
  rewrite Hst in Hrun. exists w'. rewrite Hrun. simpl.
  rewrite (observe_all_tolerant k f obs e now); try done. subst obs. by rewrite observations_length.
Qed.

End claims.

(** ** Witnesses *)

Definition demo_items : list (string * gomap) :=
  [("a", demo_payload "a"); ("a", demo_payload "a"); ("b", demo_payload "b")].

Lemma evaluations_refine_observe_all_witness :
  ∃ w', run mem_app (evaluate_all "c" "k" None demo_items) still_world =
        (Some [(EdgeTriggeredForward, None, None); (NoOp, None, None); (EdgeTriggeredForward, None, None)], w').
Proof.
  destruct (evaluations_refine_observe_all mem_data mem_clients mem_pub "c" "k" None demo_items still_world)
    as (w' & Hrun & _).
  - exact mem_clients_total.
  - exact mem_pub_total.
  - exact mem_reliable.
  - reflexivity.
  - reflexivity.
  - exact I.
  - intros e ver H. discriminate H.
  - vm_compute. reflexivity.
  - intros n. vm_compute. by split.
  - repeat constructor.
  - exists w'. exact Hrun.
Defined.

(** A store with the state of one flip into a window of [cfg_agg], at second 13. *)
Definition demo_edge : Edge := mkEdge "k" "b" 12 10 1 [mkFlip 12 "a" "b" "dj1i"] 0 0.

Definition demo_world : MemWorld :=
  mkWorld (λ _, 13 * Second) 0 (mkMem {[ ("c", "k") := (demo_edge, 1%positive) ]} ∅) ∅ [] ∅ [] [].

Lemma demo_edge_inv : agg_inv cfg_agg demo_edge.
Proof. by split. Qed.

Lemma cfg_agg_steady : steady cfg_agg.
Proof. by split. Qed.

Lemma demo_edge_typed : edge_typed demo_edge.
Proof. split; try done. apply Forall_singleton. by split. Qed.

Lemma demo_serviceable n : Z.of_nat n < 1000 → serviceable mem_data "c" "k" n demo_world.
Proof.
  intros Hn. split; try done.
  - intros e ver [= <- <-]. split; [exact demo_edge_typed|by vm_compute].
  - change (1 + Z.of_nat n < int64_max). int_lia.
Qed.

Lemma still_serviceable n : Z.of_nat n < 1000 → serviceable mem_data "c" "k" n still_world.
Proof. intros Hn. split; try done. change (0 + Z.of_nat n < int64_max). int_lia. Qed.

Definition demo_flips (vals : list string) : list (string * gomap) := (λ v, (v, demo_payload v)) <$> vals.

Lemma demo_observable vals : Forall (λ v, ValidString v = true) vals → Forall observable (demo_flips vals).
Proof. intros H. apply Forall_fmap. eapply Forall_impl; [exact H|]. intros v Hv. split; [done|by eexists]. Qed.

Lemma edges_are_changes_witness :
  ∃ w', run mem_app (evaluate_all "c" "k" None (demo_flips ["a"; "a"; "b"])) still_world =
        (Some [(EdgeTriggeredForward, None, None); (NoOp, None, None); (EdgeTriggeredForward, None, None)], w').
Proof.
  destruct (edges_are_changes mem_data mem_clients mem_pub "c" "k" (demo_flips ["a"; "a"; "b"]) still_world)
    as (w' & Hrun & _).
  - exact mem_clients_total.
  - exact mem_pub_total.
  - exact mem_reliable.
  - apply still_serviceable. reflexivity.
  - apply demo_observable. repeat constructor.
  - exists w'. exact Hrun.
Defined.

Definition demo_window : list string := ["c"; "c"; "d"; "e"].

Lemma demo_in_window f :
  WindowSeconds f = 300 → in_window f 10 12 (observations (w_clock demo_world) 0 (demo_flips demo_window)).
Proof. intros Hw. repeat constructor; simpl; rewrite ?Hw; try (by eexists); by vm_compute. Qed.

Lemma aggregates_lose_nothing_witness :
  ∃ rs e' ver' w', run mem_app (evaluate_all "c" "k" (Some cfg_agg) (demo_flips demo_window)) demo_world = (Some rs, w') ∧
    scope_state mem_data w' "c" "k" = Some (e', ver') ∧ Z.of_nat (length (Recent e')) < 3.
Proof.
  destruct (aggregates_lose_nothing mem_data mem_clients mem_pub "c" "k" cfg_agg (demo_flips demo_window) demo_world
              demo_edge 1) as (rs & e' & ver' & w' & H1 & H2 & _ & H3 & _).
  - exact mem_clients_total.
  - exact mem_pub_total.
  - exact mem_reliable.
  - apply demo_serviceable. reflexivity.
  - apply demo_observable. repeat constructor.
  - reflexivity.
  - reflexivity.
  - exact cfg_agg_steady.
  - discriminate.
  - exact demo_edge_inv.
  - apply demo_in_window. reflexivity.
  - discriminate.
  - exists rs, e', ver', w'. split; [exact H1|split; [exact H2|exact H3]].
Defined.

Lemma aggregate_every_nth_witness :
  ∃ w', run mem_app (EvaluateEdgeAndFlap "c" "k" "c" (Some cfg_agg) (demo_payload "c")) demo_world =
        (Some (SuppressFlapping, None, None), w').
Proof.
  destruct (aggregate_every_nth mem_data mem_clients mem_pub "c" "k" cfg_agg "c" (demo_payload "c") demo_world
              demo_edge 1 "dj1j") as (e' & ver' & w' & H & _).
  - exact mem_clients_total.
  - exact mem_pub_total.
  - exact mem_reliable.
  - apply demo_serviceable. reflexivity.
  - reflexivity.
  - reflexivity.
  - reflexivity.
  - reflexivity.
  - exact cfg_agg_steady.
  - exact demo_edge_inv.
  - discriminate.
  - discriminate.
  - reflexivity.
  - vm_compute. intros [_ H]. discriminate H.
  - exists w'. exact H.
Defined.

Definition cfg_tolerant := mkFlapConfig 300 2 0 10 0.

Lemma suppress_counts_flips_witness :
  ∃ w', run mem_app (evaluate_all "c" "k" (Some cfg_tolerant) (demo_flips demo_window)) demo_world =
        (Some [(SuppressFlapping, None, None); (NoOp, None, None); (EdgeTriggeredForward, None, None);
               (EdgeTriggeredForward, None, None)], w').
Proof.
  apply (suppress_counts_flips mem_data mem_clients mem_pub "c" "k" cfg_tolerant (demo_flips demo_window) demo_world
           demo_edge 1 12).
  - exact mem_clients_total.
  - exact mem_pub_total.
  - exact mem_reliable.
  - apply demo_serviceable. reflexivity.
  - apply demo_observable. repeat constructor.
  - reflexivity.
  - discriminate.
  - apply demo_in_window. reflexivity.
  - discriminate.
  - discriminate.
Defined.
