(* ===== verification/Concurrency.v ===== *)
(** * Concurrent evaluations

    Any number of processes evaluate notifications of one scope at the same
    time, their calls interleaved in any order; each call to the data store is
    atomic (one request of the backend). The store has the contract of
    [StoreSpec.v] and may fail. *)

From S2P Require Import Prelude Errors Text Types Effects Ports Base64 DemoLib EdgeFlap EdgeProps StoreSpec MemStore.

Definition Result : Type := Action * gomap * option error.

(** A thread that ended with a notification to publish. *)
Definition announced (p : prog AppE Result) : bool :=
  match p with
  | Ret (a, _, _) => bool_decide (a = EdgeTriggeredForward ∨ a = AggregateSent)
  | _ => false
  end.

(** The version a thread is about to compare with. *)
Definition pending (p : prog AppE Result) : option Z :=
  match p with
  | Vis e _ =>
      match e with
      | dataE e => match e with UpsertCAS _ _ prev _ => Some prev | _ => None end
      | _ => None
      end
  | _ => None
  end.

Section threads.
Context `{L : Lib} (c k newVal : string).

(** What a load of a well-typed state leads to: the end, or a write conditional
    on the version read, if the value differs. *)
Definition after_load (st : option Edge) (ver : Z) (p : prog AppE Result) : Prop :=
  announced p = false ∧
  match pending p with
  | None => True
  | Some prev =>
      match st with
      | None => prev = 0
      | Some e => LastValue e ≠ newVal ∧ prev = ver
      end
  end.

(** The programs an evaluation of [newVal] runs through. *)
Fixpoint evaluating (p : prog AppE Result) : Prop :=
  match p with
  | Ret _ => True
  | Panic => False
  | Vis e kk =>
      match e in AppE X return (X → prog AppE Result) → (X → Prop) → Prop with
      | clockE e =>
          match e in ClockE X return (X → prog AppE Result) → (X → Prop) → Prop with
          | FlowTimeNow => λ kk rest,
              ∀ t, is_int64 (Unix t) → announced (kk t) = false ∧ pending (kk t) = None ∧ rest t
          | TimeNow => λ _ _, False
          end
      | dataE e =>
          match e in DataStoreE X return (X → prog AppE Result) → (X → Prop) → Prop with
          | Load c' k' => λ kk rest,
              (c', k') = (c, k) ∧
              ∀ (st : option Edge) (ver : Z) (err : option error),
                (err = None → ∀ e, st = Some e → edge_typed e) →
                after_load (if err then None else st) ver (kk (st, ver, err)) ∧
                (is_Some err → pending (kk (st, ver, err)) = None) ∧ rest (st, ver, err)
          | UpsertCAS c' k' prev next => λ kk _,
              (c', k') = (c, k) ∧ LastValue next = newVal ∧ edge_typed next ∧
              ∀ r, ∃ res, kk r = Ret res ∧ (announced (Ret res) = true → r = (true, None))
          | _ => λ _ _, False
          end
      | _ => λ _ _, False
      end kk (λ x, evaluating (kk x))
  end.

Lemma settle_announced o r : announced (Ret (settle o r)) = true → r = (true, None).
Proof. by destruct o, r as [[] [?|]]. Qed.

Lemma settle_first_announced r : announced (Ret (settle_first r)) = true → r = (true, None).
Proof. by destruct r as [[] [?|]]. Qed.

(** The write of a flip, as one call. *)
Lemma evaluating_upsert prev next o (kk : bool * option error → prog AppE Result) :
  LastValue next = newVal → edge_typed next → (∀ r, kk r = Ret (settle o r)) →
  evaluating (Vis (dataE (UpsertCAS c k prev next)) kk).
Proof.
  intros Hv Ht Hk. simpl. split_and!; [done..|]. intros r. exists (settle o r).
  split; [done|]. apply settle_announced.
Qed.

Lemma Evaluate_evaluating f payload :
  ValidString newVal = true → evaluating (EvaluateEdgeAndFlap c k newVal f payload).
Proof.
  intros Hval. unfold EvaluateEdgeAndFlap, EpochTime, forward_edge. prog_simpl.
  intros t Ht. split; [done|]. split; [done|]. split; [done|].
  intros st ver [err|] Hty; [done|]. destruct st as [e|]; last first.
  { split; [done|]. split; [by intros [? ?]|]. split_and!; [done|done|by apply first_edge_typed|].
    intros r. exists (settle_first r). split; [by destruct r as [[] [?|]]|]. apply settle_first_announced. }
  case_decide as Hne; [done|].
  destruct (EncodePayload payload) as [encoded|err] eqn:Henc; [|done].
  specialize (Hty eq_refl e eq_refl). apply EncodePayload_text in Henc.
  destruct (flip_next_total (Unix t) newVal encoded f e) as (e' & o & Hn).
  pose proof (flip_next_value _ _ _ _ _ _ _ Hn) as Hv.
  pose proof (flip_next_typed _ _ _ _ _ _ _ Hty Ht Hval Henc Hn) as Ht'.
  pose proof (λ kk, evaluating_upsert ver e' o kk Hv Ht') as Hup.
  revert Hn. unfold flip_next. rewrite record_flip_eq. simpl.
  assert (∀ kk, (∀ r, kk r = Ret (settle o r)) →
    after_load (Some e) ver (Vis (dataE (UpsertCAS c k ver e')) kk) ∧
    (is_Some (@None error) → Some ver = None) ∧
    evaluating (Vis (dataE (UpsertCAS c k ver e')) kk)) as Hwrite.
  { intros kk Hk. split; [done|]. split; [by intros [? ?]|]. by apply Hup. }
  destruct f as [f|].
  - rewrite roll_window_eq. simpl. case_decide; [|case_decide].
    + intros [= <- <-]. by apply Hwrite.
    + destruct (aggregate_step _ _ _) as [[[a agg] e'']|]; [|done]. simpl. intros [= <- <-].
      apply Hwrite. by intros [[] [?|]].
    + intros [= <- <-]. apply Hwrite. by intros [[] [?|]].
  - intros [= <- <-]. apply Hwrite. by intros [[] [?|]].
Qed.

End threads.

(** ** The pool *)

Section pool.
Context {St CSt PSt : Type} (hd : handler DataStoreE St).
Context (hc : handler ClientStoreE CSt) (hp : handler PublisherE PSt).
Context `{!DataStore hd} (c k newVal : string).

#[local] Notation world := (World St CSt PSt).
#[local] Notation app := (app_handler hd hc hp).

(** The state of the scope at the start, and the version a first write needs. *)
Context (cur0 : option (Edge * Z)).

Definition version0 : Z := match cur0 with None => 0 | Some (_, v) => v end.

Definition fresh_value : Prop :=
  ∀ e v, cur0 = Some (e, v) → LastValue e ≠ newVal ∧ edge_typed e ∧ 0 < v < int64_max.

Definition cur (w : world) : option (Edge * Z) := ds_edge (w_data w) c k.

(** Either nothing was written yet and nobody announced, or the new value is
    there, one version on, and at most one thread announced it. *)
Definition progress (ps : list (prog AppE Result)) (w : world) : Prop :=
  (cur w = cur0 ∧ tally announced ps = 0) ∨
  (∃ e, cur w = Some (e, version0 + 1) ∧ LastValue e = newVal ∧ edge_typed e ∧ tally announced ps <= 1).

Record pool_inv (cfg : list (prog AppE Result) * world) : Prop := {
  pi_store : ds_inv (w_data cfg.2);
  pi_clock : ∀ n, is_int64 (Unix (w_clock cfg.2 n));
  pi_threads : Forall (evaluating c k newVal) cfg.1;
  pi_pending : Forall (λ p, ∀ prev, pending p = Some prev → prev = version0) cfg.1;
  pi_progress : progress cfg.1 cfg.2;
}.

Lemma cur_typed ps w e v :
  fresh_value → progress ps w → cur w = Some (e, v) → edge_typed e.
Proof. intros Hf [[-> _]|(e' & -> & _ & Ht & _)] He; [by apply Hf in He as (_ & ? & _)|congruence]. Qed.

(** A thread that moves without announcing or changing the scope. *)
Lemma progress_silent ps w w' i p q :
  ps !! i = Some p → announced p = false → announced q = false → cur w' = cur w →
  progress ps w → progress (<[i := q]> ps) w'.
Proof.
  intros Hi Hp Hq Hc. unfold progress. rewrite Hc, (tally_insert _ _ _ _ _ Hi), Hp, Hq. simpl.
  by rewrite Z.sub_0_r, Z.add_0_r.
Qed.

Lemma version0_range : fresh_value → 0 <= version0 < int64_max.
Proof.
  intros Hf. unfold version0. destruct cur0 as [[e v]|] eqn:H0; [|int_lia].
  destruct (Hf e v H0) as (_ & _ & ?). lia.
Qed.

(** The write of a thread. *)
Lemma progress_upsert ps (w w' : world) i p res next (ok : bool) (err : option error) :
  fresh_value → ps !! i = Some p → announced p = false → LastValue next = newVal → edge_typed next →
  (announced (Ret res) = true → (ok, err) = (true, None)) →
  match err, ok with
  | None, true => cas_pre (cur w) version0 ∧ cur w' = Some (stored k next, version0 + 1)
  | None, false => ¬ cas_pre (cur w) version0 ∧ cur w' = cur w
  | Some _, _ => cur w' = cur w ∨
      (cas_pre (cur w) version0 ∧ cur w' = Some (stored k next, version0 + 1))
  end →
  progress ps w → progress (<[i := Ret res]> ps) w'.
Proof.
  intros Hf Hi Hp Hv Ht Hann Hcas Hprog.
  assert (cur w' = cur w ∧ (ok, err) ≠ (true, None) ∨
          cas_pre (cur w) version0 ∧ cur w' = Some (stored k next, version0 + 1)) as Hcase.
  { destruct err as [err|], ok; naive_solver. }
  destruct Hcase as [[Hsame Hno]|[Hpre Hnew]].
  { apply (progress_silent ps w w' i p); try done. destruct (announced (Ret res)); naive_solver. }
  right. exists (stored k next). split; [done|]. split; [done|]. split; [by destruct Ht|].
  assert (tally announced ps = 0) as Hzero.
  { destruct Hprog as [[_ ->]|(e & He & _)]; [done|]. rewrite He in Hpre. simpl in Hpre. lia. }
  rewrite (tally_insert _ _ _ _ _ Hi), Hp, Hzero. destruct (announced (Ret res)); simpl; lia.
Qed.

Lemma pool_inv_step cfg cfg' :
  ValidString c = true → ValidString k = true → fresh_value →
  pool_step app cfg cfg' → pool_inv cfg → pool_inv cfg'.
Proof.
  intros Hc Hk Hf Hstep [Hinv Hclock Hth Hpend Hprog].
  destruct Hstep as [i X e kk ps w x w' Hi Hh|i X e kk ps w w' Hi Hh];
    pose proof (Forall_lookup_1 _ _ _ _ Hth Hi) as Hev; simpl in Hev;
    pose proof (Forall_lookup_1 _ _ _ _ Hpend Hi) as Hpi; simpl in *;
    destruct e as [Y e|Y e| | | |]; try done; destruct e; try done; simpl in *.
  - injection Hh as <- <-. destruct (Hev (w_now w) (Hclock _)) as (Hq & Hpn & Hrest).
    split; simpl; try done.
    + by apply Forall_insert.
    + apply Forall_insert; [done|]. by rewrite Hpn.
    + by apply (progress_silent ps w _ i _ _ Hi).
  - destruct Hev as [[= -> ->] Hev].
    destruct (hd _ (Load c k) (w_data w)) as [[[[st ver] err]|] s'] eqn:Hl; [|done]. injection Hh as <- <-.
    apply ds_load in Hl as (Hinv' & Hview & Hst); [|done..].
    destruct (Hev st ver err) as ([Hq Haft] & Herr & Hrest).
    { intros -> e He. specialize (Hst eq_refl). rewrite He in Hst. destruct Hst as [Hst _].
      eapply edge_typed_version, (cur_typed ps w); done. }
    split; simpl; try done.
    + by apply Forall_insert.
    + apply Forall_insert; [done|]. intros prev Hprev.
      destruct err as [err|]; [by rewrite Herr in Hprev|]. rewrite Hprev in Haft. specialize (Hst eq_refl).
      destruct Hprog as [[Hcur _]|(e & Hcur & Hval & _)]; unfold cur in Hcur; rewrite Hcur in Hst; unfold version0.
      * destruct st as [e|]; destruct Hst as [-> ?]; naive_solver.
      * destruct st as [e'|]; destruct Hst as [Heq ?]; simplify_eq. by destruct Haft.
    + apply (progress_silent ps w _ i _ _ Hi); try done. apply Hview.
  - destruct Hev as ([= -> ->] & Hval & Hty & Hret). specialize (Hpi prevVersion eq_refl). subst prevVersion.
    destruct (hd _ (UpsertCAS c k version0 next) (w_data w)) as [[[ok err]|] s'] eqn:Hu; [|done].
    injection Hh as <- <-. destruct (Hret (ok, err)) as (res & Hres & Hann). rewrite Hres.
    apply ds_upsert in Hu as (Hinv' & _ & Hcas); [|done..|by apply version0_range].
    split; simpl; try done.
    + by apply Forall_insert.
    + by apply Forall_insert.
    + by apply (progress_upsert ps w (set_data s' w) i _ res next ok err Hf Hi).
  - destruct (ds_total _ (Load clientID scopeKey) (w_data w)) as (r & s' & Hr). by rewrite Hr in Hh.
  - destruct (ds_total _ (UpsertCAS clientID scopeKey prevVersion next) (w_data w)) as (r & s' & Hr).
    by rewrite Hr in Hh.
Qed.

Lemma pool_inv_steps cfg cfg' :
  ValidString c = true → ValidString k = true → fresh_value →
  rtc (pool_step app) cfg cfg' → pool_inv cfg → pool_inv cfg'.
Proof.
  intros Hc Hk Hf. induction 1 as [|c1 c2 c3 Hstep _ IH]; [done|].
  intros Hcfg. apply IH. by eapply pool_inv_step.
Qed.

End pool.

Section claims.
Context `{L : Lib} {St CSt PSt : Type} (hd : handler DataStoreE St).
Context (hc : handler ClientStoreE CSt) (hp : handler PublisherE PSt) `{!DataStore hd}.

(** Evaluations that have not started, and what holds after any number of steps. *)
Lemma pool_inv_start c k newVal jobs (w : World St CSt PSt) :
  ValidString newVal = true → ds_inv (w_data w) → (∀ n, is_int64 (Unix (w_clock w n))) →
  pool_inv hd c k newVal (scope_state hd w c k)
    ((λ '(f, payload), EvaluateEdgeAndFlap c k newVal f payload) <$> jobs, w).
Proof.
  intros Hv Hinv Hclock. split; simpl; try done.
  - apply Forall_fmap, Forall_true. intros [f payload]. by apply Evaluate_evaluating.
  - apply Forall_fmap, Forall_true. by intros [f payload].
  - left. split; [done|]. apply tally_none, Forall_fmap, Forall_true. by intros [f payload].
Qed.

Lemma pool_inv_announced c k newVal cur0 ps (w : World St CSt PSt) :
  pool_inv hd c k newVal cur0 (ps, w) →
  tally announced ps <= 1 ∧
  (tally announced ps = 1 →
   ∃ e, scope_state hd w c k = Some (e, version0 cur0 + 1) ∧ LastValue e = newVal).
Proof.
  intros [_ _ _ _ [[_ H0]|(e & He & Hval & _ & H1)]]; simpl in *; [rewrite H0; lia|]. split; [done|].
  intros _. by exists e.
Qed.

(** C2: a change of value is announced at most once, however many processes see it
    at the same time: of any number of evaluations of one new value, with their
    calls interleaved in any order and a store that may fail, at most one asks for
    a notification, and then the new value is the stored one, exactly one version
    on. *)
Theorem edge_announced_once c k newVal jobs (w : World St CSt PSt) ps' w' :
  ValidString c = true → ValidString k = true → ValidString newVal = true →
  ds_inv (w_data w) → (∀ n, is_int64 (Unix (w_clock w n))) →
  fresh_value newVal (scope_state hd w c k) →
  rtc (pool_step (app_handler hd hc hp))
      ((λ '(f, payload), EvaluateEdgeAndFlap c k newVal f payload) <$> jobs, w) (ps', w') →
  tally announced ps' <= 1 ∧
  (tally announced ps' = 1 →
   ∃ e, scope_state hd w' c k = Some (e, version0 (scope_state hd w c k) + 1) ∧ LastValue e = newVal).
Proof.
  intros Hc Hk Hv Hinv Hclock Hf Hsteps. apply pool_inv_announced.
  eapply (pool_inv_steps hd hc hp); [done|done|exact Hf|exact Hsteps|]. by apply pool_inv_start.
Qed.

End claims.

(** ** Witness *)

Definition demo_jobs : list (option FlapConfig * gomap) := [(None, demo_payload "b"); (None, demo_payload "b")].

(** Two processes see the first value [b]; both load before either writes. *)
Definition demo_race : list (prog AppE Result) * MemWorld :=
  run_schedule mem_app [0; 1; 0; 1; 0; 1]%nat
    ((λ '(f, payload), EvaluateEdgeAndFlap "c" "k" "b" f payload) <$> demo_jobs) still_world.

Example demo_race_result :
  demo_race.1 = [Ret (EdgeTriggeredForward, None, None); Ret (SuppressFlapping, None, None)].
Proof. vm_compute. reflexivity. Qed.

Lemma edge_announced_once_witness : tally announced demo_race.1 <= 1.
Proof.
  apply (edge_announced_once mem_data mem_clients mem_pub "c" "k" "b" demo_jobs still_world
           demo_race.1 demo_race.2).
  - reflexivity.
  - reflexivity.
  - reflexivity.
  - exact I.
  - intros n. vm_compute. by split.
  - intros e v H. discriminate H.
  - rewrite <- surjective_pairing. apply run_schedule_steps.
Defined.
