(* ===== verification/Ttl.v ===== *)
(** * [flow/ttl.go]: the in-process TTL cache

    The map is shared by all requests; the mutex makes each access to it atomic,
    so an access is one call of [MapE], and the clock is read by a call of its
    own. The section's parameters inject these calls into the signature of the
    program that uses the cache. *)

From S2P Require Import Prelude Errors Types Effects Ports.

(** [NewTTL]: an empty map. *)
Definition NewTTL {V : Type} : gmap string (entry V) := ∅.

(** [cfgCache], which [init] sets when the process starts. *)
Definition cfgCache : gmap string (entry ClientConfig) := NewTTL.

Section ttl.
Context {V : Type} {E : Type → Type}.
Context (inMap : ∀ X, MapE V X → E X) (inClock : ∀ X, ClockE X → E X).

(** [TTL.Get]: the zero value and false when the key is absent or expired. The
    clock is read only when the key is present. *)
Definition TTL_Get (zero : V) (k : string) : prog E (V * bool) :=
  e ← trigger (inMap _ (MapRead k));
  match e with
  | None => mret (zero, false)
  | Some e =>
      now ← trigger (inClock _ TimeNow);
      if decide (now > exp e) then mret (zero, false) else mret (val e, true)
  end.

(** [TTL.Set]. *)
Definition TTL_Set (k : string) (v : V) (ttl : Z) : prog E unit :=
  now ← trigger (inClock _ TimeNow);
  trigger (inMap _ (MapWrite k (mkEntry v (now + ttl)))).

End ttl.

(** ** A cache on its own *)

(** The calls of a cache, and its state: the map and the clock readings to come. *)
Inductive TtlE (V : Type) : Type → Type :=
| tmap {X} (e : MapE V X) : TtlE V X
| tclock {X} (e : ClockE X) : TtlE V X.
Arguments tmap {V X} e.
Arguments tclock {V X} e.

Section cache.
Context {V : Type}.

Definition Cache : Type := gmap string (entry V) * list Z.

(** A clock with no reading left stands still at the epoch; the statements below
    give the readings they use. *)
Definition cache_handler : handler (TtlE V) Cache := λ X e '(m, clock),
  match e with
  | tmap e =>
      match e in MapE _ X return option X * Cache with
      | MapRead k => (Some (m !! k), (m, clock))
      | MapWrite k v => (Some tt, (<[k := v]> m, clock))
      end
  | tclock e =>
      match e in ClockE X return option X * Cache with
      | TimeNow => (Some (default 0 (head clock)), (m, tail clock))
      | FlowTimeNow => (Some (default 0 (head clock)), (m, tail clock))
      end
  end.

Definition get (zero : V) (k : string) : prog (TtlE V) (V * bool) :=
  TTL_Get (λ X, tmap) (λ X, tclock) zero k.
Definition set (k : string) (v : V) (ttl : Z) : prog (TtlE V) unit :=
  TTL_Set (λ X, tmap) (λ X, tclock) k v ttl.

(** A new cache has nothing, and does not read the clock. *)
Lemma get_new zero k clock : run cache_handler (get zero k) (NewTTL, clock) = (Some (zero, false), (NewTTL, clock)).
Proof. unfold NewTTL. simpl. by rewrite lookup_empty. Qed.

(** One [Set] of another key: key, value, time to live. *)
Definition set_all (sets : list (string * V * Z)) : prog (TtlE V) unit :=
  foldr (λ '(k, v, ttl) p, _ ← set k v ttl; p) (mret tt) sets.

Lemma get_after_sets zero k e sets times t1 clock m :
  length times = length sets → Forall (λ s, s.1.1 ≠ k) sets → m !! k = Some e →
  ∃ s, run cache_handler (prog_bind (λ _, get zero k) (set_all sets)) (m, times ++ t1 :: clock) =
       (Some (if decide (t1 <= exp e) then (val e, true) else (zero, false)), s).
Proof.
  revert times m. induction sets as [|[[k' v'] ttl'] sets IH]; intros times m Hlen Hne Hm.
  - destruct times; [|done]. simpl. rewrite Hm. simpl.
    destruct (decide (t1 > exp e)), (decide (t1 <= exp e)); simpl; eauto; lia.
  - destruct times as [|t times]; [done|]. inversion Hne as [|?? Hk Hne']; subst. simpl in Hk.
    simpl. apply IH; [by injection Hlen|done|]. by rewrite lookup_insert_ne.
Qed.

(** A value that was set is returned until its time to live is over and not
    after, whatever is set under other keys in between and whenever. *)
Theorem ttl_get_after_set zero k v ttl t0 sets times t1 m clock :
  length times = length sets → Forall (λ s, s.1.1 ≠ k) sets →
  ∃ s, run cache_handler (_ ← set k v ttl; _ ← set_all sets; get zero k)
         (m, t0 :: times ++ t1 :: clock) =
       (Some (if decide (t1 <= t0 + ttl) then (v, true) else (zero, false)), s).
Proof.
  intros Hlen Hne. simpl.
  apply (get_after_sets zero k (mkEntry v (t0 + ttl)) sets times t1 clock _ Hlen Hne).
  apply lookup_insert_eq.
Qed.

End cache.

Lemma ttl_get_after_set_witness :
  ∃ s, run cache_handler (_ ← set "key1" "v" 200; _ ← set_all [("key2", "w", 5)]; get "" "key1")
         (∅, [1000; 1100; 1250]) = (Some ("", false), s).
Proof.
  apply (ttl_get_after_set "" "key1" "v" 200 1000 [("key2", "w", 5)] [1100] 1250 ∅ []).
  - reflexivity.
  - by repeat constructor.
Defined.
