(* ===== verification/Flow.v ===== *)
(** * [flow/flow.go]: authentication, the cached configuration, and [Run]

    [Run] is the core of the service: the rate limits, the passthrough rule, the
    edge evaluation and the target limit, in the order of the source. *)

From S2P Require Import Prelude Errors Strconv Text Types Effects Ports Base64 DemoLib Jmes EdgeFlap Ttl.

Definition StatusOK : Z := 200.
Definition StatusAccepted : Z := 202.
Definition StatusBadRequest : Z := 400.
Definition StatusUnauthorized : Z := 401.
Definition StatusNotFound : Z := 404.
Definition StatusMethodNotAllowed : Z := 405.
Definition StatusTooManyRequests : Z := 429.
Definition StatusInternalServerError : Z := 500.

(** [Auth]. *)
Definition Auth (cc : ClientConfig) (clientID clientKey : string) : option error :=
  if decide (clientID = "" ∨ clientKey = "") then Some (Errorf "missing headers")
  else if decide (clientKey ≠ ClientKey cc) then Some (Errorf "invalid credentials")
  else None.

(** [ComputeKey]: ["e"] and the decimal FNV-1a hash. *)
Definition ComputeKey (s : string) : string := "e" +:+ FormatUint (fnv32a s).

(** [LoadCachedClientConfig]; [cfgCache] is the shared cache. *)
Definition LoadCachedClientConfig (id : string) : prog AppE (ClientConfig * option error) :=
  '(v, ok) ← TTL_Get (λ X, cacheE) (λ X, clockE) zeroClientConfig id;
  if (ok : bool) then mret (v, None)
  else
    '(cc, err) ← trigger (clientE (GetClientConfig id));
    match err with
    | Some err => mret (zeroClientConfig, Some err)
    | None =>
        _ ← TTL_Set (λ X, cacheE) (λ X, clockE) id cc (300 * Second);
        mret (cc, None)
    end.

Section run.
Context `{L : Lib}.

(** The IP and client limits: one acquire in the given scope if a limit is set;
    the error is the one [Run] returns. *)
Definition rate_check (limit : Z) (scope denied : string) : prog AppE (option error) :=
  if decide (limit > 0) then
    '(ok, acquireErr) ← trigger (dataE (Acquire scope limit Minute));
    match acquireErr with
    | Some _ => mret (Some (Errorf "rate limit check failed"))
    | None => if (ok : bool) then mret None else mret (Some (Errorf denied))
    end
  else mret None.

(** The target limit: only for a notification about to be published. *)
Definition target_check (clientID : string) (cc : ClientConfig) (action : Action) (statusCode : Z)
    (newPayload : gomap) : prog AppE (Action * Z * gomap * option error) :=
  if decide ((action = EdgeTriggeredForward ∨ action = AggregateSent) ∧
             SNSRPM (Target (Trigger cc)) > 0) then
    let targetScope := "TARGET:" +:+ clientID +:+ ":" +:+ SNSArn (Target (Trigger cc)) in
    '(ok, acquireErr) ← trigger (dataE (Acquire targetScope (SNSRPM (Target (Trigger cc))) Minute));
    match acquireErr with
    | Some _ =>
        mret (action, StatusInternalServerError, newPayload, Some (Errorf "rate limit check failed"))
    | None =>
        if (ok : bool) then mret (action, statusCode, newPayload, None)
        else mret (NoOp, StatusTooManyRequests, newPayload, None)
    end
  else mret (action, statusCode, newPayload, None).

(** [Run]: action, status code, new payload, error. *)
Definition Run (clientID clientIP : string) (cc : ClientConfig) (payload : gomap) :
    prog AppE (Action * Z * gomap * option error) :=
  err ← rate_check (IPRPM cc) ("IP:" +:+ clientIP) "rate limit (ip)";
  match err with
  | Some err => mret (NoOp, StatusAccepted, payload, Some err)
  | None =>
  err ← rate_check (ClientRPM cc) ("CLIENT:" +:+ clientID) "rate limit (client)";
  match err with
  | Some err => mret (NoOp, StatusAccepted, payload, Some err)
  | None =>
  if CheckPassthrough (cc_Passthrough cc) payload then
    mret (ForwardedAsIs, StatusAccepted, payload, None)
  else if decide (tr_FieldExpr (Trigger cc) = "") then
    mret (ForwardedAsIs, StatusAccepted, payload, None)
  else
    match EvalString (tr_FieldExpr (Trigger cc)) payload with
    | inr _ => mret (NoOp, StatusBadRequest, payload, Some (Errorf "trigger field eval error"))
    | inl None => target_check clientID cc NoOp StatusAccepted payload
    | inl (Some newVal) =>
        let scopeKey := ComputeKey (tr_FieldExpr (Trigger cc)) in
        '(action, newPayload, err) ←
          EvaluateEdgeAndFlap clientID scopeKey newVal (Flapping (Trigger cc)) payload;
        match err with
        | Some _ =>
            mret (action, StatusInternalServerError, newPayload, Some (Errorf "edge evaluation error"))
        | None => target_check clientID cc action StatusAccepted newPayload
        end
    end
  end
  end.

End run.
