(* ===== verification/FlowProps.v ===== *)
(** * Properties of [Run]

    [run_trace] lists every execution of [Run]; the properties below follow by
    cases on it. They hold for arbitrary replies of the data store. *)

From S2P Require Import Prelude Errors Strconv Text Types Effects Ports Base64 DemoLib Jmes EdgeFlap EdgeProps Ttl Flow.

Section traces.
Context `{L : Lib}.

(** The error of an acquire reply. *)
Definition limit_error (denied : string) (r : bool * option error) : option error :=
  match r with
  | (_, Some _) => Some (Errorf "rate limit check failed")
  | (true, None) => None
  | (false, None) => Some (Errorf denied)
  end.

Inductive limit_trace (limit : Z) (scope denied : string) : list (event AppE) → option error → Prop :=
| limit_off : limit <= 0 → limit_trace limit scope denied [] None
| limit_on r : limit > 0 →
    limit_trace limit scope denied [Ev (dataE (Acquire scope limit Minute)) r] (limit_error denied r).

Lemma rate_check_exec limit scope denied :
  wp (rate_check limit scope denied)
     (λ t o, ∃ err, o = Some err ∧ limit_trace limit scope denied t err).
Proof.
  unfold rate_check. prog_simpl. case_decide; simpl; [|eexists; split; [done|by constructor; lia]].
  intros r. pose proof (limit_on limit scope denied r) as Hr.
  destruct r as [[] [?|]]; simpl; eauto.
Qed.

Definition announces (a : Action) : Prop := a = EdgeTriggeredForward ∨ a = AggregateSent.

#[global] Instance announces_dec a : Decision (announces a).
Proof. unfold announces. apply _. Defined.

(** Action, status and error after the reply of the target limit. *)
Definition target_result (a : Action) (r : bool * option error) : Action * Z * option error :=
  match r with
  | (_, Some _) => (a, StatusInternalServerError, Some (Errorf "rate limit check failed"))
  | (true, None) => (a, StatusAccepted, None)
  | (false, None) => (NoOp, StatusTooManyRequests, None)
  end.

Definition target_scope (cid : string) (cc : ClientConfig) : string :=
  "TARGET:" +:+ cid +:+ ":" +:+ SNSArn (Target (Trigger cc)).

Inductive target_trace (cid : string) (cc : ClientConfig) (a : Action) :
    list (event AppE) → Action * Z * option error → Prop :=
| target_off : ¬ (announces a ∧ SNSRPM (Target (Trigger cc)) > 0) →
    target_trace cid cc a [] (a, StatusAccepted, None)
| target_on r : announces a → SNSRPM (Target (Trigger cc)) > 0 →
    target_trace cid cc a
      [Ev (dataE (Acquire (target_scope cid cc) (SNSRPM (Target (Trigger cc))) Minute)) r]
      (target_result a r).

Lemma target_check_exec cid cc a p :
  wp (target_check cid cc a StatusAccepted p)
     (λ t o, ∃ a' st err, o = Some (a', st, p, err) ∧ target_trace cid cc a t (a', st, err)).
Proof.
  unfold target_check. prog_simpl.
  destruct (decide ((a = EdgeTriggeredForward ∨ a = AggregateSent) ∧ _)) as [[Ha Hr]|Hoff]; simpl.
  - intros r. pose proof (target_on cid cc a r Ha Hr) as Ht. destruct r as [[] [?|]]; simpl; eauto 10.
  - eexists _, _, _. split; [done|]. by apply target_off.
Qed.

Inductive admitted_trace (cid : string) (cc : ClientConfig) (payload : gomap) :
    list (event AppE) → Action * Z * gomap * option error → Prop :=
| adm_forward :
    CheckPassthrough (cc_Passthrough cc) payload = true ∨ tr_FieldExpr (Trigger cc) = "" →
    admitted_trace cid cc payload [] (ForwardedAsIs, StatusAccepted, payload, None)
| adm_eval_error err :
    CheckPassthrough (cc_Passthrough cc) payload = false → tr_FieldExpr (Trigger cc) ≠ "" →
    EvalString (tr_FieldExpr (Trigger cc)) payload = inr err →
    admitted_trace cid cc payload []
      (NoOp, StatusBadRequest, payload, Some (Errorf "trigger field eval error"))
| adm_null :
    CheckPassthrough (cc_Passthrough cc) payload = false → tr_FieldExpr (Trigger cc) ≠ "" →
    EvalString (tr_FieldExpr (Trigger cc)) payload = inl None →
    admitted_trace cid cc payload [] (NoOp, StatusAccepted, payload, None)
| adm_edge_error v t a p err :
    CheckPassthrough (cc_Passthrough cc) payload = false → tr_FieldExpr (Trigger cc) ≠ "" →
    EvalString (tr_FieldExpr (Trigger cc)) payload = inl (Some v) →
    evaluate_trace cid (ComputeKey (tr_FieldExpr (Trigger cc))) v (Flapping (Trigger cc)) payload
      t (Some (a, p, Some err)) →
    admitted_trace cid cc payload t
      (a, StatusInternalServerError, p, Some (Errorf "edge evaluation error"))
| adm_edge v t a p t' a' st err :
    CheckPassthrough (cc_Passthrough cc) payload = false → tr_FieldExpr (Trigger cc) ≠ "" →
    EvalString (tr_FieldExpr (Trigger cc)) payload = inl (Some v) →
    evaluate_trace cid (ComputeKey (tr_FieldExpr (Trigger cc))) v (Flapping (Trigger cc)) payload
      t (Some (a, p, None)) →
    target_trace cid cc a t' (a', st, err) →
    admitted_trace cid cc payload (t ++ t') (a', st, p, err).

Inductive run_trace (cid ip : string) (cc : ClientConfig) (payload : gomap) :
    list (event AppE) → Action * Z * gomap * option error → Prop :=
| run_ip_denied t err :
    limit_trace (IPRPM cc) ("IP:" +:+ ip) "rate limit (ip)" t (Some err) →
    run_trace cid ip cc payload t (NoOp, StatusAccepted, payload, Some err)
| run_client_denied t1 t2 err :
    limit_trace (IPRPM cc) ("IP:" +:+ ip) "rate limit (ip)" t1 None →
    limit_trace (ClientRPM cc) ("CLIENT:" +:+ cid) "rate limit (client)" t2 (Some err) →
    run_trace cid ip cc payload (t1 ++ t2) (NoOp, StatusAccepted, payload, Some err)
| run_admitted t1 t2 t3 res :
    limit_trace (IPRPM cc) ("IP:" +:+ ip) "rate limit (ip)" t1 None →
    limit_trace (ClientRPM cc) ("CLIENT:" +:+ cid) "rate limit (client)" t2 None →
    admitted_trace cid cc payload t3 res →
    run_trace cid ip cc payload (t1 ++ t2 ++ t3) res.

(** The part of [Run] after the IP and client limits. *)
Definition run_admitted_part (clientID : string) (cc : ClientConfig) (payload : gomap) :
    prog AppE (Action * Z * gomap * option error) :=
  if CheckPassthrough (cc_Passthrough cc) payload then
    Ret (ForwardedAsIs, StatusAccepted, payload, None)
  else if decide (tr_FieldExpr (Trigger cc) = "") then
    Ret (ForwardedAsIs, StatusAccepted, payload, None)
  else
    match EvalString (tr_FieldExpr (Trigger cc)) payload with
    | inr _ => Ret (NoOp, StatusBadRequest, payload, Some (Errorf "trigger field eval error"))
    | inl None => target_check clientID cc NoOp StatusAccepted payload
    | inl (Some newVal) =>
        '(action, newPayload, err) ←
          EvaluateEdgeAndFlap clientID (ComputeKey (tr_FieldExpr (Trigger cc))) newVal
            (Flapping (Trigger cc)) payload;
        match err with
        | Some _ =>
            Ret (action, StatusInternalServerError, newPayload, Some (Errorf "edge evaluation error"))
        | None => target_check clientID cc action StatusAccepted newPayload
        end
    end.

Lemma admitted_exec cid cc payload :
  wp (run_admitted_part cid cc payload)
     (λ t o, ∃ res, o = Some res ∧ admitted_trace cid cc payload t res).
Proof.
  unfold run_admitted_part. destruct (CheckPassthrough _ _) eqn:Hpass.
  { eexists. split; [done|]. constructor. by left. }
  destruct (decide (tr_FieldExpr (Trigger cc) = "")) as [Hf|Hf].
  { eexists. split; [done|]. constructor. by right. }
  destruct (EvalString _ _) as [[v|]|err] eqn:Hev.
  - apply wp_bind. apply wp_exec. intros t [[[a p] err]|] Hx%evaluate_exec; last by inversion Hx.
    destruct err as [err|]; simpl.
    + eexists. split; [done|]. rewrite app_nil_r. by eapply adm_edge_error.
    + eapply wp_mono; [|apply target_check_exec].
      intros t' o (a' & st & err & -> & Ht). eexists. split; [done|]. by eapply adm_edge.
  - eapply wp_mono; [|apply target_check_exec].
    intros t o (a' & st & err & -> & Ht). eexists. split; [done|].
    inversion Ht as [|? [] ]; subst; try done. by apply adm_null.
  - eexists. split; [done|]. by eapply adm_eval_error.
Qed.

Lemma Run_exec cid ip cc payload t o :
  exec (Run cid ip cc payload) t o →
  ∃ res, o = Some res ∧ run_trace cid ip cc payload t res.
Proof.
  revert t o. apply wp_exec. unfold Run. apply wp_bind.
  eapply wp_mono; [|apply rate_check_exec]. intros t1 o (e1 & -> & H1).
  destruct e1 as [e1|]; simpl.
  { eexists. split; [done|]. rewrite app_nil_r. by apply run_ip_denied. }
  apply wp_bind. eapply wp_mono; [|apply rate_check_exec]. intros t2 o (e2 & -> & H2).
  destruct e2 as [e2|]; simpl.
  { eexists. split; [done|]. rewrite app_nil_r. by apply run_client_denied. }
  eapply wp_mono; [|apply (admitted_exec cid cc payload)].
  intros t3 o (res & -> & H3). eexists. split; [done|]. by apply run_admitted.
Qed.

End traces.

(** ** Properties *)

(** The acquire of a limit that is set, granted. *)
Definition granted (limit : Z) (scope : string) : list (string * Z * Z * (bool * option error)) :=
  if decide (limit > 0) then [(scope, limit, Minute, (true, None))] else [].

Lemma granted_on limit scope : limit > 0 → granted limit scope = [(scope, limit, Minute, (true, None))].
Proof. intros. unfold granted. by rewrite decide_True. Qed.

Lemma granted_off limit scope : ¬ limit > 0 → granted limit scope = [].
Proof. intros. unfold granted. by rewrite decide_False. Qed.

Lemma limit_trace_calls limit scope denied t err :
  limit_trace limit scope denied t err → loads t = [] ∧ upserts t = [].
Proof. by intros []. Qed.

Lemma limit_trace_granted limit scope denied t :
  limit_trace limit scope denied t None → acquires t = granted limit scope.
Proof.
  unfold granted. inversion 1 as [Hl|r Hl Ht Hr]; [by rewrite decide_False by lia|].
  destruct r as [[] [?|]]; try done. by rewrite decide_True.
Qed.

Lemma target_trace_calls cid cc a t r :
  target_trace cid cc a t r → loads t = [] ∧ upserts t = [].
Proof. by intros []. Qed.

Lemma evaluate_trace_acquires `{L : Lib} cid key v f payload t o :
  evaluate_trace cid key v f payload t o → acquires t = [].
Proof. by intros []. Qed.

(** A successful announcement follows an accepted write of the observed value. *)
Lemma evaluate_trace_commit `{L : Lib} cid key v f payload t a p :
  evaluate_trace cid key v f payload t (Some (a, p, None)) → announces a →
  ∃ ver next, upserts t = [(cid, key, ver, next, (true, None))] ∧ LastValue next = v.
Proof.
  intros Hx Ha. inversion Hx as [| ? ver r Ht Ho | | |? e ver ? e' o r ? ? Hn Ht Ho];
    simplify_eq; try by destruct Ha.
  - destruct r as [[] [?|]]; simplify_eq/=; (by eauto) || by destruct Ha.
  - pose proof (flip_next_value _ _ _ _ _ _ _ Hn).
    destruct o, r as [[] [?|]]; simplify_eq/=; (by eauto) || by destruct Ha.
Qed.

(** An evaluation alone never returns [ForwardedAsIs]. *)
Lemma evaluate_trace_not_forwarded `{L : Lib} cid key v f payload t p err :
  ¬ evaluate_trace cid key v f payload t (Some (ForwardedAsIs, p, err)).
Proof.
  intros Hx. inversion Hx as [| ? ver r Ht Ho | | |? e ver ? e' o r ? ? Hn Ht Ho].
  - by destruct r as [[] [?|]].
  - destruct o as [|a agg|], r as [[] [?|]]; simplify_eq/=.
    revert Hn. unfold flip_next. rewrite record_flip_eq. simpl. destruct f as [f|]; [|done].
    rewrite roll_window_eq. simpl. repeat case_decide; try done.
    rewrite aggregate_step_eq. simpl. by destruct (aggregate_due _ _ _).
Qed.

#[export] Hint Resolve limit_trace_calls target_trace_calls : enoti.

Section claims.
Context `{L : Lib}.

(** C22: no edge state is read or written before the request was admitted: an
    execution that touches it was first granted the IP limit and then the
    client limit, as far as they are set, and the payload is not one that
    passes through. *)
Theorem run_gate cid ip cc payload t o :
  exec (Run cid ip cc payload) t o →
  loads t ≠ [] ∨ upserts t ≠ [] →
  (∃ rest, acquires t = granted (IPRPM cc) ("IP:" +:+ ip) ++
                        granted (ClientRPM cc) ("CLIENT:" +:+ cid) ++ rest) ∧
  CheckPassthrough (cc_Passthrough cc) payload = false ∧ tr_FieldExpr (Trigger cc) ≠ "".
Proof.
  intros (res & -> & Hx)%Run_exec Htouch.
  destruct Hx as [t err H1|t1 t2 err H1 H2|t1 t2 t3 res H1 H2 H3].
  - apply limit_trace_calls in H1 as [E1 E2]. rewrite E1, E2 in Htouch. naive_solver.
  - apply limit_trace_calls in H1 as [E1 E2], H2 as [E3 E4].
    rewrite loads_app, upserts_app, E1, E2, E3, E4 in Htouch. naive_solver.
  - rewrite !acquires_app, (limit_trace_granted _ _ _ _ H1), (limit_trace_granted _ _ _ _ H2).
    split; [eauto|].
    apply limit_trace_calls in H1 as [E1 E2], H2 as [E3 E4].
    rewrite !loads_app, !upserts_app, E1, E2, E3, E4 in Htouch. destruct H3; naive_solver.
Qed.

(** What an execution that ends in a publishable action went through. *)
Lemma Run_granted cid ip cc payload t a st p :
  exec (Run cid ip cc payload) t (Some (a, st, p, None)) →
  announces a ∨ a = ForwardedAsIs →
  st = StatusAccepted ∧
  acquires t = granted (IPRPM cc) ("IP:" +:+ ip) ++ granted (ClientRPM cc) ("CLIENT:" +:+ cid) ++
    (if decide (announces a) then granted (SNSRPM (Target (Trigger cc))) (target_scope cid cc) else []) ∧
  (a = ForwardedAsIs → loads t = [] ∧ upserts t = [] ∧ p = payload) ∧
  (announces a → ∃ v ver next,
     EvalString (tr_FieldExpr (Trigger cc)) payload = inl (Some v) ∧ LastValue next = v ∧
     upserts t = [(cid, ComputeKey (tr_FieldExpr (Trigger cc)), ver, next, (true, None))]).
Proof.
  intros (res & [= <-] & Hx)%Run_exec Ha. remember (a, st, p, None) as res eqn:Hres.
  destruct Hx as [t err H1|t1 t2 err H1 H2|t1 t2 t3 res H1 H2 H3]; [done..|].
  rewrite !acquires_app, (limit_trace_granted _ _ _ _ H1), (limit_trace_granted _ _ _ _ H2).
  apply limit_trace_calls in H1 as [E1 E2], H2 as [E3 E4].
  rewrite !loads_app, !upserts_app, E1, E2, E3, E4. clear E1 E2 E3 E4.
  destruct H3 as [Hp| | | |v t a1 p1 t' a' st' err' Hp Hf Hev Hx Ht]; simplify_eq; simpl.
  - split_and!; [done..|by intros [?|?]].
  - by destruct Ha as [[?|?]|?].
  - pose proof (evaluate_trace_acquires _ _ _ _ _ _ _ Hx) as Hacq.
    rewrite acquires_app, upserts_app, Hacq. destruct (target_trace_calls _ _ _ _ _ Ht) as [_ ->].
    rewrite app_nil_r. simpl. inversion Ht as [Hoff|r Han Hr Et Er]; subst.
    + destruct Ha as [Ha| ->]; last by apply evaluate_trace_not_forwarded in Hx.
      split_and!; [done| |by intros ->; destruct Ha|].
      * by rewrite decide_True, (granted_off (SNSRPM _)) by tauto.
      * intros _. destruct (evaluate_trace_commit _ _ _ _ _ _ _ _ Hx Ha) as (ver & next & Hu & Hv).
        rewrite Hu. eauto 10.
    + destruct r as [[] [?|]]; simplify_eq/=; last by destruct Ha as [[?|?]|?].
      split_and!; [done| |by intros ->; destruct Han|].
      * by rewrite decide_True, (granted_on (SNSRPM _)) by done.
      * intros _. destruct (evaluate_trace_commit _ _ _ _ _ _ _ _ Hx Han) as (ver & next & Hu & Hv).
        rewrite Hu. eauto 10.
Qed.

(** What [Run] asks its caller to publish was paid for and committed: the
    IP, client and target limits that are set were all granted, in this order
    and once each, and an edge or an aggregate is announced only after the
    observed value was written by an accepted compare-and-set. A payload
    forwarded as is leaves the edge state alone and is not charged to the
    target limit. *)
Theorem run_publish_granted cid ip cc payload t a st p :
  exec (Run cid ip cc payload) t (Some (a, st, p, None)) →
  announces a ∨ a = ForwardedAsIs →
  st = StatusAccepted ∧
  acquires t = granted (IPRPM cc) ("IP:" +:+ ip) ++ granted (ClientRPM cc) ("CLIENT:" +:+ cid) ++
    (if decide (announces a) then granted (SNSRPM (Target (Trigger cc))) (target_scope cid cc) else []) ∧
  (a = ForwardedAsIs → loads t = [] ∧ upserts t = [] ∧ p = payload) ∧
  (announces a → ∃ v ver next,
     EvalString (tr_FieldExpr (Trigger cc)) payload = inl (Some v) ∧ LastValue next = v ∧
     upserts t = [(cid, ComputeKey (tr_FieldExpr (Trigger cc)), ver, next, (true, None))]).
Proof. apply Run_granted. Qed.

(** The status codes and errors of [Run]. *)
Definition run_outcomes : list (Z * option error) :=
  [(StatusAccepted, None); (StatusTooManyRequests, None);
   (StatusAccepted, Some (Errorf "rate limit check failed"));
   (StatusAccepted, Some (Errorf "rate limit (ip)"));
   (StatusAccepted, Some (Errorf "rate limit (client)"));
   (StatusBadRequest, Some (Errorf "trigger field eval error"));
   (StatusInternalServerError, Some (Errorf "edge evaluation error"));
   (StatusInternalServerError, Some (Errorf "rate limit check failed"))].

Lemma limit_trace_error limit scope denied t err :
  limit_trace limit scope denied t (Some err) →
  err = Errorf "rate limit check failed" ∨ err = Errorf denied.
Proof. inversion 1 as [|[[] [?|]]]; simplify_eq/=; eauto. Qed.

Lemma run_trace_outcome cid ip cc payload t a st p err :
  run_trace cid ip cc payload t (a, st, p, err) → (st, err) ∈ run_outcomes.
Proof.
  intros Hx. remember (a, st, p, err) as res eqn:Hres. unfold run_outcomes.
  destruct Hx as [t e H1|t1 t2 e H1 H2|t1 t2 t3 res H1 H2 H3].
  - simplify_eq. apply limit_trace_error in H1 as [-> | ->]; in_list.
  - simplify_eq. apply limit_trace_error in H2 as [-> | ->]; in_list.
  - destruct H3 as [| | | |v t a1 p1 t' a' st' err' Hp Hf Hev Hx Ht]; simplify_eq; [in_list..|].
    inversion Ht as [|[[] [?|]]]; simplify_eq/=; in_list.
Qed.

(** C29: [Run] never panics and every execution ends in one of eight outcomes:
    success, the target limit (429, with nothing to do), and six errors with
    their status. *)
Theorem run_outcome_table cid ip cc payload t o :
  exec (Run cid ip cc payload) t o →
  ∃ a st p err, o = Some (a, st, p, err) ∧ (st, err) ∈ run_outcomes.
Proof.
  intros ([[[a st] p] err] & -> & Hx)%Run_exec. eauto 10 using run_trace_outcome.
Qed.

(** A request over the IP limit stops there: one acquire, no edge state
    touched, and [Run] reports an error, with the status 202 of an accepted
    request. *)
Theorem run_ip_limited cid ip cc payload t o s n w :
  exec (Run cid ip cc payload) t o →
  IPRPM cc > 0 → head (acquires t) = Some (s, n, w, (false, None)) →
  o = Some (NoOp, StatusAccepted, payload, Some (Errorf "rate limit (ip)")) ∧
  acquires t = [("IP:" +:+ ip, IPRPM cc, Minute, (false, None))] ∧ loads t = [] ∧ upserts t = [].
Proof.
  intros (res & -> & Hx)%Run_exec Hlim Hhead.
  destruct Hx as [t e H1|t1 t2 e H1 H2|t1 t2 t3 res H1 H2 H3].
  - inversion H1 as [|r ? Ht Hr]; subst. simpl in Hhead. simplify_eq/=. by simplify_eq/=.
  - rewrite acquires_app, (limit_trace_granted _ _ _ _ H1), granted_on in Hhead by done. by simplify_eq/=.
  - rewrite acquires_app, (limit_trace_granted _ _ _ _ H1), granted_on in Hhead by done. by simplify_eq/=.
Qed.

(** C30: a notification refused by the target limit is gone: [Run] answers 429
    with nothing to publish, but the observed value has been committed, so
    observing it again is no edge any more. *)
Theorem run_target_limited cid ip cc payload t a p err :
  exec (Run cid ip cc payload) t (Some (a, StatusTooManyRequests, p, err)) →
  a = NoOp ∧ err = None ∧
  last (acquires t) =
    Some (target_scope cid cc, SNSRPM (Target (Trigger cc)), Minute, (false, None)) ∧
  ∃ v ver next, EvalString (tr_FieldExpr (Trigger cc)) payload = inl (Some v) ∧ LastValue next = v ∧
    upserts t = [(cid, ComputeKey (tr_FieldExpr (Trigger cc)), ver, next, (true, None))].
Proof.
  intros (res & [= <-] & Hx)%Run_exec. remember (a, StatusTooManyRequests, p, err) as res eqn:Hres.
  destruct Hx as [t e H1|t1 t2 e H1 H2|t1 t2 t3 res H1 H2 H3]; [done..|].
  apply limit_trace_calls in H1 as [_ E2], H2 as [_ E4]. rewrite !upserts_app, E2, E4. clear E2 E4.
  destruct H3 as [| | | |v t a1 p1 t' a' st' err' Hp Hf Hev Hx Ht]; simplify_eq; simpl.
  inversion Ht as [|[[] [?|]] Han Hr]; simplify_eq/=.
  destruct (evaluate_trace_commit _ _ _ _ _ _ _ _ Hx Han) as (ver & next & Hu & Hv).
  split_and!; [done|done| |].
  - rewrite !acquires_app. simpl. by rewrite !app_assoc, last_snoc.
  - rewrite upserts_app, Hu. simpl. eauto 10.
Qed.

End claims.

(** The rate limits are counted apart: no IP, client and target scope
    coincide, and different addresses or different clients have different
    scopes. *)
Theorem rate_scopes_apart ip ip' cid cid' cid'' cc :
  "IP:" +:+ ip ≠ "CLIENT:" +:+ cid ∧ "IP:" +:+ ip ≠ target_scope cid' cc ∧
  "CLIENT:" +:+ cid ≠ target_scope cid' cc ∧
  ("IP:" +:+ ip = "IP:" +:+ ip' → ip = ip') ∧
  ("CLIENT:" +:+ cid = "CLIENT:" +:+ cid'' → cid = cid'').
Proof.
  unfold target_scope. split_and!; [by rewrite !string_cons_app..| |]; apply string_app_inj_l.
Qed.

(** ** Witnesses *)

(** A client with all three limits, watching the field [v]. *)
Definition demo_cc : ClientConfig :=
  mkClientConfig "acme" "Acme" "s3cret-key" 10 20 (mkPassthrough "" false)
    (mkTriggerConfig "v" [] (mkTargetConfig "arn:t" 5) None).

Definition demo_key : string := ComputeKey "v".

(** The limits grant, the value [b] is the first one, the target limit answers [r]. *)
Definition demo_run (r : bool * option error) : list (event AppE) :=
  [Ev (dataE (Acquire "IP:1.2.3.4" 10 Minute)) (true, None);
   Ev (dataE (Acquire "CLIENT:acme" 20 Minute)) (true, None);
   Ev (clockE FlowTimeNow) (5 * Second); Ev (dataE (Load "acme" demo_key)) (None, 0, None);
   Ev (dataE (UpsertCAS "acme" demo_key 0 (first_edge "b" 5))) (true, None);
   Ev (dataE (Acquire "TARGET:acme:arn:t" 5 Minute)) r].

Lemma demo_run_forwarded :
  exec (Run "acme" "1.2.3.4" demo_cc (demo_payload "b")) (demo_run (true, None))
    (Some (EdgeTriggeredForward, StatusAccepted, None, None)).
Proof. solve_exec. Qed.

Lemma demo_run_limited :
  exec (Run "acme" "1.2.3.4" demo_cc (demo_payload "b")) (demo_run (false, None))
    (Some (NoOp, StatusTooManyRequests, None, None)).
Proof. solve_exec. Qed.

Lemma run_gate_witness :
  (∃ rest, acquires (demo_run (true, None)) = granted 10 "IP:1.2.3.4" ++ granted 20 "CLIENT:acme" ++ rest) ∧
  CheckPassthrough (cc_Passthrough demo_cc) (demo_payload "b") = false ∧ "v" ≠ "".
Proof.
  apply (run_gate "acme" "1.2.3.4" demo_cc (demo_payload "b") (demo_run (true, None))
           _ demo_run_forwarded).
  left. discriminate.
Defined.

Lemma run_publish_granted_witness :
  acquires (demo_run (true, None)) =
  granted 10 "IP:1.2.3.4" ++ granted 20 "CLIENT:acme" ++ granted 5 "TARGET:acme:arn:t".
Proof.
  apply (run_publish_granted "acme" "1.2.3.4" demo_cc (demo_payload "b") (demo_run (true, None))
           EdgeTriggeredForward StatusAccepted None demo_run_forwarded).
  left. by left.
Defined.

Lemma run_outcome_table_witness :
  ∃ a st p err, Some (NoOp, StatusTooManyRequests, None : gomap, None : option error) = Some (a, st, p, err) ∧
                (st, err) ∈ run_outcomes.
Proof.
  apply (run_outcome_table "acme" "1.2.3.4" demo_cc (demo_payload "b") (demo_run (false, None))).
  exact demo_run_limited.
Defined.

Lemma run_ip_limited_witness :
  let t := [Ev (dataE (Acquire "IP:1.2.3.4" 10 Minute)) (false, None)] in
  acquires t = [("IP:1.2.3.4", 10, Minute, (false, None))] ∧ loads t = [] ∧ upserts t = [].
Proof.
  apply (run_ip_limited "acme" "1.2.3.4" demo_cc (demo_payload "b")
           [Ev (dataE (Acquire "IP:1.2.3.4" 10 Minute)) (false, None)]
           (Some (NoOp, StatusAccepted, demo_payload "b", Some (Errorf "rate limit (ip)")))
           "IP:1.2.3.4" 10 Minute).
  - solve_exec.
  - reflexivity.
  - reflexivity.
Defined.

Lemma run_target_limited_witness :
  last (acquires (demo_run (false, None))) = Some ("TARGET:acme:arn:t", 5, Minute, (false, None)).
Proof.
  apply (run_target_limited "acme" "1.2.3.4" demo_cc (demo_payload "b") (demo_run (false, None))
           NoOp None None demo_run_limited).
Defined.
