(* ===== verification/ConfigCache.v ===== *)
(** * The cached client configuration

    [LoadCachedClientConfig] run in a process ([World] of [StoreSpec.v]): how
    long an answer of the client store is used, and what happens to errors. *)

From S2P Require Import Prelude Errors Text Types Effects Ports Base64 DemoLib EdgeFlap StoreSpec MemStore Ttl Flow.

Section cache.
Context {St CSt PSt : Type} (hd : handler DataStoreE St).
Context (hc : handler ClientStoreE CSt) (hp : handler PublisherE PSt).

#[local] Notation world := (World St CSt PSt).
#[local] Notation load id w := (run (app_handler hd hc hp) (LoadCachedClientConfig id) w).

(** Whether the cached entry of [id] may still be used at time [now]. *)
Definition cached (w : world) (id : string) : option ClientConfig :=
  match w_cache w !! id with
  | Some e => if decide (w_now w <= exp e) then Some (val e) else None
  | None => None
  end.

(** Whether an entry, usable or not, is there: then the clock is read. *)
Definition ticked (w : world) (id : string) : world :=
  match w_cache w !! id with Some _ => set_tick (S (w_tick w)) w | None => w end.

(** The whole behaviour: the cached value if it is usable, else the store's
    answer; only a success is put into the cache, for 300 seconds from then. *)
Lemma load_cached_eq w id :
  load id w =
  match cached w id with
  | Some cc => (Some (cc, None), ticked w id)
  | None =>
      let w1 := ticked w id in
      match hc _ (GetClientConfig id) (w_client w) with
      | (Some (cc, None), s) =>
          (Some (cc, None),
           set_cache (<[id := mkEntry cc (w_now w1 + 300 * Second)]> (w_cache w))
             (set_tick (S (w_tick w1)) (set_client s w1)))
      | (Some (_, Some err), s) => (Some (zeroClientConfig, Some err), set_client s w1)
      | (None, s) => (None, set_client s w1)
      end
  end.
Proof.
  unfold LoadCachedClientConfig, TTL_Get, TTL_Set, cached, ticked. prog_simpl.
  destruct (w_cache w !! id) as [e|] eqn:He; simpl.
  - destruct (decide (w_now w > exp e)), (decide (w_now w <= exp e)); try lia; simpl; [|done].
    by destruct (hc _ (GetClientConfig id) (w_client w)) as [[[cc [err|]]|] s].
  - by destruct (hc _ (GetClientConfig id) (w_client w)) as [[[cc [err|]]|] s].
Qed.

(** What the store itself answers. *)
Definition store_answer (s : CSt) (id : string) : option (ClientConfig * option error) :=
  match (hc _ (GetClientConfig id) s).1 with
  | Some (cc, None) => Some (cc, None)
  | Some (_, Some err) => Some (zeroClientConfig, Some err)
  | None => None
  end.

(** C23: a configuration read from the client store is used for exactly 300
    seconds: until then it is the answer for its client without asking the store,
    even if the store has changed or lost it meanwhile; later the store is asked
    again. *)
Theorem config_cached_five_minutes w id cc s :
  cached w id = None →
  hc _ (GetClientConfig id) (w_client w) = (Some (cc, None), s) →
  ∃ w1, load id w = (Some (cc, None), w1) ∧
  ∀ w2, w_cache w2 !! id = w_cache w1 !! id →
    let start := w_now (ticked w id) in
    if decide (w_now w2 <= start + 300 * Second) then
      load id w2 = (Some (cc, None), set_tick (S (w_tick w2)) w2)
    else (load id w2).1 = store_answer (w_client w2) id.
Proof.
  intros Hmiss Hget. eexists. split; [by rewrite load_cached_eq, Hmiss, Hget|].
  intros w2 He. cbv zeta. simpl in He. rewrite lookup_insert_eq in He.
  case_decide as Hnow; rewrite load_cached_eq; unfold cached, ticked; rewrite He; simpl.
  - by rewrite decide_True.
  - rewrite decide_False by done. unfold store_answer.
    by destruct (hc _ (GetClientConfig id) (w_client w2)) as [[[cc' [err|]]|] s'].
Qed.

(** A failed read is not cached: the cache is left as it was, and the error is
    returned with the zero configuration. *)
Lemma config_error_not_cached w id cc err s :
  cached w id = None →
  hc _ (GetClientConfig id) (w_client w) = (Some (cc, Some err), s) →
  ∃ w1, load id w = (Some (zeroClientConfig, Some err), w1) ∧ w_cache w1 = w_cache w.
Proof.
  intros Hmiss Hget. eexists. split; [by rewrite load_cached_eq, Hmiss, Hget|].
  unfold ticked. by destruct (w_cache w !! id).
Qed.

End cache.

(** ** Witnesses *)

Definition cache_cc : ClientConfig := mkClientConfig "acme" "Acme" "s3cret-key" 0 0 (mkPassthrough "" false)
  (mkTriggerConfig "v" [] (mkTargetConfig "arn:t" 0) None).

(** A client that is deleted right after its configuration was read. *)
Lemma config_cached_five_minutes_witness :
  let w := mem_world 1000 {[ "acme" := cache_cc ]} in
  ∃ w1, run mem_app (LoadCachedClientConfig "acme") w = (Some (cache_cc, None), w1) ∧
        (run mem_app (LoadCachedClientConfig "acme") (set_client ∅ w1)).1 = Some (cache_cc, None) ∧
        (run mem_app (LoadCachedClientConfig "acme") (set_client ∅ (set_tick 301 w1))).1 =
        Some (zeroClientConfig, Some (Sentinel ErrNotFound)).
Proof.
  intros w.
  destruct (config_cached_five_minutes mem_data mem_clients mem_pub w "acme" cache_cc
              {[ "acme" := cache_cc ]} eq_refl eq_refl) as (w1 & Hw1 & Hlater).
  exists w1. split; [exact Hw1|].
  assert (w1 = (run mem_app (LoadCachedClientConfig "acme") w).2) as E
    by exact (f_equal snd (eq_sym Hw1)).
  pose proof (Hlater (set_client ∅ w1) eq_refl) as H1.
  pose proof (Hlater (set_client ∅ (set_tick 301 w1)) eq_refl) as H2.
  cbv zeta in H1, H2.
  rewrite decide_True in H1 by (rewrite E; vm_compute; discriminate).
  rewrite decide_False in H2 by (rewrite E; vm_compute; auto).
  split; [exact (f_equal fst H1)|exact H2].
Defined.

Lemma config_error_not_cached_witness :
  let w := mem_world 1000 ∅ in
  ∃ w1, run mem_app (LoadCachedClientConfig "acme") w =
        (Some (zeroClientConfig, Some (Sentinel ErrNotFound)), w1) ∧ w_cache w1 = ∅.
Proof.
  exact (config_error_not_cached mem_data mem_clients mem_pub (mem_world 1000 ∅) "acme"
           zeroClientConfig (Sentinel ErrNotFound) ∅ eq_refl eq_refl).
Defined.
