(* ===== verification/Http.v ===== *)
(** * [internal/api/httphandler.go]: the HTTP entry point *)

From S2P Require Import Prelude Errors Strconv Text Types Effects Ports Base64 DemoLib Jmes EdgeFlap EdgeProps Ttl Flow FlowProps.

(** The parts of an [http.Request] the handler reads. [Body] is what reading the
    whole body yields: its bytes, and the error after them if the connection
    failed. *)
Record Request := mkRequest {
  Method : string;
  Path : string;
  Header : gmap string (list string);
  Body : string * option error;
  RemoteAddr : string;
}.

Definition body_limit : Z := Z.shiftl 1 20.

(** [io.ReadAll(io.LimitReader(r.Body, n))]: at most [n] bytes; an error after
    them is not seen. *)
Definition read_limited (body : string * option error) (n : Z) : string * option error :=
  if decide (len (fst body) < n) then body
  else (String.substring 0 (Z.to_nat n) (fst body), None).

(** [clientIP]: [None] is the index panic of [\[0\]]. *)
Definition clientIP (r : Request) : option string :=
  let xff := Header_Get (Header r) "X-Forwarded-For" in
  if decide (xff ≠ "") then TrimSpace <$> head (Split xff ","%char)
  else
    match SplitHostPort (RemoteAddr r) with
    | inr _ => Some (RemoteAddr r)
    | inl (host, _) => Some host
    end.

(** The newline [Fprintln] and the JSON encoder end their output with. *)
Definition newline : string := String (byte_of 10) "".

(** [http.Error] of the standard library. The headers it deletes are never set
    by this service. *)
Definition http_Error (msg : string) (code : Z) : prog AppE unit :=
  _ ← trigger (respE (SetHeader "Content-Type" "text/plain; charset=utf-8"));
  _ ← trigger (respE (SetHeader "X-Content-Type-Options" "nosniff"));
  _ ← trigger (respE (WriteHeader code));
  _ ← trigger (respE (Write (msg +:+ newline)));
  mret tt.

Section http.
Context `{L : Lib}.

(** [writeJSON]: the encoder marshals first and writes the text with a newline
    in one call. *)
Definition writeJSON (code : Z) (v : any) : prog AppE (option error) :=
  _ ← trigger (respE (SetHeader "Content-Type" "application/json"));
  _ ← trigger (respE (WriteHeader code));
  match json_Marshal v with
  | inr err => mret (Some err)
  | inl b => trigger (respE (Write (b +:+ newline)))
  end.

Definition status_json (a : Action) : any := VMap (Some [("status", VString (StatusTextMap a))]).

Definition respond_status (code : Z) (a : Action) : prog AppE unit :=
  err ← writeJSON code (status_json a);
  match err with
  | Some _ => http_Error "failed to write response" StatusInternalServerError
  | None => mret tt
  end.

(** The two publishing cases: marshal, publish, answer. *)
Definition publish_and_respond (cc : ClientConfig) (a : Action) (content : gomap) : prog AppE unit :=
  match json_Marshal (VMap content) with
  | inr _ => http_Error "failed to marshal payload" StatusInternalServerError
  | inl b =>
      err ← trigger (pubE (PublishRaw (SNSArn (Target (Trigger cc))) b));
      match err with
      | Some _ => http_Error "failed to publish" StatusInternalServerError
      | None => respond_status StatusAccepted a
      end
  end.

(** [Handler.handleNotify]. *)
Definition handleNotify (r : Request) : prog AppE unit :=
  if decide (Method r ≠ "POST") then http_Error "method not allowed" StatusMethodNotAllowed
  else
    let clientID := Header_Get (Header r) ClientIDHdrName in
    let clientKey := Header_Get (Header r) ClientKeyHdrName in
    '(cc, err) ← LoadCachedClientConfig clientID;
    match err with
    | Some _ => http_Error "unknown client" StatusUnauthorized
    | None =>
    match Auth cc clientID clientKey with
    | Some err => http_Error (default "" (Error err)) StatusUnauthorized
    | None =>
    match read_limited (Body r) body_limit with
    | (_, Some _) => http_Error "read error" StatusBadRequest
    | (body, None) =>
    if decide (len body = 0) then http_Error "empty body" StatusBadRequest
    else
    match json_Unmarshal body with
    | (_, Some _) => http_Error "invalid json" StatusBadRequest
    | (payload, None) =>
    ip ← or_panic (clientIP r);
    '(action, statusCode, newPayload, err) ← Run clientID ip cc payload;
    match err with
    | Some err => http_Error (default "" (Error err)) statusCode
    | None =>
    match action with
    | NoOp | SuppressFlapping | SuppressDedup => respond_status statusCode action
    | AggregateSent => publish_and_respond cc action newPayload
    | EdgeTriggeredForward | ForwardedAsIs => publish_and_respond cc action payload
    end
    end
    end
    end
    end
    end.

(** [Handler.Router]: the two patterns without a trailing slash match exactly
    their path; [ServeMux] answers 404 otherwise. Paths are taken as already
    clean (the multiplexer redirects the others). *)
Definition Router (r : Request) : prog AppE unit :=
  if decide (Path r = "/notify") then handleNotify r
  else if decide (Path r = "/health") then trigger (respE (WriteHeader StatusOK))
  else http_Error "404 page not found" StatusNotFound.

End http.
