(* ===== verification/HttpProps.v ===== *)
(** * Properties of the HTTP entry point

    [notify_cases] describes every execution of [handleNotify]: the request is
    turned away without any effect, or it is authenticated and parsed, [Run]
    decides, and the decision is delivered. *)

From S2P Require Import Prelude Errors Strconv Text Types Effects Ports Base64 DemoLib Jmes EdgeFlap EdgeProps StoreSpec MemStore Ttl Flow FlowProps Http.

(** No call to the data store and none to the publisher. *)
Definition effectless (t : list (event AppE)) : Prop :=
  acquires t = [] ∧ loads t = [] ∧ upserts t = [] ∧ publishes t = [].

Lemma effectless_app t u : effectless t → effectless u → effectless (t ++ u).
Proof.
  intros (?&?&?&?) (?&?&?&?). unfold effectless.
  autorewrite with enoti. by repeat match goal with H : _ = [] |- _ => rewrite H; clear H end.
Qed.

Lemma LoadCached_exec id t o :
  exec (LoadCachedClientConfig id) t o → o ≠ None ∧ effectless t ∧ statuses t = [].
Proof.
  revert t o. apply wp_exec. unfold LoadCachedClientConfig, TTL_Get, TTL_Set. prog_simpl.
  assert (∀ (P : list (event AppE) → Prop),
    (∀ r, P [Ev (clientE (GetClientConfig id)) r]) →
    (∀ r n e, P [Ev (clientE (GetClientConfig id)) r; Ev (clockE TimeNow) n; Ev (cacheE (MapWrite id e)) ()]) →
    wp (prog_bind
          (λ '(cc, err), match err with
             | Some err => Ret (zeroClientConfig, Some err)
             | None => Vis (clockE TimeNow) (λ now, Vis (cacheE (MapWrite id (mkEntry cc (now + 300 * Second))))
                         (λ _, Ret (cc, None)))
             end) (Vis (clientE (GetClientConfig id)) Ret))
      (λ t (o : option (ClientConfig * option error)), o ≠ None ∧ P t)) as Hmiss.
  { intros P H1 H2 [cc [err|]]; simpl; [by split|]. intros n []. by split. }
  intros [e|]; simpl; [intros n; case_decide; simpl|].
  - by apply (Hmiss (λ t, effectless (Ev (cacheE (MapRead id)) (Some e) :: Ev (clockE TimeNow) n :: t) ∧
                         statuses (Ev (cacheE (MapRead id)) (Some e) :: Ev (clockE TimeNow) n :: t) = [])).
  - done.
  - by apply (Hmiss (λ t, effectless (Ev (cacheE (MapRead id)) None :: t) ∧
                         statuses (Ev (cacheE (MapRead id)) None :: t) = [])).
Qed.

(** Traces that only answer with one status, or first with this one. *)
Definition answers (t : list (event AppE)) (code : Z) : Prop := effectless t ∧ statuses t = [code].
Definition answers_first (t : list (event AppE)) (code : Z) : Prop :=
  effectless t ∧ (statuses t = [code] ∨ statuses t = [code; StatusInternalServerError]).

Lemma http_Error_wp msg code : wp (http_Error msg code) (λ t o, o = Some tt ∧ answers t code).
Proof. by intros [] [] [] r. Qed.

Lemma respond_status_wp `{L : Lib} code a :
  wp (respond_status code a) (λ t o, o = Some tt ∧ answers_first t code).
Proof.
  unfold respond_status, writeJSON. prog_simpl. intros [] [].
  destruct (json_Marshal _) as [b|err]; simpl.
  - intros [err|]; simpl; [intros [] [] [] r|]; (split; [done|]); (split; [done|]); auto.
  - intros [] [] [] r. split; [done|]. split; [done|]. by right.
Qed.

(** How a decision is delivered: nothing is published unless the action says so,
    and the answer is 500 exactly when publishing failed. *)
Inductive published_answer (cc : ClientConfig) (b : string) : list (event AppE) → Prop :=
| pub_failed t err : answers t StatusInternalServerError →
    published_answer cc b (Ev (pubE (PublishRaw (SNSArn (Target (Trigger cc))) b)) (Some err) :: t)
| pub_ok t : answers_first t StatusAccepted →
    published_answer cc b (Ev (pubE (PublishRaw (SNSArn (Target (Trigger cc))) b)) None :: t).

(** The content an action publishes. *)
Definition content (a : Action) (payload newPayload : gomap) : option gomap :=
  match a with
  | NoOp | SuppressFlapping | SuppressDedup => None
  | AggregateSent => Some newPayload
  | EdgeTriggeredForward | ForwardedAsIs => Some payload
  end.

Section cases.
Context `{L : Lib}.

Inductive delivered (cc : ClientConfig) (payload : gomap) :
    Action * Z * gomap * option error → list (event AppE) → Prop :=
| del_error a st p err t : answers t st → delivered cc payload (a, st, p, Some err) t
| del_quiet a st p t : content a payload p = None → answers_first t st →
    delivered cc payload (a, st, p, None) t
| del_unencodable a st p c err t :
    content a payload p = Some c → json_Marshal (VMap c) = inr err →
    answers t StatusInternalServerError → delivered cc payload (a, st, p, None) t
| del_published a st p c b t :
    content a payload p = Some c → json_Marshal (VMap c) = inl b →
    published_answer cc b t → delivered cc payload (a, st, p, None) t.

Definition deliver (cc : ClientConfig) (payload : gomap) (res : Action * Z * gomap * option error) :
    prog AppE unit :=
  match res with
  | (_, st, _, Some err) => http_Error (default "" (Error err)) st
  | (a, st, p, None) =>
      match content a payload p with
      | None => respond_status st a
      | Some c => publish_and_respond cc a c
      end
  end.

Lemma deliver_wp cc payload res :
  wp (deliver cc payload res) (λ t o, o = Some tt ∧ delivered cc payload res t).
Proof.
  destruct res as [[[a st] p] [err|]]; unfold deliver.
  { eapply wp_mono; [|apply http_Error_wp]. intros t o [-> Ht]. split; [done|by constructor]. }
  destruct (content a payload p) as [c|] eqn:Hc; last first.
  { eapply wp_mono; [|apply respond_status_wp]. intros t o [-> Ht]. split; [done|by constructor]. }
  unfold publish_and_respond. destruct (json_Marshal (VMap c)) as [b|err] eqn:Hb.
  - apply wp_call. intros [err|].
    + eapply wp_mono; [|apply http_Error_wp]. intros t o [-> Ht].
      split; [done|]. by eapply del_published; [..|apply pub_failed].
    + eapply wp_mono; [|apply respond_status_wp]. intros t o [-> Ht].
      split; [done|]. by eapply del_published; [..|apply pub_ok].
  - eapply wp_mono; [|apply http_Error_wp]. intros t o [-> Ht]. split; [done|by eapply del_unencodable].
Qed.

(** The request was authenticated with [cc] by the calls [t], and its body is the
    JSON text of [payload]. *)
Definition authenticated (r : Request) (t : list (event AppE)) (cc : ClientConfig) : Prop :=
  Method r = "POST" ∧
  exec (LoadCachedClientConfig (Header_Get (Header r) ClientIDHdrName)) t (Some (cc, None)) ∧
  Auth cc (Header_Get (Header r) ClientIDHdrName) (Header_Get (Header r) ClientKeyHdrName) = None.

Definition parsed (r : Request) (payload : gomap) : Prop :=
  ∃ body, read_limited (Body r) body_limit = (body, None) ∧ len body ≠ 0 ∧
          json_Unmarshal body = (payload, None).

Inductive notify_trace (r : Request) : list (event AppE) → Prop :=
| notify_rejected t code :
    code ∈ [StatusMethodNotAllowed; StatusUnauthorized; StatusBadRequest] →
    answers t code → notify_trace r t
| notify_decided t1 t2 t3 cc payload ip res :
    authenticated r t1 cc → parsed r payload → clientIP r = Some ip →
    exec (Run (Header_Get (Header r) ClientIDHdrName) ip cc payload) t2 (Some res) →
    delivered cc payload res t3 → notify_trace r (t1 ++ t2 ++ t3).

Lemma clientIP_total r : ∃ ip, clientIP r = Some ip.
Proof.
  unfold clientIP. case_decide.
  - unfold Split. destruct (split_bytes_cons ","%char (bytes (Header_Get (Header r) "X-Forwarded-For")))
      as (p & ps & ->). simpl. eauto.
  - destruct (SplitHostPort _) as [[]|]; eauto.
Qed.

Lemma effectless_answers t u code : effectless t → statuses t = [] → answers u code → answers (t ++ u) code.
Proof.
  intros Ht Hs [Hu Hc]. split; [by apply effectless_app|]. by rewrite statuses_app, Hs.
Qed.

(** The handler after the lookup of the configuration. *)
Lemma notify_exec r : wp (handleNotify r) (λ t o, o = Some tt ∧ notify_trace r t).
Proof.
  unfold handleNotify.
  assert (∀ t1 msg code, code ∈ [StatusMethodNotAllowed; StatusUnauthorized; StatusBadRequest] →
    effectless t1 → statuses t1 = [] →
    wp (http_Error msg code) (λ t o, o = Some tt ∧ notify_trace r (t1 ++ t))) as Hrej.
  { intros t1 msg code Hin He Hs. eapply wp_mono; [|apply http_Error_wp]. intros t o [-> Ht].
    split; [done|]. apply (notify_rejected r _ code); [done|by apply effectless_answers]. }
  case_decide as Hm; [by apply (Hrej []); [left|..]|].
  apply wp_bind, wp_exec. intros t1 o Hx. pose proof (LoadCached_exec _ _ _ Hx) as (Ho & He & Hs).
  destruct o as [[cc err]|]; [|done].
  destruct err as [err|]; [by apply Hrej; [right; left|..]|].
  destruct (Auth cc _ _) as [err|] eqn:Hauth; [by apply Hrej; [right; left|..]|].
  destruct (read_limited (Body r) body_limit) as [body [err|]] eqn:Hread;
    [by apply Hrej; [right; right; left|..]|].
  case_decide as Hlen; [by apply Hrej; [right; right; left|..]|].
  destruct (json_Unmarshal body) as [payload [err|]] eqn:Hjson;
    [by apply Hrej; [right; right; left|..]|].
  destruct (clientIP_total r) as [ip Hip]. rewrite Hip.
  apply wp_bind. cbn [or_panic wp].
  apply wp_bind, wp_exec. intros t2 o Hrun.
  destruct (Run_exec _ _ _ _ _ _ Hrun) as (res & -> & _).
  eapply (wp_mono _ (λ t o, o = Some tt ∧ delivered cc payload res t)).
  { intros t3 o [-> Hd]. split; [done|]. apply (notify_decided r t1 t2 t3 cc payload ip res); [by split_and!|by exists body|done..]. }
  replace (let '(action, statusCode, newPayload, err) := res in _) with (deliver cc payload res);
    [apply deliver_wp|by destruct res as [[[[] st] p] [err|]]].
Qed.

End cases.

(** ** Properties *)

Section claims.
Context `{L : Lib}.

Lemma Router_exec r t o :
  exec (Router r) t o →
  o = Some tt ∧
  ((Path r = "/notify" ∧ notify_trace r t) ∨
   (Path r ≠ "/notify" ∧ ∃ code, code ∈ [StatusOK; StatusNotFound] ∧ answers t code)).
Proof.
  revert t o. apply wp_exec. unfold Router. case_decide as Hn; [|case_decide as Hh].
  - eapply wp_mono; [|apply notify_exec]. intros t o [-> Ht]. auto.
  - intros []. split; [done|]. right. split; [done|]. exists StatusOK. split; [by left|done].
  - eapply wp_mono; [|apply http_Error_wp]. intros t o [-> Ht].
    split; [done|]. right. split; [done|]. exists StatusNotFound. split; [by right; left|done].
Qed.

(** [Run] publishes and answers nothing itself. *)
Lemma Run_silent cid ip cc payload t o :
  exec (Run cid ip cc payload) t o → publishes t = [] ∧ statuses t = [].
Proof.
  intros (res & -> & Hx)%Run_exec.
  assert (∀ l s d t e, limit_trace l s d t e → publishes t = [] ∧ statuses t = []) as Hlim by by intros ????? [].
  destruct Hx as [t e H1|t1 t2 e H1 H2|t1 t2 t3 res H1 H2 H3].
  - by apply Hlim in H1.
  - apply Hlim in H1 as [E1 F1], H2 as [E2 F2]. autorewrite with enoti. by rewrite E1, E2, F1, F2.
  - apply Hlim in H1 as [E1 F1], H2 as [E2 F2]. autorewrite with enoti. rewrite E1, E2, F1, F2. simpl.
    destruct H3 as [| | |v t a p e ??? Hx|v t a p t' a' st e ??? Hx Ht]; try done.
    + by destruct Hx.
    + autorewrite with enoti. by destruct Hx, Ht.
Qed.

Lemma Auth_None cc id key :
  Auth cc id key = None ↔ id ≠ "" ∧ key ≠ "" ∧ key = ClientKey cc.
Proof. unfold Auth. repeat case_decide; naive_solver. Qed.

(** C13: only an authenticated request has effects: whenever serving a request
    calls the data store or the publisher, it was a POST to [/notify] with a
    non-empty client id and key, the configuration of that client had been
    fetched before any effect, and the key is exactly the configured one. *)
Theorem http_effects_authenticated r t o :
  exec (Router r) t o → ¬ effectless t →
  let id := Header_Get (Header r) ClientIDHdrName in
  Path r = "/notify" ∧ Method r = "POST" ∧ id ≠ "" ∧
  ∃ t1 t2 cc, t = t1 ++ t2 ∧ effectless t1 ∧
    exec (LoadCachedClientConfig id) t1 (Some (cc, None)) ∧
    Header_Get (Header r) ClientKeyHdrName = ClientKey cc ∧ ClientKey cc ≠ "".
Proof.
  intros [_ [[Hp Hn]|(_ & code & _ & Ha & _)]]%Router_exec Heff; [|done].
  destruct Hn as [t code _ [He _]|t1 t2 t3 cc payload ip res (Hm & Hl & Hauth) _ _ _ _]; [done|].
  apply Auth_None in Hauth as (Hid & Hkey & Heq). split_and!; [done..|].
  exists t1, (t2 ++ t3), cc. destruct (LoadCached_exec _ _ _ Hl) as (_ & He & _).
  rewrite <- Heq. by split_and!.
Qed.

(** What a delivery publishes: the publish comes first and is the only effect. *)
Lemma delivered_publishes cc payload res t :
  delivered cc payload res t → publishes t ≠ [] →
  ∃ a st p c b reply, res = (a, st, p, None) ∧ content a payload p = Some c ∧
    json_Marshal (VMap c) = inl b ∧
    head t = Some (Ev (pubE (PublishRaw (SNSArn (Target (Trigger cc))) b)) reply) ∧ effectless (tail t).
Proof.
  intros [a st p err u [Hu _]|a st p u _ [Hu _]|a st p c err u _ _ [Hu _]|a st p c b u Hc Hb Hpub] Hne;
    [by destruct Hu as (_&_&_&?)..|].
  destruct Hpub as [u err [Hu _]|u [Hu _]]; eauto 12.
Qed.

(** C7: end to end, serving a request publishes at most once, to the topic of the
    authenticated client, and only what was earned. Its calls are, in this order:
    the lookup of the configuration [cc] the request was authenticated with
    ([t1]); the decision ([t2]), in which every limit of [cc] that is set was
    granted, in order, and, for an edge or aggregate notification, the observed
    value was written by one accepted compare-and-set; and the delivery ([t3]),
    which begins with the publish. The text is the encoding of the request's
    payload, or of the aggregate. *)
Theorem http_publish_earned r t o :
  exec (Router r) t o → publishes t ≠ [] →
  let id := Header_Get (Header r) ClientIDHdrName in
  ∃ t1 t2 t3 cc payload ip a p c b reply,
    t = t1 ++ t2 ++ t3 ∧
    authenticated r t1 cc ∧ effectless t1 ∧
    parsed r payload ∧ clientIP r = Some ip ∧
    exec (Run id ip cc payload) t2 (Some (a, StatusAccepted, p, None)) ∧ publishes t2 = [] ∧
    acquires t2 = granted (IPRPM cc) ("IP:" +:+ ip) ++ granted (ClientRPM cc) ("CLIENT:" +:+ id) ++
      (if decide (announces a) then granted (SNSRPM (Target (Trigger cc))) (target_scope id cc) else []) ∧
    (announces a → ∃ v ver next,
       EvalString (tr_FieldExpr (Trigger cc)) payload = inl (Some v) ∧ LastValue next = v ∧
       upserts t2 = [(id, ComputeKey (tr_FieldExpr (Trigger cc)), ver, next, (true, None))]) ∧
    content a payload p = Some c ∧ json_Marshal (VMap c) = inl b ∧
    head t3 = Some (Ev (pubE (PublishRaw (SNSArn (Target (Trigger cc))) b)) reply) ∧ effectless (tail t3).
Proof.
  intros [_ [[Hp Hn]|(_ & code & _ & (_&_&_&Ha) & _)]]%Router_exec Hpub; [|done].
  destruct Hn as [t code _ [(_&_&_&He) _]|t1 t2 t3 cc payload ip res Hauth Hpar Hip Hrun Hd]; [done|].
  pose proof Hauth as (_ & Hl & _). apply LoadCached_exec in Hl as (_ & Heff & _).
  destruct (Run_silent _ _ _ _ _ _ Hrun) as [P2 _].
  destruct (delivered_publishes _ _ _ _ Hd) as (a & st & p & c & b & reply & -> & Hc & Hb & Hhd & Htl).
  { revert Hpub. destruct Heff as (_&_&_&P1). by rewrite !publishes_app, P1, P2. }
  destruct (Run_granted _ _ _ _ _ _ _ _ Hrun) as (-> & Hacq & _ & Hcommit).
  { destruct a; simpl in Hc; unfold announces; auto; done. }
  exists t1, t2, t3, cc, payload, ip, a, p, c, b, reply. by split_and!.
Qed.

(** The statuses of the service. *)
Definition http_statuses : list Z :=
  [StatusOK; StatusAccepted; StatusBadRequest; StatusUnauthorized; StatusNotFound;
   StatusMethodNotAllowed; StatusTooManyRequests; StatusInternalServerError].

(** The answer of a delivery: its first status, and 500 for a failed publish. *)
Definition answered (t : list (event AppE)) : Prop :=
  ∃ st, (statuses t = [st] ∨ statuses t = [st; StatusInternalServerError]) ∧ st ∈ http_statuses ∧
    (∀ arn b err, publishes t = [(arn, b, Some err)] → statuses t = [StatusInternalServerError]) ∧
    (∀ arn b, publishes t = [(arn, b, None)] → st = StatusAccepted).

Lemma answers_answered t code : answers t code → code ∈ http_statuses → answered t.
Proof.
  intros [(_&_&_&Hp) Hs] Hin. exists code. rewrite Hp. split_and!; auto; by intros.
Qed.

Lemma answers_first_answered t code : answers_first t code → code ∈ http_statuses → answered t.
Proof.
  intros [(_&_&_&Hp) Hs] Hin. exists code. rewrite Hp. split_and!; auto; by intros.
Qed.

Lemma run_outcomes_statuses st err : (st, err) ∈ run_outcomes → st ∈ http_statuses.
Proof.
  unfold run_outcomes. rewrite !elem_of_cons, elem_of_nil.
  intros H. repeat (destruct H as [[= -> ->]|H]; [in_list|]). done.
Qed.

Lemma delivered_answered cc payload a st p err t :
  (st, err) ∈ run_outcomes → delivered cc payload (a, st, p, err) t → answered t.
Proof.
  intros Hst%run_outcomes_statuses Hd.
  inversion Hd as [? ? ? e u Hu|? ? ? u Hc Hu|? ? ? c e u Hc He Hu|? ? ? c b u Hc Hb Hpub]; subst.
  - by eapply answers_answered.
  - by eapply answers_first_answered.
  - eapply answers_answered; [done|in_list].
  - destruct Hpub as [u e [(_&_&_&Hp) Hs]|u [(_&_&_&Hp) Hs]].
    + exists StatusInternalServerError. simpl. fold (publishes u). rewrite Hp.
      split_and!; [by left|in_list|done|by intros].
    + exists StatusAccepted. simpl. fold (publishes u). rewrite Hp.
      split_and!; [done|in_list|by intros|done].
Qed.

(** C28: every request is answered and no request panics: one status line of the
    eight the service uses is written (a failure to write the JSON body adds an
    attempt to send 500 after it); a publisher failure is always answered 500 and
    a successful publish 202. *)
Theorem http_answers r t o : exec (Router r) t o → o = Some tt ∧ answered t.
Proof.
  intros [-> [[Hp Hn]|(_ & code & Hin & Ha)]]%Router_exec; (split; [done|]).
  - destruct Hn as [t code Hin Ha|t1 t2 t3 cc payload ip [[[a st] p] err] Hauth Hpar Hip Hrun Hd].
    + apply (answers_answered t code Ha).
      rewrite !elem_of_cons, elem_of_nil in Hin. destruct Hin as [->|[->|[->|[]]]]; in_list.
    + destruct (Run_exec _ _ _ _ _ _ Hrun) as (res & [= <-] & Hx).
      apply run_trace_outcome in Hx. apply (delivered_answered _ _ _ _ _ _ _ Hx) in Hd.
      pose proof Hauth as (_ & Hl & _). apply LoadCached_exec in Hl as (_ & (_&_&_&P1) & S1).
      destruct (Run_silent _ _ _ _ _ _ Hrun) as [P2 S2].
      unfold answered. by rewrite !publishes_app, !statuses_app, P1, P2, S1, S2.
  - apply (answers_answered t code Ha).
    rewrite !elem_of_cons, elem_of_nil in Hin. destruct Hin as [->|[->|[]]]; in_list.
Qed.

End claims.

(** ** Witnesses *)

Definition demo_request : Request :=
  mkRequest "POST" "/notify"
    {[ "X-Client-Id" := ["acme"]; "X-Client-Key" := ["s3cret-key"];
       "X-Forwarded-For" := ["1.2.3.4, 10.0.0.1"] ]}
    ("v=b", None) "10.0.0.1:5000".

(** A process that knows the client [acme] of [demo_cc] serves it: the
    configuration is fetched, the first value is forwarded and published. *)
Definition demo_served : list (event AppE) :=
  (record mem_app (Router demo_request) (mem_world 1000 {[ "acme" := demo_cc ]})).1.

Lemma demo_served_exec : exec (Router demo_request) demo_served (Some tt).
Proof. apply record_exec. vm_compute. reflexivity. Qed.

Example demo_served_calls :
  publishes demo_served = [("arn:t", "v=b", None)] ∧ statuses demo_served = [StatusAccepted] ∧
  acquires demo_served =
    [("IP:1.2.3.4", 10, Minute, (true, None)); ("CLIENT:acme", 20, Minute, (true, None));
     ("TARGET:acme:arn:t", 5, Minute, (true, None))].
Proof. by vm_compute. Qed.

Lemma http_effects_authenticated_witness :
  Path demo_request = "/notify" ∧ Method demo_request = "POST" ∧ "acme" ≠ "".
Proof.
  destruct (http_effects_authenticated demo_request demo_served (Some tt) demo_served_exec)
    as (H1 & H2 & H3 & _).
  - intros (H & _). vm_compute in H. discriminate H.
  - split; [exact H1|split; [exact H2|exact H3]].
Defined.

Lemma http_publish_earned_witness :
  ∃ t1 t2 t3 cc a, demo_served = t1 ++ t2 ++ t3 ∧ authenticated demo_request t1 cc ∧
    acquires t2 = granted (IPRPM cc) "IP:1.2.3.4" ++ granted (ClientRPM cc) "CLIENT:acme" ++
      (if decide (announces a) then granted (SNSRPM (Target (Trigger cc))) (target_scope "acme" cc) else []).
Proof.
  destruct (http_publish_earned demo_request demo_served (Some tt) demo_served_exec)
    as (t1 & t2 & t3 & cc & payload & ip & a & p & c & b & reply & Ht & Hauth & _ & _ & Hip & _ & _ & Hacq & _).
  - vm_compute. discriminate.
  - vm_compute in Hip. injection Hip as <-. exists t1, t2, t3, cc, a. split; [exact Ht|split; [exact Hauth|exact Hacq]].
Defined.

Lemma http_answers_witness : Some tt = Some tt ∧ answered demo_served.
Proof. exact (http_answers demo_request demo_served (Some tt) demo_served_exec). Defined.
