(* ===== verification/Lambda.v ===== *)
(** * [cmd/lambda-sqs/main.go]: the SQS entry point

    The same flow for the messages of a queue. This program decodes and encodes
    with [encoding/json] instead of goccy/go-json: its two functions are the
    class [StdJson], separate from those of [Lib]. *)

From S2P Require Import Prelude Errors Strconv Text Types Effects Ports Base64 DemoLib Jmes EdgeFlap EdgeProps StoreSpec MemStore Ttl Flow FlowProps Http HttpProps.

Class StdJson := {
  std_Marshal : any → string + error;
  std_Unmarshal : string → gomap * option error;
}.

(** [events.SQSMessage]: the fields read. A message attribute is its optional
    [StringValue]. *)
Record SQSMessage := mkSQSMessage {
  MessageId : string;
  sqs_Body : string;
  MessageAttributes : gmap string (option string);
}.

Record SQSMessageAttributes := mkSQSMessageAttributes {
  attr_ClientID : string;
  attr_ClientKey : string;
  attr_ClientIP : string;
}.

(** [*attr.StringValue] of a present attribute, and the zero string otherwise. *)
Definition attribute (record : SQSMessage) (name : string) : string :=
  match MessageAttributes record !! name with
  | Some (Some v) => v
  | _ => ""
  end.

(** [extractMessageAttributes]. *)
Definition extractMessageAttributes (record : SQSMessage) : SQSMessageAttributes + error :=
  let clientID := attribute record ClientIDHdrName in
  if decide (clientID = "") then inr (Errorf ("missing required attribute: " +:+ ClientIDHdrName))
  else
    let clientKey := attribute record ClientKeyHdrName in
    if decide (clientKey = "") then inr (Errorf ("missing required attribute: " +:+ ClientKeyHdrName))
    else
      let clientIP := attribute record "ClientIP" in
      inl (mkSQSMessageAttributes clientID clientKey (if decide (clientIP = "") then "lambda" else clientIP)).

Section lambda.
Context `{L : Lib} `{J : StdJson}.

(** The two publishing cases of the switch. *)
Definition lambda_publish (cc : ClientConfig) (content : gomap) (marshalMsg publishMsg : string) :
    prog AppE (option error) :=
  match std_Marshal (VMap content) with
  | inr err => mret (Some (Wrapf marshalMsg err))
  | inl b =>
      err ← trigger (pubE (PublishRaw (SNSArn (Target (Trigger cc))) b));
      match err with
      | Some err => mret (Some (Wrapf publishMsg err))
      | None => mret None
      end
  end.

(** [processMessage]. *)
Definition processMessage (record : SQSMessage) : prog AppE (option error) :=
  match extractMessageAttributes record with
  | inr err => mret (Some (Wrapf "extract attributes" err))
  | inl attrs =>
  '(cc, err) ← LoadCachedClientConfig (attr_ClientID attrs);
  match err with
  | Some err => mret (Some (Wrapf "load client config" err))
  | None =>
  match Auth cc (attr_ClientID attrs) (attr_ClientKey attrs) with
  | Some err => mret (Some (Wrapf "authentication failed" err))
  | None =>
  match std_Unmarshal (sqs_Body record) with
  | (_, Some err) => mret (Some (Wrapf "parse message body" err))
  | (payload, None) =>
  '(action, statusCode, newPayload, err) ← Run (attr_ClientID attrs) (attr_ClientIP attrs) cc payload;
  match err with
  | Some err => mret (Some (Wrapf "flow.Run" err))
  | None =>
  match action with
  | NoOp | SuppressFlapping | SuppressDedup => mret None
  | AggregateSent =>
      lambda_publish cc newPayload "marshal aggregate payload" "publish aggregate to SNS"
  | EdgeTriggeredForward | ForwardedAsIs =>
      lambda_publish cc payload "marshal payload" "publish to SNS"
  end
  end
  end
  end
  end
  end.

(** The loop of [HandleSQSEvent]. *)
Fixpoint process_records (records : list SQSMessage) (batchItemFailures : list string) :
    prog AppE (list string) :=
  match records with
  | [] => mret batchItemFailures
  | record :: records =>
      err ← processMessage record;
      match err with
      | Some _ => process_records records (batchItemFailures ++ [MessageId record])
      | None => process_records records batchItemFailures
      end
  end.

(** [HandleSQSEvent]: the item identifiers of the failures, and a nil error. *)
Definition HandleSQSEvent (records : list SQSMessage) : prog AppE (list string * option error) :=
  batchItemFailures ← process_records records [];
  mret (batchItemFailures, None).

End lambda.
