(* ===== verification/LambdaProps.v ===== *)
(** * Properties of the SQS entry point, and its agreement with the HTTP one *)

From S2P Require Import Prelude Errors Strconv Text Types Effects Ports Base64 DemoLib Jmes EdgeFlap EdgeProps StoreSpec MemStore Ttl Flow FlowProps Http HttpProps Lambda.

(** ** Executions without the calls to the response writer *)

Definition not_response (ev : event AppE) : bool :=
  match ev with
  | Ev e _ => match e with respE _ => false | _ => true end
  end.

Definition strip (t : list (event AppE)) : list (event AppE) := List.filter not_response t.

Lemma strip_app t u : strip (t ++ u) = strip t ++ strip u.
Proof. apply List.filter_app. Qed.

(** [same_effects p q]: the two programs make the same calls to the stores, the
    cache, the clock and the publisher, whatever these reply; only [p] also
    writes a response. *)
Definition same_effects {A B} (p : prog AppE A) (q : prog AppE B) : Prop :=
  (∀ t o, exec p t o → ∃ o', exec q (strip t) o') ∧
  (∀ t o, exec q t o → ∃ t' o', exec p t' o' ∧ strip t' = t).

Definition no_response {A} (p : prog AppE A) : Prop := wp p (λ t _, strip t = t).

Lemma same_effects_bind {A B C} (p : prog AppE A) (f : A → prog AppE B) (g : A → prog AppE C) :
  no_response p → no_panic p → (∀ t a, exec p t (Some a) → same_effects (f a) (g a)) →
  same_effects (prog_bind f p) (prog_bind g p).
Proof.
  intros Hs Hp Hfg. unfold no_response, no_panic in *. rewrite wp_exec in Hs, Hp. split.
  - intros t o [(t1 & t2 & a & -> & H1 & H2)|[-> H]]%exec_bind; [|by apply Hp in H].
    destruct (Hfg _ _ H1) as [Hl _]. apply Hl in H2 as [o' H2]. exists o'.
    rewrite strip_app, (Hs _ _ H1). apply exec_bind. left. eauto 10.
  - intros t o [(t1 & t2 & a & -> & H1 & H2)|[-> H]]%exec_bind; [|by apply Hp in H].
    destruct (Hfg _ _ H1) as [_ Hr]. apply Hr in H2 as (t' & o' & H2 & <-).
    exists (t1 ++ t'), o'. rewrite strip_app, (Hs _ _ H1). split; [|done].
    apply exec_bind. left. eauto 10.
Qed.

(** A program that only answers, against one that does nothing. *)
Lemma same_effects_silent {A B} (p : prog AppE A) (b : B) :
  wp p (λ t _, strip t = []) → (∃ t o, exec p t o) → same_effects p (Ret b).
Proof.
  rewrite wp_exec. intros Hp (t & o & Hx). split.
  - intros t' o' H. exists (Some b). by rewrite (Hp _ _ H).
  - intros t' o' [-> ->]. exists t, o. eauto.
Qed.

Lemma http_Error_silent {B} msg code (b : B) : same_effects (http_Error msg code) (Ret b).
Proof.
  apply same_effects_silent; [by intros [] [] [] r|].
  eexists [_; _; _; _], _. do 3 (exists tt; eexists; split; [done|]).
  exists None. eexists; split; [done|]. by split.
Qed.

Lemma respond_status_silent `{L : Lib} {B} code a (b : B) : same_effects (respond_status code a) (Ret b).
Proof.
  apply same_effects_silent; unfold respond_status, writeJSON; prog_simpl.
  - intros [] []. destruct (json_Marshal _) as [s|e]; simpl; [intros [e|]; simpl; [|done]|];
      by intros [] [] [] r.
  - destruct (json_Marshal _) as [s|e].
    + eexists [_; _; _], _. do 2 (exists tt; eexists; split; [done|]). exists None. eexists; split; [done|]. by split.
    + eexists [_; _; _; _; _; _], _. do 5 (exists tt; eexists; split; [done|]).
      exists None. eexists; split; [done|]. by split.
Qed.

Lemma LoadCached_no_response id : no_response (LoadCachedClientConfig id).
Proof.
  unfold no_response, LoadCachedClientConfig, TTL_Get, TTL_Set. prog_simpl.
  intros [e|]; simpl; [intros n; case_decide; simpl; [|done]|]; intros [cc [err|]]; simpl; try done.
  all: by intros n' [].
Qed.

Lemma LoadCached_no_panic id : no_panic (LoadCachedClientConfig id).
Proof. apply wp_exec. intros t o H. by destruct (LoadCached_exec _ _ _ H). Qed.

Section flow.
Context `{L : Lib}.

Lemma Run_no_panic cid ip cc payload : no_panic (Run cid ip cc payload).
Proof. apply wp_exec. by intros t o (res & -> & _)%Run_exec. Qed.

Lemma Run_no_response cid ip cc payload : no_response (Run cid ip cc payload).
Proof.
  apply wp_exec. intros t o (res & -> & Hx)%Run_exec.
  assert (∀ l s d t e, limit_trace l s d t e → strip t = t) as Hlim by by intros ????? [].
  destruct Hx as [t e H1|t1 t2 e H1 H2|t1 t2 t3 res H1 H2 H3].
  - by eapply Hlim.
  - by rewrite strip_app, (Hlim _ _ _ _ _ H1), (Hlim _ _ _ _ _ H2).
  - rewrite !strip_app, (Hlim _ _ _ _ _ H1), (Hlim _ _ _ _ _ H2). do 2 f_equal.
    destruct H3 as [| | |v t a p e ??? Hx|v t a p t' a' st e ??? Hx Ht]; try done; by destruct Hx; try destruct Ht.
Qed.

End flow.

(** ** Properties *)

(** The item identifiers of the records that failed. *)
Definition failures (records : list SQSMessage) (errs : list (option error)) : list string :=
  omap (λ p, match p.2 with Some _ => Some (MessageId p.1) | None => None end) (zip records errs).

Section claims.
Context `{L : Lib} `{J : StdJson}.

Lemma processMessage_no_panic record : no_panic (processMessage record).
Proof.
  unfold processMessage. destruct (extractMessageAttributes record) as [attrs|]; [|done].
  apply no_panic_bind; [apply LoadCached_no_panic|]. intros [cc [err|]]; [done|].
  destruct (Auth _ _ _); [done|]. destruct (std_Unmarshal _) as [payload [err|]]; [done|].
  apply no_panic_bind; [apply Run_no_panic|]. intros [[[a st] p] [err|]]; [done|].
  unfold lambda_publish. destruct a; try done; destruct (std_Marshal _); try done; by intros [].
Qed.

Lemma process_records_exec records acc t o :
  exec (process_records records acc) t o →
  ∃ runs, Forall2 (λ rec run, exec (processMessage rec) run.1 (Some run.2)) records runs ∧
          t = concat runs.*1 ∧ o = Some (acc ++ failures records runs.*2).
Proof.
  revert acc t. induction records as [|rec records IH]; intros acc t; simpl.
  - intros [-> ->]. exists []. by rewrite app_nil_r.
  - intros [(t1 & t2 & err & -> & H1 & H2)|[-> H]]%exec_bind; last first.
    { pose proof (proj1 (wp_exec _ _) (processMessage_no_panic rec) _ _ H). done. }
    destruct err as [err|]; apply IH in H2 as (runs & Hall & -> & ->).
    + exists ((t1, Some err) :: runs). split; [by constructor|]. split; [done|].
      unfold failures. simpl. by rewrite <- app_assoc.
    + exists ((t1, None) :: runs). split; [by constructor|]. done.
Qed.

(** C18: a batch never fails as a whole: every record is processed exactly once,
    in order, also after a failure, and the failures reported are exactly the
    identifiers of the records whose processing returned an error. *)
Theorem batch_failures_exact records t o :
  exec (HandleSQSEvent records) t o →
  ∃ runs, Forall2 (λ rec run, exec (processMessage rec) run.1 (Some run.2)) records runs ∧
          t = concat runs.*1 ∧ o = Some (failures records runs.*2, None).
Proof.
  unfold HandleSQSEvent.
  intros [(t1 & t2 & ids & -> & H1 & [-> ->])|[-> H]]%exec_bind.
  - apply process_records_exec in H1 as (runs & Hall & -> & [= ->]). exists runs.
    by rewrite app_nil_r.
  - by apply process_records_exec in H as (runs & _ & _ & ?).
Qed.

(** goccy/go-json is a drop-in replacement of [encoding/json]: what one decodes or
    encodes successfully, the other does too, with the same result. What they
    leave behind when they fail is not compared. *)
Definition json_agree : Prop :=
  (∀ s payload, std_Unmarshal s = (payload, None) ↔ json_Unmarshal s = (payload, None)) ∧
  (∀ v b, std_Marshal v = inl b ↔ json_Marshal v = inl b).

(** A request and a message that say the same. *)
Record same_message (r : Request) (record : SQSMessage) : Prop := {
  sm_method : Method r = "POST";
  sm_id : Header_Get (Header r) ClientIDHdrName = attribute record ClientIDHdrName;
  sm_key : Header_Get (Header r) ClientKeyHdrName = attribute record ClientKeyHdrName;
  sm_id_set : attribute record ClientIDHdrName ≠ "";
  sm_key_set : attribute record ClientKeyHdrName ≠ "";
  sm_ip : clientIP r = Some (if decide (attribute record "ClientIP" = "") then "lambda"
                             else attribute record "ClientIP");
  sm_body : Body r = (sqs_Body record, None);
  sm_size : 0 < len (sqs_Body record) < body_limit;
}.

Lemma publish_same cc a c m1 m2 :
  json_agree → same_effects (publish_and_respond cc a c) (lambda_publish cc c m1 m2).
Proof.
  intros [_ Hm]. unfold publish_and_respond, lambda_publish.
  destruct (json_Marshal (VMap c)) as [b|e] eqn:Hb.
  - apply Hm in Hb. rewrite Hb. apply same_effects_bind; [done|done|]. intros t [err|] _.
    + apply http_Error_silent.
    + apply respond_status_silent.
  - destruct (std_Marshal (VMap c)) as [b|err] eqn:Hb'; [|apply http_Error_silent].
    apply Hm in Hb'. congruence.
Qed.

(** C14: the two entry points agree: a request and a message with the same client,
    key, address and body make the same calls to the cache, the stores, the clock
    and the publisher, in the same order and with the same arguments, whatever
    these reply. *)
Theorem http_lambda_same_effects r record :
  json_agree → same_message r record → same_effects (handleNotify r) (processMessage record).
Proof.
  intros Hj [Hm Hid Hkey Hid0 Hkey0 Hip Hbody Hsize]. unfold handleNotify, processMessage, extractMessageAttributes.
  rewrite Hm, Hid, Hkey, Hip, Hbody. rewrite (decide_False (P := "POST" ≠ "POST")) by auto.
  rewrite (decide_False (P := attribute record ClientIDHdrName = "")) by done.
  rewrite (decide_False (P := attribute record ClientKeyHdrName = "")) by done.
  apply same_effects_bind; [apply LoadCached_no_response|apply LoadCached_no_panic|].
  intros t [cc [err|]] _; simpl; [apply http_Error_silent|].
  destruct (Auth cc _ _) as [err|]; [apply http_Error_silent|].
  unfold read_limited. simpl fst. rewrite decide_True by lia. rewrite decide_False by lia.
  pose proof (λ p, proj1 Hj (sqs_Body record) p) as Hp.
  destruct (json_Unmarshal (sqs_Body record)) as [payload e1], (std_Unmarshal (sqs_Body record)) as [payload' e2].
  destruct e1 as [e1|], e2 as [e2|]; [apply http_Error_silent|naive_solver|naive_solver|].
  assert (payload' = payload) as -> by naive_solver.
  apply (same_effects_bind (Run _ _ _ _)); [apply Run_no_response|apply Run_no_panic|].
  intros t' [[[a st] p] [err|]] _; [apply http_Error_silent|].
  destruct a; (apply respond_status_silent || by apply publish_same).
Qed.

(** Attribute names are matched exactly, in lower case: a message that names
    its attributes as the documentation of the entry point does
    ([X-Client-ID], [X-Client-Key]) and has no others is always rejected, without
    any call. *)
Theorem lambda_documented_attributes_rejected id body cid key ip t o :
  exec (processMessage (mkSQSMessage id body
          {[ "X-Client-ID" := Some cid; "X-Client-Key" := Some key; "ClientIP" := Some ip ]})) t o →
  t = [] ∧ o = Some (Some (Wrapf "extract attributes" (Errorf "missing required attribute: x-client-id"))).
Proof. intros H. exact H. Qed.

End claims.

(** ** Witnesses *)

(** The two libraries leave different maps behind when they fail. *)
#[global] Instance demoStd : StdJson := {|
  std_Marshal := demo_marshal;
  std_Unmarshal s :=
    match demo_unmarshal s with
    | (payload, None) => (payload, None)
    | (_, Some err) => (Some [("rest", VString s)], Some err)
    end;
|}.

Definition demo_message (id body : string) : SQSMessage :=
  mkSQSMessage id body
    {[ "x-client-id" := Some "acme"; "x-client-key" := Some "s3cret-key"; "ClientIP" := Some "1.2.3.4" ]}.

(** A forwarded value, a body that is not JSON, and an unchanged value. *)
Definition demo_batch : list SQSMessage :=
  [demo_message "m1" "v=b"; demo_message "m2" "oops"; demo_message "m3" "v=b"].

Definition demo_batch_trace : list (event AppE) :=
  (record mem_app (HandleSQSEvent demo_batch) (mem_world 1000 {[ "acme" := demo_cc ]})).1.

Lemma demo_batch_exec : exec (HandleSQSEvent demo_batch) demo_batch_trace (Some (["m2"], None)).
Proof. apply record_exec. vm_compute. reflexivity. Qed.

Lemma batch_failures_exact_witness :
  ∃ runs, Forall2 (λ rec run, exec (processMessage rec) run.1 (Some run.2)) demo_batch runs ∧
          demo_batch_trace = concat runs.*1 ∧
          Some (["m2"], None) = Some (failures demo_batch runs.*2, None : option error).
Proof.
  exact (batch_failures_exact demo_batch demo_batch_trace (Some (["m2"], None)) demo_batch_exec).
Defined.

Lemma demo_json_agree : json_agree.
Proof.
  split; [|done]. intros s payload. change (json_Unmarshal s) with (demo_unmarshal s). simpl.
  destruct (demo_unmarshal s) as [p [err|]]; [|done]. by split.
Qed.

Lemma http_lambda_same_effects_witness :
  same_effects (handleNotify demo_request) (processMessage (demo_message "m1" "v=b")).
Proof.
  apply (http_lambda_same_effects demo_request (demo_message "m1" "v=b") demo_json_agree).
  split; vm_compute; (reflexivity || discriminate || (split; reflexivity)).
Defined.

Lemma lambda_documented_attributes_rejected_witness :
  (@nil (event AppE)) = [] ∧
  Some (Some (Wrapf "extract attributes" (Errorf "missing required attribute: x-client-id"))) =
  Some (Some (Wrapf "extract attributes" (Errorf "missing required attribute: x-client-id"))).
Proof.
  apply (lambda_documented_attributes_rejected "m1" "v=b" "my-app" "secret-key-123" "192.168.1.100").
  vm_compute. split; reflexivity.
Defined.
