(* ===== verification/System.v ===== *)
(** * The service as a whole: many requests of any clients at once

    HTTP requests and SQS batches of any clients run at the same time against
    one data store, one client store and one configuration cache, their calls
    interleaved in any order. [guarantee] says what every call of the code
    promises of its arguments when every reply keeps the promises of its
    component; the entry points satisfy it, so the stored state stays well
    formed and within its types in every interleaving. *)

From S2P Require Import Prelude Errors Strconv Text Types Effects Sched Ports Base64 DemoLib Jmes EdgeFlap EdgeProps StoreSpec MemStore Ttl Flow FlowProps Http HttpProps Lambda LambdaProps.

(** ** UTF-8 text *)

Lemma valid_utf8_app l1 l2 : valid_utf8 l1 = true → valid_utf8 l2 = true → valid_utf8 (l1 ++ l2) = true.
Proof.
  intros H1 H2. remember (length l1) as n eqn:Hn. revert l1 Hn H1.
  induction (lt_wf n) as [n _ IH]; intros l1 -> H1.
  destruct l1 as [|a l1]; [done|]. cbn [app valid_utf8] in *.
  destruct (in_range 0 127 a); [apply (IH (length l1)); simpl; auto|].
  destruct l1 as [|b l1]; [done|]. cbn [app] in *.
  destruct (in_range 194 223 a).
  { apply andb_true_iff in H1 as [-> H1]. apply (IH (length l1)); simpl; auto. }
  destruct l1 as [|c l1]; [done|]. cbn [app] in *.
  destruct (in_range 224 239 a).
  { rewrite !andb_true_iff in H1. destruct H1 as [[-> ->] H1]. apply (IH (length l1)); simpl; auto. }
  destruct l1 as [|d l1]; [done|]. cbn [app] in *.
  rewrite !andb_true_iff in H1. destruct H1 as [[[[-> ->] ->] ->] H1]. apply (IH (length l1)); simpl; auto.
Qed.

Lemma ValidString_app s1 s2 : ValidString s1 = true → ValidString s2 = true → ValidString (s1 +:+ s2) = true.
Proof. unfold ValidString. rewrite bytes_app. apply valid_utf8_app. Qed.

Lemma ComputeKey_text s : ValidString (ComputeKey s) = true.
Proof.
  unfold ComputeKey. apply ValidString_app; [done|]. apply valid_utf8_ascii.
  eapply Forall_impl; [apply FormatUint_digits, fnv32a_range|]. intros c [? ?]. lia.
Qed.

#[export] Hint Resolve ValidString_app ComputeKey_text : enoti.

(** ** What a program promises *)

(** The text of a configuration that reaches the data store. *)
Definition config_text (cc : ClientConfig) : Prop := ValidString (SNSArn (Target (Trigger cc))) = true.

(** A state that a load may return. *)
Definition loaded_ok (st : option Edge) (ver : Z) : Prop :=
  ∀ e, st = Some e → edge_typed e ∧ edge_wf e ∧ 0 < ver < int64_max.

Fixpoint guarantee {A} (p : prog AppE A) (Q : A → Prop) : Prop :=
  match p with
  | Ret a => Q a
  | Panic => False
  | Vis e kk =>
      match e in AppE X return (X → Prop) → Prop with
      | clockE e =>
          match e in ClockE X return (X → Prop) → Prop with
          | TimeNow => λ rest, ∀ t, is_int64 (Unix t) → rest t
          | FlowTimeNow => λ rest, ∀ t, is_int64 (Unix t) → rest t
          end
      | dataE e =>
          match e in DataStoreE X return (X → Prop) → Prop with
          | Acquire scope _ _ => λ rest, ValidString scope = true ∧ ∀ r, rest r
          | Load c k => λ rest,
              ValidString c = true ∧ ValidString k = true ∧
              ∀ st ver err, (err = None → loaded_ok st ver) → rest (st, ver, err)
          | UpsertCAS c k prev next => λ rest,
              (ValidString c = true ∧ ValidString k = true ∧ edge_typed next ∧ edge_wf next ∧
               0 <= prev < int64_max) ∧ ∀ r, rest r
          end
      | clientE e =>
          match e in ClientStoreE X return (X → Prop) → Prop with
          | GetClientConfig _ => λ rest, ∀ cc err, (err = None → config_text cc) → rest (cc, err)
          | _ => λ _, False
          end
      | cacheE e =>
          match e in MapE _ X return (X → Prop) → Prop with
          | MapRead _ => λ rest, ∀ o, (∀ en, o = Some en → config_text (val en)) → rest o
          | MapWrite _ en => λ rest, config_text (val en) ∧ rest tt
          end
      | pubE e => λ rest, ∀ x, rest x
      | respE e => λ rest, ∀ x, rest x
      end (λ x, guarantee (kk x) Q)
  end.

Lemma guarantee_mono {A} (p : prog AppE A) (Q R : A → Prop) :
  guarantee p Q → (∀ a, Q a → R a) → guarantee p R.
Proof.
  intros Hp HQ. induction p as [a| |X e kk IH]; simpl in *; [auto|done|].
  destruct e as [X []|X []|X []|X e|X []|X e]; simpl in *; naive_solver.
Qed.

Lemma guarantee_bind {A B} (f : A → prog AppE B) (p : prog AppE A) Q :
  guarantee p (λ a, guarantee (f a) Q) → guarantee (prog_bind f p) Q.
Proof.
  induction p as [a| |X e kk IH]; simpl; [done..|].
  destruct e as [X []|X []|X []|X e|X []|X e]; simpl in *; naive_solver.
Qed.

(** ** The code keeps its promises *)

Section code.
Context `{L : Lib}.

Lemma guarantee_evaluate c k newVal f payload :
  ValidString c = true → ValidString k = true → ValidString newVal = true →
  guarantee (EvaluateEdgeAndFlap c k newVal f payload) (λ _, True).
Proof.
  intros Hc Hk Hval. unfold EvaluateEdgeAndFlap, EpochTime, forward_edge. prog_simpl.
  intros t Ht. split_and!; [done..|]. intros st ver [err|] Hty; [done|]. destruct st as [e|]; last first.
  { split; [|by intros [[] [?|]]]. split_and!; [done|done|by apply first_edge_typed|apply first_edge_wf|int_lia..]. }
  case_decide as Hne; [done|].
  destruct (EncodePayload payload) as [encoded|err] eqn:Henc; [|done].
  destruct (Hty eq_refl e eq_refl) as (Htype & Hwf & Hver). apply EncodePayload_text in Henc.
  destruct (flip_next_total (Unix t) newVal encoded f e) as (e' & o & Hn).
  pose proof (flip_next_typed _ _ _ _ _ _ _ Htype Ht Hval Henc Hn) as Ht'.
  pose proof (flip_next_wf _ _ _ _ _ _ _ Hwf Hne Hn) as Hw'.
  revert Hn. unfold flip_next. rewrite record_flip_eq. simpl.
  assert (ValidString c = true ∧ ValidString k = true ∧ edge_typed e' ∧ edge_wf e' ∧ 0 <= ver < int64_max) as Hup
    by (split_and!; [done..|lia|lia]).
  destruct f as [f|].
  - rewrite roll_window_eq. simpl. case_decide; [|case_decide].
    + by intros [= <- <-].
    + destruct (aggregate_step _ _ _) as [[[a agg] e'']|]; [|done]. simpl. intros [= <- <-].
      split; [done|]. by intros [[] [?|]].
    + intros [= <- <-]. split; [done|]. by intros [[] [?|]].
  - intros [= <- <-]. split; [done|]. by intros [[] [?|]].
Qed.

Lemma guarantee_rate limit scope denied :
  ValidString scope = true → guarantee (rate_check limit scope denied) (λ _, True).
Proof. intros Hs. unfold rate_check. case_decide; [|done]. split; [done|]. by intros [[] [?|]]. Qed.

Lemma guarantee_target cid cc a st p :
  ValidString cid = true → config_text cc → guarantee (target_check cid cc a st p) (λ _, True).
Proof.
  intros Hcid Hcc. unfold target_check. case_decide; [|done].
  split; [by auto with enoti|]. by intros [[] [?|]].
Qed.

(** The text JMESPath selects in a payload is UTF-8. *)
Definition payload_text (payload : gomap) : Prop :=
  ∀ expr v, EvalString expr payload = inl (Some v) → ValidString v = true.

Lemma guarantee_Run cid ip cc payload :
  ValidString cid = true → ValidString ip = true → config_text cc → payload_text payload →
  guarantee (Run cid ip cc payload) (λ _, True).
Proof.
  intros Hcid Hip Hcc Hp. unfold Run.
  apply guarantee_bind. eapply guarantee_mono; [apply guarantee_rate; auto with enoti|]. intros [err|] _; [done|].
  apply guarantee_bind. eapply guarantee_mono; [apply guarantee_rate; auto with enoti|]. intros [err|] _; [done|].
  destruct (CheckPassthrough _ _); [done|]. case_decide; [done|].
  destruct (EvalString _ _) as [[v|]|] eqn:Hv; [|by apply guarantee_target|done].
  apply guarantee_bind. eapply guarantee_mono; [apply guarantee_evaluate; eauto with enoti|].
  intros [[a np] [err|]] _; [done|]. by apply guarantee_target.
Qed.

Lemma guarantee_LoadCached id :
  guarantee (LoadCachedClientConfig id) (λ r, r.2 = None → config_text r.1).
Proof.
  assert (guarantee ('(cc, err) ← trigger (clientE (GetClientConfig id));
    match err with
    | Some err => mret (zeroClientConfig, Some err)
    | None => _ ← TTL_Set (λ X, cacheE) (λ X, clockE) id cc (300 * Second); mret (cc, None)
    end) (λ r, r.2 = None → config_text r.1)) as Hmiss.
  { intros cc [err|] Hcc; [done|]. intros t Ht. split; [by apply Hcc|]. intros _. by apply Hcc. }
  unfold LoadCachedClientConfig. apply guarantee_bind. intros [en|] Hen; [|exact Hmiss].
  intros t Ht. unfold TTL_Get. destruct (decide (t > exp en)) as [Hexp|Hexp]; simpl.
  - rewrite decide_True by done. exact Hmiss.
  - rewrite decide_False by done. intros _. by apply Hen.
Qed.

Lemma guarantee_http_Error msg code : guarantee (http_Error msg code) (λ _, True).
Proof. done. Qed.

Lemma guarantee_respond code a : guarantee (respond_status code a) (λ _, True).
Proof.
  unfold respond_status, writeJSON. prog_simpl. intros _ _. destruct (json_Marshal _); simpl; [|done].
  by intros [err|].
Qed.

Lemma guarantee_publish cc a content : guarantee (publish_and_respond cc a content) (λ _, True).
Proof.
  unfold publish_and_respond. destruct (json_Marshal _); [|done]. intros [err|]; [done|]. apply guarantee_respond.
Qed.

(** A request whose identity, address and selected values are UTF-8. *)
Record request_text (r : Request) : Prop := {
  rt_client : ValidString (Header_Get (Header r) ClientIDHdrName) = true;
  rt_ip ip : clientIP r = Some ip → ValidString ip = true;
  rt_payload body payload : read_limited (Body r) body_limit = (body, None) →
    json_Unmarshal body = (payload, None) → payload_text payload;
}.

Lemma guarantee_handleNotify r : request_text r → guarantee (handleNotify r) (λ _, True).
Proof.
  intros [Hcid Hip Hpay]. unfold handleNotify. case_decide; [done|].
  apply guarantee_bind. eapply guarantee_mono; [apply guarantee_LoadCached|].
  intros [cc [err|]] Hcc; [done|]. destruct (Auth _ _ _); [done|].
  destruct (read_limited _ _) as [body [err|]] eqn:Hb; [done|]. case_decide; [done|].
  destruct (json_Unmarshal body) as [payload [err|]] eqn:Hu; [done|].
  destruct (clientIP_total r) as [ip Heq]. rewrite Heq.
  apply (guarantee_bind _ (Run _ ip cc payload)). eapply guarantee_mono.
  { apply guarantee_Run; [done|by apply Hip|by apply Hcc|by eapply Hpay]. }
  intros [[[a st] np] [err|]] _; [done|]. destruct a; (apply guarantee_respond || apply guarantee_publish).
Qed.

Lemma guarantee_Router r : request_text r → guarantee (Router r) (λ _, True).
Proof. intros Hr. unfold Router. case_decide; [by apply guarantee_handleNotify|]. by case_decide. Qed.

Context `{J : StdJson}.

(** The same for a message of the queue. *)
Record message_text (m : SQSMessage) : Prop := {
  mt_attrs attrs : extractMessageAttributes m = inl attrs →
    ValidString (attr_ClientID attrs) = true ∧ ValidString (attr_ClientIP attrs) = true;
  mt_payload payload : std_Unmarshal (sqs_Body m) = (payload, None) → payload_text payload;
}.

Lemma guarantee_processMessage m : message_text m → guarantee (processMessage m) (λ _, True).
Proof.
  intros [Hattrs Hpay]. unfold processMessage.
  destruct (extractMessageAttributes m) as [attrs|]; [|done]. destruct (Hattrs attrs eq_refl) as [Hcid Hip].
  apply guarantee_bind. eapply guarantee_mono; [apply guarantee_LoadCached|].
  intros [cc [err|]] Hcc; [done|]. destruct (Auth _ _ _); [done|].
  destruct (std_Unmarshal _) as [payload [err|]]; [done|].
  apply guarantee_bind. eapply guarantee_mono.
  { apply guarantee_Run; [done|done|by apply Hcc|by apply Hpay]. }
  intros [[[a st] np] [err|]] _; [done|].
  destruct a; try done; unfold lambda_publish; destruct (std_Marshal _); try done; by intros [err|].
Qed.

Lemma guarantee_records ms fails :
  Forall message_text ms → guarantee (process_records ms fails) (λ _, True).
Proof.
  intros Hms. revert fails. induction Hms as [|m ms Hm _ IH]; intros fails; [done|].
  apply guarantee_bind. eapply guarantee_mono; [by apply guarantee_processMessage|]. intros [err|] _; apply IH.
Qed.

Lemma guarantee_HandleSQSEvent ms :
  Forall message_text ms → guarantee (HandleSQSEvent ms) (λ _, True).
Proof.
  intros Hms. apply guarantee_bind. eapply guarantee_mono; [by apply guarantee_records|]. done.
Qed.

(** One unit of work of the service, as a goroutine. *)
Inductive job := HttpRequest (r : Request) | SqsBatch (ms : list SQSMessage).

Definition job_prog (j : job) : prog AppE unit :=
  match j with
  | HttpRequest r => Router r
  | SqsBatch ms => prog_bind (λ _, Ret tt) (HandleSQSEvent ms)
  end.

Definition job_text (j : job) : Prop :=
  match j with
  | HttpRequest r => request_text r
  | SqsBatch ms => Forall message_text ms
  end.

Lemma guarantee_job j : job_text j → guarantee (job_prog j) (λ _, True).
Proof.
  destruct j as [r|ms]; [apply guarantee_Router|]. intros Hms. apply guarantee_bind.
  eapply guarantee_mono; [by apply guarantee_HandleSQSEvent|]. done.
Qed.

End code.

(** ** Every request ends *)

Section bounded.
Context `{L : Lib} `{J : StdJson}.

Lemma evaluate_within c k newVal f payload : within 3 (EvaluateEdgeAndFlap c k newVal f payload).
Proof.
  intros t [[st ver] [err|]]; [done|]. destruct st as [e|]; [|by intros [[] [?|]]]. simpl.
  case_decide; [done|]. destruct (EncodePayload payload); [|done]. rewrite record_flip_eq. simpl.
  destruct f as [f|]; [|by intros [[] [?|]]]. rewrite roll_window_eq. simpl.
  case_decide; [done|]. case_decide; [|by intros [[] [?|]]].
  rewrite aggregate_step_eq. simpl. destruct (aggregate_due _ _ _); by intros [[] [?|]].
Qed.

Lemma rate_within limit scope denied : within 1 (rate_check limit scope denied).
Proof. unfold rate_check. case_decide; [|done]. by intros [[] [?|]]. Qed.

Lemma target_within cid cc a st p : within 1 (target_check cid cc a st p).
Proof. unfold target_check. case_decide; [|done]. by intros [[] [?|]]. Qed.

Lemma Run_within cid ip cc payload : within 6 (Run cid ip cc payload).
Proof.
  apply (within_bind _ _ 1 5); [apply rate_within|]. intros [err|]; [done|].
  apply (within_bind _ _ 1 4); [apply rate_within|]. intros [err|]; [done|].
  destruct (CheckPassthrough _ _); [done|]. case_decide; [done|].
  destruct (EvalString _ _) as [[v|]|]; [|eapply within_le; [apply target_within|lia]|done].
  apply (within_bind _ _ 3 1); [apply evaluate_within|].
  intros [[a np] [err|]]; [done|]. apply target_within.
Qed.

Lemma LoadCached_within id : within 5 (LoadCachedClientConfig id).
Proof.
  intros [en|]; [intros t; simpl; case_decide; simpl; [|done]|]; intros [cc [err|]]; simpl; done.
Qed.

Lemma http_Error_within msg code : within 4 (http_Error msg code).
Proof. done. Qed.

Lemma respond_within code a : within 7 (respond_status code a).
Proof.
  apply (within_bind _ _ 3 4).
  - unfold writeJSON. intros [] []. simpl. by destruct (json_Marshal _).
  - by intros [err|].
Qed.

Lemma publish_within cc a content : within 8 (publish_and_respond cc a content).
Proof.
  unfold publish_and_respond. destruct (json_Marshal _); [|done].
  intros [err|]; [done|]. apply respond_within.
Qed.

Lemma Router_within r : within 19 (Router r).
Proof.
  unfold Router. case_decide; [|by case_decide]. unfold handleNotify. case_decide; [done|].
  apply (within_bind _ _ 5 14); [apply LoadCached_within|].
  intros [cc [err|]]; [done|]. destruct (Auth _ _ _); [done|].
  destruct (read_limited _ _) as [body [err|]]; [done|]. case_decide; [done|].
  destruct (json_Unmarshal body) as [payload [err|]]; [done|].
  destruct (clientIP_total r) as [ip ->].
  apply (within_bind _ (Run _ ip cc payload) 6 8); [apply Run_within|].
  intros [[[a st] np] [err|]]; [done|].
  destruct a; (apply publish_within || (eapply within_le; [apply respond_within|lia])).
Qed.

Lemma processMessage_within m : within 12 (processMessage m).
Proof.
  unfold processMessage. destruct (extractMessageAttributes m) as [attrs|]; [|done].
  apply (within_bind _ _ 5 7); [apply LoadCached_within|].
  intros [cc [err|]]; [done|]. destruct (Auth _ _ _); [done|].
  destruct (std_Unmarshal _) as [payload [err|]]; [done|].
  apply (within_bind _ _ 6 1); [apply Run_within|]. intros [[[a st] np] [err|]]; [done|].
  unfold lambda_publish. destruct a; try done; destruct (std_Marshal _); try done; by intros [err|].
Qed.

Lemma records_within ms fails : within (12 * length ms) (process_records ms fails).
Proof.
  revert fails. induction ms as [|m ms IH]; intros fails; [done|].
  replace (12 * length (m :: ms))%nat with (12 + 12 * length ms)%nat by (simpl; lia).
  apply within_bind; [apply processMessage_within|]. intros [err|]; apply IH.
Qed.

Lemma HandleSQSEvent_within ms : within (12 * length ms) (HandleSQSEvent ms).
Proof.
  replace (12 * length ms)%nat with (12 * length ms + 0)%nat by lia.
  apply within_bind; [apply records_within|done].
Qed.

Lemma Router_no_panic r : no_panic (Router r).
Proof. apply wp_exec. intros t o Hx. by destruct (Router_exec r t o Hx) as [-> _]. Qed.

(** C10: every request ends. Whatever the request, the state of the stores and their
    replies, an HTTP request makes at most 19 calls to the outside (stores, cache,
    clock, publisher, response) and a batch of [n] messages at most [12 n]; if the
    calls return, so does the handler, without a panic and, for a batch, with a
    nil error. *)
Theorem service_terminates {S} (h : handler AppE S) r ms s :
  total_handler h →
  within 19 (Router r) ∧ within (12 * length ms) (HandleSQSEvent ms) ∧
  (∃ s', run h (Router r) s = (Some tt, s')) ∧
  ∃ fails s', run h (HandleSQSEvent ms) s = (Some (fails, None), s').
Proof.
  intros Ht. split; [apply Router_within|]. split; [apply HandleSQSEvent_within|]. split.
  - destruct (run_total h (Router r) s Ht (Router_no_panic r)) as ([] & s' & ->). by exists s'.
  - unfold HandleSQSEvent, mbind, prog_mbind. rewrite run_bind.
    destruct (run_total h (process_records ms []) s Ht) as (fails & s' & ->).
    { apply wp_exec. by intros t o (runs & _ & _ & ->)%process_records_exec. }
    by exists fails, s'.
Qed.

End bounded.

(** ** The stores keep theirs, whatever the interleaving *)

Section system.
Context {St CSt PSt : Type} (hd : handler DataStoreE St).
Context (hc : handler ClientStoreE CSt) (hp : handler PublisherE PSt).
Context `{!DataStore hd} (Hc : total_handler hc) (Hp : total_handler hp).

(** The client store holds configurations of UTF-8 text, and reading keeps it so. *)
Context (Ic : CSt → Prop).
Context (HIc : ∀ id s cc err s', Ic s → hc _ (GetClientConfig id) s = (Some (cc, err), s') →
  Ic s' ∧ (err = None → config_text cc)).

#[local] Notation world := (World St CSt PSt).
#[local] Notation app := (app_handler hd hc hp).

(** Every stored edge is within its types, well formed, and at a version
    between 1 and [V]. *)
Record world_ok (V : Z) (w : world) : Prop := {
  wo_bound : 0 <= V;
  wo_inv : ds_inv (w_data w);
  wo_clock n : is_int64 (Unix (w_clock w n));
  wo_client : Ic (w_client w);
  wo_cache id en : w_cache w !! id = Some en → config_text (val en);
  wo_edges c k e ver : scope_state hd w c k = Some (e, ver) → edge_typed e ∧ edge_wf e ∧ 0 < ver <= V;
}.

Lemma edge_wf_version n e : edge_wf (set_Version n e) ↔ edge_wf e.
Proof. split; intros []; by split. Qed.

Lemma edge_wf_stored k e : edge_wf e → edge_wf (stored k e).
Proof. intros []. by split. Qed.

Lemma edge_typed_stored k e : edge_typed e → edge_typed (stored k e).
Proof. intros []. by split. Qed.

Lemma world_ok_le V V' w : world_ok V w → V <= V' → world_ok V' w.
Proof.
  intros [] Hle. split; try done; [lia|]. intros c k e ver He. destruct (wo_edges0 c k e ver He) as (? & ? & ?).
  split_and!; try done; lia.
Qed.

(** A call that leaves the edges alone. *)
Lemma world_ok_data V w s' :
  world_ok V w → ds_inv s' → (∀ c k, ds_edge s' c k = ds_edge (w_data w) c k) → world_ok V (set_data s' w).
Proof.
  intros [] Hi Hv. split; try done. intros c k e ver He. apply (wo_edges0 c k e ver).
  unfold scope_state in *. by rewrite <-Hv.
Qed.

Lemma load_ok V w c k st ver err s' :
  world_ok V w → V < int64_max → ValidString c = true → ValidString k = true →
  hd _ (Load c k) (w_data w) = (Some (st, ver, err), s') →
  world_ok V (set_data s' w) ∧ (err = None → loaded_ok st ver).
Proof.
  intros Hw HV Hcv Hkv Hl. apply ds_load in Hl as (Hinv & Hview & Hst); [|apply Hw|done..].
  split; [by apply world_ok_data|]. intros -> e ->. destruct (Hst eq_refl) as [He _].
  destruct (wo_edges _ _ Hw c k _ _ He) as (Ht & Hwf & Hver).
  split_and!; [by eapply edge_typed_version|by eapply edge_wf_version|lia..].
Qed.

Lemma upsert_ok V w c k prev next ok err s' :
  world_ok V w → ValidString c = true → ValidString k = true → edge_typed next → edge_wf next →
  0 <= prev < int64_max →
  hd _ (UpsertCAS c k prev next) (w_data w) = (Some (ok, err), s') → world_ok (V + 1) (set_data s' w).
Proof.
  intros Hw Hcv Hkv Ht Hwf Hprev Hu. apply ds_upsert in Hu as (Hinv & Hframe & Hcas); [|apply Hw|done..].
  assert (ds_edge s' c k = ds_edge (w_data w) c k ∨
          cas_pre (ds_edge (w_data w) c k) prev ∧ ds_edge s' c k = Some (stored k next, prev + 1)) as Hcase.
  { destruct err, ok; naive_solver. }
  destruct (world_ok_le V (V + 1) w Hw ltac:(lia)) as [H0 _ H2 H3 H4 H5]. split; try done.
  intros c' k' e ver. unfold scope_state in *. simpl. destruct (decide ((c', k') = (c, k))) as [[= -> ->]|Hne].
  - destruct Hcase as [->|[Hpre ->]]; [apply H5|]. intros [= <- <-].
    split_and!; [by apply edge_typed_stored|by apply edge_wf_stored|lia|].
    destruct (ds_edge (w_data w) c k) as [[e0 v0]|] eqn:He; simpl in Hpre.
    + destruct (wo_edges _ _ Hw c k e0 v0 He) as (_ & _ & ?). lia.
    + pose proof (wo_bound _ _ Hw). lia.
  - rewrite Hframe by done. apply H5.
Qed.

(** One call of a program that keeps its promises. *)
Lemma call_ok {A} V X (e : AppE X) (kk : X → prog AppE A) Q w x w' :
  world_ok V w → V < int64_max → guarantee (Vis e kk) Q → app X e w = (Some x, w') →
  guarantee (kk x) Q ∧ world_ok (V + 1) w'.
Proof.
  intros Hw HV Hg Hh. pose proof (world_ok_le V (V + 1) w Hw ltac:(lia)) as Hw1.
  destruct e as [X []|X e|X e|X e|X []|X e]; simpl in Hg, Hh.
  - injection Hh as <- <-. split; [apply Hg, Hw|destruct Hw1; by split].
  - injection Hh as <- <-. split; [apply Hg, Hw|destruct Hw1; by split].
  - destruct e as [scope rate window|c k|c k prev next]; simpl in Hg.
    + destruct (hd _ _ (w_data w)) as [[r|] s'] eqn:Ha; [|done]. injection Hh as <- <-. destruct Hg as [Hs Hg].
      split; [apply Hg|]. apply ds_acquire in Ha as [Hi Hv]; [|apply Hw|done]. by apply world_ok_data.
    + destruct (hd _ _ (w_data w)) as [[[[st ver] err]|] s'] eqn:Hl; [|done]. injection Hh as <- <-.
      destruct Hg as (Hcv & Hkv & Hg). pose proof (load_ok V w c k st ver err s' Hw HV Hcv Hkv Hl) as [Hw' Hok].
      split; [by apply Hg|]. apply (world_ok_le V); [done|lia].
    + destruct (hd _ _ (w_data w)) as [[[ok err]|] s'] eqn:Hu; [|done]. injection Hh as <- <-.
      destruct Hg as [(Hcv & Hkv & Ht & Hwf & Hprev) Hg]. split; [apply Hg|]. by apply (upsert_ok V w c k prev next ok err).
  - destruct e as [id| | | |]; simpl in Hg; try done.
    destruct (hc _ _ (w_client w)) as [[[cc err]|] s'] eqn:Hcl; [|done]. injection Hh as <- <-.
    apply HIc in Hcl as [Hi Hcc]; [|apply Hw]. split; [by apply Hg|]. destruct Hw1; by split.
  - destruct (hp _ e (w_pub w)) as [r s'] eqn:Hpu. injection Hh as -> <-. split; [apply Hg|]. destruct Hw1; by split.
  - injection Hh as <- <-. split; [apply Hg; intros en Hen; by eapply wo_cache|done].
  - injection Hh as <- <-. destruct Hg as [Hen Hg]. split; [done|]. destruct Hw1. split; try done.
    intros id en. simpl. intros [[_ <-]|[_ ?]]%lookup_insert_Some; [done|by eapply wo_cache0].
  - destruct e; injection Hh as <- <-; (split; [apply Hg|]); destruct Hw1; by split.
Qed.

Lemma app_replies X (e : AppE X) w : (app X e w).1 ≠ None.
Proof using Hc Hp DataStore0.
  destruct (app_total hd hc hp Hc Hp X e w) as (x & w' & ->). done.
Qed.

Lemma pool_ok {A} (Q : A → Prop) n ps (w : world) ps' w' V :
  world_ok V w → Forall (λ p, guarantee p Q) ps → V + Z.of_nat n < int64_max →
  nsteps (pool_step app) n (ps, w) (ps', w') →
  world_ok (V + Z.of_nat n) w' ∧ Forall (λ p, guarantee p Q) ps'.
Proof.
  revert ps w V. induction n as [|n IH]; intros ps w V Hw Hps HV Hsteps; inversion Hsteps as [|? ? cfg ? Hs Hrest]; subst.
  { split; [|done]. eapply world_ok_le; [done|lia]. }
  inversion Hs as [i X e kk ps0 w0 x w1 Hi Hh|i X e kk ps0 w0 w1 Hi Hh]; subst.
  - destruct (call_ok V X e kk Q w x w1 Hw ltac:(lia)) as [Hg Hw1]; [exact (Forall_lookup_1 _ _ _ _ Hps Hi)|done|].
    replace (V + Z.of_nat (S n)) with (V + 1 + Z.of_nat n) by lia.
    eapply (IH (<[i := kk x]> ps) w1 (V + 1)); [done|by apply Forall_insert|lia|done].
  - pose proof (app_replies X e w) as Hr. by rewrite Hh in Hr.
Qed.

End system.

(** ** Claims *)

Section claims.
Context `{L : Lib} `{J : StdJson} {St CSt PSt : Type} (hd : handler DataStoreE St).
Context (hc : handler ClientStoreE CSt) (hp : handler PublisherE PSt) `{!DataStore hd}.

(** C6: the state of the service stays well typed and well formed. Any number of
    HTTP requests and SQS batches of any clients run at once, their calls to the
    stores, the cache and the clock interleaved in any order, the stores failing
    at will: after any number of calls every stored edge has 64-bit integers and
    UTF-8 text, a history within its limit that is a path of real value changes
    ending in the stored value, and a version that has grown by at most one per
    call; and no request has panicked. *)
Theorem service_state_typed (Ic : CSt → Prop) jobs (w : World St CSt PSt) n ps' w' V :
  total_handler hc → total_handler hp →
  (∀ id s cc err s', Ic s → hc _ (GetClientConfig id) s = (Some (cc, err), s') →
     Ic s' ∧ (err = None → config_text cc)) →
  Forall job_text jobs → world_ok hd Ic V w → V + Z.of_nat n < int64_max →
  nsteps (pool_step (app_handler hd hc hp)) n (job_prog <$> jobs, w) (ps', w') →
  world_ok hd Ic (V + Z.of_nat n) w' ∧ Forall (λ p, p ≠ Panic) ps'.
Proof.
  intros Hc Hp HIc Hjobs Hw HV Hsteps.
  destruct (pool_ok hd hc hp Hc Hp Ic HIc (λ _, True) n (job_prog <$> jobs) w ps' w' V) as [Hw' Hps']; try done.
  - apply Forall_fmap. eapply Forall_impl; [exact Hjobs|]. apply guarantee_job.
  - split; [done|]. eapply Forall_impl; [exact Hps'|]. by intros [].
Qed.

End claims.

(** ** Witness *)

Lemma demo_payload_text v : ValidString v = true → payload_text (demo_payload v).
Proof.
  intros Hv expr v'. unfold EvalString, EvalAny. simpl. case_bool_decide; by intros [= <-].
Qed.

(** A request and a batch of the same client, which observe different values. *)
Definition demo_work : list job := [HttpRequest demo_request; SqsBatch [demo_message "m1" "v=c"]].

Definition demo_clients_ok (m : gmap string ClientConfig) : Prop := map_Forall (λ _ cc, config_text cc) m.

Lemma demo_clients_read id m cc err m' :
  demo_clients_ok m → mem_clients _ (GetClientConfig id) m = (Some (cc, err), m') →
  demo_clients_ok m' ∧ (err = None → config_text cc).
Proof.
  intros Hm. simpl. destruct (m !! id) as [c|] eqn:Hid; intros [= <- <- <-]; [|done].
  split; [done|]. intros _. by eapply Hm.
Qed.

Lemma demo_work_text : Forall job_text demo_work.
Proof.
  constructor; [|constructor; [|done]].
  - split; [done| |].
    + intros ip Hip. vm_compute in Hip. by injection Hip as <-.
    + intros body payload Hb Hu. vm_compute in Hb. injection Hb as <-. vm_compute in Hu. injection Hu as <-.
      by apply demo_payload_text.
  - constructor; [|done]. split.
    + intros attrs Ha. vm_compute in Ha. by injection Ha as <-.
    + intros payload Hu. vm_compute in Hu. injection Hu as <-. by apply demo_payload_text.
Qed.

(** They take turns, call by call. *)
Definition demo_turns : list nat := concat (replicate 20 [0; 1]%nat).

Definition demo_ready : MemWorld :=
  mkWorld (λ _, 1000 * Second) 0 mem_empty {[ "acme" := demo_cc ]} [] cfgCache [] [].

Definition demo_system : list (prog AppE unit) * MemWorld :=
  run_schedule mem_app demo_turns (job_prog <$> demo_work) demo_ready.

(** Both loaded before either wrote: the batch loses the compare-and-set and
    its value is not published. *)
Example demo_system_result :
  demo_system.1 = [Ret tt; Ret tt] ∧ w_pub demo_system.2 = [("arn:t", "v=b")].
Proof. vm_compute. split; reflexivity. Qed.

Lemma demo_ready_ok : world_ok mem_data demo_clients_ok 0 demo_ready.
Proof.
  split; try done.
  intros id cc Hid. simpl in Hid. by apply lookup_singleton_Some in Hid as [_ <-].
Qed.

Lemma service_terminates_witness :
  ∃ fails s', run mem_app (HandleSQSEvent demo_batch) demo_ready = (Some (fails, None), s').
Proof.
  apply (service_terminates mem_app demo_request demo_batch demo_ready).
  exact (app_total mem_data mem_clients mem_pub mem_clients_total mem_pub_total).
Defined.

Lemma service_state_typed_witness :
  ∃ n, (n <= 40)%nat ∧ world_ok mem_data demo_clients_ok (0 + Z.of_nat n) demo_system.2 ∧
       Forall (λ p, p ≠ Panic) demo_system.1.
Proof.
  destruct (run_schedule_nsteps mem_app demo_turns (job_prog <$> demo_work) demo_ready) as (n & Hn & Hs).
  exists n. split; [exact Hn|].
  apply (service_state_typed mem_data mem_clients mem_pub demo_clients_ok demo_work demo_ready n).
  - exact mem_clients_total.
  - exact mem_pub_total.
  - exact demo_clients_read.
  - exact demo_work_text.
  - exact demo_ready_ok.
  - change (length demo_turns) with 40%nat in Hn. int_lia.
  - rewrite <- surjective_pairing. exact Hs.
Defined.
