(* ===== verification/PublishOnce.v ===== *)
(** * A change is published once, however many requests report it

    Any number of HTTP requests and SQS batches of one client report the same
    new value at the same time, against one data store, with the client's
    configuration read through the cache. [watch] follows a request through its
    phases: it may write only on the version it has read, and publish only after
    its write was accepted. *)

From S2P Require Import Prelude Errors Strconv Text Types Effects Sched Ports Base64 DemoLib Jmes EdgeFlap EdgeProps StoreSpec MemStore Concurrency Ttl Flow FlowProps Http HttpProps Lambda LambdaProps System.

(** Where a request stands: nothing in hand; a version it may write on; an
    accepted write. *)
Inductive phase := Idle | Ready (prev : Z) | Token.

Definition is_token (ph : phase) : bool := match ph with Token => true | _ => false end.

Section watch.
Context (id newVal : string) (cc0 : ClientConfig).

#[local] Notation key := (ComputeKey (tr_FieldExpr (Trigger cc0))).

(** The phase after a load and after a write. *)
Definition after_read (r : option Edge * Z * option error) : phase :=
  match r with
  | (_, _, Some _) => Idle
  | (None, _, None) => Ready 0
  | (Some e, ver, None) => if decide (LastValue e = newVal) then Idle else Ready ver
  end.

Definition after_write (r : bool * option error) : phase :=
  match r with (true, None) => Token | _ => Idle end.

Fixpoint watch {A} (ph : phase) (p : prog AppE A) (Q : phase → A → Prop) : Prop :=
  match p with
  | Ret a => Q ph a
  | Panic => False
  | Vis e kk =>
      match e in AppE X return (phase → X → Prop) → Prop with
      | clockE e =>
          match e in ClockE X return (phase → X → Prop) → Prop with
          | TimeNow => λ rest, ∀ t, is_int64 (Unix t) → rest ph t
          | FlowTimeNow => λ rest, ∀ t, is_int64 (Unix t) → rest ph t
          end
      | dataE e =>
          match e in DataStoreE X return (phase → X → Prop) → Prop with
          | Acquire scope _ _ => λ rest, ValidString scope = true ∧ ∀ r, rest ph r
          | Load c k => λ rest,
              (c, k) = (id, key) ∧
              ∀ st ver err, (err = None → ∀ e, st = Some e → edge_typed e) →
                rest (after_read (st, ver, err)) (st, ver, err)
          | UpsertCAS c k prev next => λ rest,
              (ph = Ready prev ∧ (c, k) = (id, key) ∧ LastValue next = newVal ∧ edge_typed next) ∧
              ∀ r, rest (after_write r) r
          end
      | clientE e =>
          match e in ClientStoreE X return (phase → X → Prop) → Prop with
          | GetClientConfig c => λ rest,
              c = id ∧ ∀ cc err, (err = None → cc = cc0) → rest ph (cc, err)
          | _ => λ _, False
          end
      | cacheE e =>
          match e in MapE _ X return (phase → X → Prop) → Prop with
          | MapRead c => λ rest, c = id ∧ ∀ o, (∀ en, o = Some en → val en = cc0) → rest ph o
          | MapWrite c en => λ rest, (c = id ∧ val en = cc0) ∧ rest ph tt
          end
      | pubE e => λ rest, ph = Token ∧ ∀ x, rest Idle x
      | respE e => λ rest, ∀ x, rest ph x
      end (λ ph x, watch ph (kk x) Q)
  end.

Lemma watch_mono {A} (p : prog AppE A) ph (Q R : phase → A → Prop) :
  watch ph p Q → (∀ ph a, Q ph a → R ph a) → watch ph p R.
Proof.
  intros Hp HQ. revert ph Hp. induction p as [a| |X e kk IH]; intros ph Hp; simpl in *; [auto|done|].
  destruct e as [X []|X []|X []|X e|X []|X e]; simpl in *; naive_solver.
Qed.

Lemma watch_bind {A B} (f : A → prog AppE B) (p : prog AppE A) ph Q :
  watch ph p (λ ph a, watch ph (f a) Q) → watch ph (prog_bind f p) Q.
Proof.
  revert ph. induction p as [a| |X e kk IH]; intros ph; simpl; [done..|].
  destruct e as [X []|X []|X []|X e|X []|X e]; simpl in *; naive_solver.
Qed.

Context `{L : Lib} (Hid : ValidString id = true) (Hval : ValidString newVal = true).

(** ** The code *)

Definition announcing (a : Action) : Prop := a = EdgeTriggeredForward ∨ a = AggregateSent.

(** What a request may do with the result of the flow: publish only with an
    accepted write in hand. *)
Definition earned (ph : phase) (a : Action) : Prop := a ≠ ForwardedAsIs ∧ (announcing a → ph = Token).

Lemma earned_quiet ph a : a ∈ [NoOp; SuppressFlapping; SuppressDedup] → earned ph a.
Proof.
  rewrite !elem_of_cons, elem_of_nil. intros [->|[->|[->|[]]]]; (split; [done|]); by intros [?|?].
Qed.

Lemma earned_token a : a ≠ ForwardedAsIs → earned Token a.
Proof. by split. Qed.

Ltac earn := solve [done | apply earned_quiet; in_list | by apply earned_token].

(** An evaluation announces only with an accepted write in hand. *)
Lemma watch_evaluate f payload ph :
  watch ph (EvaluateEdgeAndFlap id key newVal f payload) (λ ph r, earned ph r.1.1).
Proof using Hval.
  unfold EvaluateEdgeAndFlap, EpochTime, forward_edge. prog_simpl.
  intros t Ht. split; [done|]. intros st ver [err|] Hty; [simpl; earn|].
  destruct st as [e|]; last first.
  { split; [split_and!; try done; by apply first_edge_typed|]. intros [[] [?|]]; simpl; earn. }
  simpl. destruct (decide (LastValue e = newVal)) as [|Hne]; [simpl; earn|].
  destruct (EncodePayload payload) as [encoded|err] eqn:Henc; [|simpl; earn].
  specialize (Hty eq_refl e eq_refl). apply EncodePayload_text in Henc.
  destruct (flip_next_total (Unix t) newVal encoded f e) as (e' & o & Hn).
  pose proof (flip_next_value _ _ _ _ _ _ _ Hn) as Hv.
  pose proof (flip_next_typed _ _ _ _ _ _ _ Hty Ht Hval Henc Hn) as Ht'.
  revert Hn. unfold flip_next. rewrite record_flip_eq. simpl. destruct f as [f|].
  - rewrite roll_window_eq. simpl. case_decide; [|case_decide].
    + intros [= <- <-]. split; [done|]. intros r. simpl. earn.
    + rewrite aggregate_step_eq. destruct (aggregate_due _ _ _); simpl; intros [= <- <-];
        (split; [done|]); intros [[] [?|]]; simpl; earn.
    + intros [= <- <-]. split; [done|]. intros [[] [?|]]; simpl; earn.
  - intros [= <- <-]. split; [done|]. intros [[] [?|]]; simpl; earn.
Qed.

Lemma watch_rate limit scope denied ph :
  ValidString scope = true → watch ph (rate_check limit scope denied) (λ ph' _, ph' = ph).
Proof. intros Hs. unfold rate_check. case_decide; [|done]. split; [done|]. by intros [[] [?|]]. Qed.

(** The target limit passes the action on or turns it into nothing. *)
Lemma watch_target a st p ph :
  config_text cc0 →
  watch ph (target_check id cc0 a st p) (λ ph' r, ph' = ph ∧ (r.1.1.1 = a ∨ r.1.1.1 = NoOp)).
Proof using Hid.
  intros Hcc. unfold target_check. case_decide; [|split; auto].
  split; [by auto with enoti|]. intros [[] [?|]]; simpl; auto.
Qed.

(** The payload is watched, and its value is the new one. *)
Definition watched (payload : gomap) : Prop :=
  CheckPassthrough (cc_Passthrough cc0) payload = false ∧
  EvalString (tr_FieldExpr (Trigger cc0)) payload = inl (Some newVal).

Lemma watch_Run ip payload ph :
  tr_FieldExpr (Trigger cc0) ≠ "" → config_text cc0 → ValidString ip = true → watched payload →
  watch ph (Run id ip cc0 payload) (λ ph r, r.2 = None → earned ph r.1.1.1).
Proof using Hid Hval.
  intros Hfield Hcc Hip [Hpass Heval]. unfold Run.
  apply watch_bind. eapply watch_mono; [apply watch_rate; auto with enoti|]. intros ph1 [err|] _; [done|].
  apply watch_bind. eapply watch_mono; [apply watch_rate; auto with enoti|]. intros ph2 [err|] _; [done|].
  rewrite Hpass, decide_False, Heval by done.
  apply watch_bind. eapply watch_mono; [apply watch_evaluate|].
  intros ph3 [[a np] [err|]] Hann; [done|]. simpl in Hann.
  eapply watch_mono; [by apply watch_target|].
  intros ph4 [[[a' st] p] err] [-> [Ha|Ha]] _; simpl in *; subst a'; [done|earn].
Qed.

Lemma watch_LoadCached ph :
  watch ph (LoadCachedClientConfig id) (λ ph' r, ph' = ph ∧ (r.2 = None → r.1 = cc0)).
Proof.
  assert (watch ph ('(cc, err) ← trigger (clientE (GetClientConfig id));
    match err with
    | Some err => mret (zeroClientConfig, Some err)
    | None => _ ← TTL_Set (λ X, cacheE) (λ X, clockE) id cc (300 * Second); mret (cc, None)
    end) (λ ph' r, ph' = ph ∧ (r.2 = None → r.1 = cc0))) as Hmiss.
  { split; [done|]. intros cc [err|] Hcc; [done|]. intros t Ht. split; [split; [done|by apply Hcc]|].
    split; [done|]. intros _. by apply Hcc. }
  unfold LoadCachedClientConfig. apply watch_bind. split; [done|]. intros [en|] Hen; [|exact Hmiss].
  intros t Ht. destruct (decide (t > exp en)) as [Hexp|Hexp]; simpl.
  - rewrite decide_True by done. exact Hmiss.
  - rewrite decide_False by done. split; [done|]. intros _. by apply Hen.
Qed.

Lemma watch_respond code a ph : watch ph (respond_status code a) (λ _ _, True).
Proof.
  unfold respond_status, writeJSON. prog_simpl. intros _ _. destruct (json_Marshal _); simpl; [|done].
  by intros [err|].
Qed.

Lemma watch_publish cc a content : watch Token (publish_and_respond cc a content) (λ _ _, True).
Proof.
  unfold publish_and_respond. destruct (json_Marshal _); [|done]. split; [done|].
  intros [err|]; [done|]. apply watch_respond.
Qed.

(** A request of the client that reports the new value. *)
Record reports (r : Request) : Prop := {
  rp_client : Header_Get (Header r) ClientIDHdrName = id;
  rp_ip ip : clientIP r = Some ip → ValidString ip = true;
  rp_payload body payload : read_limited (Body r) body_limit = (body, None) →
    json_Unmarshal body = (payload, None) → watched payload;
}.

Context (Hfield : tr_FieldExpr (Trigger cc0) ≠ "") (Hcc : config_text cc0).

Lemma watch_handleNotify r ph : reports r → watch ph (handleNotify r) (λ _ _, True).
Proof using Hid Hval Hfield Hcc.
  intros [Hcid Hip Hpay]. unfold handleNotify. case_decide; [done|]. rewrite Hcid.
  apply watch_bind. eapply watch_mono; [apply watch_LoadCached|].
  intros ph1 [cc [err|]] [-> Heq]; [done|]. simpl in Heq. rewrite (Heq eq_refl). destruct (Auth _ _ _); [done|].
  destruct (read_limited _ _) as [body [err|]] eqn:Hb; [done|]. case_decide; [done|].
  destruct (json_Unmarshal body) as [payload [err|]] eqn:Hu; [done|].
  destruct (clientIP_total r) as [ip Hr]. rewrite Hr.
  apply (watch_bind _ (Run id ip cc0 payload)). eapply watch_mono.
  { apply watch_Run; [done|done|by apply Hip|by eapply Hpay]. }
  intros ph2 [[[a st] np] [err|]] He; [done|]. destruct (He eq_refl) as [Hne Htok]. simpl in *.
  destruct a; try done; try apply watch_respond; rewrite Htok by (by left + right); apply watch_publish.
Qed.

Lemma watch_Router r ph : reports r → watch ph (Router r) (λ _ _, True).
Proof using Hid Hval Hfield Hcc.
  intros Hr. unfold Router. case_decide; [by apply watch_handleNotify|]. by case_decide.
Qed.

Context `{J : StdJson}.

(** The same for a message of the queue. *)
Record reports_message (m : SQSMessage) : Prop := {
  rm_attrs attrs : extractMessageAttributes m = inl attrs →
    attr_ClientID attrs = id ∧ ValidString (attr_ClientIP attrs) = true;
  rm_payload payload : std_Unmarshal (sqs_Body m) = (payload, None) → watched payload;
}.

Lemma watch_lambda_publish cc content m1 m2 : watch Token (lambda_publish cc content m1 m2) (λ _ _, True).
Proof. unfold lambda_publish. destruct (std_Marshal _); [|done]. split; [done|]. by intros [err|]. Qed.

Lemma watch_processMessage m ph : reports_message m → watch ph (processMessage m) (λ _ _, True).
Proof using Hid Hval Hfield Hcc.
  intros [Hattrs Hpay]. unfold processMessage.
  destruct (extractMessageAttributes m) as [attrs|]; [|done]. destruct (Hattrs attrs eq_refl) as [Hcid Hip].
  rewrite Hcid. apply watch_bind. eapply watch_mono; [apply watch_LoadCached|].
  intros ph1 [cc [err|]] [-> Heq]; [done|]. simpl in Heq. rewrite (Heq eq_refl). destruct (Auth _ _ _); [done|].
  destruct (std_Unmarshal _) as [payload [err|]]; [done|].
  apply watch_bind. eapply watch_mono.
  { apply watch_Run; [done|done|done|by apply Hpay]. }
  intros ph2 [[[a st] np] [err|]] He; [done|]. destruct (He eq_refl) as [Hne Htok]. simpl in *.
  destruct a; try done; rewrite Htok by (by left + right); apply watch_lambda_publish.
Qed.

Lemma watch_records ms fails ph :
  Forall reports_message ms → watch ph (process_records ms fails) (λ _ _, True).
Proof using Hid Hval Hfield Hcc.
  intros Hms. revert fails ph. induction Hms as [|m ms Hm _ IH]; intros fails ph; [done|].
  apply watch_bind. eapply watch_mono; [by apply watch_processMessage|]. intros ph' [err|] _; apply IH.
Qed.

Definition job_reports (j : job) : Prop :=
  match j with
  | HttpRequest r => reports r
  | SqsBatch ms => Forall reports_message ms
  end.

Lemma watch_job j ph : job_reports j → watch ph (job_prog j) (λ _ _, True).
Proof using Hid Hval Hfield Hcc.
  destruct j as [r|ms]; [apply watch_Router|]. intros Hms. do 2 apply watch_bind.
  eapply watch_mono; [by apply watch_records|]. done.
Qed.

End watch.

(** ** The pool *)

Section pool.
Context {St CSt PSt : Type} (hd : handler DataStoreE St).
Context (hc : handler ClientStoreE CSt) (hp : handler PublisherE PSt).
Context `{!DataStore hd} (Hc : total_handler hc) (Hp : total_handler hp).
Context (id newVal : string) (cc0 : ClientConfig).

#[local] Notation world := (World St CSt PSt).
#[local] Notation app := (app_handler hd hc hp).
#[local] Notation key := (ComputeKey (tr_FieldExpr (Trigger cc0))).

(** Calls to the publisher, by what its state says. *)
Context (count : PSt → Z).
Context (Hcount : ∀ topic payload s err s', hp _ (PublishRaw topic payload) s = (Some err, s') → count s' = count s + 1).

(** The state of the scope and the number of calls at the start. *)
Context (cur0 : option (Edge * Z)) (n0 : Z).

(** Nothing written and nothing published; or the new value is there, one
    version on, and at most one request has published or is about to. *)
Definition published (phs : list phase) (w : world) : Prop :=
  (scope_state hd w id key = cur0 ∧ tally is_token phs = 0 ∧ count (w_pub w) = n0) ∨
  (∃ e, scope_state hd w id key = Some (e, version0 cur0 + 1) ∧ LastValue e = newVal ∧ edge_typed e ∧
        tally is_token phs + count (w_pub w) <= n0 + 1).

Definition reads (ph : phase) : Prop := ∀ prev, ph = Ready prev → prev = version0 cur0.

Context (Hid : ValidString id = true) (Hkey : ValidString key = true) (Hfresh : fresh_value newVal cur0).

(** A request that does not gain a token, writes nothing and publishes nothing. *)
Lemma published_silent phs (w w' : world) i ph ph' :
  phs !! i = Some ph → (is_token ph' = true → is_token ph = true) →
  scope_state hd w' id key = scope_state hd w id key → count (w_pub w') = count (w_pub w) →
  published phs w → published (<[i := ph']> phs) w'.
Proof.
  intros Hi Ht Hs Hn. unfold published. rewrite Hs, Hn, (tally_insert _ _ _ _ _ Hi).
  pose proof (tally_lookup is_token phs i ph Hi).
  intros [(? & ? & ?)|(e & ? & ? & ? & ?)]; [left|right; exists e]; split_and!; try done;
    destruct (is_token ph'), (is_token ph); naive_solver lia.
Qed.

Lemma published_same phs (w w' : world) i ph :
  phs !! i = Some ph → published phs w → scope_state hd w' id key = scope_state hd w id key →
  w_pub w' = w_pub w → published (<[i := ph]> phs) w'.
Proof. intros Hi Hpub Hs Hn. apply (published_silent phs w w' i ph ph Hi); try done. by rewrite Hn. Qed.

(** The call to the publisher spends the token. *)
Lemma published_publish phs (w w' : world) i :
  phs !! i = Some Token → scope_state hd w' id key = scope_state hd w id key →
  count (w_pub w') = count (w_pub w) + 1 → published phs w → published (<[i := Idle]> phs) w'.
Proof.
  intros Hi Hs Hn. pose proof (tally_lookup is_token phs i Token Hi) as Hpos. unfold published.
  rewrite Hs, Hn, (tally_insert _ _ _ _ _ Hi). simpl in *.
  intros [(? & ? & ?)|(e & ? & ? & ? & ?)]; [lia|]. right. exists e. split_and!; try done. lia.
Qed.

(** A write: accepted at most once, and then it earns the token. *)
Lemma published_write phs (w : world) i next ok err s' :
  phs !! i = Some (Ready (version0 cur0)) → ds_inv (w_data w) → LastValue next = newVal → edge_typed next →
  hd _ (UpsertCAS id key (version0 cur0) next) (w_data w) = (Some (ok, err), s') →
  published phs w → published (<[i := after_write (ok, err)]> phs) (set_data s' w).
Proof using Hid Hkey Hfresh.
  intros Hi Hinv Hv Ht Hu Hpub. apply ds_upsert in Hu as (_ & _ & Hcas); [|done..|by eapply version0_range].
  assert (scope_state hd (set_data s' w) id key = scope_state hd w id key ∧ is_token (after_write (ok, err)) = false ∨
          cas_pre (scope_state hd w id key) (version0 cur0) ∧
          scope_state hd (set_data s' w) id key = Some (stored key next, version0 cur0 + 1)) as Hcase.
  { unfold scope_state. simpl. destruct err as [err|], ok; naive_solver. }
  destruct Hcase as [[Hsame Htok]|[Hpre Hnew]].
  { apply (published_silent phs w _ i _ _ Hi); try done. by rewrite Htok. }
  right. exists (stored key next). split; [done|]. split; [done|]. split; [by apply edge_typed_stored|].
  rewrite (tally_insert _ _ _ _ _ Hi). simpl.
  destruct Hpub as [(_ & -> & ->)|(e & He & _)]; [destruct (is_token _); simpl; lia|].
  rewrite He in Hpre. simpl in Hpre. lia.
Qed.

(** The client store has the configuration [cc0] for the client, if it answers. *)
Context (Ic : CSt → Prop).
Context (HIc : ∀ s cc err s', Ic s → hc _ (GetClientConfig id) s = (Some (cc, err), s') →
  Ic s' ∧ (err = None → cc = cc0)).

Record steady (w : world) : Prop := {
  sd_store : ds_inv (w_data w);
  sd_clock n : is_int64 (Unix (w_clock w n));
  sd_client : Ic (w_client w);
  sd_cache en : w_cache w !! id = Some en → val en = cc0;
}.

Lemma steady_data w s' : steady w → ds_inv s' → steady (set_data s' w).
Proof. intros [] Hi. by split. Qed.

(** A load: the state is well typed, and the version it reads is the first one
    unless the new value is already there. *)
Lemma published_load phs (w : world) st ver s' :
  steady w → published phs w →
  hd _ (Load id key) (w_data w) = (Some (st, ver, None), s') →
  (∀ e, st = Some e → edge_typed e) ∧ reads (after_read newVal (st, ver, None)).
Proof using Hid Hkey Hfresh.
  intros [Hinv _ _ _] Hpub Hl. apply ds_load in Hl as (_ & _ & Hst); [|done..]. specialize (Hst eq_refl).
  unfold published, scope_state in Hpub. split.
  - intros e ->. destruct Hst as [He _]. eapply edge_typed_version.
    destruct Hpub as [(H0 & _)|(e' & H1 & _ & Ht & _)]; rewrite He in *; [|by simplify_eq].
    by destruct (Hfresh _ _ (eq_sym H0)) as (_ & ? & _).
  - intros prev. simpl. destruct st as [e|]; destruct Hst as [He Hver].
    + case_decide as Hne; [done|]. intros [= <-].
      destruct Hpub as [(H0 & _)|(e' & H1 & Hv & _)]; rewrite He in *; [by subst cur0|].
      by simplify_eq.
    + intros [= <-]. destruct Hpub as [(H0 & _)|(e' & H1 & _)]; rewrite He in *; [by subst cur0|done].
Qed.

(** One call of a watched request, to the data store and to the rest. *)
Lemma data_published {A} phs i ph X (e : DataStoreE X) (kk : X → prog AppE A) Q (w w' : world) x :
  phs !! i = Some ph → reads ph → steady w → published phs w →
  watch id newVal cc0 ph (Vis (dataE e) kk) Q → app X (dataE e) w = (Some x, w') →
  ∃ ph', watch id newVal cc0 ph' (kk x) Q ∧ reads ph' ∧ steady w' ∧ published (<[i := ph']> phs) w'.
Proof using Hid Hkey Hfresh.
  intros Hi Hph Hw Hpub Hg Hh. pose proof (sd_store _ Hw) as Hinv. simpl in Hh.
  destruct e as [scope rate window|c k|c k prev next]; simpl in Hg.
  - destruct (hd _ _ (w_data w)) as [[r|] s'] eqn:Ha; [|done]. injection Hh as <- <-. destruct Hg as [Hs Hg].
    apply ds_acquire in Ha as [Hi' Hv]; [|done..].
    exists ph. split_and!; [done|done|by apply steady_data|]. 
    apply (published_same phs w); [done|done|apply Hv|done].
  - destruct (hd _ _ (w_data w)) as [[[[st ver] err]|] s'] eqn:Hl; [|done]. injection Hh as <- <-.
    destruct Hg as [[= -> ->] Hg]. exists (after_read newVal (st, ver, err)).
    destruct (ds_load _ _ _ _ _ _ _ Hinv Hid Hkey Hl) as (Hi' & Hv & _).
    assert (published (<[i:=after_read newVal (st, ver, err)]> phs) (set_data s' w)) as Hpub'.
    { apply (published_silent phs w _ i ph _ Hi); [|apply Hv|done|done].
      destruct err, st; simpl; try case_decide; done. }
    destruct err as [err|].
    + split_and!; [by apply Hg|by destruct st; intros ?|by apply steady_data|done].
    + destruct (published_load phs w st ver s') as [Hty Hrd]; [done..|].
      split_and!; [by apply Hg|done|by apply steady_data|done].
  - destruct (hd _ _ (w_data w)) as [[[ok err]|] s'] eqn:Hu; [|done]. injection Hh as <- <-.
    destruct Hg as [(-> & [= -> ->] & Hv & Ht) Hg]. rewrite (Hph prev eq_refl) in *.
    exists (after_write (ok, err)). destruct (ds_upsert _ _ _ _ _ _ _ _ Hinv Hid Hkey Ht (version0_range _ _ Hfresh) Hu) as (Hi' & _).
    split_and!; [apply Hg|by destruct ok, err; intros ?|by apply steady_data|by apply (published_write phs w i next)].
Qed.

Lemma call_published {A} phs i ph X (e : AppE X) (kk : X → prog AppE A) Q (w w' : world) x :
  phs !! i = Some ph → reads ph → steady w → published phs w →
  watch id newVal cc0 ph (Vis e kk) Q → app X e w = (Some x, w') →
  ∃ ph', watch id newVal cc0 ph' (kk x) Q ∧ reads ph' ∧ steady w' ∧ published (<[i := ph']> phs) w'.
Proof using HIc Hcount Hid Hkey Hfresh.
  intros Hi Hph Hw Hpub Hg Hh. pose proof Hw as [Hinv Hclock Hcl Hcache].
  pose proof (λ w'', published_same phs w w'' i ph Hi Hpub) as Hquiet.
  destruct e as [X []|X e|X e|X e|X []|X e].
  - simpl in Hg, Hh. injection Hh as <- <-. exists ph. split_and!; [apply Hg, Hclock|done|done|by apply Hquiet].
  - simpl in Hg, Hh. injection Hh as <- <-. exists ph. split_and!; [apply Hg, Hclock|done|done|by apply Hquiet].
  - by apply (data_published phs i ph X e kk Q w).
  - simpl in Hg, Hh. destruct e as [c| | | |]; simpl in Hg; try done. destruct Hg as [-> Hg].
    destruct (hc _ _ (w_client w)) as [[[cc err]|] s'] eqn:Hcc; [|done]. injection Hh as <- <-.
    apply HIc in Hcc as [Hi' Hcc]; [|done]. exists ph. split_and!; [by apply Hg|done|by split|by apply Hquiet].
  - simpl in Hg, Hh. destruct (hp _ e (w_pub w)) as [r s'] eqn:Hpu. injection Hh as -> <-. destruct Hg as [-> Hg].
    exists Idle. split_and!; [apply Hg|by intros ?|by split|].
    apply (published_publish phs w _ i Hi); [done| |done]. destruct e. by apply Hcount in Hpu.
  - simpl in Hg, Hh. injection Hh as <- <-. destruct Hg as [-> Hg]. exists ph. split_and!; [by apply Hg|done|by split|by apply Hquiet].
  - simpl in Hg, Hh. injection Hh as <- <-. destruct Hg as [[-> Hen] Hg]. exists ph. split_and!; [done|done| |by apply Hquiet].
    split; try done. simpl. rewrite lookup_insert_eq. by intros en' [= <-].
  - simpl in Hg, Hh. destruct e; injection Hh as <- <-; exists ph; (split_and!; [apply Hg|done|by split|by apply Hquiet]).
Qed.

(** Any number of calls. *)
Lemma pool_published {A} (Q : phase → A → Prop) ps phs (w : world) cfg' :
  Forall2 (λ ph p, watch id newVal cc0 ph p Q) phs ps → Forall reads phs → steady w → published phs w →
  rtc (pool_step app) (ps, w) cfg' →
  ∃ phs', Forall2 (λ ph p, watch id newVal cc0 ph p Q) phs' cfg'.1 ∧ published phs' cfg'.2.
Proof using Hc Hp HIc Hcount Hid Hkey Hfresh.
  intros Hps Hrd Hw Hpub Hsteps. remember (ps, w) as cfg eqn:Hcfg. revert ps phs w Hps Hrd Hw Hpub Hcfg.
  induction Hsteps as [|? cfg ? Hs _ IH]; intros ps phs w Hps Hrd Hw Hpub ->; [by exists phs|].
  inversion Hs as [i X e kk ps0 w0 x w1 Hi Hh|i X e kk ps0 w0 w1 Hi Hh]; subst.
  - destruct (Forall2_lookup_r _ _ _ _ _ Hps Hi) as (ph & Hi' & Hg).
    destruct (call_published phs i ph X e kk Q w w1 x) as (ph' & Hg' & Hr' & Hw' & Hpub'); try done.
    { by eapply Forall_lookup_1. }
    eapply (IH (<[i := kk x]> ps) (<[i := ph']> phs) w1); [|by apply Forall_insert|done..].
    by apply Forall2_insert.
  - pose proof (app_replies hd hc hp Hc Hp X e w) as Hr. by rewrite Hh in Hr.
Qed.

End pool.

(** ** Claim *)

Section claims.
Context `{L : Lib} `{J : StdJson} {St CSt PSt : Type} (hd : handler DataStoreE St).
Context (hc : handler ClientStoreE CSt) (hp : handler PublisherE PSt) `{!DataStore hd}.

(** C1: a change is published once. Any number of HTTP requests and SQS batches
    of one client report the same new value of the watched field, their calls to
    the store, the cache, the clock and the publisher interleaved in any order, the
    stores and the publisher failing at will: together they call the publisher at
    most once, and when they do, the stored value is the new one, one version on. *)
Theorem service_publishes_once (id newVal : string) cc0 (Ic : CSt → Prop) (count : PSt → Z) jobs
    (w : World St CSt PSt) ps' w' :
  let key := ComputeKey (tr_FieldExpr (Trigger cc0)) in
  let cur0 := scope_state hd w id key in
  ValidString id = true → ValidString newVal = true → tr_FieldExpr (Trigger cc0) ≠ "" → config_text cc0 →
  total_handler hc → total_handler hp →
  (∀ s cc err s', Ic s → hc _ (GetClientConfig id) s = (Some (cc, err), s') → Ic s' ∧ (err = None → cc = cc0)) →
  (∀ topic payload s err s', hp _ (PublishRaw topic payload) s = (Some err, s') → count s' = count s + 1) →
  Forall (job_reports id newVal cc0) jobs → steady hd id cc0 Ic w → fresh_value newVal cur0 →
  rtc (pool_step (app_handler hd hc hp)) (job_prog <$> jobs, w) (ps', w') →
  count (w_pub w') <= count (w_pub w) + 1 ∧
  (count (w_pub w') = count (w_pub w) + 1 →
   ∃ e, scope_state hd w' id key = Some (e, version0 cur0 + 1) ∧ LastValue e = newVal) ∧
  Forall (λ p, p ≠ Panic) ps'.
Proof.
  intros key cur0 Hid Hval Hfield Hcc Hc Hp HIc Hcount Hjobs Hw Hfresh Hsteps.
  destruct (pool_published hd hc hp Hc Hp id newVal cc0 count Hcount cur0 (count (w_pub w)) Hid
    ltac:(subst key; auto with enoti) Hfresh Ic HIc (λ _ _, True)
    (job_prog <$> jobs) (replicate (length jobs) Idle) w (ps', w')) as (phs' & Hps & Hpub); try done.
  { apply Forall2_fmap_r. clear Hsteps. induction Hjobs; simpl; constructor; [by apply watch_job|done]. }
  { by apply Forall_replicate. }
  { left. split; [done|]. split; [|done]. apply tally_none, Forall_replicate. done. }
  pose proof (tally_nonneg is_token phs') as Hpos. split_and!.
  - destruct Hpub as [(_ & _ & ?)|(e & _ & _ & _ & ?)]; simpl in *; lia.
  - intros Hn. destruct Hpub as [(_ & _ & H0)|(e & He & Hv & _)]; simpl in *; [lia|by exists e].
  - simpl in Hps. clear -Hps. induction Hps as [|ph p phs ps Hp _ IH]; constructor; [by intros ->|done].
Qed.

End claims.

(** ** Witness: two requests and a batch of one client, all with the value [b] *)

Definition demo_reports : list job :=
  [HttpRequest demo_request; SqsBatch [demo_message "m1" "v=b"]; HttpRequest demo_request].

Lemma demo_watched : watched "b" demo_cc (demo_payload "b").
Proof. split; vm_compute; reflexivity. Qed.

Lemma demo_reports_ok : Forall (job_reports "acme" "b" demo_cc) demo_reports.
Proof.
  assert (reports "acme" "b" demo_cc demo_request) as Hr.
  { split; [reflexivity| |].
    - intros ip Hip. vm_compute in Hip. by injection Hip as <-.
    - intros body payload Hb Hu. vm_compute in Hb. injection Hb as <-. vm_compute in Hu. injection Hu as <-.
      apply demo_watched. }
  constructor; [exact Hr|constructor; [|constructor; [exact Hr|done]]].
  constructor; [|done]. split.
  - intros attrs Ha. vm_compute in Ha. by injection Ha as <-.
  - intros payload Hu. vm_compute in Hu. injection Hu as <-. apply demo_watched.
Qed.

(** They take turns, call by call. *)
Definition demo_once : list (prog AppE unit) * MemWorld :=
  run_schedule mem_app (concat (replicate 20 [0; 1; 2]%nat)) (job_prog <$> demo_reports) demo_ready.

Example demo_once_result : demo_once.1 = [Ret tt; Ret tt; Ret tt] ∧ w_pub demo_once.2 = [("arn:t", "v=b")].
Proof. vm_compute. split; reflexivity. Qed.

Definition demo_client_held (m : gmap string ClientConfig) : Prop := m !! "acme" = Some demo_cc.

Lemma demo_client_read m cc err m' :
  demo_client_held m → mem_clients _ (GetClientConfig "acme") m = (Some (cc, err), m') →
  demo_client_held m' ∧ (err = None → cc = demo_cc).
Proof. intros Hm. simpl. rewrite Hm. by intros [= <- <- <-]. Qed.

Lemma mem_pub_count topic payload l err l' :
  mem_pub _ (PublishRaw topic payload) l = (Some err, l') → Z.of_nat (length l') = Z.of_nat (length l) + 1.
Proof. intros [= _ <-]. rewrite length_app. simpl. lia. Qed.

Lemma service_publishes_once_witness : Z.of_nat (length (w_pub demo_once.2)) <= 1.
Proof.
  apply (service_publishes_once mem_data mem_clients mem_pub "acme" "b" demo_cc demo_client_held
           (λ l, Z.of_nat (length l)) demo_reports demo_ready demo_once.1 demo_once.2).
  - reflexivity.
  - reflexivity.
  - discriminate.
  - by vm_compute.
  - exact mem_clients_total.
  - exact mem_pub_total.
  - exact demo_client_read.
  - exact mem_pub_count.
  - exact demo_reports_ok.
  - split; try done.
  - intros e v H. discriminate H.
  - rewrite <- surjective_pairing. apply run_schedule_steps.
Defined.
