(* ===== verification/Tags.v ===== *)
(** * The struct tags of [internal/types]

    The stores do not keep Go structs but documents: DynamoDB attributes named by
    the [dynamodbav] tags, JSON objects named by the [json] tags. A value to be
    encoded is given by its tree [goval]; the functions below list the fields of
    each struct with their tags, in both notations. *)

From S2P Require Import Prelude Errors Strconv Text Types Effects Ports StoreSpec.

(** ** Go values *)

Inductive goval :=
| GoString (s : string)
| GoInt (z : Z)
| GoBool (b : bool)
| GoNil
| GoSlice (l : list goval)
| GoStruct (fields : list (string * goval)).

(** Induction under slices and structs. *)
Lemma goval_nested_ind (P : goval → Prop) :
  (∀ s, P (GoString s)) → (∀ z, P (GoInt z)) → (∀ b, P (GoBool b)) → P GoNil →
  (∀ l, Forall P l → P (GoSlice l)) → (∀ fs, Forall (λ kv, P kv.2) fs → P (GoStruct fs)) →
  ∀ v, P v.
Proof.
  intros Hs Hi Hb Hn Hl Hf. fix IH 1. intros [s|z|b| |l|fs];
    [apply Hs|apply Hi|apply Hb|apply Hn|apply Hl|apply Hf].
  - induction l as [|v l IHl]; constructor; [apply IH|apply IHl].
  - induction fs as [|[k v] fs IHfs]; constructor; [apply IH|apply IHfs].
Qed.

(** Values that are encoded exactly: UTF-8 text, 64-bit integers, no two fields of
    a struct with the same tag. *)
Fixpoint go_typed (v : goval) : bool :=
  match v with
  | GoString s => ValidString s
  | GoInt z => bool_decide (is_int64 z)
  | GoSlice l => forallb go_typed l
  | GoStruct fs => bool_decide (NoDup fs.*1) && forallb (λ kv, go_typed kv.2) fs
  | GoBool _ | GoNil => true
  end.

(** ** [config.go] *)

(** A pointer: nil or the struct. *)
Definition go_pointer {A} (f : A → list (string * goval)) (p : option A) : goval :=
  match p with Some a => GoStruct (f a) | None => GoNil end.

(** [omitempty]: the field is left out when its value is nil or empty. *)
Definition omitempty (field : string * goval) : list (string * goval) :=
  match field.2 with
  | GoNil | GoString "" | GoSlice [] => []
  | _ => [field]
  end.

Definition passthrough_attrs (p : Passthrough) : list (string * goval) :=
  [("field", GoString (pt_FieldExpr p)); ("not_match", GoBool (pt_Negate p))].
Definition passthrough_json (p : Passthrough) : list (string * goval) :=
  [("field", GoString (pt_FieldExpr p)); ("negate", GoBool (pt_Negate p))].

Definition target_attrs (t : TargetConfig) : list (string * goval) :=
  [("sns_arn", GoString (SNSArn t)); ("rate_per_minute", GoInt (SNSRPM t))].
Definition target_json (t : TargetConfig) : list (string * goval) :=
  [("sns_arn", GoString (SNSArn t)); ("sns_rpm", GoInt (SNSRPM t))].

(** Both notations agree on [FlapConfig]. *)
Definition flap_fields (f : FlapConfig) : list (string * goval) :=
  [("window_seconds", GoInt (WindowSeconds f)); ("suppress_below", GoInt (SuppressBelow f));
   ("aggregate_at", GoInt (AggregateAt f)); ("aggregate_max_items", GoInt (AggregateMaxItems f));
   ("aggregate_cooldown_seconds", GoInt (AggregateCooldownSeconds f))].

Definition trigger_attrs (t : TriggerConfig) : list (string * goval) :=
  [("field", GoString (tr_FieldExpr t)); ("scope_fields", GoSlice (GoString <$> ScopeFields t));
   ("target", GoStruct (target_attrs (Target t))); ("flapping", go_pointer flap_fields (Flapping t))].
Definition trigger_json (t : TriggerConfig) : list (string * goval) :=
  [("field", GoString (tr_FieldExpr t))] ++
  omitempty ("scope_fields", GoSlice (GoString <$> ScopeFields t)) ++
  [("target", GoStruct (target_json (Target t)))] ++
  omitempty ("flapping", go_pointer flap_fields (Flapping t)).

Definition config_attrs (c : ClientConfig) : list (string * goval) :=
  [("client_id", GoString (ClientID c)); ("client_name", GoString (ClientName c));
   ("client_key", GoString (ClientKey c)); ("ip_rpm", GoInt (IPRPM c)); ("client_rpm", GoInt (ClientRPM c));
   ("passthrough", GoStruct (passthrough_attrs (cc_Passthrough c)));
   ("trigger", GoStruct (trigger_attrs (Trigger c)))].
Definition config_json (c : ClientConfig) : list (string * goval) :=
  [("client_id", GoString (ClientID c)); ("client_name", GoString (ClientName c));
   ("client_key", GoString (ClientKey c)); ("ip_rpm", GoInt (IPRPM c)); ("client_rpm", GoInt (ClientRPM c));
   ("passthrough", GoStruct (passthrough_json (cc_Passthrough c)));
   ("trigger", GoStruct (trigger_json (Trigger c)))].

(** A configuration of UTF-8 text and 64-bit integers. *)
Record config_typed (c : ClientConfig) : Prop := {
  ct_text : Forall (λ s, ValidString s = true)
    ([ClientID c; ClientName c; ClientKey c; pt_FieldExpr (cc_Passthrough c); tr_FieldExpr (Trigger c);
      SNSArn (Target (Trigger c))] ++ ScopeFields (Trigger c));
  ct_ints : Forall is_int64
    ([IPRPM c; ClientRPM c; SNSRPM (Target (Trigger c))] ++
     match Flapping (Trigger c) with
     | Some f => [WindowSeconds f; SuppressBelow f; AggregateAt f; AggregateMaxItems f; AggregateCooldownSeconds f]
     | None => []
     end);
}.

(** ** [state.go] *)

Definition flip_attrs (r : Flip) : list (string * goval) :=
  [("at", GoInt (At r)); ("from", GoString (From r)); ("to", GoString (To r)); ("payload", GoString (fl_Payload r))].
Definition flip_json (r : Flip) : list (string * goval) :=
  [("at", GoInt (At r)); ("from", GoString (From r)); ("to", GoString (To r))] ++
  omitempty ("payload", GoString (fl_Payload r)).

(** A [\[\]Flip], for the attribute encoder and for JSON. *)
Definition go_flips (rs : list Flip) : goval := GoSlice ((λ r, GoStruct (flip_attrs r)) <$> rs).
Definition json_flips (rs : list Flip) : goval := GoSlice ((λ r, GoStruct (flip_json r)) <$> rs).

Definition edge_attrs (e : Edge) : list (string * goval) :=
  [("scope_key", GoString (ScopeKey e)); ("last_value", GoString (LastValue e));
   ("last_change_ts", GoInt (LastChangeTS e)); ("window_start", GoInt (WindowStart e));
   ("flip_count", GoInt (FlipCount e)); ("recent", go_flips (Recent e));
   ("agg_until_ts", GoInt (AggUntilTS e)); ("ver", GoInt (Version e))].

(** ** The trees of typed values are encoded exactly *)

Lemma forallb_fmap {A B} (f : B → bool) (g : A → B) l :
  Forall (λ x, f (g x) = true) l → forallb f (g <$> l) = true.
Proof. induction 1 as [|x l Hx _ IH]; [done|]. rewrite fmap_cons. cbn [forallb]. by rewrite Hx, IH. Qed.

(** [omitempty] keeps at most the field it is given. *)
Lemma omitempty_case field : omitempty field = [] ∨ omitempty field = [field].
Proof.
  destruct field as [k v]. unfold omitempty. simpl.
  destruct v as [s| | | |l|]; auto; [destruct s|destruct l]; auto.
Qed.

Lemma go_typed_int z : is_int64 z → go_typed (GoInt z) = true.
Proof. simpl. by rewrite bool_decide_eq_true. Qed.

Lemma go_typed_strings l : Forall (λ s, ValidString s = true) l → go_typed (GoSlice (GoString <$> l)) = true.
Proof. intros H. by apply forallb_fmap. Qed.

Lemma go_typed_struct fs :
  bool_decide (NoDup fs.*1) = true → Forall (λ kv, go_typed kv.2 = true) fs → go_typed (GoStruct fs) = true.
Proof.
  simpl. intros -> Hfs. simpl. rewrite <- (list_fmap_id fs). by apply forallb_fmap.
Qed.

Lemma typed_field fs k v : go_typed (GoStruct fs) = true → (k, v) ∈ fs → go_typed v = true.
Proof.
  simpl. intros [_ Hf]%andb_true_iff Hin. rewrite forallb_forall in Hf.
  apply (Hf (k, v)). by apply list_elem_of_In.
Qed.

Lemma omitempty_typed field :
  go_typed field.2 = true → Forall (λ kv, go_typed kv.2 = true) (omitempty field).
Proof. intros H. destruct (omitempty_case field) as [->| ->]; by repeat constructor. Qed.

Ltac go_typed_tac :=
  repeat first
    [ done | apply go_typed_int; assumption | apply go_typed_strings; assumption
    | apply go_typed_struct; [reflexivity|] | apply Forall_cons; split | apply Forall_nil; exact I ].

Lemma flap_typed f :
  Forall is_int64 [WindowSeconds f; SuppressBelow f; AggregateAt f; AggregateMaxItems f; AggregateCooldownSeconds f] →
  go_typed (GoStruct (flap_fields f)) = true.
Proof. rewrite !Forall_cons. intros (?&?&?&?&?&_). go_typed_tac. Qed.

Lemma config_attrs_typed c : config_typed c → go_typed (GoStruct (config_attrs c)) = true.
Proof.
  destruct c as [id name key ip cl [pf neg] [tf scope [arn rpm] fl]]. intros [Ht Hi]. simpl in Ht, Hi.
  rewrite !Forall_cons in Ht. rewrite !Forall_cons in Hi. destruct Ht as (?&?&?&?&?&?&?), Hi as (?&?&?&Hfl).
  go_typed_tac. destruct fl; [by apply flap_typed|done].
Qed.

Lemma trigger_json_typed t :
  ValidString (tr_FieldExpr t) = true → go_typed (GoSlice (GoString <$> ScopeFields t)) = true →
  go_typed (GoStruct (target_json (Target t))) = true → go_typed (go_pointer flap_fields (Flapping t)) = true →
  go_typed (GoStruct (trigger_json t)) = true.
Proof.
  destruct t as [tf scope tg fl]. cbn [tr_FieldExpr ScopeFields Target Flapping]. intros. apply go_typed_struct.
  - unfold trigger_json. by destruct scope, fl.
  - unfold trigger_json. repeat (apply Forall_app; split); try (by apply omitempty_typed); by repeat constructor.
Qed.

Lemma config_json_typed c : config_typed c → go_typed (GoStruct (config_json c)) = true.
Proof.
  destruct c as [id name key ip cl [pf neg] [tf scope [arn rpm] fl]]. intros [Ht Hi]. simpl in Ht, Hi.
  rewrite !Forall_cons in Ht. rewrite !Forall_cons in Hi. destruct Ht as (?&?&?&?&?&?&Hsc), Hi as (?&?&?&Hfl).
  apply go_typed_struct; [reflexivity|]. repeat (apply Forall_cons; split; [try by go_typed_tac|]); [|done].
  apply trigger_json_typed; [done|by apply go_typed_strings|by go_typed_tac|].
  destruct fl; [by apply flap_typed|done].
Qed.

Lemma flips_typed rs : Forall flip_typed rs → go_typed (go_flips rs) = true.
Proof.
  intros H. apply forallb_fmap. eapply Forall_impl; [exact H|]. intros r []. go_typed_tac.
Qed.

Lemma json_flips_typed rs : Forall flip_typed rs → go_typed (json_flips rs) = true.
Proof.
  intros H. apply forallb_fmap. eapply Forall_impl; [exact H|]. intros r []. apply go_typed_struct.
  - unfold flip_json. destruct r as [? ? ? p]. by destruct p.
  - unfold flip_json. apply Forall_app. split; [go_typed_tac|by apply omitempty_typed].
Qed.

Lemma edge_attrs_typed e :
  edge_typed e → ValidString (ScopeKey e) = true → is_int64 (Version e) →
  go_typed (GoStruct (edge_attrs e)) = true.
Proof. intros [] ? ?. go_typed_tac. by apply flips_typed. Qed.
