(* ===== verification/DdbSpec.v ===== *)
(** * DynamoDB as the backends use it

    The service and the SDK's attribute encoder are not part of the sources:
    they are a handler and a set of functions the code is run with, and the
    classes [DynamoDB] and [AttrLaws] state the documented behaviour that is
    relied on. Condition and update expressions are given by their syntax trees
    ([print_cond], [print_update] give the text, compared with the strings of
    the source in [Ddb.v]). [DdbMem.v] has a concrete instance. *)

From S2P Require Import Prelude Errors Strconv Text Types Effects Ports StoreSpec Tags.

Inductive AttributeValue :=
| AVS (s : string)
| AVN (text : string)
| AVBOOL (b : bool)
| AVNULL
| AVL (l : list AttributeValue)
| AVM (m : list (string * AttributeValue)).

Notation item := (gmap string AttributeValue).

(** ** Expressions *)

Inductive cond :=
| CNotExists (path : string)
| CEq (path value : string)
| CLt (path value : string)
| CAnd (c d : cond)
| COr (c d : cond).

Inductive update_action :=
| USet (path value : string)
| USetIfNotExists (path path' value : string)
| UAdd (path value : string).

(** The text of an expression, without spaces. *)
Fixpoint print_cond (c : cond) : string :=
  match c with
  | CNotExists p => "attribute_not_exists(" +:+ p +:+ ")"
  | CEq p v => p +:+ "=" +:+ v
  | CLt p v => p +:+ "<" +:+ v
  | CAnd c d => print_cond c +:+ "AND" +:+ print_cond d
  | COr c d => print_cond c +:+ "OR" +:+ print_cond d
  end.

Definition print_set (a : update_action) : string :=
  match a with
  | USet p v => p +:+ "=" +:+ v
  | USetIfNotExists p p' v => p +:+ "=if_not_exists(" +:+ p' +:+ "," +:+ v +:+ ")"
  | UAdd p v => p +:+ v
  end.

(** The SET clause and the ADD clause. *)
Definition print_update (sets adds : list update_action) : string :=
  "SET" +:+ String.concat "," (print_set <$> sets) +:+
  (if decide (adds = []) then "" else "ADD" +:+ String.concat "," (print_set <$> adds)).

Definition no_spaces (s : string) : string := of_bytes (List.filter (λ c, negb (Ascii.eqb c " "%char)) (bytes s)).

#[global] Instance update_action_eq_dec : EqDecision update_action.
Proof. solve_decision. Defined.

(** ** Their documented meaning *)

(** The value of a number; only integers of 64 bits are used. *)
Definition num (v : AttributeValue) : option Z :=
  match v with
  | AVN text => match ParseInt text with inl z => Some z | inr _ => None end
  | _ => None
  end.

Section expressions.
Context (names : gmap string string) (values : gmap string AttributeValue).

Definition resolve (path : string) : string := default path (names !! path).

Definition attr (it : option item) (path : string) : option AttributeValue :=
  it ≫= (.!! resolve path).

(** Comparison of an attribute with a number: false when it is missing. [None]:
    not a case used here. *)
Definition compare_num (rel : Z → Z → bool) (it : option item) (path value : string) : option bool :=
  match attr it path with
  | None => Some false
  | Some a => x ← num a; b ← values !! value; y ← num b; Some (rel x y)
  end.

Fixpoint eval_cond (c : cond) (it : option item) : option bool :=
  match c with
  | CNotExists p => Some (bool_decide (attr it p = None))
  | CEq p v => compare_num Z.eqb it p v
  | CLt p v => compare_num Z.ltb it p v
  | CAnd c d => x ← eval_cond c it; y ← eval_cond d it; Some (x && y)
  | COr c d => x ← eval_cond c it; y ← eval_cond d it; Some (x || y)
  end.

Definition apply_action (a : update_action) (it : item) : option item :=
  match a with
  | USet p v => x ← values !! v; Some (<[resolve p := x]> it)
  | USetIfNotExists p p' v =>
      x ← values !! v;
      Some (<[resolve p := default x (it !! resolve p')]> it)
  | UAdd p v =>
      x ← values !! v;
      match it !! resolve p with
      | None => Some (<[resolve p := x]> it)
      | Some old => m ← num old; n ← num x; Some (<[resolve p := AVN (FormatInt (m + n))]> it)
      end
  end.

Fixpoint apply_update (l : list update_action) (it : item) : option item :=
  match l with
  | [] => Some it
  | a :: l => it ← apply_action a it; apply_update l it
  end.

End expressions.

(** Absent attributes make [attribute_not_exists] decidable without equality of
    values. *)
#[global] Instance attr_none_dec names it p : Decision (attr names it p = None).
Proof. destruct (attr names it p); [right|left]; done. Defined.

(** ** The calls *)

Inductive ScalarAttributeType := ScalarAttributeTypeS | ScalarAttributeTypeN | ScalarAttributeTypeB.
Inductive KeyType := KeyTypeHash | KeyTypeRange.
Inductive BillingModeType := BillingModePayPerRequest | BillingModeProvisioned.

Record CreateTableInput := mkCreateTableInput {
  TableName : string;
  AttributeDefinitions : list (string * ScalarAttributeType);
  KeySchema : list (string * KeyType);
  BillingMode : BillingModeType;
}.

(** A query gives the partition, the prefix of the sort keys and the attributes
    that are returned; the waiter for the end of a table gives up after [d]. *)
Inductive DdbE : Type → Type :=
| GetItem (table pk sk : string) (ConsistentRead : bool) : DdbE (option item * option error)
| PutItem (table : string) (it : item) (c : option cond) : DdbE (option error)
| UpdateItem (table pk sk : string) (sets adds : list update_action)
    (names : gmap string string) (values : gmap string AttributeValue) (c : cond) : DdbE (option error)
| DeleteItem (table pk sk : string) : DdbE (option error)
| Query (table pk sk_prefix : string) (projection : list string) : DdbE (list item * option error)
| CreateTable (input : CreateTableInput) : DdbE (option error)
| DeleteTable (table : string) : DdbE (option error)
| WaitTableNotExists (table : string) (d : Z) : DdbE (option error).

Definition ConditionalCheckFailed : string := "ConditionalCheckFailedException".

(** The primary key in an item. *)
Definition item_key (it : item) : option (string * string) :=
  match it !! "PK", it !! "SK" with
  | Some (AVS pk), Some (AVS sk) => Some (pk, sk)
  | _, _ => None
  end.

(** All text is UTF-8, so that it is transmitted unchanged. *)
Fixpoint av_text (v : AttributeValue) : bool :=
  match v with
  | AVS s => ValidString s
  | AVL l => forallb av_text l
  | AVM m => forallb (λ kv, av_text kv.2) m
  | _ => true
  end.

Definition item_text (it : item) : Prop := ∀ k v, it !! k = Some v → av_text v = true.

Lemma item_text_insert k v it : av_text v = true → item_text it → item_text (<[k := v]> it).
Proof. intros Hv Hit k' v' [[_ <-]|[_ H]]%lookup_insert_Some; [done|by eapply Hit]. Qed.

Lemma item_text_empty : item_text ∅.
Proof. intros k v H. by rewrite lookup_empty in H. Qed.

#[export] Hint Resolve item_text_insert item_text_empty : enoti.

(** The outcome of a conditional write: success means the condition held and the
    item was written; a failed condition means it did not hold and nothing was
    written; after another error the write may or may not have happened. *)
Definition write_outcome (holds : option bool) (old new now : option item) (err : option error) : Prop :=
  match err with
  | None => holds = Some true ∧ now = new
  | Some e =>
      if errors_As e ConditionalCheckFailed then holds = Some false ∧ now = old
      else now = old ∨ (holds = Some true ∧ now = new)
  end.

(** The attributes of an item a projection keeps. *)
Definition project (projection : list string) (it : item) : item :=
  filter (λ kv, kv.1 ∈ projection) it.

(** The key attributes of an item an update creates. *)
Definition key_item (pk sk : string) : item := {[ "PK" := AVS pk; "SK" := AVS sk ]}.

Class DynamoDB {St : Type} (h : handler DdbE St) := {
  dy_item : St → string → string * string → option item;
  dy_total : total_handler h;
  dy_get s table pk sk it err s' :
    ValidString pk = true → ValidString sk = true →
    h _ (GetItem table pk sk true) s = (Some (it, err), s') →
    (∀ t key, dy_item s' t key = dy_item s t key) ∧ (err = None → it = dy_item s table (pk, sk));
  dy_put s table it c pk sk err s' :
    item_text it → item_key it = Some (pk, sk) →
    h _ (PutItem table it c) s = (Some err, s') →
    (∀ t key, (t, key) ≠ (table, (pk, sk)) → dy_item s' t key = dy_item s t key) ∧
    ∀ holds, match c with
             | None => Some true
             | Some c => eval_cond ∅ ∅ c (dy_item s table (pk, sk))
             end = Some holds →
    write_outcome (Some holds) (dy_item s table (pk, sk)) (Some it) (dy_item s' table (pk, sk)) err;
  dy_update s table pk sk sets adds names values c err s' :
    ValidString pk = true → ValidString sk = true → item_text values →
    h _ (UpdateItem table pk sk sets adds names values c) s = (Some err, s') →
    (∀ t key, (t, key) ≠ (table, (pk, sk)) → dy_item s' t key = dy_item s t key) ∧
    ∀ holds new,
      eval_cond names values c (dy_item s table (pk, sk)) = Some holds →
      apply_update names values (sets ++ adds) (default (key_item pk sk) (dy_item s table (pk, sk))) = Some new →
      write_outcome (Some holds) (dy_item s table (pk, sk)) (Some new) (dy_item s' table (pk, sk)) err;
  dy_delete s table pk sk err s' :
    ValidString pk = true → ValidString sk = true →
    h _ (DeleteItem table pk sk) s = (Some err, s') →
    (∀ t key, (t, key) ≠ (table, (pk, sk)) → dy_item s' t key = dy_item s t key) ∧
    (err = None → dy_item s' table (pk, sk) = None);
  dy_query s table pk prefix projection its err s' :
    h _ (Query table pk prefix projection) s = (Some (its, err), s') →
    (∀ t key, dy_item s' t key = dy_item s t key) ∧
    (err = None → ∀ it, it ∈ its → ∃ sk m, HasPrefix sk prefix = true ∧
       dy_item s table (pk, sk) = Some m ∧ it = project projection m);
}.

(** ** The attribute encoder of the SDK *)

Class AttrLib := {
  av_Marshal : goval → AttributeValue + error;
  (** of a struct or of a map with the given entries *)
  av_MarshalMap : list (string * goval) → item + error;
  av_UnmarshalEdge : item → Edge + error;
  av_UnmarshalPK : item → string + error;
  av_UnmarshalConfig : item → ClientConfig + error;
}.

(** The attribute of a value. An empty slice may be nil, which is NULL. *)
Fixpoint encodes (v : goval) (a : AttributeValue) {struct v} : Prop :=
  match v with
  | GoString s => a = AVS s
  | GoInt z => a = AVN (FormatInt z)
  | GoBool b => a = AVBOOL b
  | GoNil => a = AVNULL
  | GoSlice l =>
      (l = [] ∧ a = AVNULL) ∨
      ∃ l', a = AVL l' ∧
        (fix all l l' := match l, l' with
                         | [], [] => True
                         | v :: l, a :: l' => encodes v a ∧ all l l'
                         | _, _ => False
                         end) l l'
  | GoStruct fs =>
      ∃ m, a = AVM m ∧
        (fix all fs m := match fs, m with
                         | [], [] => True
                         | (k, v) :: fs, (k', a) :: m => k = k' ∧ encodes v a ∧ all fs m
                         | _, _ => False
                         end) fs m
  end.

(** An item with the attributes of the given fields. *)
Definition has_attrs (fields : list (string * goval)) (m : item) : Prop :=
  ∀ k v, (k, v) ∈ fields → ∃ a, m !! k = Some a ∧ encodes v a.

(** Encoding a map encodes its values. *)
Fixpoint marshal_fields `{AttrLib} (fields : list (string * goval)) : item + error :=
  match fields with
  | [] => inl ∅
  | (k, v) :: fields =>
      match av_Marshal v, marshal_fields fields with
      | inl a, inl m => inl (<[k := a]> m)
      | inr err, _ => inr err
      | _, inr err => inr err
      end
  end.

(** Typed values are encoded; an item with the attributes of an edge or of a
    configuration decodes to it. *)
Class AttrLaws `{AttrLib} := {
  av_encodes v : go_typed v = true → ∃ a, av_Marshal v = inl a ∧ encodes v a;
  av_map fields : av_MarshalMap fields = marshal_fields fields;
  av_edge e m : go_typed (GoStruct (edge_attrs e)) = true → has_attrs (edge_attrs e) m → av_UnmarshalEdge m = inl e;
  av_config c m : go_typed (GoStruct (config_attrs c)) = true → has_attrs (config_attrs c) m →
    av_UnmarshalConfig m = inl c;
}.

Lemma encodes_text v : ∀ a, go_typed v = true → encodes v a → av_text a = true.
Proof.
  induction v as [s|z|b| |l IH|fs IH] using goval_nested_ind; intros a Ht Henc; simpl in Henc; subst; try done.
  - destruct Henc as [[_ ->]|(l' & -> & Hl)]; [done|]. simpl in *.
    revert l' Hl. induction IH as [|v l Hv _ IHl]; intros [|a l'] Hl; try done. simpl in *.
    apply andb_true_iff in Ht as [Ht1 Ht2]. destruct Hl as [Ha Hl]. by rewrite (Hv _ Ht1 Ha), IHl.
  - destruct Henc as (m & -> & Hm). simpl in *. apply andb_true_iff in Ht as [_ Ht].
    revert m Hm. induction IH as [|[k v] fs Hv _ IHl]; intros [|[k' a] m] Hm; try done. simpl in *.
    apply andb_true_iff in Ht as [Ht1 Ht2]. destruct Hm as (_ & Ha & Hm). by rewrite (Hv _ Ht1 Ha), IHl.
Qed.

(** The item of a typed struct has its attributes. *)
Lemma marshal_map_typed `{AttrLaws} fields :
  go_typed (GoStruct fields) = true → ∃ m, av_MarshalMap fields = inl m ∧ has_attrs fields m ∧ item_text m.
Proof.
  rewrite av_map. simpl. rewrite andb_true_iff, bool_decide_eq_true. intros [Hnd Ht].
  induction fields as [|[k v] fields IH]; simpl in *.
  { exists ∅. split_and!; [done|by intros ? ? ?%elem_of_nil|apply item_text_empty]. }
  apply NoDup_cons in Hnd as [Hk Hnd]. apply andb_true_iff in Ht as [Hv Ht].
  destruct (IH Hnd Ht) as (m & -> & Hattrs & Htext). destruct (av_encodes v Hv) as (a & -> & Ha).
  eexists. split; [done|]. split; [|apply item_text_insert; [by eapply encodes_text|done]].
  intros k' v' [[= -> ->]|Hin]%elem_of_cons; [by exists a; rewrite lookup_insert_eq|].
  rewrite lookup_insert_ne; [by apply Hattrs|]. intros <-. apply Hk. by apply (list_elem_of_fmap_2 fst) in Hin.
Qed.

Lemma has_attrs_key fields m pk sk :
  has_attrs fields m → ("PK", GoString pk) ∈ fields → ("SK", GoString sk) ∈ fields → item_key m = Some (pk, sk).
Proof.
  intros Hm Hpk Hsk. unfold item_key. destruct (Hm _ _ Hpk) as (a & -> & ->). by destruct (Hm _ _ Hsk) as (a & -> & ->).
Qed.

Lemma has_attrs_subseteq fields fields' m : fields' ⊆ fields → has_attrs fields m → has_attrs fields' m.
Proof. intros Hsub Hm k v Hin. apply Hm. by apply Hsub. Qed.

Lemma has_attrs_cons k v fields m :
  has_attrs ((k, v) :: fields) m ↔ (∃ a, m !! k = Some a ∧ encodes v a) ∧ has_attrs fields m.
Proof.
  unfold has_attrs. setoid_rewrite elem_of_cons. split; [by naive_solver|].
  intros [Hv Hm] k' v' [[= -> ->]|Hin]; [done|auto].
Qed.

Lemma has_attrs_nil m : has_attrs [] m.
Proof. by intros k v ?%elem_of_nil. Qed.
