(* ===== verification/Ddb.v ===== *)
(** * [internal/backends/ddb]: the DynamoDB stores *)

From S2P Require Import Prelude Errors Strconv Text Types Effects Ports StoreSpec Tags DdbSpec.

(** ** [table.go] *)

Definition SClient : string := "CLIENT".
Definition SRate : string := "RATE".
Definition SEdge : string := "EDGE".
Definition SDedup : string := "DEDUP".
Definition SWin : string := "WIN".

Definition pkClient (id : string) : string := SClient +:+ "#" +:+ id.
Definition skProfile : string := "PROFILE".
Definition skDedup (hash : string) : string := SDedup +:+ "#" +:+ hash.
Definition pkRate (scope : string) : string := SRate +:+ "#" +:+ scope.
Definition skRateWin (epochMin : Z) : string := SWin +:+ "#" +:+ FormatInt epochMin.
Definition skEdge (scopeKey : string) : string := SEdge +:+ "#" +:+ scopeKey.

(** [fmt.Sscanf(pk, "CLIENT#%s", &id)]: one word after the prefix. *)
Definition parseClientID (pk : string) : string + error := sscanf_word "CLIENT#" pk.

(** The calls of a backend: the service, the clock, and the last words of the
    process ([log.Fatalf] with a message and the error it reports). *)
Inductive BackE : Type → Type :=
| ddbE {X} (e : DdbE X) : BackE X
| nowE : BackE Z
| fatalE (msg : string) (err : error) : BackE unit.

Definition table_input (table : string) : CreateTableInput :=
  mkCreateTableInput table
    [("PK", ScalarAttributeTypeS); ("SK", ScalarAttributeTypeS)]
    [("PK", KeyTypeHash); ("SK", KeyTypeRange)]
    BillingModePayPerRequest.

(** A failure other than "table exists" ends the process. *)
Definition createTableIfNotExists (table : string) : prog BackE unit :=
  err ← trigger (ddbE (CreateTable (table_input table)));
  match err with
  | Some err =>
      if errors_As err "ResourceInUseException" then mret tt
      else _ ← trigger (fatalE ("Failed to create table " +:+ table) err); Panic
  | None => mret tt
  end.

(** ** [datastore.go] *)

Definition itoa (i : Z) : string := FormatInt i.

(** "attribute_not_exists(PK) AND attribute_not_exists(SK)" *)
Definition cond_absent : cond := CAnd (CNotExists "PK") (CNotExists "SK").
(** "#ver = :prev" *)
Definition cond_version : cond := CEq "#ver" ":prev".
(** "attribute_not_exists(#count) OR #count < :cap" *)
Definition cond_capacity : cond := COr (CNotExists "#count") (CLt "#count" ":cap").

(** The reply of a conditional write: a failed condition is [no], other errors
    are returned. *)
Definition conditional (yes no : bool) (err : option error) : bool * option error :=
  match err with
  | None => (yes, None)
  | Some err => if errors_As err ConditionalCheckFailed then (no, None) else (false, Some err)
  end.

Section datastore.
Context `{A : AttrLib} (table : string).

(** [mustMarshalAttr]: the error is dropped; the value is then nil, which the
    encoder of the request sends as NULL. *)
Definition mustMarshalAttr (v : goval) : AttributeValue :=
  match av_Marshal v with inl av => av | inr _ => AVNULL end.

(** [dedupItem] with the names of its attributes. *)
Record dedupItem := mkDedupItem {
  dd_PK : string;
  dd_SK : string;
  ExpiresAt : Z;
}.

Definition dedup_fields (item : dedupItem) : list (string * goval) :=
  [("PK", GoString (dd_PK item)); ("SK", GoString (dd_SK item)); ("ttl", GoInt (ExpiresAt item))].

(** [DataStore.Suppress]. *)
Definition Suppress (clientID hash : string) (window : Z) : prog BackE (bool * option error) :=
  now ← trigger nowE;
  let item := mkDedupItem (pkClient clientID) (skDedup hash) (Unix (now + window)) in
  match av_MarshalMap (dedup_fields item) with
  | inr err => mret (false, Some err)
  | inl av =>
      err ← trigger (ddbE (PutItem table av (Some cond_absent)));
      mret (conditional false true err)
  end.

(** [DataStore.Load]. *)
Definition ddb_Load (clientID scopeKey : string) : prog BackE (option Edge * Z * option error) :=
  '(it, err) ← trigger (ddbE (GetItem table (pkClient clientID) (skEdge scopeKey) true));
  match err with
  | Some err => mret (None, 0, Some err)
  | None =>
      match it with
      | None => mret (None, 0, None)
      | Some it =>
          match av_UnmarshalEdge it with
          | inr err => mret (None, 0, Some err)
          | inl st => mret (Some st, Version st, None)
          end
      end
  end.

Definition edge_fields (clientID scopeKey : string) (next : Edge) : list (string * goval) :=
  [("PK", GoString (pkClient clientID)); ("SK", GoString (skEdge scopeKey));
   ("scope_key", GoString (ScopeKey next)); ("last_value", GoString (LastValue next));
   ("last_change_ts", GoInt (LastChangeTS next)); ("window_start", GoInt (WindowStart next));
   ("flip_count", GoInt (FlipCount next)); ("recent", go_flips (Recent next));
   ("agg_until_ts", GoInt (AggUntilTS next)); ("ver", GoInt (Version next))].

(** "SET #lv=:lv, #lcts=:lcts, #ws=:ws, #fc=:fc, #rc=:rc, #aut=:aut, #ver=:newver" *)
Definition edge_sets : list update_action :=
  [USet "#lv" ":lv"; USet "#lcts" ":lcts"; USet "#ws" ":ws"; USet "#fc" ":fc"; USet "#rc" ":rc";
   USet "#aut" ":aut"; USet "#ver" ":newver"].

Definition edge_names : gmap string string :=
  {[ "#lv" := "last_value"; "#lcts" := "last_change_ts"; "#ws" := "window_start";
     "#fc" := "flip_count"; "#rc" := "recent"; "#aut" := "agg_until_ts"; "#ver" := "ver" ]}.

Definition edge_values (prevVersion : Z) (next : Edge) : gmap string AttributeValue :=
  {[ ":lv" := AVS (LastValue next); ":lcts" := AVN (itoa (LastChangeTS next));
     ":ws" := AVN (itoa (WindowStart next)); ":fc" := AVN (itoa (FlipCount next));
     ":rc" := mustMarshalAttr (go_flips (Recent next)); ":aut" := AVN (itoa (AggUntilTS next));
     ":newver" := AVN (itoa (int64 (prevVersion + 1))); ":prev" := AVN (itoa prevVersion) ]}.

(** [DataStore.UpsertCAS]. *)
Definition ddb_UpsertCAS (clientID scopeKey : string) (prevVersion : Z) (next : Edge) :
    prog BackE (bool * option error) :=
  let next := set_ScopeKey scopeKey next in
  if decide (prevVersion = 0) then
    let next := set_Version 1 next in
    match av_MarshalMap (edge_fields clientID scopeKey next) with
    | inr err => mret (false, Some err)
    | inl av =>
        err ← trigger (ddbE (PutItem table av (Some cond_absent)));
        mret (conditional true false err)
    end
  else
    err ← trigger (ddbE (UpdateItem table (pkClient clientID) (skEdge scopeKey) edge_sets []
                           edge_names (edge_values prevVersion next) cond_version));
    mret (conditional true false err).

(** "SET #ttl = if_not_exists(#ttl, :ttl) ADD #count :one" *)
Definition rate_sets : list update_action := [USetIfNotExists "#ttl" "#ttl" ":ttl"].
Definition rate_adds : list update_action := [UAdd "#count" ":one"].

Definition rate_names : gmap string string := {[ "#count" := "count"; "#ttl" := "ttl" ]}.

Definition rate_values (ttl ratePerWindow : Z) : gmap string AttributeValue :=
  {[ ":one" := AVN "1"; ":ttl" := AVN (itoa ttl); ":cap" := AVN (itoa ratePerWindow) ]}.

(** The window of a time: [Unix() / 60], which truncates. *)
Definition epoch_minute (now : Z) : Z := Z.quot (Unix now) 60.

(** [DataStore.Acquire]: the clock is read twice. *)
Definition ddb_Acquire (scope : string) (ratePerWindow window : Z) : prog BackE (bool * option error) :=
  if decide (ratePerWindow <= 0) then mret (false, None)
  else
    now ← trigger nowE;
    let epochMin := epoch_minute now in
    now' ← trigger nowE;
    let ttl := Unix (now' + (window + 2 * Minute)) in
    err ← trigger (ddbE (UpdateItem table (pkRate scope) (skRateWin epochMin) rate_sets rate_adds
                           rate_names (rate_values ttl ratePerWindow) cond_capacity));
    mret (conditional true false err).

(** The implementation of [ports.DataStore]. *)
Definition ddb_data {X} (e : DataStoreE X) : prog BackE X :=
  match e with
  | Acquire scope rate window => ddb_Acquire scope rate window
  | Load c k => ddb_Load c k
  | UpsertCAS c k prev next => ddb_UpsertCAS c k prev next
  end.

(** ** [configstore.go] *)

Definition ddb_GetClientConfig (id : string) : prog BackE (ClientConfig * option error) :=
  '(it, err) ← trigger (ddbE (GetItem table (pkClient id) skProfile true));
  match err with
  | Some err => mret (zeroClientConfig, Some err)
  | None =>
      match it with
      | None => mret (zeroClientConfig, Some (Sentinel ErrNotFound))
      | Some it =>
          match av_UnmarshalConfig it with
          | inr err => mret (zeroClientConfig, Some err)
          | inl cc => mret (cc, None)
          end
      end
  end.

(** The loop over the queried items. *)
Fixpoint client_ids (its : list item) (clientIDs : list string) : list string * option error :=
  match its with
  | [] => (clientIDs, None)
  | it :: its =>
      match av_UnmarshalPK it with
      | inr err => ([], Some err)
      | inl pk =>
          match parseClientID pk with
          | inr err => ([], Some err)
          | inl id => client_ids its (if decide (id ≠ "") then clientIDs ++ [id] else clientIDs)
          end
      end
  end.

(** "PK = :pk AND begins_with(SK, :sk)", of which only the attribute [PK] is returned. *)
Definition ddb_ListClients : prog BackE (list string * option error) :=
  '(its, err) ← trigger (ddbE (Query table "CLIENT#" "PROFILE#" ["PK"]));
  match err with
  | Some err => mret ([], Some err)
  | None => mret (client_ids its [])
  end.

(** The struct that is stored: the key, and the fields of the embedded
    configuration. *)
Definition profile_fields (pk sk : string) (config : ClientConfig) : list (string * goval) :=
  [("PK", GoString pk); ("SK", GoString sk)] ++ config_attrs config.

Definition ddb_PutClientConfig (clientID : string) (config : ClientConfig) : prog BackE (option error) :=
  let pk := pkClient clientID in
  let sk := skProfile in
  match Validate config with
  | Some err => mret (Some err)
  | None =>
      match av_MarshalMap (profile_fields pk sk config) with
      | inr err => mret (Some err)
      | inl it => trigger (ddbE (PutItem table it None))
      end
  end.

Definition ddb_DeleteClientConfig (clientID : string) : prog BackE (option error) :=
  trigger (ddbE (DeleteItem table (pkClient clientID) skProfile)).

(** [ClearAll]: delete the table, wait until it is gone, create it again. *)
Definition ddb_ClearAll : prog BackE (option error) :=
  err ← trigger (ddbE (DeleteTable table));
  match err with
  | Some err => mret (Some err)
  | None =>
      err ← trigger (ddbE (WaitTableNotExists table (30 * Second)));
      match err with
      | Some err => mret (Some err)
      | None => _ ← createTableIfNotExists table; mret None
      end
  end.

Definition ddb_client {X} (e : ClientStoreE X) : prog BackE X :=
  match e with
  | GetClientConfig id => ddb_GetClientConfig id
  | ListClients => ddb_ListClients
  | PutClientConfig id cc => ddb_PutClientConfig id cc
  | DeleteClientConfig id => ddb_DeleteClientConfig id
  | ClearAll => ddb_ClearAll
  end.

End datastore.

(** ** The expressions are those of the source, up to spaces *)

Example cond_absent_text :
  print_cond cond_absent = no_spaces "attribute_not_exists(PK) AND attribute_not_exists(SK)".
Proof. reflexivity. Qed.
Example cond_version_text : print_cond cond_version = no_spaces "#ver = :prev".
Proof. reflexivity. Qed.
Example cond_capacity_text :
  print_cond cond_capacity = no_spaces "attribute_not_exists(#count) OR #count < :cap".
Proof. reflexivity. Qed.
Example edge_sets_text :
  print_update edge_sets [] =
  no_spaces "SET #lv=:lv, #lcts=:lcts, #ws=:ws, #fc=:fc, #rc=:rc, #aut=:aut, #ver=:newver".
Proof. reflexivity. Qed.
Example rate_update_text :
  print_update rate_sets rate_adds = no_spaces "SET #ttl = if_not_exists(#ttl, :ttl) ADD #count :one".
Proof. reflexivity. Qed.
