(* ===== verification/DdbProps.v ===== *)
(** * The DynamoDB data store keeps the contract of [ports.DataStore] *)

From S2P Require Import Prelude Errors Strconv Text Types Effects Ports StoreSpec Tags DdbSpec Ddb.

(** ** Keys *)

Lemma ValidString_app_ascii p s :
  forallb (in_range 0 127) (bytes p) = true → ValidString (p +:+ s) = ValidString s.
Proof.
  unfold ValidString. rewrite bytes_app. induction (bytes p) as [|c l IH]; [done|].
  cbn [forallb app valid_utf8]. by intros [-> Hl]%andb_true_iff; auto.
Qed.

Lemma ValidString_pkClient c : ValidString (pkClient c) = ValidString c.
Proof. unfold pkClient. rewrite <- string_app_assoc. by apply ValidString_app_ascii. Qed.
Lemma ValidString_skEdge k : ValidString (skEdge k) = ValidString k.
Proof. unfold skEdge. rewrite <- string_app_assoc. by apply ValidString_app_ascii. Qed.
Lemma ValidString_pkRate s : ValidString (pkRate s) = ValidString s.
Proof. unfold pkRate. rewrite <- string_app_assoc. by apply ValidString_app_ascii. Qed.

Lemma pkClient_inj c c' : pkClient c = pkClient c' → c = c'.
Proof. unfold pkClient. rewrite <- !string_app_assoc. apply string_app_inj_l. Qed.
Lemma skEdge_inj k k' : skEdge k = skEdge k' → k = k'.
Proof. unfold skEdge. rewrite <- !string_app_assoc. apply string_app_inj_l. Qed.

(** ** Running the store *)

Section ddb.
Context {St : Type} (h : handler DdbE St) `{!DynamoDB h} `{!AttrLib} `{!AttrLaws}.
Context (table : string).

(** The service together with a clock that gives the readings [clock 0],
    [clock 1], ... *)
Context (clock : nat → Z).

Definition back_handler : handler BackE (St * nat) := λ X e '(s, n),
  match e with
  | ddbE e => let '(r, s') := h _ e s in (r, (s', n))
  | nowE => (Some (clock n), (s, S n))
  | fatalE _ _ => (Some tt, (s, n))
  end.

Definition ddb_handler : handler DataStoreE (St * nat) := λ X e, run back_handler (ddb_data table e).

Lemma back_total : total_handler back_handler.
Proof.
  intros X [Y e| |msg err] [s n]; simpl; [|eauto..]. destruct (dy_total _ e s) as (x & s' & ->). eauto.
Qed.

(** The item of an edge, and what it holds. *)
Definition edge_at (s : St) (c k : string) : option item := dy_item s table (pkClient c, skEdge k).

Record edge_row (c k : string) (e : Edge) (m : item) : Prop := {
  er_key : item_key m = Some (pkClient c, skEdge k);
  er_item : has_attrs (edge_attrs e) m;
  er_typed : edge_typed e;
  er_scope : ScopeKey e = k;
  er_text : ValidString k = true;
  er_version : 0 < Version e <= int64_max;
}.

Definition ddb_inv (s : St * nat) : Prop :=
  ∀ c k m, edge_at s.1 c k = Some m → ∃ e, edge_row c k e m.

Definition ddb_edge (s : St * nat) (c k : string) : option (Edge * Z) :=
  m ← edge_at s.1 c k;
  match av_UnmarshalEdge m with
  | inl e => Some (set_Version 0 e, Version e)
  | inr _ => None
  end.

Lemma edge_row_unmarshal c k e m : edge_row c k e m → av_UnmarshalEdge m = inl e.
Proof. intros []. apply av_edge; [apply edge_attrs_typed; [done|congruence|int_lia]|done]. Qed.

Lemma ddb_edge_row s n c k m e :
  edge_at s c k = Some m → edge_row c k e m →
  ddb_edge (s, n) c k = Some (set_Version 0 e, Version e).
Proof.
  intros Hm Hrow. unfold ddb_edge. simpl. rewrite Hm. simpl. by rewrite (edge_row_unmarshal _ _ _ _ Hrow).
Qed.

Lemma ddb_edge_None s n c k : edge_at s c k = None → ddb_edge (s, n) c k = None.
Proof. intros Hm. unfold ddb_edge. simpl. by rewrite Hm. Qed.

(** The other edges do not see a write to one item. *)
Lemma edge_at_frame s s' c k :
  (∀ t key, (t, key) ≠ (table, (pkClient c, skEdge k)) → dy_item s' t key = dy_item s t key) →
  ∀ c' k', (c', k') ≠ (c, k) → edge_at s' c' k' = edge_at s c' k'.
Proof.
  intros Hf c' k' Hne. apply Hf. intros Heq. apply Hne.
  apply pair_equal_spec in Heq as [_ Heq]. apply pair_equal_spec in Heq as [Hc%pkClient_inj Hk%skEdge_inj].
  congruence.
Qed.

Lemma ddb_edge_ext s s' n n' c k : edge_at s' c k = edge_at s c k → ddb_edge (s', n') c k = ddb_edge (s, n) c k.
Proof. intros He. unfold ddb_edge. simpl. by rewrite He. Qed.

(** *** Encoding an edge *)

Lemma marshal_edge c k e :
  ValidString c = true → ValidString k = true → edge_typed e → ScopeKey e = k →
  0 < Version e <= int64_max →
  ∃ m, av_MarshalMap (edge_fields c k e) = inl m ∧ edge_row c k e m ∧ item_text m.
Proof.
  intros Hc Hk Hty Hscope Hver. pose proof Hty as [Hv Hch Hst Hn Hr Ha].
  destruct (marshal_map_typed (edge_fields c k e)) as (m & -> & Hm & Htext).
  { assert (is_int64 (Version e)) by int_lia. assert (ValidString (ScopeKey e) = true) by congruence.
    go_typed_tac. by apply flips_typed. }
  exists m. split_and!; [done| |done]. split; try done; [by apply (has_attrs_key _ _ _ _ Hm); in_list|].
  eapply has_attrs_subseteq; [|done]. intros x Hx. by do 2 right.
Qed.

(** *** The condition of a creation *)

Lemma cond_absent_eval s n c k :
  ddb_inv (s, n) →
  eval_cond ∅ ∅ cond_absent (edge_at s c k) = Some (bool_decide (ddb_edge (s, n) c k = None)).
Proof.
  intros Hinv. destruct (edge_at s c k) as [m|] eqn:Hm; simpl.
  - destruct (Hinv c k m Hm) as [e Hrow]. rewrite (bool_decide_false (ddb_edge _ _ _ = None));
      [|by rewrite (ddb_edge_row _ _ _ _ _ _ Hm Hrow)].
    destruct Hrow as [Hkey _ _ _ _ _]. unfold item_key in Hkey. unfold attr, resolve. simpl.
    rewrite !lookup_empty. simpl. destruct (m !! "PK"); [|done]. done.
  - by rewrite (bool_decide_true (ddb_edge _ _ _ = None)) by by apply ddb_edge_None.
Qed.

(** *** A versioned update *)

Lemma apply_edge_sets prev next m :
  apply_update edge_names (edge_values prev next) (edge_sets ++ []) m =
  Some (<["ver" := AVN (itoa (int64 (prev + 1)))]>
       (<["agg_until_ts" := AVN (itoa (AggUntilTS next))]>
       (<["recent" := mustMarshalAttr (go_flips (Recent next))]>
       (<["flip_count" := AVN (itoa (FlipCount next))]>
       (<["window_start" := AVN (itoa (WindowStart next))]>
       (<["last_change_ts" := AVN (itoa (LastChangeTS next))]>
       (<["last_value" := AVS (LastValue next)]> m))))))).
Proof. reflexivity. Qed.

Lemma mustMarshal_encodes v : go_typed v = true → encodes v (mustMarshalAttr v).
Proof. intros Hv. unfold mustMarshalAttr. by destruct (av_encodes v Hv) as (a & -> & Ha). Qed.

Lemma edge_row_update c k e m prev next new :
  edge_row c k e m → edge_typed next → 0 <= prev < int64_max →
  apply_update edge_names (edge_values prev (set_ScopeKey k next)) (edge_sets ++ []) m = Some new →
  edge_row c k (set_Version (prev + 1) (set_ScopeKey k next)) new.
Proof.
  intros [Hkey [(a & Hsc & ->) _]%has_attrs_cons _ Hscope Hk _] Hty Hprev. rewrite apply_edge_sets. intros [= <-].
  pose proof Hty as [_ _ _ _ Hr%flips_typed%mustMarshal_encodes _].
  assert (int64 (prev + 1) = prev + 1) as Hp by (apply int64_id; int_lia).
  split; [| |by destruct Hty|done|done|simpl; lia].
  - unfold item_key. by rewrite !lookup_insert_ne by done.
  - unfold edge_attrs. rewrite !has_attrs_cons. simpl. rewrite Hp.
    split_and!; [|eexists; split; [by simplify_map_eq|done]..|apply has_attrs_nil].
    exists (AVS k). split; [|done]. simplify_map_eq. done.
Qed.

Lemma edge_values_text prev k next : edge_typed next → item_text (edge_values prev (set_ScopeKey k next)).
Proof.
  intros Hty. pose proof Hty as [Hv _ _ _ Hr%flips_typed _].
  pose proof (encodes_text _ _ Hr (mustMarshal_encodes _ Hr)) as Htext.
  unfold edge_values. by repeat apply item_text_insert.
Qed.

Lemma cond_version_eval s n c k prev next :
  ddb_inv (s, n) → is_int64 prev →
  eval_cond edge_names (edge_values prev next) cond_version (edge_at s c k) =
  Some (match ddb_edge (s, n) c k with Some (_, v) => Z.eqb v prev | None => false end).
Proof.
  intros Hinv Hprev. destruct (edge_at s c k) as [m|] eqn:Hm.
  - destruct (Hinv c k m Hm) as [e Hrow]. rewrite (ddb_edge_row _ _ _ _ _ _ Hm Hrow).
    destruct Hrow as [_ Hit _ _ _ Hver]. destruct (Hit "ver" (GoInt (Version e))) as (a & Hv & ->); [in_list|]. simpl. unfold compare_num, attr. simpl.
    change (resolve edge_names "#ver") with "ver". rewrite Hv. simpl.
    change (edge_values prev next !! ":prev") with (Some (AVN (itoa prev))). simpl.
    unfold itoa. by rewrite !ParseInt_FormatInt by int_lia.
  - by rewrite (ddb_edge_None _ _ _ _ Hm).
Qed.

(** *** The operations *)

Lemma ddb_total : total_handler ddb_handler.
Proof.
  intros X e s. apply run_total; [apply back_total|]. destruct e; simpl.
  - unfold ddb_Acquire. case_decide; [done|]. by intros n n' err.
  - intros [[m|] [err|]]; simpl; try done. by destruct (av_UnmarshalEdge m).
  - unfold ddb_UpsertCAS. case_decide; [|by intros err]. destruct (av_MarshalMap _); [by intros err|done].
Qed.

Lemma ddb_load_contract s c k st ver err s' :
  ddb_inv s → ValidString c = true → ValidString k = true →
  ddb_handler _ (Load c k) s = (Some (st, ver, err), s') →
  ddb_inv s' ∧ (∀ c' k', ddb_edge s' c' k' = ddb_edge s c' k') ∧
  (err = None →
   match st with
   | None => ddb_edge s c k = None ∧ ver = 0
   | Some e => ddb_edge s c k = Some (set_Version 0 e, ver) ∧ ver ≠ 0
   end).
Proof.
  destruct s as [s n]. intros Hinv Hc Hk. unfold ddb_handler, ddb_data, ddb_Load. prog_simpl.
  destruct (h _ (GetItem table (pkClient c) (skEdge k) true) s) as [[[it e]|] s1] eqn:Hg; [|done].
  apply dy_get in Hg as [Hview Hit]; [|by rewrite ValidString_pkClient|by rewrite ValidString_skEdge].
  assert (∀ c' k', edge_at s1 c' k' = edge_at s c' k') as Hat by (intros; apply Hview).
  assert (ddb_inv (s1, n)) as Hinv' by (intros c' k' m; simpl; rewrite Hat; apply Hinv).
  destruct e as [e|].
  { intros [= <- <- <- <-]. split_and!; [done| |done]. intros. by apply ddb_edge_ext. }
  specialize (Hit eq_refl). fold (edge_at s c k) in Hit. destruct it as [m|].
  - destruct (Hinv c k m (eq_sym Hit)) as [e Hrow]. rewrite (edge_row_unmarshal _ _ _ _ Hrow).
    intros [= <- <- <- <-]. split_and!; [done|intros; by apply ddb_edge_ext|]. intros _.
    rewrite (ddb_edge_row _ _ _ _ _ _ (eq_sym Hit) Hrow). destruct Hrow. split; [done|lia].
  - intros [= <- <- <- <-]. split_and!; [done|intros; by apply ddb_edge_ext|]. intros _.
    by rewrite (ddb_edge_None _ _ _ _ (eq_sym Hit)).
Qed.

(** What a conditional write of a row does to the store, in terms of the
    contract. [holds] is the truth of the condition. *)
Lemma write_contract s s' n n' c k holds prev e new err :
  ddb_inv (s, n) →
  (∀ t key, (t, key) ≠ (table, (pkClient c, skEdge k)) → dy_item s' t key = dy_item s t key) →
  write_outcome (Some holds) (edge_at s c k) (Some new) (edge_at s' c k) err →
  (holds = true ↔ cas_pre (ddb_edge (s, n) c k) prev) →
  (holds = true → edge_row c k e new ∧ Version e = prev + 1) →
  let r := conditional true false err in
  ddb_inv (s', n') ∧
  (∀ c' k', (c', k') ≠ (c, k) → ddb_edge (s', n') c' k' = ddb_edge (s, n) c' k') ∧
  match r.2, r.1 with
  | None, true =>
      cas_pre (ddb_edge (s, n) c k) prev ∧ ddb_edge (s', n') c k = Some (set_Version 0 e, prev + 1)
  | None, false =>
      ¬ cas_pre (ddb_edge (s, n) c k) prev ∧ ddb_edge (s', n') c k = ddb_edge (s, n) c k
  | Some _, _ =>
      ddb_edge (s', n') c k = ddb_edge (s, n) c k ∨
      (cas_pre (ddb_edge (s, n) c k) prev ∧ ddb_edge (s', n') c k = Some (set_Version 0 e, prev + 1))
  end.
Proof.
  intros Hinv Hf Hout Hpre Hnew.
  assert (edge_at s' c k = edge_at s c k ∨ holds = true ∧ edge_at s' c k = Some new) as Hcase.
  { unfold write_outcome in Hout. destruct err as [err|]; [destruct (errors_As err _)|]; naive_solver. }
  pose proof (edge_at_frame _ _ _ _ Hf) as Hframe. split; [|split].
  - intros c' k' m. simpl. destruct (decide ((c', k') = (c, k))) as [[= -> ->]|Hne].
    + destruct Hcase as [->|[Hh ->]]; [apply Hinv|]. intros [= <-]. exists e. by apply Hnew.
    + rewrite Hframe by done. apply Hinv.
  - intros c' k' Hne. apply ddb_edge_ext. auto.
  - assert (holds = true → edge_at s' c k = Some new →
            ddb_edge (s', n') c k = Some (set_Version 0 e, prev + 1)) as Hdone.
    { intros Hh Hat. destruct (Hnew Hh) as [Hrow <-]. by apply (ddb_edge_row s' n' c k new). }
    pose proof (ddb_edge_ext s s' n n' c k) as Hsame.
    unfold write_outcome, conditional in *. destruct err as [err|]; simpl.
    + destruct (errors_As err _); simpl; [|naive_solver].
      destruct Hout as [[= ->] Hat]. split; [|auto]. intros Hp%Hpre. done.
    + destruct Hout as [[= ->] Hat]. split; [by apply Hpre|auto].
Qed.

Lemma ddb_upsert_contract s c k prev next ok err s' :
  ddb_inv s → ValidString c = true → ValidString k = true →
  edge_typed next → 0 <= prev < int64_max →
  ddb_handler _ (UpsertCAS c k prev next) s = (Some (ok, err), s') →
  ddb_inv s' ∧ (∀ c' k', (c', k') ≠ (c, k) → ddb_edge s' c' k' = ddb_edge s c' k') ∧
  match err, ok with
  | None, true => cas_pre (ddb_edge s c k) prev ∧ ddb_edge s' c k = Some (stored k next, prev + 1)
  | None, false => ¬ cas_pre (ddb_edge s c k) prev ∧ ddb_edge s' c k = ddb_edge s c k
  | Some _, _ =>
      ddb_edge s' c k = ddb_edge s c k ∨
      (cas_pre (ddb_edge s c k) prev ∧ ddb_edge s' c k = Some (stored k next, prev + 1))
  end.
Proof.
  destruct s as [s n]. intros Hinv Hc Hk Hty Hprev.
  unfold ddb_handler, ddb_data, ddb_UpsertCAS. case_decide as Hz.
  - subst prev.
    assert (edge_typed (set_Version 1 (set_ScopeKey k next))) as Hty' by (destruct Hty; by split).
    destruct (marshal_edge c k (set_Version 1 (set_ScopeKey k next)) Hc Hk Hty' eq_refl)
      as (m & -> & Hrow & Htext); [simpl; int_lia|]. prog_simpl.
    destruct (h _ (PutItem table m (Some cond_absent)) s) as [[e|] s1] eqn:Hput; [|done].
    apply (dy_put _ _ _ _ (pkClient c) (skEdge k)) in Hput as [Hf Hout]; [|done|by destruct Hrow].
    intros [= Hr <-]. specialize (Hout _ (cond_absent_eval s n c k Hinv)).
    pose proof (write_contract s s1 n n c k _ 0 (set_Version 1 (set_ScopeKey k next)) m e Hinv Hf Hout) as Hw.
    rewrite Hr in Hw. apply Hw; [|done]. rewrite bool_decide_eq_true. unfold cas_pre.
    destruct (ddb_edge (s, n) c k) as [[? ?]|]; naive_solver.
  - prog_simpl.
    destruct (h _ (UpdateItem _ _ _ _ _ _ _ _) s) as [[e|] s1] eqn:Hup; [|done].
    apply dy_update in Hup as [Hf Hout];
      [|by rewrite ValidString_pkClient|by rewrite ValidString_skEdge|by apply edge_values_text].
    intros [= Hr <-].
    specialize (Hout _ _ (cond_version_eval s n c k prev (set_ScopeKey k next) Hinv ltac:(int_lia))
                     (apply_edge_sets _ _ _)).
    pose proof (write_contract s s1 n n c k _ prev (set_Version (prev + 1) (set_ScopeKey k next)) _ e
                  Hinv Hf Hout) as Hw.
    rewrite Hr in Hw. apply Hw.
    + unfold cas_pre. destruct (ddb_edge (s, n) c k) as [[? v]|]; [rewrite Z.eqb_eq|]; naive_solver.
    + intros Hh. split; [|done]. fold (edge_at s c k).
      destruct (edge_at s c k) as [m|] eqn:Hm;
        [|by rewrite (ddb_edge_None _ _ _ _ Hm) in Hh].
      destruct (Hinv c k m Hm) as [e0 Hrow]. 
      exact (edge_row_update c k e0 m prev next _ Hrow Hty Hprev (apply_edge_sets _ _ _)).
Qed.

Lemma ddb_acquire_contract s scope rate window r s' :
  ddb_inv s → ValidString scope = true →
  ddb_handler _ (Acquire scope rate window) s = (Some r, s') →
  ddb_inv s' ∧ ∀ c k, ddb_edge s' c k = ddb_edge s c k.
Proof.
  destruct s as [s n]. intros Hinv Hs. unfold ddb_handler, ddb_data, ddb_Acquire.
  case_decide as Hr; [by intros [= <- <-]|]. prog_simpl.
  destruct (h _ (UpdateItem _ _ _ _ _ _ _ _) s) as [[e|] s1] eqn:Hup; [|done].
  apply dy_update in Hup as [Hf _].
  - intros [= <- <-].
    assert (∀ c k, edge_at s1 c k = edge_at s c k) as Hat.
    { intros c k. apply Hf. intros Heq. by apply pair_equal_spec in Heq as [_ [Hpk _]%pair_equal_spec]. }
    split; [intros c k m; simpl; rewrite Hat; apply Hinv|intros; by apply ddb_edge_ext].
  - by rewrite ValidString_pkRate.
  - apply valid_utf8_ascii. unfold skRateWin. rewrite !bytes_app, !Forall_app. split_and!.
    + by repeat constructor.
    + by repeat constructor.
    + apply FormatInt_ascii.
  - by repeat apply item_text_insert.
Qed.

#[global] Instance ddb_store : DataStore ddb_handler := {|
  ds_inv := ddb_inv;
  ds_edge := ddb_edge;
  ds_total := ddb_total;
  ds_load := ddb_load_contract;
  ds_upsert := ddb_upsert_contract;
  ds_acquire := ddb_acquire_contract;
|}.

End ddb.
