(* ===== verification/DdbMem.v ===== *)
(** * A concrete DynamoDB and attribute encoder

    Tables kept in memory, and an encoder with the documented shape. They show
    that the laws of [DdbSpec.v] can hold together, and the witnesses of
    [DdbClaims.v] run on them. *)

From S2P Require Import Prelude Errors Strconv Text Types Effects Ports StoreSpec Tags DdbSpec Ddb DdbProps.

(** ** Tables *)

Notation Tables := (gmap (string * (string * string)) item).

Definition failed (code : string) : option error := Some (ServiceError code "").

Definition mem_write (tb : Tables) (key : string * (string * string)) (holds : option bool)
    (new : option item) : option (option error) * Tables :=
  match holds, new with
  | Some true, Some it => (Some None, <[key := it]> tb)
  | Some false, Some _ => (Some (failed ConditionalCheckFailed), tb)
  | _, _ => (Some (failed "ValidationException"), tb)
  end.

Definition mem_ddb : handler DdbE Tables := λ X e tb,
  match e in DdbE X return option X * Tables with
  | GetItem t pk sk _ => (Some (tb !! (t, (pk, sk)), None), tb)
  | PutItem t it c =>
      match item_key it with
      | None => (Some (failed "ValidationException"), tb)
      | Some key =>
          mem_write tb (t, key)
            (match c with None => Some true | Some c => eval_cond ∅ ∅ c (tb !! (t, key)) end) (Some it)
      end
  | UpdateItem t pk sk sets adds names values c =>
      mem_write tb (t, (pk, sk)) (eval_cond names values c (tb !! (t, (pk, sk))))
        (apply_update names values (sets ++ adds) (default (key_item pk sk) (tb !! (t, (pk, sk)))))
  | DeleteItem t pk sk => (Some None, delete (t, (pk, sk)) tb)
  | Query t pk prefix projection =>
      (Some (omap (λ kv, if decide (kv.1.1 = t ∧ kv.1.2.1 = pk ∧ HasPrefix kv.1.2.2 prefix = true)
                         then Some (project projection kv.2) else None) (map_to_list tb), None), tb)
  | CreateTable _ => (Some None, tb)
  | DeleteTable t => (Some None, filter (λ kv, kv.1.1 ≠ t) tb)
  | WaitTableNotExists _ _ => (Some None, tb)
  end.

Definition mem_item (tb : Tables) (t : string) (key : string * string) : option item := tb !! (t, key).

Lemma mem_write_total tb key holds new : ∃ err tb', mem_write tb key holds new = (Some err, tb').
Proof. unfold mem_write. destruct holds as [[]|], new; eauto. Qed.

Lemma mem_write_outcome tb t key holds new err tb' :
  mem_write tb (t, key) holds new = (Some err, tb') →
  (∀ t' key', (t', key') ≠ (t, key) → mem_item tb' t' key' = mem_item tb t' key') ∧
  (∀ b it, holds = Some b → new = Some it →
   write_outcome (Some b) (mem_item tb t key) (Some it) (mem_item tb' t key) err).
Proof.
  unfold mem_write, mem_item. destruct holds as [[]|], new as [it|]; intros [= <- <-];
    (split; [intros t' key' Hne; rewrite ?lookup_insert_ne by congruence; done|]);
    intros b it' [= <-] [= <-]; simpl; [|done].
  by rewrite lookup_insert_eq.
Qed.

#[global, program] Instance mem_dynamo : DynamoDB mem_ddb := {| dy_item := mem_item |}.
Next Obligation.
  intros X [] tb; simpl; eauto.
  - destruct (item_key it); [|eauto]. apply mem_write_total.
  - apply mem_write_total.
Qed.
Next Obligation. intros tb t pk sk it err tb' _ _. simpl. by intros [= <- <- <-]. Qed.
Next Obligation.
  intros tb t it c pk sk err tb' _ Hkey. simpl. rewrite Hkey. intros [Hf Hw]%mem_write_outcome.
  split; [done|]. intros holds Hh. by apply Hw.
Qed.
Next Obligation.
  intros tb t pk sk sets adds names values c err tb' _ _ _. simpl.
  intros [Hf Hw]%mem_write_outcome. split; [done|]. intros holds new Hh Hn. by apply Hw.
Qed.
Next Obligation.
  intros tb t pk sk err tb' _ _. simpl. intros [= <- <-]. unfold mem_item. split.
  - intros t' key' Hne. by rewrite lookup_delete_ne.
  - intros _. apply lookup_delete_eq.
Qed.
Next Obligation.
  intros tb t pk prefix projection its err tb'. simpl. intros [= <- <- <-]. split; [done|].
  intros _ it ([[t' [pk' sk]] it'] & Hin & Hit)%list_elem_of_omap. simpl in Hit.
  case_decide as Hd; [|done]. destruct Hd as (-> & -> & Hp). exists sk, it'.
  apply elem_of_map_to_list in Hin. injection Hit as <-. done.
Qed.

(** ** The encoder *)

Fixpoint mem_marshal (v : goval) : AttributeValue :=
  match v with
  | GoString s => AVS s
  | GoInt z => AVN (FormatInt z)
  | GoBool b => AVBOOL b
  | GoNil => AVNULL
  | GoSlice l => AVL (map mem_marshal l)
  | GoStruct fs => AVM (map (λ '(k, v), (k, mem_marshal v)) fs)
  end.

Fixpoint mem_marshal_map (fields : list (string * goval)) : item :=
  match fields with
  | [] => ∅
  | (k, v) :: fields => <[k := mem_marshal v]> (mem_marshal_map fields)
  end.

(** The attribute of a field, at the type of the field. *)
Definition get_s (m : item) (k : string) : option string :=
  match m !! k with Some (AVS s) => Some s | _ => None end.
Definition get_n (m : item) (k : string) : option Z := m !! k ≫= num.
Definition get_b (m : item) (k : string) : option bool :=
  match m !! k with Some (AVBOOL b) => Some b | _ => None end.
Definition get_l (m : item) (k : string) : option (list AttributeValue) :=
  match m !! k with Some (AVL l) => Some l | Some AVNULL => Some [] | _ => None end.
Definition get_m (m : item) (k : string) : option item :=
  match m !! k with Some (AVM l) => Some (list_to_map l) | _ => None end.

Definition av_str (v : AttributeValue) : option string := match v with AVS s => Some s | _ => None end.

Definition mem_flip (m : item) : option Flip :=
  a ← get_n m "at"; f ← get_s m "from"; t ← get_s m "to"; p ← get_s m "payload"; Some (mkFlip a f t p).

Definition av_flip (v : AttributeValue) : option Flip :=
  match v with AVM l => mem_flip (list_to_map l) | _ => None end.

Definition mem_unmarshal_edge (m : item) : option Edge :=
  sc ← get_s m "scope_key"; lv ← get_s m "last_value"; lc ← get_n m "last_change_ts";
  ws ← get_n m "window_start"; fc ← get_n m "flip_count"; l ← get_l m "recent";
  rs ← mapM av_flip l; au ← get_n m "agg_until_ts"; ver ← get_n m "ver";
  Some (mkEdge sc lv lc ws fc rs au ver).

Definition mem_flap (m : item) : option FlapConfig :=
  w ← get_n m "window_seconds"; s ← get_n m "suppress_below"; a ← get_n m "aggregate_at";
  i ← get_n m "aggregate_max_items"; c ← get_n m "aggregate_cooldown_seconds";
  Some (mkFlapConfig w s a i c).

Definition mem_flapping (m : item) : option (option FlapConfig) :=
  match m !! "flapping" with
  | Some AVNULL => Some None
  | _ => fm ← get_m m "flapping"; f ← mem_flap fm; Some (Some f)
  end.

Definition mem_trigger (m : item) : option TriggerConfig :=
  f ← get_s m "field"; l ← get_l m "scope_fields"; scope ← mapM av_str l;
  tm ← get_m m "target"; arn ← get_s tm "sns_arn"; rpm ← get_n tm "rate_per_minute";
  fl ← mem_flapping m; Some (mkTriggerConfig f scope (mkTargetConfig arn rpm) fl).

Definition mem_unmarshal_config (m : item) : option ClientConfig :=
  id ← get_s m "client_id"; name ← get_s m "client_name"; key ← get_s m "client_key";
  ip ← get_n m "ip_rpm"; cl ← get_n m "client_rpm";
  pm ← get_m m "passthrough"; pf ← get_s pm "field"; neg ← get_b pm "not_match";
  tm ← get_m m "trigger"; tr ← mem_trigger tm;
  Some (mkClientConfig id name key ip cl (mkPassthrough pf neg) tr).

Definition or_error {A} (o : option A) : A + error :=
  match o with Some a => inl a | None => inr (Errorf "unmarshal") end.

#[global] Instance memAttr : AttrLib := {|
  av_Marshal := λ v, inl (mem_marshal v);
  av_MarshalMap := λ fields, inl (mem_marshal_map fields);
  av_UnmarshalEdge := λ m, or_error (mem_unmarshal_edge m);
  av_UnmarshalPK := λ m, or_error (get_s m "PK");
  av_UnmarshalConfig := λ m, or_error (mem_unmarshal_config m);
|}.

(** *** Reading the attributes of typed fields *)

Section fields.
Context (fs : list (string * goval)) (m : item).
Context (Hty : go_typed (GoStruct fs) = true) (Hm : has_attrs fs m).

Lemma field_s k s : (k, GoString s) ∈ fs → get_s m k = Some s.
Proof using Hm. intros Hin. unfold get_s. by destruct (Hm _ _ Hin) as (a & -> & ->). Qed.

Lemma field_b k b : (k, GoBool b) ∈ fs → get_b m k = Some b.
Proof using Hm. intros Hin. unfold get_b. by destruct (Hm _ _ Hin) as (a & -> & ->). Qed.

Lemma field_n k z : (k, GoInt z) ∈ fs → get_n m k = Some z.
Proof using Hm Hty.
  intros Hin. unfold get_n. destruct (Hm _ _ Hin) as (a & -> & ->). simpl.
  pose proof (typed_field _ _ _ Hty Hin) as Hz. simpl in Hz. apply bool_decide_eq_true in Hz.
  by rewrite ParseInt_FormatInt.
Qed.

Lemma field_l k l : (k, GoSlice l) ∈ fs → ∃ l', get_l m k = Some l' ∧ Forall2 encodes l l'.
Proof using Hm.
  intros Hin. unfold get_l. destruct (Hm _ _ Hin) as (a & -> & [[-> ->]|(l' & -> & Hl)]); [by exists []|].
  exists l'. split; [done|]. clear Hin. revert l' Hl. induction l as [|v l IH]; intros [|a l'] Hl; try done.
  destruct Hl. constructor; auto.
Qed.

End fields.

Lemma encodes_struct fs a :
  go_typed (GoStruct fs) = true → encodes (GoStruct fs) a → ∃ l, a = AVM l ∧ has_attrs fs (list_to_map l).
Proof.
  simpl. intros [Hnd%bool_decide_eq_true _]%andb_true_iff (l & -> & Hl). exists l. split; [done|].
  revert l Hl. induction fs as [|[k v] fs IH]; intros [|[k' a] l] Hl; try done; [apply has_attrs_nil|].
  apply NoDup_cons in Hnd as [Hk Hnd]. destruct Hl as (<- & Ha & Hl). apply has_attrs_cons. simpl.
  split; [exists a; by rewrite lookup_insert_eq|]. intros k' v' Hin.
  rewrite lookup_insert_ne; [by apply (IH Hnd l Hl)|]. intros <-. apply Hk. by apply (list_elem_of_fmap_2 fst) in Hin.
Qed.

Lemma field_m fs m k fs' :
  go_typed (GoStruct fs) = true → has_attrs fs m → (k, GoStruct fs') ∈ fs →
  ∃ m', get_m m k = Some m' ∧ has_attrs fs' m' ∧ go_typed (GoStruct fs') = true.
Proof.
  intros Hty Hm Hin. unfold get_m. destruct (Hm _ _ Hin) as (a & -> & Ha).
  pose proof (typed_field _ _ _ Hty Hin) as Hty'. destruct (encodes_struct _ _ Hty' Ha) as (l & -> & Hl). eauto.
Qed.

(** Reads the fields of a decoder one by one. *)
Ltac read_fields Hty Hm :=
  repeat first
    [ erewrite (field_s _ _ Hm) by in_list
    | erewrite (field_n _ _ Hty Hm) by in_list
    | erewrite (field_b _ _ Hm) by in_list ];
  cbn [mbind option_bind].

Lemma mem_flip_attrs r m :
  go_typed (GoStruct (flip_attrs r)) = true → has_attrs (flip_attrs r) m → mem_flip m = Some r.
Proof. intros Hty Hm. unfold mem_flip. read_fields Hty Hm. by destruct r. Qed.

Lemma mem_flap_attrs f m :
  go_typed (GoStruct (flap_fields f)) = true → has_attrs (flap_fields f) m → mem_flap m = Some f.
Proof. intros Hty Hm. unfold mem_flap. read_fields Hty Hm. by destruct f. Qed.

Lemma mapM_flips rs l :
  go_typed (go_flips rs) = true → Forall2 encodes ((λ r, GoStruct (flip_attrs r)) <$> rs) l → mapM av_flip l = Some rs.
Proof.
  revert l. induction rs as [|r rs IH]; intros l Hty Hl; inversion Hl as [|? a ? l' Ha Hl']; subst; [done|].
  unfold go_flips in Hty. rewrite fmap_cons in Hty. cbn [go_typed forallb] in Hty.
  apply andb_true_iff in Hty as [Hr Hrs]. destruct (encodes_struct _ _ Hr Ha) as (fl & -> & Hfl).
  simpl. rewrite (mem_flip_attrs r _ Hr Hfl). simpl. by rewrite (IH l' Hrs Hl').
Qed.

Lemma mapM_texts ss l : Forall2 encodes (GoString <$> ss) l → mapM av_str l = Some ss.
Proof.
  revert l. induction ss as [|s ss IH]; intros l Hl; inversion Hl as [|? a ? l' Ha Hl']; subst; [done|].
  simpl in Ha. subst a. simpl. by rewrite (IH l' Hl').
Qed.

Lemma mem_edge_attrs e m :
  go_typed (GoStruct (edge_attrs e)) = true → has_attrs (edge_attrs e) m → mem_unmarshal_edge m = Some e.
Proof.
  intros Hty Hm. unfold mem_unmarshal_edge. read_fields Hty Hm.
  destruct (field_l _ _ Hm "recent" ((λ r, GoStruct (flip_attrs r)) <$> Recent e)) as (l & -> & Hl); [in_list|].
  pose proof (typed_field _ "recent" (go_flips (Recent e)) Hty ltac:(in_list)) as Hrs.
  cbn [mbind option_bind]. rewrite (mapM_flips _ _ Hrs Hl). read_fields Hty Hm. by destruct e.
Qed.

Lemma mem_flapping_attrs t m :
  go_typed (GoStruct (trigger_attrs t)) = true → has_attrs (trigger_attrs t) m → mem_flapping m = Some (Flapping t).
Proof.
  intros Hty Hm. unfold mem_flapping.
  assert (("flapping", go_pointer flap_fields (Flapping t)) ∈ trigger_attrs t) as Hin by in_list.
  destruct (Flapping t) as [f|]; simpl in Hin.
  - destruct (field_m _ _ _ _ Hty Hm Hin) as (fm & Hget & Hfm & Hft).
    rewrite Hget. cbn [mbind option_bind]. rewrite (mem_flap_attrs _ _ Hft Hfm).
    destruct (Hm _ _ Hin) as (a & -> & l & -> & _). done.
  - by destruct (Hm _ _ Hin) as (a & -> & ->).
Qed.

Lemma mem_trigger_attrs t m :
  go_typed (GoStruct (trigger_attrs t)) = true → has_attrs (trigger_attrs t) m → mem_trigger m = Some t.
Proof.
  intros Hty Hm. unfold mem_trigger. read_fields Hty Hm.
  destruct (field_l _ _ Hm "scope_fields" (GoString <$> ScopeFields t)) as (l & -> & Hl); [in_list|].
  destruct (field_m _ _ "target" (target_attrs (Target t)) Hty Hm) as (tm & -> & Htm & Htt); [in_list|].
  cbn [mbind option_bind]. rewrite (mapM_texts _ _ Hl). read_fields Htt Htm.
  rewrite (mem_flapping_attrs t m Hty Hm). by destruct t as [? ? [? ?] ?].
Qed.

Lemma mem_config_attrs c m :
  go_typed (GoStruct (config_attrs c)) = true → has_attrs (config_attrs c) m → mem_unmarshal_config m = Some c.
Proof.
  intros Hty Hm. unfold mem_unmarshal_config. read_fields Hty Hm.
  destruct (field_m _ _ "passthrough" (passthrough_attrs (cc_Passthrough c)) Hty Hm) as (pm & -> & Hpm & Hpt); [in_list|].
  destruct (field_m _ _ "trigger" (trigger_attrs (Trigger c)) Hty Hm) as (tm & -> & Htm & Htt); [in_list|].
  cbn [mbind option_bind]. read_fields Hpt Hpm. rewrite (mem_trigger_attrs _ _ Htt Htm).
  by destruct c as [? ? ? ? ? [? ?] ?].
Qed.

Lemma mem_encodes v : encodes v (mem_marshal v).
Proof.
  induction v as [s|z|b| |l IH|fs IH] using goval_nested_ind; simpl; try done.
  - right. eexists. split; [done|]. induction IH; simpl; auto.
  - eexists. split; [done|]. induction IH as [|[k v] fs Hv _ IHfs]; simpl; auto.
Qed.

#[global, program] Instance memAttrLaws : AttrLaws.
Next Obligation. intros v _. eexists. split; [done|]. apply mem_encodes. Qed.
Next Obligation. intros fields. simpl. induction fields as [|[k v] fields IH]; [done|]. simpl. by rewrite <- IH. Qed.
Next Obligation. intros e m Hty Hm. simpl. by rewrite (mem_edge_attrs e). Qed.
Next Obligation. intros c m Hty Hm. simpl. by rewrite (mem_config_attrs c). Qed.
