(* ===== verification/DdbRate.v ===== *)
(** * The rate limit of the DynamoDB store

    The count of a scope and minute is one item, changed by one conditional
    update per acquire, so the capacity holds for any interleaving of any number
    of processes. *)

From S2P Require Import Prelude Errors Strconv Text Types Effects Ports StoreSpec Tags DdbSpec Ddb DdbProps.

Section rate.
Context {St : Type} (h : handler DdbE St) `{!DynamoDB h}.
Context (table scope : string) (cap : Z).

(** The item of a window holds the count [n]. *)
Definition counts (it : option item) (n : Z) : Prop :=
  match it with
  | None => n = 0
  | Some it => it !! "count" = Some (AVN (FormatInt n))
  end.

Definition rate_at (s : St) (m : Z) : option item := dy_item s table (pkRate scope, skRateWin m).

Lemma rate_cond it n ttl :
  counts it n → is_int64 n → is_int64 cap → 0 < cap →
  eval_cond rate_names (rate_values ttl cap) cond_capacity it = Some (n <? cap).
Proof.
  intros Hc Hn Hcap Hpos. simpl. unfold compare_num, attr.
  change (resolve rate_names "#count") with "count".
  destruct it as [it|]; simpl in *.
  - rewrite Hc. simpl. change (rate_values ttl cap !! ":cap") with (Some (AVN (itoa cap))). simpl.
    unfold itoa. by rewrite !ParseInt_FormatInt by done.
  - subst n. symmetry. f_equal. by apply Z.ltb_lt.
Qed.

Lemma rate_update it n ttl pk sk :
  counts it n → is_int64 n →
  ∃ new, apply_update rate_names (rate_values ttl cap) (rate_sets ++ rate_adds) (default (key_item pk sk) it) =
           Some new ∧ counts (Some new) (n + 1).
Proof.
  intros Hc Hn. simpl. change (rate_values ttl cap !! ":ttl") with (Some (AVN (itoa ttl))). simpl.
  change (rate_values ttl cap !! ":one") with (Some (AVN "1")). simpl.
  change (resolve rate_names "#ttl") with "ttl". change (resolve rate_names "#count") with "count".
  rewrite lookup_insert_ne by done. destruct it as [it|]; simpl in *.
  - rewrite Hc. simpl. rewrite ParseInt_FormatInt by done. simpl.
    eexists. split; [done|]. by rewrite lookup_insert_eq.
  - subst n. change (key_item pk sk !! "count") with (@None AttributeValue). simpl.
    eexists. split; [done|]. by rewrite lookup_insert_eq.
Qed.

(** One update of the window's item, whatever its outcome: the count goes up
    exactly when it was below the capacity and the update took place. *)
Lemma rate_write s m n ttl err s' :
  ValidString scope = true → is_int64 cap → 0 < cap → counts (rate_at s m) n → 0 <= n <= cap →
  h _ (UpdateItem table (pkRate scope) (skRateWin m) rate_sets rate_adds rate_names
         (rate_values ttl cap) cond_capacity) s = (Some err, s') →
  match conditional true false err with
  | (true, None) => n < cap ∧ counts (rate_at s' m) (n + 1)
  | (false, None) => n = cap ∧ counts (rate_at s' m) n
  | (_, Some _) => counts (rate_at s' m) n ∨ (n < cap ∧ counts (rate_at s' m) (n + 1))
  end.
Proof.
  intros Hs Hcap Hpos Hc Hn Hup. assert (is_int64 n) as Hn' by (unfold is_int64 in *; int_lia).
  apply dy_update in Hup as [_ Hout].
  - destruct (rate_update _ _ ttl (pkRate scope) (skRateWin m) Hc Hn') as (new & Hnew & Hc').
    specialize (Hout _ _ (rate_cond _ _ ttl Hc Hn' Hcap Hpos) Hnew). fold (rate_at s m) (rate_at s' m) in Hout.
    unfold write_outcome, conditional in *. destruct err as [err|]; [destruct (errors_As err _)|].
    + destruct Hout as [[= Hlt] ->]. apply Z.ltb_ge in Hlt. split; [lia|done].
    + destruct Hout as [->|[[= Hlt] ->]]; [by left|]. apply Z.ltb_lt in Hlt. by right.
    + destruct Hout as [[= Hlt] ->]. apply Z.ltb_lt in Hlt. done.
  - by rewrite ValidString_pkRate.
  - apply valid_utf8_ascii. unfold skRateWin. rewrite !bytes_app, !Forall_app.
    split_and!; [by repeat constructor..|apply FormatInt_ascii].
  - by repeat apply item_text_insert.
Qed.

(** ** Any number of concurrent acquires *)

Context (clock : nat → Z) (m : Z).

Definition is_granted (p : prog BackE (bool * option error)) : bool :=
  match p with Ret (true, None) => true | _ => false end.

(** The programs an acquire of this scope in the minute [m] runs through. *)
Fixpoint acquiring (p : prog BackE (bool * option error)) : Prop :=
  match p with
  | Ret _ => True
  | Panic => False
  | Vis e k =>
      match e in BackE X return (X → prog BackE (bool * option error)) → (X → Prop) → Prop with
      | nowE => λ k rest, ∀ t, epoch_minute t = m → is_granted (k t) = false ∧ rest t
      | fatalE _ _ => λ _ _, False
      | ddbE e =>
          match e in DdbE X return (X → prog BackE (bool * option error)) → (X → Prop) → Prop with
          | UpdateItem t pk sk sets adds names values c => λ k _,
              (t, pk, sk) = (table, pkRate scope, skRateWin m) ∧
              (sets, adds, names, c) = (rate_sets, rate_adds, rate_names, cond_capacity) ∧
              (∃ ttl, values = rate_values ttl cap) ∧
              ∀ err, k err = Ret (conditional true false err)
          | _ => λ _ _, False
          end
      end k (λ x, acquiring (k x))
  end.

Lemma Acquire_acquiring window : 0 < cap → acquiring (ddb_Acquire table scope cap window).
Proof.
  intros Hcap. unfold ddb_Acquire. rewrite decide_False by lia. prog_simpl.
  intros t <-. split; [done|]. intros t' _. split_and!; eauto.
Qed.

Record rate_inv (c : list (prog BackE (bool * option error)) * (St * nat)) : Prop := {
  ri_threads : Forall acquiring c.1;
  ri_count : ∃ n, counts (rate_at c.2.1 m) n ∧ 0 <= tally is_granted c.1 <= n ∧ n <= cap;
}.

Lemma rate_inv_step c c' :
  ValidString scope = true → is_int64 cap → 0 < cap → (∀ i, epoch_minute (clock i) = m) →
  pool_step (back_handler h clock) c c' → rate_inv c → rate_inv c'.
Proof.
  intros Hs Hcap Hpos Hclock Hstep [Hth (n & Hc & Hg & Hn)].
  destruct Hstep as [i X e k ps [s j] x s' Hi Hh|i X e k ps [s j] s' Hi Hh];
    pose proof (Forall_lookup_1 _ _ _ _ Hth Hi) as Ha; simpl in Ha;
    (destruct e as [Y e| |]; [destruct e; try done|..]); simpl in *; try done.
  - destruct Ha as ([= -> -> ->] & [= -> -> -> ->] & [ttl ->] & Hk).
    destruct (h _ _ s) as [[err|] s1] eqn:Hup; simplify_eq.
    pose proof (rate_write s m n ttl _ s1 Hs Hcap Hpos Hc ltac:(lia) Hup) as Hw.
    rewrite Hk. split; simpl; [by apply Forall_insert|].
    pose proof (tally_insert is_granted ps i _ (Ret (conditional true false x)) Hi) as Hgr. simpl in Hgr.
    assert (0 <= tally is_granted (<[i := Ret (conditional true false x)]> ps)) by apply tally_nonneg.
    destruct (conditional true false x) as [[] [?|]]; simpl in Hgr;
      [destruct Hw as [Hw|[? Hw]]| |destruct Hw as [Hw|[? Hw]]|]; try destruct Hw as [? Hw];
      eexists; (split; [exact Hw|lia]).
  - simplify_eq. destruct (Ha (clock j) (Hclock j)) as [Hng Hk]. split; simpl; [by apply Forall_insert|].
    exists n. split; [done|]. rewrite (tally_insert is_granted ps i _ _ Hi), Hng. simpl. lia.
  - destruct (dy_total _ (UpdateItem table0 pk sk sets adds names values c) s) as (r & s1 & Hr).
    by rewrite Hr in Hh.
Qed.

Lemma rate_inv_steps c c' :
  ValidString scope = true → is_int64 cap → 0 < cap → (∀ i, epoch_minute (clock i) = m) →
  rtc (pool_step (back_handler h clock)) c c' → rate_inv c → rate_inv c'.
Proof.
  intros Hs Hcap Hpos Hclock. induction 1 as [|c1 c2 c3 Hstep _ IH]; [done|].
  intros Hc. apply IH. by eapply rate_inv_step.
Qed.

(** C4: the capacity of a rate limit holds under any interleaving: of any number of
    processes that acquire a slot of one scope in the same minute, each of their
    steps taken in any order, at most [cap] are granted one, even when updates
    fail with errors. *)
Theorem ddb_rate_capacity windows s j ps' s' :
  ValidString scope = true → is_int64 cap → 0 < cap → (∀ i, epoch_minute (clock i) = m) →
  rate_at s m = None →
  rtc (pool_step (back_handler h clock)) (ddb_Acquire table scope cap <$> windows, (s, j)) (ps', s') →
  tally is_granted ps' <= cap.
Proof.
  intros Hs Hcap Hpos Hclock Hempty Hsteps.
  apply rate_inv_steps in Hsteps as [_ (n & _ & Hg & Hn)]; simpl in *; [lia|done..|].
  split; simpl.
  - apply Forall_fmap, Forall_true. intros w. by apply Acquire_acquiring.
  - exists 0. rewrite Hempty, tally_none; [split; [done|lia]|].
    apply Forall_fmap, Forall_true. intros w. unfold ddb_Acquire. simpl. by rewrite decide_False by lia.
Qed.

End rate.
