(* ===== verification/DdbClaims.v ===== *)
(** * Properties of the DynamoDB stores *)

From S2P Require Import Prelude Errors Strconv Text Types Effects Ports StoreSpec Tags DdbSpec Ddb DdbProps DdbMem DdbRate.

Section claims.
Context {St : Type} (h : handler DdbE St) `{!DynamoDB h} `{!AttrLib} `{!AttrLaws}.
Context (table : string) (clock : nat → Z).

#[local] Notation data := (ddb_handler h table clock).
#[local] Notation edge := (ddb_edge h table).
#[local] Notation inv := (ddb_inv h table).

(** C8: [UpsertCAS] is the compare-and-set its interface asks for: it commits
    exactly when the stored version is the one given (when nothing is stored, for
    version 0), then the edge is stored with the next version; otherwise, and for
    all other scopes, nothing changes. After an I/O error the write has happened
    completely or not at all. *)
Theorem ddb_upsert_is_cas s c k prev next ok err s' :
  inv s → ValidString c = true → ValidString k = true →
  edge_typed next → 0 <= prev < int64_max →
  data _ (UpsertCAS c k prev next) s = (Some (ok, err), s') →
  inv s' ∧ (∀ c' k', (c', k') ≠ (c, k) → edge s' c' k' = edge s c' k') ∧
  match err, ok with
  | None, true => cas_pre (edge s c k) prev ∧ edge s' c k = Some (stored k next, prev + 1)
  | None, false => ¬ cas_pre (edge s c k) prev ∧ edge s' c k = edge s c k
  | Some _, _ =>
      edge s' c k = edge s c k ∨
      (cas_pre (edge s c k) prev ∧ edge s' c k = Some (stored k next, prev + 1))
  end.
Proof. intros. by eapply ddb_upsert_contract. Qed.

(** C24: what was written is what is read: after a committed [UpsertCAS], a [Load]
    that does not fail returns the edge, under its scope key and with the version
    one on. *)
Theorem ddb_load_after_upsert s c k prev next s1 st ver s2 :
  inv s → ValidString c = true → ValidString k = true →
  edge_typed next → 0 <= prev < int64_max →
  data _ (UpsertCAS c k prev next) s = (Some (true, None), s1) →
  data _ (Load c k) s1 = (Some (st, ver, None), s2) →
  ver = prev + 1 ∧ option_map (set_Version 0) st = Some (stored k next).
Proof.
  intros Hinv Hc Hk Hty Hprev Hup Hload.
  apply (ddb_upsert_contract h) in Hup as (Hinv1 & _ & _ & He); try done.
  apply (ddb_load_contract h) in Hload as (_ & _ & Hst); try done. specialize (Hst eq_refl).
  destruct st as [e|]; destruct Hst as [Hst Hver]; rewrite He in Hst; simplify_eq. split; [done|]. simpl. congruence.
Qed.

(** The client store. *)
#[local] Notation client p s := (run (back_handler h clock) p s).

Definition profile_at (s : St) (id : string) : option item := dy_item s table (pkClient id, skProfile).

(** The edges and the profiles of a table are different items. *)
Lemma profile_edge_apart c k id : (pkClient c, skEdge k) ≠ (pkClient id, skProfile).
Proof. intros Heq. by apply pair_equal_spec in Heq as [_ Hsk]. Qed.

(** What [GetClientConfig] returns when its request fails: the error of the
    service, and no configuration. *)
Definition get_failed (s : St) (id : string) (cc : ClientConfig) (err : option error) : Prop :=
  ∃ it e s', h _ (GetItem table (pkClient id) skProfile true) s = (Some (it, Some e), s') ∧
             err = Some e ∧ cc = zeroClientConfig.

Lemma marshal_profile id cc :
  config_typed cc → ValidString id = true →
  ∃ m, av_MarshalMap (profile_fields (pkClient id) skProfile cc) = inl m ∧ item_text m ∧
       item_key m = Some (pkClient id, skProfile) ∧ av_UnmarshalConfig m = inl cc.
Proof.
  intros Hty%config_attrs_typed Hid.
  destruct (marshal_map_typed (profile_fields (pkClient id) skProfile cc)) as (m & -> & Hm & Htext).
  { apply go_typed_struct; [reflexivity|]. do 2 (apply Forall_cons; split; [by simpl; rewrite ?ValidString_pkClient|]).
    apply Forall_forall. intros [k v]. by apply typed_field. }
  exists m. split_and!; [done|done|by apply (has_attrs_key _ _ _ _ Hm); in_list|].
  apply av_config; [done|]. eapply has_attrs_subseteq; [|done]. intros x Hx. by do 2 right.
Qed.

(** C25: a stored configuration is returned as it was stored: after a successful
    [PutClientConfig], which only accepts valid configurations, [GetClientConfig]
    gives it back, unless the service itself fails the read, whose error is then
    returned; the configurations of other clients and all edge states are
    untouched. *)
Theorem ddb_config_roundtrip s n id cc s1 n1 cc' err s2 n2 :
  config_typed cc → ValidString id = true →
  client (ddb_PutClientConfig table id cc) (s, n) = (Some None, (s1, n1)) →
  client (ddb_GetClientConfig table id) (s1, n1) = (Some (cc', err), (s2, n2)) →
  valid_config cc ∧ ((cc', err) = (cc, None) ∨ get_failed s1 id cc' err) ∧
  (∀ id', id' ≠ id → profile_at s1 id' = profile_at s id') ∧
  (∀ c k, edge_at h table s1 c k = edge_at h table s c k).
Proof.
  intros Hty Hid. unfold ddb_PutClientConfig.
  destruct (Validate cc) as [e|] eqn:Hval; [done|]. apply Validate_valid in Hval.
  destruct (marshal_profile id cc Hty Hid) as (m & -> & Htext & Hkey & Hun). simpl.
  destruct (h _ (PutItem table m None) s) as [[e|] s'] eqn:Hput; [|done]. intros [= -> -> ->].
  apply (dy_put _ _ _ _ (pkClient id) skProfile) in Hput as [Hframe Hout]; [|done..].
  destruct (Hout true eq_refl) as [_ Hnow]. unfold ddb_GetClientConfig. simpl.
  destruct (h _ (GetItem table (pkClient id) skProfile true) s1) as [[[it e]|] s3] eqn:Hget; [|done].
  pose proof Hget as Hget'. apply dy_get in Hget' as [_ Hit]; [|by rewrite ValidString_pkClient|done].
  intros Hres. split; [done|]. split; [|split].
  - destruct e as [e|]; [right; simplify_eq/=; unfold get_failed; eauto 10|].
    rewrite (Hit eq_refl), Hnow, Hun in Hres. simplify_eq/=. by left.
  - intros id' Hne. apply Hframe. intros Heq. apply Hne.
    by apply pair_equal_spec in Heq as [_ [Heq%pkClient_inj _]%pair_equal_spec].
  - intros c k. apply Hframe. intros Heq. apply pair_equal_spec in Heq as [_ Heq].
    by apply profile_edge_apart in Heq.
Qed.

(** An unknown client is reported with [ErrNotFound], as the interface asks,
    and so is a client whose configuration was deleted. *)
Lemma ddb_deleted_not_found s n id s1 n1 cc' err s2 n2 :
  ValidString id = true →
  client (ddb_DeleteClientConfig table id) (s, n) = (Some None, (s1, n1)) →
  client (ddb_GetClientConfig table id) (s1, n1) = (Some (cc', err), (s2, n2)) →
  cc' = zeroClientConfig ∧
  (err = Some (Sentinel ErrNotFound) ∨
   ∃ it e s3, h _ (GetItem table (pkClient id) skProfile true) s1 = (Some (it, Some e), s3) ∧ err = Some e).
Proof.
  intros Hid. unfold ddb_DeleteClientConfig. simpl.
  destruct (h _ (DeleteItem table (pkClient id) skProfile) s) as [[e|] s'] eqn:Hdel; [|done].
  intros [= -> -> ->]. apply dy_delete in Hdel as [_ Hnone]; [|by rewrite ValidString_pkClient|done].
  specialize (Hnone eq_refl). unfold ddb_GetClientConfig. simpl.
  destruct (h _ (GetItem table (pkClient id) skProfile true) s1) as [[[it e]|] s3] eqn:Hget; [|done].
  pose proof Hget as Hget'. apply dy_get in Hget' as [_ Hit]; [|by rewrite ValidString_pkClient|done].
  destruct e as [e|]; intros Hres.
  - simplify_eq/=. split; [done|]. right. eauto.
  - rewrite (Hit eq_refl), Hnone in Hres. simplify_eq/=. auto.
Qed.

(** The row of a notification hash. *)
Definition dedup_at (s : St) (c hash : string) : option item := dy_item s table (pkClient c, skDedup hash).

Lemma ValidString_skDedup hash : ValidString (skDedup hash) = ValidString hash.
Proof. unfold skDedup. rewrite <- string_app_assoc. by apply ValidString_app_ascii. Qed.

Lemma marshal_dedup c hash z :
  is_int64 z → ValidString c = true → ValidString hash = true →
  ∃ m, av_MarshalMap (dedup_fields (mkDedupItem (pkClient c) (skDedup hash) z)) = inl m ∧
       item_text m ∧ item_key m = Some (pkClient c, skDedup hash).
Proof.
  intros Hz Hc Hh.
  destruct (marshal_map_typed (dedup_fields (mkDedupItem (pkClient c) (skDedup hash) z))) as (m & -> & Hm & Htext).
  { go_typed_tac. }
  exists m. split_and!; [done|done|]. by apply (has_attrs_key _ _ _ _ Hm); in_list.
Qed.

(** The rows of a table have their key attributes. *)
Definition keyed (s : St) : Prop :=
  ∀ key it, dy_item s table key = Some it → is_Some (it !! "PK").

Lemma cond_absent_row (o : option item) :
  (∀ it, o = Some it → is_Some (it !! "PK")) → eval_cond ∅ ∅ cond_absent o = Some (bool_decide (o = None)).
Proof.
  intros Ho. destruct o as [it|]; [|done]. destruct (Ho it eq_refl) as [v Hv].
  unfold cond_absent, eval_cond, attr, resolve. simpl. rewrite !lookup_empty. simpl. by rewrite Hv.
Qed.

(** C39: a notification is suppressed exactly when its hash has a row: [Suppress]
    answers false and writes the row when there is none, and true without changing
    anything when there is one, even if the time in its [ttl] is over: the window
    ends when the service gets round to deleting the row. Other rows are never
    touched, and after an I/O error the row is there completely or not at all. *)
Theorem ddb_suppress_while_row s n c hash window sup err s' :
  keyed s → ValidString c = true → ValidString hash = true → is_int64 (Unix (clock n + window)) →
  client (Suppress table c hash window) (s, n) = (Some (sup, err), s') →
  (∀ t key, (t, key) ≠ (table, (pkClient c, skDedup hash)) → dy_item s'.1 t key = dy_item s t key) ∧
  match err with
  | None => sup = bool_decide (dedup_at s c hash ≠ None) ∧ dedup_at s'.1 c hash ≠ None ∧
            (sup = true → dedup_at s'.1 c hash = dedup_at s c hash)
  | Some _ => sup = false ∧ (dedup_at s c hash ≠ None → dedup_at s'.1 c hash = dedup_at s c hash)
  end.
Proof.
  intros Hkey Hc Hh Hz. unfold Suppress. prog_simpl.
  destruct (marshal_dedup c hash (Unix (clock n + window)) Hz Hc Hh) as (m & -> & Htext & Hmk). prog_simpl.
  destruct (h _ (PutItem table m (Some cond_absent)) s) as [[e|] s1] eqn:Hput; [|done].
  apply (dy_put _ _ _ _ (pkClient c) (skDedup hash)) in Hput as [Hf Hout]; [|done..].
  specialize (Hout _ (cond_absent_row _ (Hkey (pkClient c, skDedup hash)))).
  intros [= Hr <-]. split; [done|]. fold (dedup_at s c hash) in Hout. fold (dedup_at s1 c hash) in Hout. simpl.
  unfold write_outcome, conditional in *. destruct e as [e|].
  - destruct (errors_As e _); simplify_eq/=.
    + destruct Hout as [Hb ->]. injection Hb as Hsome%bool_decide_eq_false. by rewrite bool_decide_true.
    + split; [done|]. intros Hsome. destruct Hout as [->|[Hb _]]; [done|].
      by injection Hb as ?%bool_decide_eq_true.
  - destruct Hout as [Hb Hnow]. injection Hb as Hnone%bool_decide_eq_true. simplify_eq/=. rewrite Hnone.
    split; [done|]. split; [by rewrite Hnow|done].
Qed.

(** The keys the two stores write. *)
Inductive own_key : string * string → Prop :=
| own_profile id : own_key (pkClient id, skProfile)
| own_edge c k : own_key (pkClient c, skEdge k)
| own_dedup c hash : own_key (pkClient c, skDedup hash)
| own_rate scope m : own_key (pkRate scope, skRateWin m).

(** C40: [ListClients] never finds a client: on a table that holds only items of
    these stores, however many profiles there are, it returns the empty list
    (it queries the partition [CLIENT#] for sort keys [PROFILE#...], while
    profiles are at [CLIENT#id], [PROFILE]). *)
Theorem ddb_list_clients_empty s n ids err s' :
  (∀ key, is_Some (dy_item s table key) → own_key key) →
  client (ddb_ListClients table) (s, n) = (Some (ids, err), s') → ids = [].
Proof.
  intros Hown. unfold ddb_ListClients. simpl.
  destruct (h _ (Query table "CLIENT#" "PROFILE#" ["PK"]) s) as [[[its e]|] s1] eqn:Hq; [|done].
  apply dy_query in Hq as [_ Hits]. destruct e as [e|]; [by intros [= <- _ _]|].
  destruct its as [|it its]; [by intros [= <- _ _]|].
  destruct (Hits eq_refl it) as (sk & m & Hprefix & Hsome & _); [by left|]. exfalso.
  apply mk_is_Some, Hown in Hsome. inversion Hsome; subst; discriminate Hprefix.
Qed.

End claims.

(** ** Witnesses *)

Definition demo_ddb : handler DataStoreE (Tables * nat) := ddb_handler mem_ddb "enoti" (λ _, 0).

Definition demo_next : Edge := mkEdge "" "b" 5 5 0 [mkFlip 5 "a" "b" "p"] 0 0.

Lemma demo_next_typed : edge_typed demo_next.
Proof. split; try done. apply Forall_singleton. by split. Qed.

Lemma demo_empty_inv n : ddb_inv mem_ddb "enoti" (∅, n).
Proof. intros c k m H. discriminate H. Qed.

(** The store after the first write. *)
Definition demo_written : Tables * nat := (demo_ddb _ (UpsertCAS "c" "k" 0 demo_next) (∅, 0%nat)).2.

Lemma demo_write : demo_ddb _ (UpsertCAS "c" "k" 0 demo_next) (∅, 0%nat) = (Some (true, None), demo_written).
Proof. apply pair_fst_snd. vm_compute. reflexivity. Qed.

Lemma ddb_upsert_is_cas_witness :
  ddb_edge mem_ddb "enoti" demo_written "c" "k" = Some (stored "k" demo_next, 1).
Proof.
  refine (proj2 (proj2 (proj2 (ddb_upsert_is_cas mem_ddb "enoti" (λ _, 0) (∅, 0%nat) "c" "k" 0 demo_next
            true None demo_written _ _ _ _ _ demo_write)))).
  - apply demo_empty_inv.
  - reflexivity.
  - reflexivity.
  - exact demo_next_typed.
  - int_lia.
Defined.

Lemma ddb_load_after_upsert_witness :
  1 = 0 + 1 ∧ option_map (set_Version 0) (Some (set_Version 1 (set_ScopeKey "k" demo_next))) =
              Some (stored "k" demo_next).
Proof.
  refine (ddb_load_after_upsert mem_ddb "enoti" (λ _, 0) (∅, 0%nat) "c" "k" 0 demo_next demo_written
            (Some (set_Version 1 (set_ScopeKey "k" demo_next))) 1 _ _ _ _ _ _ demo_write (pair_fst_snd _ _ _)).
  - apply demo_empty_inv.
  - reflexivity.
  - reflexivity.
  - exact demo_next_typed.
  - int_lia.
  - vm_compute. reflexivity.
Defined.

Definition demo_config : ClientConfig :=
  mkClientConfig "acme" "Acme" "s3cret-key" 10 20 (mkPassthrough "" false)
    (mkTriggerConfig "v" ["host"] (mkTargetConfig "arn:t" 5) (Some (mkFlapConfig 300 0 3 10 0))).

Lemma demo_config_typed : config_typed demo_config.
Proof. split; repeat constructor; done. Qed.

Definition demo_client {A} (p : prog BackE A) (tb : Tables) : option A * (Tables * nat) :=
  run (back_handler mem_ddb (λ _, 0)) p (tb, 0%nat).

Definition demo_put : option (option error) * (Tables * nat) :=
  demo_client (ddb_PutClientConfig "enoti" "acme" demo_config) ∅.
Definition demo_deleted : option (option error) * (Tables * nat) :=
  demo_client (ddb_DeleteClientConfig "enoti" "acme") demo_put.2.1.

Lemma demo_client_eq {A} (p : prog BackE A) tb a :
  (demo_client p tb).1 = Some a →
  demo_client p tb = (Some a, ((demo_client p tb).2.1, (demo_client p tb).2.2)).
Proof. destruct (demo_client p tb) as [r [? ?]]. by intros [= ->]. Qed.

Lemma ddb_config_roundtrip_witness : valid_config demo_config.
Proof.
  refine (proj1 (ddb_config_roundtrip mem_ddb "enoti" (λ _, 0) ∅ 0 "acme" demo_config _ _
            demo_config None _ _ demo_config_typed eq_refl
            (demo_client_eq (ddb_PutClientConfig "enoti" "acme" demo_config) ∅ None _)
            (demo_client_eq (ddb_GetClientConfig "enoti" "acme") demo_put.2.1 (demo_config, None) _))).
  - vm_compute. reflexivity.
  - vm_compute. reflexivity.
Defined.

Lemma ddb_deleted_not_found_witness : zeroClientConfig = zeroClientConfig.
Proof.
  refine (proj1 (ddb_deleted_not_found mem_ddb "enoti" (λ _, 0) demo_put.2.1 0 "acme" _ _
            zeroClientConfig (Some (Sentinel ErrNotFound)) _ _ eq_refl
            (demo_client_eq (ddb_DeleteClientConfig "enoti" "acme") demo_put.2.1 None _)
            (demo_client_eq (ddb_GetClientConfig "enoti" "acme") demo_deleted.2.1
               (zeroClientConfig, Some (Sentinel ErrNotFound)) _))).
  - vm_compute. reflexivity.
  - vm_compute. reflexivity.
Defined.

(** One stored profile, and an empty listing. *)
Definition demo_profiles : Tables :=
  {[ ("enoti", (pkClient "acme", skProfile)) := mem_marshal_map (profile_fields (pkClient "acme") skProfile demo_config) ]}.

Lemma ddb_list_clients_empty_witness : ([] : list string) = [].
Proof.
  refine (ddb_list_clients_empty mem_ddb "enoti" (λ _, 0) demo_profiles 0 [] None
            (demo_client (ddb_ListClients "enoti") demo_profiles).2 _ (pair_fst_snd _ _ _)).
  - intros key [it Hit]. change (demo_profiles !! ("enoti", key) = Some it) in Hit.
    unfold demo_profiles in Hit. apply lookup_singleton_Some in Hit as [Heq _].
    apply pair_equal_spec in Heq as [_ <-]. apply own_profile.
  - vm_compute. reflexivity.
Defined.

(** Three processes race for two slots. *)
Definition demo_acquires : list (prog BackE (bool * option error)) * (Tables * nat) :=
  run_schedule (back_handler mem_ddb (λ _, 0)) [0; 1; 2; 0; 1; 2; 2; 0; 1]%nat
    (ddb_Acquire "enoti" "IP:1.2.3.4" 2 <$> [Minute; Minute; Minute]) (∅, 0%nat).

Example demo_acquires_result :
  demo_acquires.1 = [Ret (true, None); Ret (false, None); Ret (true, None)].
Proof. vm_compute. reflexivity. Qed.

Lemma ddb_rate_capacity_witness : tally is_granted demo_acquires.1 <= 2.
Proof.
  apply (ddb_rate_capacity mem_ddb "enoti" "IP:1.2.3.4" 2 (λ _, 0) 0 [Minute; Minute; Minute] ∅ 0
           demo_acquires.1 demo_acquires.2).
  - reflexivity.
  - done.
  - reflexivity.
  - reflexivity.
  - reflexivity.
  - rewrite <- surjective_pairing. apply run_schedule_steps.
Defined.

(** A row whose time was over at the epoch, seen a thousand seconds later. *)
Definition demo_stale : Tables :=
  {[ ("enoti", (pkClient "acme", skDedup "h")) :=
       <["PK" := AVS (pkClient "acme")]> (<["SK" := AVS (skDedup "h")]> {[ "ttl" := AVN "0" ]}) ]}.

Lemma demo_stale_keyed : keyed mem_ddb "enoti" demo_stale.
Proof.
  intros key it Hit. change (demo_stale !! ("enoti", key) = Some it) in Hit.
  unfold demo_stale in Hit. apply lookup_singleton_Some in Hit as [_ <-]. eexists. apply lookup_insert_eq.
Qed.

Lemma ddb_suppress_while_row_witness :
  true = bool_decide (dedup_at mem_ddb "enoti" demo_stale "acme" "h" ≠ None).
Proof.
  refine (proj1 (proj2 (ddb_suppress_while_row mem_ddb "enoti" (λ _, 1000 * Second) demo_stale 0 "acme" "h" Minute
            true None _ demo_stale_keyed eq_refl eq_refl _ (pair_fst_snd _ _ _)))).
  - vm_compute. split; discriminate.
  - vm_compute. reflexivity.
Defined.
