(* ===== verification/RedisSpec.v ===== *)
(** * Redis as the backends use it

    The server and the client library are not part of the sources: the calls are
    a signature, the class [Redis] states their documented behaviour for one
    request at a time, and [mem_redis] is a concrete instance. A request is served
    at some time of the server, [h t]; a key may have a deadline, from which on it
    does not exist. *)

From S2P Require Import Prelude Errors Strconv Text Types Effects Ports StoreSpec Tags.

(** A field value of [HMSet]: the client sends text and bytes as they are and
    integers in decimal. *)
Inductive redis_arg :=
| ArgText (s : string)
| ArgInt (z : Z).

Definition arg_text (a : redis_arg) : string :=
  match a with ArgText s => s | ArgInt z => FormatInt z end.

Inductive RedisE : Type → Type :=
| HGetAll (key : string) : RedisE (gmap string string * option error)
| HMSet (key : string) (fields : list (string * redis_arg)) : RedisE (option error)
| HMGet (key field : string) : RedisE (list (option string) * option error)
| HGet (key field : string) : RedisE (string * option error)
| HIncrBy (key field : string) (n : Z) : RedisE (option error)
| Expire (key : string) (d : Z) : RedisE (option error)
| Get (key : string) : RedisE (string * option error)
| SetKey (key value : string) : RedisE (option error)
| Del (keys : list string) : RedisE (option error)
| Keys (pattern : string) : RedisE (list string * option error).

(** The fields of a hash after [HMSet]. *)
Definition hmset (fields : list (string * redis_arg)) (m : gmap string string) : gmap string string :=
  foldl (λ m '(k, a), <[k := arg_text a]> m) m fields.

(** No special character of a glob pattern. *)
Definition literal_pattern (p : string) : bool :=
  forallb (λ c, negb (existsb (Ascii.eqb c) ["*"%char; "?"%char; "["%char; "\"%char])) (bytes p).

(** The part of a pattern before its first special character. *)
Fixpoint literal_prefix (l : list ascii) : list ascii :=
  match l with
  | [] => []
  | c :: l =>
      if existsb (Ascii.eqb c) ["*"%char; "?"%char; "["%char; "\"%char] then [] else c :: literal_prefix l
  end.

(** A counter in a field: absent is zero. *)
Definition counter (m : gmap string string) (field : string) (z : Z) : Prop :=
  m !! field = Some (FormatInt z) ∨ m !! field = None ∧ z = 0.

(** The seconds of a time to live as the client sends them: whole seconds, at least
    one for a positive duration below. *)
Definition expire_seconds (d : Z) : Z :=
  if decide (0 < d < Second) then 1 else Z.quot d Second.

(** Documented behaviour, of a request served at time [t]. [rd_hash t s key] and
    [rd_text t s key] are what the key holds when it is read at time [t] (a hash
    without fields does not exist), [rd_ttl s key] is its deadline. *)
Class Redis {St : Type} (h : Z → handler RedisE St) := {
  rd_hash : Z → St → string → gmap string string;
  rd_text : Z → St → string → option string;
  rd_ttl : St → string → option Z;
  rd_total t : total_handler (h t);
  rd_alive s key t t' :
    (∀ d, rd_ttl s key = Some d → t < d ∧ t' < d) →
    rd_hash t s key = rd_hash t' s key ∧ rd_text t s key = rd_text t' s key;
  rd_expired s key t d :
    rd_ttl s key = Some d → d <= t → rd_hash t s key = ∅ ∧ rd_text t s key = None;
  rd_hgetall t s key m err s' :
    h t _ (HGetAll key) s = (Some (m, err), s') →
    s' = s ∧ (err = None → m = rd_hash t s key) ∧ (∀ e, err = Some e → errors_Is e RedisNil = false);
  rd_hmset t s key fields err s' :
    h t _ (HMSet key fields) s = (Some err, s') →
    (∀ key', key' ≠ key → rd_ttl s' key' = rd_ttl s key' ∧
       ∀ t', rd_hash t' s' key' = rd_hash t' s key' ∧ rd_text t' s' key' = rd_text t' s key') ∧
    (err = None → rd_hash t s' key = hmset fields (rd_hash t s key) ∧
       rd_ttl s' key = if decide (rd_hash t s key = ∅) then None else rd_ttl s key);
  rd_hmget t s key field vs err s' :
    h t _ (HMGet key field) s = (Some (vs, err), s') →
    s' = s ∧ (err = None → vs = [rd_hash t s key !! field]) ∧
    (∀ e, err = Some e → errors_Is e RedisNil = false);
  rd_hget t s key field v err s' :
    h t _ (HGet key field) s = (Some (v, err), s') →
    s' = s ∧ match rd_hash t s key !! field with
             | None => is_Some err
             | Some x => (err = None → v = x) ∧ (∀ e, err = Some e → errors_Is e RedisNil = false)
             end;
  rd_hincrby t s key field n err s' :
    h t _ (HIncrBy key field n) s = (Some err, s') →
    (∀ key', key' ≠ key → rd_ttl s' key' = rd_ttl s key' ∧
       ∀ t', rd_hash t' s' key' = rd_hash t' s key' ∧ rd_text t' s' key' = rd_text t' s key') ∧
    (err = None → ∀ z, counter (rd_hash t s key) field z → is_int64 z → is_int64 (z + n) →
     rd_hash t s' key = <[field := FormatInt (z + n)]> (rd_hash t s key) ∧
     rd_ttl s' key = if decide (rd_hash t s key = ∅) then None else rd_ttl s key);
  rd_expire t s key d err s' :
    h t _ (Expire key d) s = (Some err, s') →
    (∀ key', key' ≠ key → rd_ttl s' key' = rd_ttl s key' ∧
       ∀ t', rd_hash t' s' key' = rd_hash t' s key' ∧ rd_text t' s' key' = rd_text t' s key') ∧
    (err = None → rd_hash t s key ≠ ∅ →
     if decide (0 < expire_seconds d)
     then rd_hash t s' key = rd_hash t s key ∧ rd_ttl s' key = Some (t + expire_seconds d * Second)
     else rd_hash t s' key = ∅);
  rd_del t s keys err s' :
    h t _ (Del keys) s = (Some err, s') →
    (∀ key, key ∉ keys → rd_ttl s' key = rd_ttl s key ∧
       ∀ t', rd_hash t' s' key = rd_hash t' s key ∧ rd_text t' s' key = rd_text t' s key) ∧
    (err = None → ∀ key, key ∈ keys → ∀ t', rd_hash t' s' key = ∅ ∧ rd_text t' s' key = None) ∧
    (∀ t' key, rd_text t' s key = None → rd_text t' s' key = None);
  rd_get t s key v err s' :
    h t _ (Get key) s = (Some (v, err), s') →
    s' = s ∧ match rd_text t s key with
             | None => err = Some (Sentinel RedisNil) ∨ ∃ code msg, err = Some (ServiceError code msg)
             | Some x => err = None → v = x
             end;
  rd_set t s key value err s' :
    h t _ (SetKey key value) s = (Some err, s') →
    (∀ key', key' ≠ key → rd_ttl s' key' = rd_ttl s key' ∧
       ∀ t', rd_hash t' s' key' = rd_hash t' s key' ∧ rd_text t' s' key' = rd_text t' s key') ∧
    (err = None → rd_text t s' key = Some value ∧ rd_ttl s' key = None);
  rd_keys t s pattern ks err s' :
    h t _ (Keys pattern) s = (Some (ks, err), s') →
    s' = s ∧ (err = None → literal_pattern pattern = true → ∀ k, k ∈ ks → k = pattern) ∧
    (err = None → ∀ k, k ∈ ks → has_prefix (literal_prefix (bytes pattern)) (bytes k) = true) ∧
    (err = None → ∀ p k, literal_pattern p = true → pattern = p +:+ "*" → HasPrefix k p = true →
     is_Some (rd_text t s k) → k ∈ ks);
}.

(** A reply without an I/O error; that a key or field is missing is no such error. *)
Definition replied {X} (e : RedisE X) : X → Prop :=
  match e in RedisE X return X → Prop with
  | HGetAll _ | HMGet _ _ | Keys _ => λ r, r.2 = None
  | HGet _ _ | Get _ => λ r, r.2 = None ∨ r.2 = Some (Sentinel RedisNil)
  | HMSet _ _ | HIncrBy _ _ _ | Expire _ _ | SetKey _ _ | Del _ => λ err, err = None
  end.

(** A server that can always be reached. *)
Definition reachable_server {St} (h : Z → handler RedisE St) : Prop :=
  ∀ t X (e : RedisE X) s r s', h t X e s = (Some r, s') → replied e r.

(** What does not exist does not come back by waiting. *)
Lemma rd_text_gone `{Redis St h} t t' s key : t <= t' → rd_text t s key = None → rd_text t' s key = None.
Proof.
  intros Ht Hnone. destruct (rd_ttl s key) as [d|] eqn:Hd.
  - destruct (decide (t' < d)) as [Hlt|Hge]; [|by apply (rd_expired s key t' d Hd); lia].
    destruct (rd_alive s key t t') as [_ <-]; [|done]. rewrite Hd. intros d' [= <-]. lia.
  - destruct (rd_alive s key t t') as [_ <-]; [|done]. by rewrite Hd.
Qed.

(** A key without a deadline can be read at any time. *)
Lemma rd_persistent `{Redis St h} t t' s key :
  rd_ttl s key = None → rd_hash t s key = rd_hash t' s key ∧ rd_text t s key = rd_text t' s key.
Proof. intros Hd. apply rd_alive. by rewrite Hd. Qed.

(** ** The JSON texts the stores keep (goccy/go-json) *)

Class RedisJson := {
  (** [json.Marshal] of the value with this tree *)
  tree_Marshal : goval → string + error;
  flips_Unmarshal : string → list Flip + error;
  config_Unmarshal : string → ClientConfig + error;
}.

Definition flips_Marshal `{RedisJson} (rs : list Flip) : string + error := tree_Marshal (json_flips rs).
Definition config_Marshal `{RedisJson} (c : ClientConfig) : string + error :=
  tree_Marshal (GoStruct (config_json c)).

(** Typed values have a text, and the text of a slice of flips or of a
    configuration decodes to it. *)
Class RedisJsonLaws `{RedisJson} := {
  tree_text v : go_typed v = true → ∃ t, tree_Marshal v = inl t;
  flips_text rs t : go_typed (json_flips rs) = true → tree_Marshal (json_flips rs) = inl t →
    flips_Unmarshal t = inl rs;
  config_text c t : go_typed (GoStruct (config_json c)) = true → tree_Marshal (GoStruct (config_json c)) = inl t →
    config_Unmarshal t = inl c;
}.

Lemma flips_roundtrip `{RedisJsonLaws} rs :
  Forall flip_typed rs → ∃ t, flips_Marshal rs = inl t ∧ flips_Unmarshal t = inl rs.
Proof.
  intros Hrs%json_flips_typed. destruct (tree_text _ Hrs) as [t Ht]. exists t. split; [done|]. by apply flips_text.
Qed.

Lemma config_roundtrip `{RedisJsonLaws} c :
  config_typed c → ∃ t, config_Marshal c = inl t ∧ config_Unmarshal t = inl c.
Proof.
  intros Hc%config_json_typed. destruct (tree_text _ Hc) as [t Ht]. exists t. split; [done|]. by apply config_text.
Qed.

(** ** A concrete server *)

Record RedisMem := mkRedisMem {
  rm_hash : gmap string (gmap string string);
  rm_text : gmap string string;
  rm_ttl : gmap string Z;
}.

Definition redis_empty : RedisMem := mkRedisMem ∅ ∅ ∅.

Definition rm_gone (t : Z) (s : RedisMem) (key : string) : bool :=
  match rm_ttl s !! key with Some d => bool_decide (d <= t) | None => false end.

Definition rm_get (t : Z) (s : RedisMem) (key : string) : gmap string string :=
  if rm_gone t s key then ∅ else default ∅ (rm_hash s !! key).
Definition rm_read (t : Z) (s : RedisMem) (key : string) : option string :=
  if rm_gone t s key then None else rm_text s !! key.

(** Writes the fields of a hash: an existing key keeps its deadline. *)
Definition rm_write (t : Z) (key : string) (m : gmap string string) (s : RedisMem) : RedisMem :=
  mkRedisMem (<[key := m]> (rm_hash s)) (delete key (rm_text s))
    (if decide (rm_get t s key = ∅) then delete key (rm_ttl s) else rm_ttl s).

Definition rm_delete (keys : list string) (s : RedisMem) : RedisMem :=
  mkRedisMem (foldr delete (rm_hash s) keys) (foldr delete (rm_text s) keys) (foldr delete (rm_ttl s) keys).

(** Glob matching restricted to the patterns used: a text, or a prefix and [*]. *)
Definition matches (pattern key : string) : bool :=
  match rev (bytes pattern) with
  | "*"%char :: p => has_prefix (rev p) (bytes key)
  | _ => bool_decide (pattern = key)
  end.

Definition mem_redis (t : Z) : handler RedisE RedisMem := λ X e s,
  match e in RedisE X return option X * RedisMem with
  | HGetAll key => (Some (rm_get t s key, None), s)
  | HMSet key fields => (Some None, rm_write t key (hmset fields (rm_get t s key)) s)
  | HMGet key field => (Some ([rm_get t s key !! field], None), s)
  | HGet key field =>
      match rm_get t s key !! field with
      | Some v => (Some (v, None), s)
      | None => (Some ("", Some (Sentinel RedisNil)), s)
      end
  | HIncrBy key field n =>
      let old := match rm_get t s key !! field with
                 | Some v => match ParseInt v with inl z => z | inr _ => 0 end
                 | None => 0
                 end in
      (Some None, rm_write t key (<[field := FormatInt (old + n)]> (rm_get t s key)) s)
  | Expire key d =>
      (Some None,
       if decide (rm_get t s key = ∅ ∧ rm_read t s key = None) then s
       else if decide (0 < expire_seconds d)
       then mkRedisMem (rm_hash s) (rm_text s) (<[key := t + expire_seconds d * Second]> (rm_ttl s))
       else rm_delete [key] s)
  | Get key =>
      match rm_read t s key with
      | Some v => (Some (v, None), s)
      | None => (Some ("", Some (Sentinel RedisNil)), s)
      end
  | SetKey key value =>
      (Some None, mkRedisMem (delete key (rm_hash s)) (<[key := value]> (rm_text s)) (delete key (rm_ttl s)))
  | Del keys => (Some None, rm_delete keys s)
  | Keys pattern =>
      (Some (List.filter (λ k, matches pattern k && negb (rm_gone t s k))
               ((map_to_list (rm_hash s)).*1 ++ (map_to_list (rm_text s)).*1), None), s)
  end.

(** A literal pattern does not end in [*]. *)
Lemma matches_literal p k : literal_pattern p = true → matches p k = true → k = p.
Proof.
  unfold literal_pattern, matches. intros Hl Hm.
  assert (∀ r, rev (bytes p) ≠ "*"%char :: r) as Hne.
  { intros r Hr. apply (f_equal (@rev _)) in Hr. rewrite rev_involutive in Hr.
    rewrite Hr in Hl. simpl in Hl. rewrite forallb_app in Hl. simpl in Hl.
    by rewrite andb_false_r in Hl. }
  destruct (rev (bytes p)) as [|a r]; [by apply bool_decide_eq_true in Hm|].
  destruct (decide (a = "*"%char)) as [->|Ha]; [by destruct (Hne r)|].
  assert (bool_decide (p = k) = true) as Hb; [|by apply bool_decide_eq_true in Hb].
  revert Hm. destruct a as [[] [] [] [] [] [] [] []]; done.
Qed.

Lemma literal_prefix_of l : literal_prefix l `prefix_of` l.
Proof.
  induction l as [|c l IH]; [done|]. cbn [literal_prefix]. destruct (existsb _ _); [apply prefix_nil|].
  by apply prefix_cons.
Qed.

Lemma literal_prefix_star l : literal_prefix (l ++ ["*"%char]) `prefix_of` l.
Proof.
  induction l as [|c l IH]; [done|]. cbn [literal_prefix app]. destruct (existsb _ _); [apply prefix_nil|].
  by apply prefix_cons.
Qed.

Lemma has_prefix_of p l : has_prefix p l = true ↔ p `prefix_of` l.
Proof.
  unfold has_prefix. rewrite bool_decide_eq_true. split.
  - intros <-. exists (drop (length p) l). by rewrite take_drop.
  - intros [k ->]. apply take_app_length.
Qed.

Lemma matches_prefix p k : matches p k = true → has_prefix (literal_prefix (bytes p)) (bytes k) = true.
Proof.
  intros Hm. apply has_prefix_of.
  assert ((∃ l, bytes p = l ++ ["*"%char] ∧ l `prefix_of` bytes k) ∨ p = k) as [(l & -> & Hl)|<-].
  { unfold matches in Hm. destruct (rev (bytes p)) as [|a r] eqn:Hr.
    - right. by apply bool_decide_eq_true in Hm.
    - destruct (decide (a = "*"%char)) as [->|Ha].
      + left. exists (rev r). apply (f_equal (@rev _)) in Hr. rewrite rev_involutive in Hr. split; [done|].
        by apply has_prefix_of.
      + right. assert (bool_decide (p = k) = true) as Hb; [|by apply bool_decide_eq_true in Hb].
        revert Hm. destruct a as [[] [] [] [] [] [] [] []]; done. }
  - etrans; [apply literal_prefix_star|done].
  - apply literal_prefix_of.
Qed.

Lemma matches_star p k : HasPrefix k p = true → matches (p +:+ "*") k = true.
Proof.
  intros Hk. unfold matches. rewrite bytes_app, rev_app_distr. simpl. by rewrite rev_involutive.
Qed.

Lemma rm_write_same t key m s :
  rm_get t (rm_write t key m s) key = m ∧
  rm_ttl (rm_write t key m s) !! key = if decide (rm_get t s key = ∅) then None else rm_ttl s !! key.
Proof.
  unfold rm_write, rm_get, rm_gone. simpl. case_decide as Hd.
  - by rewrite lookup_delete_eq, lookup_insert_eq.
  - rewrite lookup_insert_eq. split; [|done]. by destruct (rm_ttl s !! key); [case_bool_decide|].
Qed.

(** The same content and deadline of a key. *)
Definition rm_same (s s' : RedisMem) (key : string) : Prop :=
  rm_ttl s' !! key = rm_ttl s !! key ∧ ∀ t, rm_get t s' key = rm_get t s key ∧ rm_read t s' key = rm_read t s key.

Lemma rm_same_lookup s s' key :
  rm_hash s' !! key = rm_hash s !! key → rm_text s' !! key = rm_text s !! key → rm_ttl s' !! key = rm_ttl s !! key →
  rm_same s s' key.
Proof. intros Hh Ht Hd. split; [done|]. intros t. unfold rm_get, rm_read, rm_gone. by rewrite Hh, Ht, Hd. Qed.

Lemma rm_write_other t key m s key' : key' ≠ key → rm_same s (rm_write t key m s) key'.
Proof.
  intros Hne. apply rm_same_lookup; simpl; [by rewrite lookup_insert_ne|by rewrite lookup_delete_ne|].
  case_decide; [by rewrite lookup_delete_ne|done].
Qed.

Lemma rm_delete_other keys s key : key ∉ keys → rm_same s (rm_delete keys s) key.
Proof. intros Hk. apply rm_same_lookup; simpl; by rewrite lookup_foldr_delete_not_elem_of. Qed.

Lemma rm_delete_in keys s key t :
  key ∈ keys → rm_get t (rm_delete keys s) key = ∅ ∧ rm_read t (rm_delete keys s) key = None.
Proof. intros Hk. unfold rm_get, rm_read, rm_gone. simpl. by rewrite !lookup_foldr_delete. Qed.

Lemma rm_gone_false t s key : (∀ d, rm_ttl s !! key = Some d → t < d) → rm_gone t s key = false.
Proof.
  intros H. unfold rm_gone. destruct (rm_ttl s !! key) as [d|]; [|done].
  apply bool_decide_false. specialize (H d eq_refl). lia.
Qed.

#[global, program] Instance mem_redis_laws : Redis mem_redis := {|
  rd_hash := rm_get;
  rd_text := rm_read;
  rd_ttl := λ s key, rm_ttl s !! key;
|}.
Next Obligation.
  intros t X [] s; simpl; eauto.
  - destruct (rm_get t s key !! field); eauto.
  - destruct (rm_read t s key); eauto.
Qed.
Next Obligation.
  intros s key t t' Hd. unfold rm_get, rm_read. rewrite !rm_gone_false; [done|..]; intros d Hs; by destruct (Hd d Hs).
Qed.
Next Obligation.
  intros s key t d Hd Ht. unfold rm_get, rm_read, rm_gone. by rewrite Hd, bool_decide_true.
Qed.
Next Obligation. intros t s key m err s'. simpl. by intros [= <- <- <-]. Qed.
Next Obligation.
  intros t s key fields err s'. simpl. intros [= <- <-]. split; [by intros; apply rm_write_other|].
  intros _. apply rm_write_same.
Qed.
Next Obligation. intros t s key field vs err s'. simpl. by intros [= <- <- <-]. Qed.
Next Obligation.
  intros t s key field v err s'. simpl. destruct (rm_get t s key !! field); intros [= <- <- <-];
    (split; [done|]); [by split|by eexists].
Qed.
Next Obligation.
  intros t s key field n err s'. simpl. intros [= <- <-]. split; [by intros; apply rm_write_other|].
  intros _ z Hz Hi _. destruct (rm_write_same t key (<[field := FormatInt (z + n)]> (rm_get t s key)) s) as [H1 H2].
  destruct Hz as [->|[-> ->]]; [rewrite ParseInt_FormatInt by done|]; done.
Qed.
Next Obligation.
  intros t s key d err s'. simpl. intros [= <- <-]. split.
  - intros key' Hne. case_decide; [done|]. case_decide.
    + apply rm_same_lookup; simpl; [done..|by rewrite lookup_insert_ne].
    + apply rm_delete_other. by rewrite list_elem_of_singleton.
  - intros _ Hne. rewrite (decide_False (P := _ ∧ _)) by (by intros [? _]). case_decide as Hd.
    + simpl. rewrite lookup_insert_eq. split; [|done].
      unfold rm_get, rm_gone in *. simpl. rewrite lookup_insert_eq, bool_decide_false by (unfold Second; lia).
      destruct (rm_ttl s !! key) as [d'|]; [case_bool_decide|]; done.
    + apply rm_delete_in. by left.
Qed.
Next Obligation.
  intros t s keys err s'. simpl. intros [= <- <-]. split_and!.
  - intros key Hk. by apply rm_delete_other.
  - intros _ key Hk t'. by apply rm_delete_in.
  - intros t' key Hk. destruct (decide (key ∈ keys)); [by apply rm_delete_in|].
    by destruct (rm_delete_other keys s key) as [_ H]; [|destruct (H t') as [_ ->]].
Qed.
Next Obligation.
  intros t s key v err s'. simpl. destruct (rm_read t s key); intros [= <- <- <-]; [done|].
  split; [done|]. by left.
Qed.
Next Obligation.
  intros t s key value err s'. simpl. intros [= <- <-]. split.
  - intros key' Hne. apply rm_same_lookup; simpl; by rewrite ?lookup_delete_ne, ?lookup_insert_ne.
  - intros _. unfold rm_read, rm_gone. simpl. by rewrite lookup_delete_eq, lookup_insert_eq.
Qed.
Next Obligation.
  intros t s pattern ks err s'. simpl. intros [= <- <- <-]. split_and!; [done|..].
  - intros _ Hl k Hk. apply list_elem_of_In, List.filter_In in Hk as [_ [Hm _]%andb_true_iff]. by apply matches_literal.
  - intros _ k Hk. apply list_elem_of_In, List.filter_In in Hk as [_ [Hm _]%andb_true_iff]. by apply matches_prefix.
  - intros _ p k Hp -> Hk [x Hx]. unfold rm_read in Hx. destruct (rm_gone t s k) eqn:Hg; [done|].
    apply list_elem_of_In, List.filter_In. rewrite Hg, matches_star by done. split; [|done].
    apply list_elem_of_In, elem_of_app. right. apply list_elem_of_fmap. exists (k, x).
    split; [done|]. by apply elem_of_map_to_list.
Qed.

Lemma mem_redis_reachable : reachable_server mem_redis.
Proof.
  intros t X e s r s'. destruct e; simpl; try (by intros [= <- _]).
  - destruct (rm_get t s key !! field); intros [= <- _]; simpl; auto.
  - destruct (rm_read t s key); intros [= <- _]; simpl; auto.
Qed.

(** *** A concrete encoding of trees *)

Fixpoint pos_text (p : positive) : string :=
  match p with
  | xH => ""
  | xO p => String "0" (pos_text p)
  | xI p => String "1" (pos_text p)
  end.

Fixpoint text_pos (s : string) : positive :=
  match s with
  | "" => xH
  | String c s => if Ascii.eqb c "0" then xO (text_pos s) else xI (text_pos s)
  end.

Lemma text_pos_text p : text_pos (pos_text p) = p.
Proof. induction p as [p IH|p IH|]; simpl; by rewrite ?IH. Qed.

Notation doc := (gen_tree (string + Z + bool)).

Fixpoint goval_doc (v : goval) : doc :=
  match v with
  | GoString s => GenLeaf (inl (inl s))
  | GoInt z => GenLeaf (inl (inr z))
  | GoBool b => GenLeaf (inr b)
  | GoNil => GenNode 0 []
  | GoSlice l => GenNode 1 (map goval_doc l)
  | GoStruct fs => GenNode 2 (map (λ '(k, v), GenNode 3 [GenLeaf (inl (inl k)); goval_doc v]) fs)
  end.

Fixpoint doc_goval (d : doc) : goval :=
  match d with
  | GenLeaf (inl (inl s)) => GoString s
  | GenLeaf (inl (inr z)) => GoInt z
  | GenLeaf (inr b) => GoBool b
  | GenNode 1 l => GoSlice (map doc_goval l)
  | GenNode 2 l =>
      GoStruct (map (λ d, match d with
                          | GenNode _ [GenLeaf (inl (inl k)); d] => (k, doc_goval d)
                          | _ => ("", GoNil)
                          end) l)
  | GenNode _ _ => GoNil
  end.

Lemma doc_goval_doc v : doc_goval (goval_doc v) = v.
Proof.
  induction v as [s|z|b| |l IH|fs IH] using goval_nested_ind; simpl; try done; f_equal.
  - rewrite map_map. induction IH as [|v l Hv _ IHl]; simpl; [done|]. by rewrite Hv, IHl.
  - rewrite map_map. induction IH as [|[k v] fs Hv _ IHl]; simpl; [done|]. simpl in Hv. by rewrite Hv, IHl.
Qed.

(** The field with a name; absent fields keep the zero value. *)
Definition json_field (fs : list (string * goval)) (k : string) : goval :=
  default GoNil (snd <$> head (filter (λ kv, kv.1 = k) fs)).

Definition json_string (v : goval) : string := match v with GoString s => s | _ => "" end.
Definition json_int (v : goval) : Z := match v with GoInt z => z | _ => 0 end.
Definition json_bool (v : goval) : bool := match v with GoBool b => b | _ => false end.
Definition json_slice (v : goval) : list goval := match v with GoSlice l => l | _ => [] end.
Definition json_struct (v : goval) : list (string * goval) := match v with GoStruct fs => fs | _ => [] end.

Definition flip_of_json (v : goval) : Flip :=
  let get := json_field (json_struct v) in
  mkFlip (json_int (get "at")) (json_string (get "from")) (json_string (get "to")) (json_string (get "payload")).

Definition flap_of_json (v : goval) : option FlapConfig :=
  match v with
  | GoStruct fs =>
      let get k := json_int (json_field fs k) in
      Some (mkFlapConfig (get "window_seconds") (get "suppress_below") (get "aggregate_at")
              (get "aggregate_max_items") (get "aggregate_cooldown_seconds"))
  | _ => None
  end.

Definition config_of_json (v : goval) : ClientConfig :=
  let get := json_field (json_struct v) in
  let pt := json_field (json_struct (get "passthrough")) in
  let tr := json_field (json_struct (get "trigger")) in
  let tg := json_field (json_struct (tr "target")) in
  mkClientConfig (json_string (get "client_id")) (json_string (get "client_name")) (json_string (get "client_key"))
    (json_int (get "ip_rpm")) (json_int (get "client_rpm"))
    (mkPassthrough (json_string (pt "field")) (json_bool (pt "negate")))
    (mkTriggerConfig (json_string (tr "field")) (json_string <$> json_slice (tr "scope_fields"))
       (mkTargetConfig (json_string (tg "sns_arn")) (json_int (tg "sns_rpm"))) (flap_of_json (tr "flapping"))).

Definition text_tree (t : string) : option goval := doc_goval <$> decode (text_pos t).

#[global] Instance memRedisJson : RedisJson := {|
  tree_Marshal v := inl (pos_text (encode (goval_doc v)));
  flips_Unmarshal t :=
    match text_tree t with
    | Some v => inl (flip_of_json <$> json_slice v)
    | None => inr (Errorf "invalid character")
    end;
  config_Unmarshal t :=
    match text_tree t with
    | Some v => inl (config_of_json v)
    | None => inr (Errorf "invalid character")
    end;
|}.

Lemma mem_tree_text v t : tree_Marshal v = inl t → text_tree t = Some v.
Proof. intros [= <-]. unfold text_tree. rewrite text_pos_text, decode_encode. simpl. by rewrite doc_goval_doc. Qed.

Lemma flip_of_json_flip r : flip_of_json (GoStruct (flip_json r)) = r.
Proof. destruct r as [? ? ? p]. by destruct p. Qed.

Lemma config_of_json_config c : config_of_json (GoStruct (config_json c)) = c.
Proof.
  destruct c as [id name key ip cl pt [tf scope tg fl]].
  transitivity (mkClientConfig id name key ip cl pt
                  (mkTriggerConfig tf (json_string <$> (GoString <$> scope)) tg fl)).
  - by destruct pt, tg, scope, fl as [[]|].
  - rewrite <- list_fmap_compose. by rewrite list_fmap_id.
Qed.

#[global] Instance memRedisJsonLaws : RedisJsonLaws.
Proof.
  split.
  - intros v _. by eexists.
  - intros rs t _ Ht. apply mem_tree_text in Ht as Hv. unfold flips_Unmarshal, memRedisJson. rewrite Hv. f_equal.
    simpl. rewrite <- list_fmap_compose. rewrite <- (list_fmap_id rs) at 2. apply list_fmap_ext.
    intros i r _. apply flip_of_json_flip.
  - intros c t _ Ht. apply mem_tree_text in Ht as Hv. unfold config_Unmarshal, memRedisJson.
    by rewrite Hv, config_of_json_config.
Qed.
