(* ===== verification/RedisStore.v ===== *)
(** * [internal/backends/redis]: the Redis stores *)

From S2P Require Import Prelude Errors Strconv Text Types Effects Ports StoreSpec Tags Ddb RedisSpec.

(** ** [datastore.go] *)

Inductive RBackE : Type → Type :=
| redisE {X} (e : RedisE X) : RBackE X
| rnowE : RBackE Z.

(** "_enoti_data_%s_s%s" *)
Definition getDataKeyName (clientID scopeKey : string) : string :=
  "_enoti_data_" +:+ clientID +:+ "_s" +:+ scopeKey.

(** "_enoti_rwin_%s_%d" *)
Definition getWindowKeyName (key : string) (epochMin : Z) : string :=
  "_enoti_rwin_" +:+ key +:+ "_" +:+ FormatInt epochMin.

(** [m\[k\]] of a Go map: the zero string when absent. *)
Definition field (m : gmap string string) (k : string) : string := default "" (m !! k).

Section datastore.
Context `{J : RedisJson}.

(** The value after a successful parse, or the wrapped error. *)
Definition decode_edge (scopeKey : string) (m : gmap string string) : (Edge * Z) + error :=
  match ParseInt (field m "ver") with
  | inr err => inr (Wrapf "invalid ver" err)
  | inl ver =>
  match ParseInt (field m "last_change_ts") with
  | inr err => inr (Wrapf "invalid last_change_ts" err)
  | inl lastChangeTS =>
  match ParseInt (field m "window_start") with
  | inr err => inr (Wrapf "invalid window_start" err)
  | inl windowStart =>
  match Atoi (field m "flip_count") with
  | inr err => inr (Wrapf "invalid flip_count" err)
  | inl flipCount =>
  match ParseInt (field m "agg_until_ts") with
  | inr err => inr (Wrapf "invalid agg_until_ts" err)
  | inl aggUntilTS =>
  match flips_Unmarshal (field m "recent") with
  | inr err => inr (Wrapf "invalid recent" err)
  | inl recent =>
      inl (mkEdge scopeKey (field m "last_value") lastChangeTS windowStart flipCount recent aggUntilTS 0, ver)
  end end end end end end.

(** [DataStore.Load]. *)
Definition redis_Load (clientID scopeKey : string) : prog RBackE (option Edge * Z * option error) :=
  '(m, err) ← trigger (redisE (HGetAll (getDataKeyName clientID scopeKey)));
  match err with
  | Some err =>
      if errors_Is err RedisNil then mret (None, 0, None) else mret (None, 0, Some err)
  | None =>
      if decide (m = ∅) then mret (None, 0, None)
      else
        match decode_edge scopeKey m with
        | inr err => mret (None, 0, Some err)
        | inl (edge, ver) => mret (Some edge, ver, None)
        end
  end.

Definition create_fields (next : Edge) (recentMarshaled : string) : list (string * redis_arg) :=
  [("scope_key", ArgText (ScopeKey next)); ("last_value", ArgText (LastValue next));
   ("last_change_ts", ArgInt (LastChangeTS next)); ("window_start", ArgInt (WindowStart next));
   ("flip_count", ArgInt (FlipCount next)); ("recent", ArgText recentMarshaled);
   ("agg_until_ts", ArgInt (AggUntilTS next)); ("ver", ArgInt (Version next))].

Definition update_fields (next : Edge) (recentMarshaled : string) (currenVersion : Z) :
    list (string * redis_arg) :=
  [("last_value", ArgText (LastValue next));
   ("last_change_ts", ArgInt (LastChangeTS next)); ("window_start", ArgInt (WindowStart next));
   ("flip_count", ArgInt (FlipCount next)); ("recent", ArgText recentMarshaled);
   ("agg_until_ts", ArgInt (AggUntilTS next)); ("ver", ArgInt (int64 (currenVersion + 1)))].

(** [DataStore.UpsertCAS]: a read of the version and a write, two requests. *)
Definition redis_UpsertCAS (clientID scopeKey : string) (prevVersion : Z) (next : Edge) :
    prog RBackE (bool * option error) :=
  let next := set_ScopeKey scopeKey next in
  let key := getDataKeyName clientID scopeKey in
  if decide (prevVersion = 0) then
    let next := set_Version 1 next in
    match flips_Marshal (Recent next) with
    | inr err => mret (false, Some err)
    | inl recentMarshaled =>
        err ← trigger (redisE (HMSet key (create_fields next recentMarshaled)));
        match err with
        | Some err => mret (false, Some err)
        | None => mret (true, None)
        end
    end
  else
    '(currentVerObj, err) ← trigger (redisE (HMGet key "ver"));
    match err with
    | Some err => if errors_Is err RedisNil then mret (false, None) else mret (false, Some err)
    | None =>
        cur ← or_panic (head currentVerObj);
        match cur with
        | None => mret (false, None)
        | Some currentVerStr =>
            if decide (currentVerStr = "") then mret (false, None)
            else
              match ParseInt currentVerStr with
              | inr err => mret (false, Some (Wrapf "invalid ver" err))
              | inl currenVersion =>
                  if decide (currenVersion ≠ prevVersion) then mret (false, None)
                  else
                    match flips_Marshal (Recent next) with
                    | inr err => mret (false, Some err)
                    | inl recentMarshaled =>
                        err ← trigger (redisE (HMSet key (update_fields next recentMarshaled currenVersion)));
                        mret (true, err)
                    end
              end
        end
    end.

(** [DataStore.Acquire]: a read of the count and an increment, two requests. *)
Definition redis_Acquire (key : string) (ratePerWindow window : Z) : prog RBackE (bool * option error) :=
  if decide (ratePerWindow <= 0) then mret (false, None)
  else
    now ← trigger rnowE;
    let cacheKey := getWindowKeyName key (epoch_minute now) in
    let increment : prog RBackE (option error) := trigger (redisE (HIncrBy cacheKey "count" 1)) in
    '(v, err) ← trigger (redisE (HGet cacheKey "count"));
    match err with
    | Some err =>
        if errors_Is err RedisNil then
          e1 ← increment;
          match e1 with
          | Some e1 => mret (false, Some e1)
          | None =>
              e2 ← trigger (redisE (Expire cacheKey (int64 (2 * window))));
              mret (match e2 with None => true | Some _ => false end, e2)
          end
        else mret (false, Some err)
    | None =>
        let rest :=
          err ← increment;
          match err with
          | Some err => mret (false, Some err)
          | None => mret (true, None)
          end in
        if decide (v ≠ "") then
          match Atoi v with
          | inr err => mret (false, Some (Wrapf "invalid count" err))
          | inl count => if decide (count >= ratePerWindow) then mret (false, None) else rest
          end
        else rest
    end.

(** The implementation of [ports.DataStore]. *)
Definition redis_data {X} (e : DataStoreE X) : prog RBackE X :=
  match e with
  | Acquire scope rate window => redis_Acquire scope rate window
  | Load c k => redis_Load c k
  | UpsertCAS c k prev next => redis_UpsertCAS c k prev next
  end.

(** ** [clientstore.go] *)

(** "_enoti_cfg_%s" *)
Definition getClientKey (id : string) : string := "_enoti_cfg_" +:+ id.

Definition redis_GetClientConfig (clientID : string) : prog RBackE (ClientConfig * option error) :=
  '(v, err) ← trigger (redisE (Get (getClientKey clientID)));
  match err with
  | Some err => mret (zeroClientConfig, Some err)
  | None =>
      match config_Unmarshal v with
      | inr err => mret (zeroClientConfig, Some err)
      | inl cfg => mret (cfg, None)
      end
  end.

(** The rest of a string from a byte offset within it. *)
Definition drop_bytes (n : nat) (s : string) : string := of_bytes (drop n (bytes s)).

Definition prefixLen : nat := String.length (getClientKey "").

Definition redis_ListClients : prog RBackE (list string * option error) :=
  '(keys, err) ← trigger (redisE (Keys (getClientKey "")));
  match err with
  | Some err => mret ([], Some err)
  | None =>
      mret (omap (λ k, if decide (prefixLen < String.length k)%nat then Some (drop_bytes prefixLen k)
                       else None) keys, None)
  end.

Definition redis_PutClientConfig (clientID : string) (config : ClientConfig) : prog RBackE (option error) :=
  match Validate config with
  | Some err => mret (Some err)
  | None =>
      match config_Marshal config with
      | inr err => mret (Some err)
      | inl out => trigger (redisE (SetKey (getClientKey clientID) out))
      end
  end.

Definition redis_DeleteClientConfig (clientID : string) : prog RBackE (option error) :=
  trigger (redisE (Del [getClientKey clientID])).

(** The loop of [ClearAll]: the data keys of each client; errors are only logged.
    [key\[stubLen:\]] panics for a key shorter than the prefix. *)
Fixpoint clear_data (keys : list string) : prog RBackE unit :=
  match keys with
  | [] => mret tt
  | key :: keys =>
      _ ← or_panic (if decide (prefixLen <= String.length key)%nat then Some tt else None);
      let clientID := drop_bytes prefixLen key in
      '(dataKeys, err) ← trigger (redisE (Keys (getDataKeyName clientID "*")));
      match err with
      | Some _ => clear_data keys
      | None =>
          match dataKeys with
          | [] => clear_data keys
          | _ :: _ => _ ← trigger (redisE (Del dataKeys)); clear_data keys
          end
      end
  end.

Definition redis_ClearAll : prog RBackE (option error) :=
  '(keys, err) ← trigger (redisE (Keys (getClientKey "*")));
  match err with
  | Some err => mret (Some err)
  | None =>
      match keys with
      | [] => mret None
      | _ :: _ => _ ← clear_data keys; trigger (redisE (Del keys))
      end
  end.

Definition redis_client {X} (e : ClientStoreE X) : prog RBackE X :=
  match e with
  | GetClientConfig id => redis_GetClientConfig id
  | ListClients => redis_ListClients
  | PutClientConfig id cc => redis_PutClientConfig id cc
  | DeleteClientConfig id => redis_DeleteClientConfig id
  | ClearAll => redis_ClearAll
  end.

End datastore.
