(* ===== verification/RedisProps.v ===== *)
(** * Properties of the Redis stores

    Used by one process at a time, updates are compare-and-set and stored states
    are read back. The creation of a state, unknown clients and the list of clients
    are not what the interface asks for: the theorems below say what happens
    instead. Last, which keys coincide. *)

From S2P Require Import Prelude Errors Strconv Text Types Effects Ports StoreSpec Tags Ddb RedisSpec RedisStore Ttl Flow.

Section redis.
Context {St : Type} (h : Z → handler RedisE St) `{!Redis h} `{!RedisJson} `{!RedisJsonLaws}.

(** The clock of the process and the time of the server, at the [n]th call. *)
Context (clock stime : nat → Z).

Definition rback_handler : handler RBackE (St * nat) := λ X e '(s, n),
  match e with
  | redisE e => let '(r, s') := h (stime n) _ e s in (r, (s', S n))
  | rnowE => (Some (clock n), (s, S n))
  end.

Definition redis_handler : handler DataStoreE (St * nat) := λ X e, run rback_handler (redis_data e).

(** The edge of a scope as [Load] reads it, from a key that does not expire. *)
Definition redis_edge (s : St * nat) (c k : string) : option (Edge * Z) :=
  let key := getDataKeyName c k in
  let m := rd_hash (stime s.2) s.1 key in
  if decide (rd_ttl s.1 key = None ∧ m ≠ ∅)
  then match decode_edge k m with inl p => Some p | inr _ => None end
  else None.

(** It does not depend on the time. *)
Lemma redis_edge_time s n n' c k : redis_edge (s, n) c k = redis_edge (s, n') c k.
Proof.
  unfold redis_edge. simpl. destruct (rd_ttl s (getDataKeyName c k)) as [d|] eqn:Hd.
  - by rewrite !decide_False by naive_solver.
  - by destruct (rd_persistent (stime n) (stime n') _ _ Hd) as [-> _].
Qed.

(** A hash with the fields of an edge and its version. *)
Record edge_hash (e : Edge) (ver : Z) (m : gmap string string) : Prop := {
  eh_value : m !! "last_value" = Some (LastValue e);
  eh_change : m !! "last_change_ts" = Some (FormatInt (LastChangeTS e));
  eh_start : m !! "window_start" = Some (FormatInt (WindowStart e));
  eh_count : m !! "flip_count" = Some (FormatInt (FlipCount e));
  eh_recent : ∃ t, m !! "recent" = Some t ∧ flips_Unmarshal t = inl (Recent e);
  eh_agg : m !! "agg_until_ts" = Some (FormatInt (AggUntilTS e));
  eh_ver : m !! "ver" = Some (FormatInt ver);
}.

Lemma edge_hash_decode k e ver m :
  edge_typed e → is_int64 ver → edge_hash e ver m → decode_edge k m = inl (stored k e, ver).
Proof.
  intros [_ Hc Hs Hn _ Ha] Hv [H1 H2 H3 H4 (t & H5 & Ht) H6 H7].
  unfold decode_edge, field. rewrite H1, H2, H3, H4, H5, H6, H7. cbn [default id from_option].
  by rewrite !ParseInt_FormatInt, Atoi_FormatInt, Ht by done.
Qed.

Lemma redis_edge_hash t s n c k e ver :
  edge_typed e → is_int64 ver → rd_ttl s (getDataKeyName c k) = None →
  edge_hash e ver (rd_hash t s (getDataKeyName c k)) →
  redis_edge (s, n) c k = Some (stored k e, ver).
Proof.
  intros Ht Hv Hd Hh. destruct (rd_persistent t (stime n) _ _ Hd) as [Heq _]. rewrite Heq in Hh.
  unfold redis_edge. simpl. rewrite decide_True.
  - by rewrite (edge_hash_decode k e ver).
  - split; [done|]. intros Hm. destruct Hh as [H1 _ _ _ _ _ _]. rewrite Hm in H1. done.
Qed.

Lemma create_hash k next t m :
  flips_Unmarshal t = inl (Recent next) →
  edge_hash next 1 (hmset (create_fields (set_Version 1 (set_ScopeKey k next)) t) m).
Proof. intros Ht. split; simpl; simplify_map_eq; eauto. Qed.

Lemma update_hash k next t v m :
  flips_Unmarshal t = inl (Recent next) → 0 < v < int64_max →
  edge_hash next (v + 1) (hmset (update_fields (set_ScopeKey k next) t v) m).
Proof.
  intros Ht Hv. assert (int64 (v + 1) = v + 1) as Hi by (apply int64_id; int_lia).
  split; simpl; rewrite ?Hi; simplify_map_eq; eauto.
Qed.

(** C32: used by one process at a time, an update is a compare-and-set: it reports
    success exactly when the stored version is the one given, and then the edge is
    stored with the next version; otherwise the state is left alone. *)
Theorem redis_update_is_cas s n c k e0 v0 prev next ok s' :
  rd_hash (stime n) s (getDataKeyName c k) !! "ver" = Some (FormatInt v0) → is_int64 v0 →
  redis_edge (s, n) c k = Some (e0, v0) →
  edge_typed next → 0 < prev < int64_max →
  redis_handler _ (UpsertCAS c k prev next) (s, n) = (Some (ok, None), s') →
  if decide (prev = v0) then ok = true ∧ redis_edge s' c k = Some (stored k next, prev + 1)
  else ok = false ∧ redis_edge s' c k = redis_edge (s, n) c k.
Proof.
  intros Hver Hv0 Hedge Hty Hprev. pose proof Hedge as Hedge'. unfold redis_edge in Hedge'. simpl in Hedge'.
  case_decide as Hd; [|done]. destruct Hd as [Hd Hne]. clear Hedge'.
  unfold redis_handler, redis_data, redis_UpsertCAS. rewrite decide_False by lia. prog_simpl.
  destruct (h _ _ (HMGet (getDataKeyName c k) "ver") s) as [[[vs err]|] s1] eqn:Hget; [|done].
  apply rd_hmget in Hget as (-> & Hvs & Hnil). destruct err as [err|].
  { by rewrite (Hnil err eq_refl). }
  rewrite (Hvs eq_refl), Hver. simpl. rewrite decide_False; last first.
  { intros He. apply ParseInt_FormatInt in Hv0. by rewrite He in Hv0. }
  rewrite ParseInt_FormatInt by done. destruct (decide (prev = v0)) as [->|Hne']; last first.
  { rewrite decide_True by congruence. intros [= <- <-]. split; [done|]. apply redis_edge_time. }
  rewrite decide_False by auto. pose proof Hty as [_ _ _ _ Hr _].
  destruct (flips_roundtrip _ Hr) as (t & Ht & Hun). simpl. rewrite Ht. simpl.
  destruct (h _ _ (HMSet _ _) s) as [[err|] s2] eqn:Hset; [|done].
  apply rd_hmset in Hset as (_ & Hdone). intros [= <- -> <-]. split; [done|].
  destruct (Hdone eq_refl) as [Hh Hd']. rewrite Hd in Hd'.
  apply (redis_edge_hash (stime (S n))); [done|int_lia|by case_decide|]. rewrite Hh. by apply update_hash.
Qed.

(** Creating a state overwrites an existing one: with version 0 the write
    succeeds whatever is stored, although the interface asks that nothing be
    stored, and the version starts over at 1. *)
Theorem redis_create_overwrites s n c k next ok s' :
  rd_ttl s (getDataKeyName c k) = None → edge_typed next →
  redis_handler _ (UpsertCAS c k 0 next) (s, n) = (Some (ok, None), s') →
  ok = true ∧ redis_edge s' c k = Some (stored k next, 1).
Proof.
  intros Hd Hty. unfold redis_handler, redis_data, redis_UpsertCAS. rewrite decide_True by done.
  pose proof Hty as [_ _ _ _ Hr _]. destruct (flips_roundtrip _ Hr) as (t & Ht & Hun). simpl. rewrite Ht. simpl.
  destruct (h _ _ (HMSet _ _) s) as [[[err|]|] s2] eqn:Hset; [done| |done].
  apply rd_hmset in Hset as (_ & Hdone). intros [= <- <-]. split; [done|].
  destruct (Hdone eq_refl) as [Hh Hd']. rewrite Hd in Hd'.
  apply (redis_edge_hash (stime n)); [done|int_lia|by case_decide|]. rewrite Hh. by apply create_hash.
Qed.

(** A [Load] that does not fail returns exactly the stored edge and its version
    (so what a successful write stored), and changes nothing. *)
Theorem redis_load_reads_edge s n c k e ver st v s' :
  redis_edge (s, n) c k = Some (e, ver) →
  redis_handler _ (Load c k) (s, n) = (Some (st, v, None), s') →
  (st, v) = (Some e, ver) ∧ s'.1 = s.
Proof.
  unfold redis_edge, redis_handler, redis_data, redis_Load. simpl.
  destruct (h _ _ (HGetAll (getDataKeyName c k)) s) as [[[m err]|] s1] eqn:Hget; [|done].
  apply rd_hgetall in Hget as (-> & Hm & Hnil). case_decide as Hd; [|done]. destruct Hd as [_ Hne].
  destruct err as [err|]; [by rewrite (Hnil err eq_refl)|rewrite (Hm eq_refl), decide_False by done].
  destruct (decode_edge k _) as [[e' v']|]; [|done]. intros [= -> ->]. by intros [= <- <- <-].
Qed.

(** An unknown client is not reported as [ErrNotFound], which the interface
    asks for: the error of the Redis client is passed on. *)
Theorem redis_unknown_client s n id cc err s' :
  rd_text (stime n) s (getClientKey id) = None →
  run rback_handler (redis_GetClientConfig id) (s, n) = (Some (cc, err), s') →
  ∃ e, err = Some e ∧ errors_Is e ErrNotFound = false.
Proof.
  intros Hnone. unfold redis_GetClientConfig. simpl.
  destruct (h _ _ (Get (getClientKey id)) s) as [[[v e]|] s1] eqn:Hget; [|done].
  apply rd_get in Hget as [-> Hv]. rewrite Hnone in Hv.
  destruct Hv as [->|(code & msg & ->)]; intros [= <- <- <-]; eauto.
Qed.

(** [ListClients] never finds a client: the pattern it gives to [KEYS] has no
    wildcard, so only the bare prefix can match. *)
Theorem redis_list_clients_empty s n ids err s' :
  run rback_handler redis_ListClients (s, n) = (Some (ids, err), s') → ids = [].
Proof.
  unfold redis_ListClients. simpl.
  destruct (h _ _ (Keys (getClientKey "")) s) as [[[ks e]|] s1] eqn:Hk; [|done].
  apply rd_keys in Hk as (-> & Hks & _). destruct e as [e|]; [by intros [= <- <- <-]|].
  intros [= <- <- <-]. specialize (Hks eq_refl eq_refl).
  induction ks as [|k ks IH]; [done|]. simpl. rewrite (Hks k) by by left. simpl.
  apply IH. intros k' Hk'. apply Hks. by right.
Qed.

End redis.

(** ** Keys *)

Lemma sep_first_inj {A} (x : A) u u' l l' :
  x ∉ u → x ∉ u' → u ++ x :: l = u' ++ x :: l' → u = u' ∧ l = l'.
Proof.
  revert u'. induction u as [|y u IH]; intros [|y' u'] Hu Hu' Heq; simplify_eq/=.
  - done.
  - exfalso. apply Hu'. by left.
  - exfalso. apply Hu. by left.
  - destruct (IH u') as [-> ->]; [| |done|done].
    + intros ?. apply Hu. by right.
    + intros ?. apply Hu'. by right.
Qed.

Lemma sep_last_inj {A} (x : A) l l' u u' :
  x ∉ u → x ∉ u' → l ++ x :: u = l' ++ x :: u' → l = l' ∧ u = u'.
Proof.
  intros Hu Hu' Heq. apply (f_equal reverse) in Heq.
  rewrite !reverse_app, !reverse_cons, <- !app_assoc in Heq. simpl in Heq.
  apply sep_first_inj in Heq as [H1 H2]; [|by rewrite elem_of_reverse..].
  by apply (inj reverse) in H1, H2.
Qed.

Lemma FormatUint_no_underscore u : 0 <= u → "_"%char ∉ bytes (FormatUint u).
Proof.
  intros Hu Hin. pose proof (FormatUint_digits u Hu) as Hd. rewrite Forall_forall in Hd. apply Hd in Hin.
  unfold is_digit in Hin. vm_compute in Hin. by destruct Hin as [_ []].
Qed.

Lemma FormatInt_no_underscore z : "_"%char ∉ bytes (FormatInt z).
Proof.
  unfold FormatInt. case_decide; [|apply FormatUint_no_underscore; lia]. rewrite bytes_app.
  intros [Hin|Hin]%elem_of_app; [by apply list_elem_of_singleton in Hin|].
  by apply FormatUint_no_underscore in Hin; [|lia].
Qed.

Lemma ComputeKey_no_underscore f : "_"%char ∉ bytes (ComputeKey f).
Proof.
  unfold ComputeKey. rewrite bytes_app. intros [Hin|Hin]%elem_of_app; [by apply list_elem_of_singleton in Hin|].
  pose proof (fnv32a_range f). by apply FormatUint_no_underscore in Hin; [|lia].
Qed.

Lemma ComputeKey_hash f f' : ComputeKey f = ComputeKey f' ↔ fnv32a f = fnv32a f'.
Proof.
  unfold ComputeKey. split; [|by intros ->]. intros Heq%string_app_inj_l. apply (f_equal parse_uint) in Heq.
  pose proof (fnv32a_range f). pose proof (fnv32a_range f').
  rewrite !parse_uint_FormatUint in Heq by (unfold max_uint64; lia). congruence.
Qed.

Lemma data_key_inj c c' f f' :
  getDataKeyName c (ComputeKey f) = getDataKeyName c' (ComputeKey f') → c = c' ∧ ComputeKey f = ComputeKey f'.
Proof.
  unfold getDataKeyName. intros Heq%string_app_inj_l.
  apply (f_equal bytes) in Heq. rewrite !bytes_app in Heq.
  change (bytes "_s" ++ ?l) with ("_"%char :: "s"%char :: l) in Heq.
  apply sep_last_inj in Heq as [H1 H2].
  - apply (f_equal tail) in H2. split; by apply bytes_inj.
  - intros [?|?]%elem_of_cons; [done|by apply (ComputeKey_no_underscore f)].
  - intros [?|?]%elem_of_cons; [done|by apply (ComputeKey_no_underscore f')].
Qed.

Lemma window_key_inj scope scope' m m' :
  is_int64 m → is_int64 m' → getWindowKeyName scope m = getWindowKeyName scope' m' → scope = scope' ∧ m = m'.
Proof.
  unfold getWindowKeyName. intros Hm Hm' Heq%string_app_inj_l.
  apply (f_equal bytes) in Heq. rewrite !bytes_app in Heq.
  change (bytes "_" ++ ?l) with ("_"%char :: l) in Heq.
  apply sep_last_inj in Heq as [H1%bytes_inj H2%bytes_inj]; [|apply FormatInt_no_underscore..].
  split; [done|]. by apply FormatInt_inj.
Qed.

(** C37: which keys coincide, whatever characters client identifiers and scopes
    contain. The flow's data keys of two scopes are equal exactly for the same
    client and scope fields with the same 32-bit hash; window keys exactly for the
    same scope and minute; configuration keys exactly for the same client. Keys of
    different kinds are never equal. *)
Theorem redis_keys_apart c c' f f' scope scope' m m' id id' :
  is_int64 m → is_int64 m' →
  (getDataKeyName c (ComputeKey f) = getDataKeyName c' (ComputeKey f') ↔ c = c' ∧ fnv32a f = fnv32a f') ∧
  (getWindowKeyName scope m = getWindowKeyName scope' m' ↔ scope = scope' ∧ m = m') ∧
  (getClientKey id = getClientKey id' ↔ id = id') ∧
  getDataKeyName c (ComputeKey f) ≠ getWindowKeyName scope m ∧
  getDataKeyName c (ComputeKey f) ≠ getClientKey id ∧
  getWindowKeyName scope m ≠ getClientKey id.
Proof.
  intros Hm Hm'. split_and!; [| | |done..].
  - rewrite <- ComputeKey_hash. split; [apply data_key_inj|]. by intros [-> ->].
  - split; [by apply window_key_inj|]. by intros [-> ->].
  - split; [apply string_app_inj_l|]. by intros ->.
Qed.

(** Two clients whose identifiers contain the separator. *)
Lemma redis_keys_apart_witness :
  getDataKeyName "a_se1" (ComputeKey "x") = getDataKeyName "a" (ComputeKey "y") ↔
  "a_se1" = "a" ∧ fnv32a "x" = fnv32a "y".
Proof. apply (redis_keys_apart "a_se1" "a" "x" "y" "IP:1" "IP:1" 0 1 "a" "b"); int_lia. Defined.

(** ** Witnesses *)

Definition redis_mem : handler RBackE (RedisMem * nat) := rback_handler mem_redis (λ _, 0) (λ _, 0).

Definition edge_a : Edge := mkEdge "k" "a" 5 5 1 [mkFlip 5 "z" "a" "p"] 0 0.
Definition edge_b : Edge := mkEdge "k" "b" 6 5 1 [mkFlip 6 "z" "b" "q"] 0 0.

Lemma edge_a_typed : edge_typed edge_a.
Proof. split; try done. apply Forall_singleton. by split. Qed.
Lemma edge_b_typed : edge_typed edge_b.
Proof. split; try done. apply Forall_singleton. by split. Qed.

(** A server that holds the value [z] of a scope in version 1. *)
Definition redis_start : RedisMem * nat :=
  (run redis_mem (redis_UpsertCAS "c" "k" 0 (mkEdge "" "z" 1 1 0 [] 0 0)) (redis_empty, 0%nat)).2.

Definition redis_demo : handler DataStoreE (RedisMem * nat) := redis_handler mem_redis (λ _, 0) (λ _, 0).

Lemma redis_update_is_cas_witness :
  true = true ∧
  redis_edge mem_redis (λ _, 0) (redis_demo _ (UpsertCAS "c" "k" 1 edge_b) (redis_start.1, 0%nat)).2 "c" "k" =
  Some (stored "k" edge_b, 2).
Proof.
  refine (redis_update_is_cas mem_redis (λ _, 0) (λ _, 0) redis_start.1 0 "c" "k" (mkEdge "k" "z" 1 1 0 [] 0 0) 1 1
            edge_b true _ _ _ _ edge_b_typed _ (pair_fst_snd _ _ _)).
  - vm_compute. reflexivity.
  - int_lia.
  - vm_compute. reflexivity.
  - int_lia.
  - vm_compute. reflexivity.
Defined.

Lemma redis_create_overwrites_witness :
  true = true ∧
  redis_edge mem_redis (λ _, 0) (redis_demo _ (UpsertCAS "c" "k" 0 edge_b) (redis_start.1, 0%nat)).2 "c" "k" =
  Some (stored "k" edge_b, 1).
Proof.
  refine (redis_create_overwrites mem_redis (λ _, 0) (λ _, 0) redis_start.1 0 "c" "k" edge_b true _ _ edge_b_typed
            (pair_fst_snd _ _ _)).
  - vm_compute. reflexivity.
  - vm_compute. reflexivity.
Defined.

Lemma redis_load_reads_edge_witness :
  (Some (mkEdge "k" "z" 1 1 0 [] 0 0), 1) = (Some (mkEdge "k" "z" 1 1 0 [] 0 0), 1).
Proof.
  refine (proj1 (redis_load_reads_edge mem_redis (λ _, 0) (λ _, 0) redis_start.1 0 "c" "k"
            (mkEdge "k" "z" 1 1 0 [] 0 0) 1 (Some (mkEdge "k" "z" 1 1 0 [] 0 0)) 1 _ _ (pair_fst_snd _ _ _))).
  - vm_compute. reflexivity.
  - vm_compute. reflexivity.
Defined.

Lemma redis_unknown_client_witness :
  ∃ e, Some (Sentinel RedisNil) = Some e ∧ errors_Is e ErrNotFound = false.
Proof.
  refine (redis_unknown_client mem_redis (λ _, 0) (λ _, 0) redis_empty 0 "acme" zeroClientConfig
            (Some (Sentinel RedisNil)) _ _ (pair_fst_snd _ _ _)).
  - reflexivity.
  - vm_compute. reflexivity.
Defined.

Lemma redis_list_clients_empty_witness : ([] : list string) = [].
Proof.
  refine (redis_list_clients_empty mem_redis (λ _, 0) (λ _, 0)
            (mkRedisMem ∅ {[ getClientKey "acme" := "acme" ]} ∅) 0 [] None _ (pair_fst_snd _ _ _)).
  vm_compute. reflexivity.
Defined.
