(* ===== verification/RedisSeq.v ===== *)
(** * The Redis stores used by one process at a time

    The rate limit is exact as long as the window's key lives, configurations are
    read back, and [ClearAll] removes the configurations but not the rate windows. *)

From S2P Require Import Prelude Errors Strconv Text Types Effects Ports StoreSpec Tags Ddb RedisSpec RedisStore Ttl Flow RedisProps.

Section redis.
Context {St : Type} (h : Z → handler RedisE St) `{!Redis h} `{!RedisJson} `{!RedisJsonLaws}.
Context (clock stime : nat → Z).

#[local] Notation back := (rback_handler h clock stime).

(** ** The rate limit *)

Section window.
Context (scope : string) (m T E : Z).

(** The calls from the [n]th on, [k] of them, are made in the minute [m] and served
    between the times [T] and [E]. *)
Definition timely (n k : nat) : Prop :=
  ∀ i, (n <= i < n + k)%nat → epoch_minute (clock i) = m ∧ T <= stime i < E.

(** The key of the window lives until [E] and has the count [z]. *)
Definition window_count (s : St) (z : Z) : Prop :=
  (∀ d, rd_ttl s (getWindowKeyName scope m) = Some d → E <= d) ∧
  counter (rd_hash T s (getWindowKeyName scope m)) "count" z.

#[local] Notation key := (getWindowKeyName scope m).

Lemma window_at s z t : window_count s z → T <= t < E → rd_hash t s key = rd_hash T s key.
Proof. intros [Hd _] Ht. apply rd_alive. intros d Hs. specialize (Hd d Hs). lia. Qed.

Lemma incr_count s z t s' :
  window_count s z → T <= t < E → is_int64 z → is_int64 (z + 1) →
  h t _ (HIncrBy key "count" 1) s = (Some None, s') →
  window_count s' (z + 1) ∧ rd_hash t s' key ≠ ∅.
Proof.
  intros Hw Ht Hi Hi' Hinc. pose proof (window_at s z t Hw Ht) as Hat. destruct Hw as [Hd Hc].
  apply rd_hincrby in Hinc as [_ Hnew]. rewrite <- Hat in Hc.
  destruct (Hnew eq_refl z Hc Hi Hi') as [Hh Hd'].
  assert (∀ d, rd_ttl s' key = Some d → E <= d) as Hlive by (rewrite Hd'; case_decide; naive_solver).
  split; [|rewrite Hh; apply insert_non_empty]. split; [done|].
  rewrite (proj1 (rd_alive s' key T t ltac:(intros d Hs; specialize (Hlive d Hs); lia))), Hh.
  left. apply lookup_insert_eq.
Qed.

Lemma expire_count s z t d s' :
  window_count s z → T <= t < E → rd_hash t s key ≠ ∅ → E <= T + expire_seconds d * Second →
  h t _ (Expire key d) s = (Some None, s') → window_count s' z.
Proof.
  intros Hw Ht Hne HE Hexp. pose proof (window_at s z t Hw Ht) as Hat. destruct Hw as [_ Hc].
  apply rd_expire in Hexp as [_ Hnew]. specialize (Hnew eq_refl Hne). unfold Second in *.
  rewrite decide_True in Hnew by lia. destruct Hnew as [Hh Hd'].
  assert (∀ d', rd_ttl s' key = Some d' → E <= d') as Hlive by (rewrite Hd'; intros d' [= <-]; lia).
  split; [done|].
  by rewrite (proj1 (rd_alive s' key T t ltac:(intros d' Hs; specialize (Hlive d' Hs); lia))), Hh, Hat.
Qed.

Lemma FormatInt_nonempty z : is_int64 z → FormatInt z ≠ "".
Proof. intros Hz He. apply ParseInt_FormatInt in Hz. by rewrite He in Hz. Qed.

(** One acquire that does not fail: granted exactly when the count is below the
    limit, and then counted. *)
Lemma acquire_once s n cap window z ok s' n' :
  0 < cap → is_int64 cap → 0 <= z → is_int64 z →
  timely n 4 → E <= T + expire_seconds (int64 (2 * window)) * Second →
  window_count s z →
  run back (redis_Acquire scope cap window) (s, n) = (Some (ok, None), (s', n')) →
  (n <= n' <= n + 4)%nat ∧ ok = bool_decide (z < cap) ∧ window_count s' (z + Z.b2z ok).
Proof.
  intros Hcap Hci Hz Hi Htime HE Hw. unfold redis_Acquire. rewrite decide_False by lia. prog_simpl.
  destruct (Htime n) as [-> _]; [lia|]. destruct (Htime (S n)) as [_ H1]; [lia|].
  destruct (Htime (S (S n))) as [_ H2]; [lia|]. destruct (Htime (S (S (S n)))) as [_ H3]; [lia|].
  destruct (h _ _ (HGet key "count") s) as [[[v err]|] s1] eqn:Hget; [|done].
  apply rd_hget in Hget as [-> Hv]. rewrite (window_at s z _ Hw H1) in Hv.
  pose proof Hw as [_ [Hsome|[Hnone ->]]].
  - rewrite Hsome in Hv. destruct Hv as [Hv Hnil]. destruct err as [err|]; [by rewrite (Hnil err eq_refl)|].
    rewrite (Hv eq_refl), decide_True, Atoi_FormatInt by (done || by apply FormatInt_nonempty).
    destruct (decide (z >= cap)) as [Hge|Hlt].
    + intros [= <- <- <-]. rewrite bool_decide_false by lia. simpl. rewrite Z.add_0_r. split; [lia|done].
    + simpl. destruct (h _ _ (HIncrBy _ "count" 1) s) as [[[err|]|] s2] eqn:Hinc; [done| |done].
      intros [= <- <- <-]. rewrite bool_decide_true by lia. split_and!; [lia..|done|].
      by apply (incr_count s z _ s2 Hw H2 Hi); [int_lia|].
  - rewrite Hnone in Hv. destruct Hv as [err0 ->]. destruct (errors_Is err0 RedisNil); [|done]. simpl.
    destruct (h _ _ (HIncrBy _ "count" 1) s) as [[[err|]|] s2] eqn:Hinc; [done| |done]. simpl.
    destruct (h _ _ (Expire _ _) s2) as [[[err|]|] s3] eqn:Hexp; [done| |done].
    intros [= <- <- <-]. rewrite bool_decide_true by lia. split_and!; [lia..|done|].
    destruct (incr_count s 0 _ s2 Hw H2 Hi ltac:(int_lia) Hinc) as [Hw2 Hne].
    assert (rd_hash (stime (S (S (S n)))) s2 key ≠ ∅) as Hne'.
    { by rewrite (window_at s2 _ _ Hw2 H3), <- (window_at s2 _ _ Hw2 H2). }
    by eapply expire_count.
Qed.

End window.

(** Acquires in one scope, one after the other. *)
Fixpoint acquire_all (scope : string) (cap : Z) (windows : list Z) : prog RBackE (list (bool * option error)) :=
  match windows with
  | [] => mret []
  | window :: windows =>
      r ← redis_Acquire scope cap window;
      rs ← acquire_all scope cap windows;
      mret (r :: rs)
  end.

Definition granted_count (rs : list (bool * option error)) : Z :=
  Z.of_nat (length (List.filter fst rs)).

Lemma timely_sub m T E n k n' k' : timely m T E n k → (n <= n')%nat → (n' + k' <= n + k)%nat → timely m T E n' k'.
Proof. intros Ht H1 H2 i Hi. apply Ht. lia. Qed.

Lemma acquire_all_count scope cap m T E windows s n z rs s' :
  0 < cap → is_int64 cap → 0 <= z → is_int64 z →
  timely m T E n (4 * length windows) →
  Forall (λ window, E <= T + expire_seconds (int64 (2 * window)) * Second) windows →
  window_count scope m T E s z →
  run back (acquire_all scope cap windows) (s, n) = (Some rs, s') →
  Forall (λ r, r.2 = None) rs →
  granted_count rs = Z.min (Z.of_nat (length windows)) (Z.max 0 (cap - z)).
Proof.
  intros Hcap Hci. revert s n z rs s'. induction windows as [|window windows IH]; intros s n z rs s' Hz Hi Ht HE Hw.
  { intros [= <- <-] _. unfold granted_count. simpl. lia. }
  apply Forall_cons in HE as [HE1 HE]. cbn [acquire_all]. unfold mbind, prog_mbind. rewrite run_bind.
  destruct (run back (redis_Acquire scope cap window) (s, n)) as [[[ok err]|] [s1 n1]] eqn:H1; [|done].
  rewrite run_bind. destruct (run back (acquire_all scope cap windows) (s1, n1)) as [[rs1|] s2] eqn:H2; [|done].
  intros [= <- <-] [Herr Hrs]%Forall_cons. simpl in Herr. subst err. cbn [length] in Ht.
  apply (acquire_once scope m T E s n cap window z) in H1 as (Hn1 & Hok & Hw1);
    [|done..|by eapply timely_sub; [done|lia..]|done|done].
  assert (granted_count ((ok, None) :: rs1) = Z.b2z ok + granted_count rs1) as ->.
  { unfold granted_count. destruct ok; simpl; lia. }
  rewrite (IH s1 n1 (z + Z.b2z ok) rs1 s2); [|destruct ok; simpl; lia| | |done..].
  - cbn [length]. case_bool_decide; subst ok; simpl; lia.
  - case_bool_decide; subst ok; simpl; [int_lia|by rewrite Z.add_0_r].
  - eapply timely_sub; [done|lia..].
Qed.

(** C27: used by one process at a time, the rate limit is exact: of any number of
    acquires of a scope in one minute that do not fail, exactly the capacity that
    is left is granted, no less and no more, provided that they are served within
    the time to live they give to the window's key (two windows) and that a key
    that is already there lives as long. *)
Theorem redis_rate_sequential scope cap m T E windows s n z rs s' :
  0 < cap → is_int64 cap → 0 <= z → is_int64 z →
  timely m T E n (4 * length windows) →
  Forall (λ window, E <= T + expire_seconds (int64 (2 * window)) * Second) windows →
  window_count scope m T E s z →
  run back (acquire_all scope cap windows) (s, n) = (Some rs, s') →
  Forall (λ r, r.2 = None) rs →
  granted_count rs = Z.min (Z.of_nat (length windows)) (Z.max 0 (cap - z)).
Proof. apply acquire_all_count. Qed.

(** ** The client store *)

(** What [GetClientConfig] returns when its request fails: the error of the client
    library, and no configuration. *)
Definition redis_get_failed (s : St * nat) (id : string) (cc : ClientConfig) (err : option error) : Prop :=
  ∃ v e s', h (stime s.2) _ (Get (getClientKey id)) s.1 = (Some (v, Some e), s') ∧
            err = Some e ∧ cc = zeroClientConfig.

(** C26: a stored configuration is returned as it was stored, at any later time:
    after a successful [PutClientConfig], which only accepts valid configurations,
    [GetClientConfig] gives it back, unless its request fails, whose error is then
    returned; the configurations of other clients are untouched. *)
Theorem redis_config_roundtrip s n id cc s1 cc' err s2 :
  config_typed cc →
  run back (redis_PutClientConfig id cc) (s, n) = (Some None, s1) →
  run back (redis_GetClientConfig id) s1 = (Some (cc', err), s2) →
  valid_config cc ∧ ((cc', err) = (cc, None) ∨ redis_get_failed s1 id cc' err) ∧
  (∀ id' t, id' ≠ id → rd_text t s1.1 (getClientKey id') = rd_text t s (getClientKey id')).
Proof.
  intros Hty. unfold redis_PutClientConfig.
  destruct (Validate cc) as [e|] eqn:Hval; [done|]. apply Validate_valid in Hval.
  destruct (config_roundtrip cc Hty) as (x & -> & Hun). simpl.
  destruct (h _ _ (SetKey (getClientKey id) x) s) as [[e|] s'] eqn:Hset; [|done]. intros [= -> <-].
  apply rd_set in Hset as [Hframe Hnow]. destruct (Hnow eq_refl) as [Htext Hd].
  unfold redis_GetClientConfig. simpl.
  destruct (h _ _ (Get (getClientKey id)) s') as [[[v e]|] s3] eqn:Hget; [|done].
  pose proof Hget as Hget'. apply rd_get in Hget' as [-> Hv].
  rewrite (proj2 (rd_persistent (stime (S n)) (stime n) _ _ Hd)), Htext in Hv.
  intros Hres. split; [done|]. split.
  - destruct e as [e|]; [right; simplify_eq/=; unfold redis_get_failed; eauto 10|].
    rewrite (Hv eq_refl), Hun in Hres. simplify_eq/=. by left.
  - intros id' t Hne. apply Hframe. by intros ?%string_app_inj_l.
Qed.

(** *** [ClearAll] *)

(** What a pattern can match begins with its literal part. *)
Lemma literal_prefix_app p l :
  Forall (λ c, existsb (Ascii.eqb c) ["*"%char; "?"%char; "["%char; "\"%char] = false) p →
  literal_prefix (p ++ l) = p ++ literal_prefix l.
Proof. induction 1 as [|c p Hc _ IH]; [done|]. cbn [literal_prefix app]. by rewrite Hc, IH. Qed.

Lemma has_prefix_app p q l : has_prefix (p ++ q) l = true → has_prefix p l = true.
Proof. rewrite !has_prefix_of. intros Hp. etrans; [|exact Hp]. by apply prefix_app_r. Qed.

(** Keys of another kind are not matched. *)
Lemma window_not_data scope m cid k :
  has_prefix (literal_prefix (bytes (getDataKeyName cid "*"))) (bytes k) = true → k ≠ getWindowKeyName scope m.
Proof.
  unfold getDataKeyName. rewrite bytes_app, literal_prefix_app by (repeat constructor).
  intros Hp%has_prefix_app ->. unfold getWindowKeyName in Hp. rewrite bytes_app in Hp. by vm_compute in Hp.
Qed.

Lemma window_not_config scope m k :
  has_prefix (literal_prefix (bytes (getClientKey "*"))) (bytes k) = true → k ≠ getWindowKeyName scope m.
Proof. intros Hp ->. unfold getWindowKeyName in Hp. rewrite bytes_app in Hp. by vm_compute in Hp. Qed.

(** The effect of deleting keys that are no windows: the windows stay, and no
    configuration appears. *)
Definition cleared (s s' : St) : Prop :=
  (∀ scope m, rd_ttl s' (getWindowKeyName scope m) = rd_ttl s (getWindowKeyName scope m) ∧
     ∀ t, rd_hash t s' (getWindowKeyName scope m) = rd_hash t s (getWindowKeyName scope m)) ∧
  (∀ t key, rd_text t s key = None → rd_text t s' key = None).

Lemma cleared_trans s1 s2 s3 : cleared s1 s2 → cleared s2 s3 → cleared s1 s3.
Proof.
  intros [H1 H2] [H3 H4]. split; [|auto]. intros scope m.
  destruct (H1 scope m) as [<- H1'], (H3 scope m) as [<- H3']. split; [done|]. intros t. by rewrite H3'.
Qed.

Lemma del_cleared t s keys err s' :
  (∀ scope m, getWindowKeyName scope m ∉ keys) → h t _ (Del keys) s = (Some err, s') → cleared s s'.
Proof.
  intros Hw Hdel. apply rd_del in Hdel as (Hf & _ & Ht). split; [|done]. intros scope m.
  destruct (Hf _ (Hw scope m)) as [Hd Hc]. split; [done|]. intros t'. by apply Hc.
Qed.

Lemma redis_replies t X (e : RedisE X) s s' : h t X e s = (None, s') → False.
Proof. destruct (rd_total t X e s) as (x & s1 & ->). done. Qed.

Lemma clear_data_cleared keys s n r s' n' :
  run back (clear_data keys) (s, n) = (r, (s', n')) → cleared s s'.
Proof.
  revert s n. induction keys as [|key keys IH]; intros s n; [by intros [= <- <- <-]|].
  cbn [clear_data]. destruct (decide (prefixLen <= String.length key)%nat); simpl; [|by intros [= <- <- <-]].
  destruct (h _ _ (Keys _) s) as [[[ks err]|] s1] eqn:Hk; [|by apply redis_replies in Hk].
  apply rd_keys in Hk as (-> & _ & Hpre & _). destruct err as [err|]; [apply IH|].
  destruct ks as [|k ks]; [apply IH|]. simpl.
  destruct (h _ _ (Del (k :: ks)) s) as [[err|] s1] eqn:Hd; [|by apply redis_replies in Hd].
  intros Hrun. eapply cleared_trans; [|by eapply IH]. eapply del_cleared; [|done].
  intros scope m Hin. by apply (Hpre eq_refl), (window_not_data scope m) in Hin.
Qed.

(** C38: [ClearAll] does not clear everything. When it succeeds no configuration is
    left from then on, but every rate window has the count and the deadline it had
    before, although the interface says that all data is purged. *)
Theorem redis_clear_keeps_windows s n s' :
  run back redis_ClearAll (s, n) = (Some None, s') →
  (∀ id t, stime n <= t → rd_text t s'.1 (getClientKey id) = None) ∧
  (∀ scope m, rd_ttl s'.1 (getWindowKeyName scope m) = rd_ttl s (getWindowKeyName scope m) ∧
     ∀ t, rd_hash t s'.1 (getWindowKeyName scope m) = rd_hash t s (getWindowKeyName scope m)).
Proof.
  unfold redis_ClearAll, mbind, prog_mbind. rewrite run_bind, run_trigger. simpl.
  destruct (h _ _ (Keys (getClientKey "*")) s) as [[[ks err]|] s1] eqn:Hk; [|done].
  apply rd_keys in Hk as (-> & _ & Hpre & Hall). destruct err as [err|]; [done|].
  assert (∀ id t, stime n <= t → getClientKey id ∉ ks → rd_text t s (getClientKey id) = None) as Hcfg.
  { intros id t Ht Hni. apply (rd_text_gone (stime n) t _ _ Ht), eq_None_not_Some. intros Hid. apply Hni.
    apply (Hall eq_refl "_enoti_cfg_"); [done|done| |done].
    apply has_prefix_of. unfold getClientKey. rewrite bytes_app. by eexists. }
  destruct ks as [|k ks].
  { intros [= <-]. split; [|done]. intros id t Ht. apply Hcfg; [done|]. by intros ?%elem_of_nil. }
  unfold mbind, prog_mbind. rewrite run_bind.
  destruct (run back (clear_data (k :: ks)) (s, S n)) as [[[]|] [s1 n1]] eqn:Hc; [|done].
  apply clear_data_cleared in Hc. rewrite run_trigger. simpl.
  destruct (h _ _ (Del (k :: ks)) s1) as [[err|] s2] eqn:Hd; [|done]. intros [= -> <-].
  assert (∀ scope m, getWindowKeyName scope m ∉ k :: ks) as Hnw.
  { intros scope m Hin. by apply (Hpre eq_refl), (window_not_config scope m) in Hin. }
  pose proof (cleared_trans _ _ _ Hc (del_cleared _ _ _ _ _ Hnw Hd)) as [Hw Ht].
  apply rd_del in Hd as (_ & Hgone & _). split; [|done].
  intros id t Hn. destruct (decide (getClientKey id ∈ k :: ks)) as [Hin|Hni]; [by apply (Hgone eq_refl)|].
  by apply Ht, Hcfg.
Qed.

End redis.

(** ** Witnesses *)

(** Three acquires for two slots, in the first two minutes. *)
Lemma redis_rate_sequential_witness :
  granted_count [(true, None); (true, None); (false, None)] = Z.min 3 (Z.max 0 (2 - 0)).
Proof.
  refine (redis_rate_sequential mem_redis (λ _, 0) (λ i, Z.of_nat i * Second) "IP:1.2.3.4" 2 0 0 (120 * Second)
            [Minute; Minute; Minute] redis_empty 0 0 _ _ _ _ _ _ _ _ _ (pair_fst_snd _ _ _) _).
  - done.
  - int_lia.
  - done.
  - int_lia.
  - intros i Hi. split; [reflexivity|]. simpl in Hi. unfold Second. lia.
  - repeat constructor; vm_compute; discriminate.
  - split; [intros d Hd; discriminate Hd|]. right. split; reflexivity.
  - vm_compute. reflexivity.
  - repeat constructor.
Defined.

Definition redis_cc : ClientConfig :=
  mkClientConfig "acme" "Acme" "s3cret-key" 10 20 (mkPassthrough "" false)
    (mkTriggerConfig "v" ["host"] (mkTargetConfig "arn:t" 5) (Some (mkFlapConfig 300 0 3 10 0))).

Lemma redis_cc_typed : config_typed redis_cc.
Proof. split; repeat constructor; done. Qed.

Definition redis_put : option (option error) * (RedisMem * nat) :=
  run redis_mem (redis_PutClientConfig "acme" redis_cc) (redis_empty, 0%nat).

Lemma redis_config_roundtrip_witness : valid_config redis_cc ∧ redis_put.1 = Some None.
Proof.
  split; [|vm_compute; reflexivity].
  refine (proj1 (redis_config_roundtrip mem_redis (λ _, 0) (λ _, 0) redis_empty 0 "acme" redis_cc redis_put.2
            redis_cc None _ redis_cc_typed (pair_fst_snd _ _ _) (pair_fst_snd _ _ _))).
  - vm_compute. reflexivity.
  - vm_compute. reflexivity.
Defined.

(** A configuration, a scope and a window with two grants. *)
Definition redis_used : RedisMem :=
  mkRedisMem {[ getDataKeyName "acme" "e1" := {[ "ver" := "1" ]}; getWindowKeyName "IP:1.2.3.4" 0 := {[ "count" := "2" ]} ]}
    {[ getClientKey "acme" := "cfg" ]} {[ getWindowKeyName "IP:1.2.3.4" 0 := 120 * Second ]}.

Definition redis_after_clear : RedisMem * nat := (run redis_mem redis_ClearAll (redis_used, 0%nat)).2.

Example redis_clear_result :
  rm_get 0 redis_after_clear.1 (getDataKeyName "acme" "e1") = ∅ ∧
  rm_get 0 redis_after_clear.1 (getWindowKeyName "IP:1.2.3.4" 0) !! "count" = Some "2".
Proof. vm_compute. split; reflexivity. Qed.

Lemma redis_clear_keeps_windows_witness :
  rm_get 60 redis_after_clear.1 (getWindowKeyName "IP:1.2.3.4" 0) = rm_get 60 redis_used (getWindowKeyName "IP:1.2.3.4" 0).
Proof.
  refine (proj2 (proj2 (redis_clear_keeps_windows mem_redis (λ _, 0) (λ _, 0) redis_used 0 redis_after_clear
            (pair_fst_snd _ _ _)) "IP:1.2.3.4" 0) 60).
  vm_compute. reflexivity.
Defined.
