(* ===== verification/RedisRace.v ===== *)
(** * The Redis data store used by several processes

    A compare-and-set and an acquire are a read and a write, two requests. On any
    server that replies, processes that all read before the first of them writes
    are all told that they succeeded. *)

From S2P Require Import Prelude Errors Strconv Text Types Effects Ports StoreSpec Tags Ddb RedisSpec RedisStore Ttl Flow RedisProps RedisSeq.

Section race.
Context {St : Type} (h : Z → handler RedisE St) `{!Redis h} `{!RedisJson} `{!RedisJsonLaws}.
Context (clock stime : nat → Z) (Hreach : reachable_server h).

#[local] Notation back := (rback_handler h clock stime).

(** A reply of the server. *)
Lemma server_replies {X} (e : RedisE X) t s : ∃ r s', h t X e s = (Some r, s') ∧ replied e r.
Proof using Hreach Redis0. destruct (rd_total t X e s) as (r & s' & He). exists r, s'. split; [done|]. by eapply Hreach. Qed.

(** ** Lost updates *)

(** The writer after it has read the version [v]. *)
Definition writing (c k : string) (v : Z) (next : Edge) : prog RBackE (bool * option error) :=
  match flips_Marshal (Recent next) with
  | inr err => mret (false, Some err)
  | inl t =>
      err ← trigger (redisE (HMSet (getDataKeyName c k) (update_fields (set_ScopeKey k next) t v)));
      mret (true, err)
  end.

Section writers.
Context (c k : string) (v : Z) (nexts : list Edge).
Context (Hv : 0 < v < int64_max) (Htyped : Forall edge_typed nexts).

#[local] Notation key := (getDataKeyName c k).

Lemma read_round s n :
  rd_ttl s key = None → rd_hash (stime n) s key !! "ver" = Some (FormatInt v) →
  ∃ n', run_schedule back (round 1 (length nexts)) (redis_UpsertCAS c k v <$> nexts) (s, n) =
        (writing c k v <$> nexts, (s, n')).
Proof using All.
  intros Hd Hver.
  destruct (run_schedule_round back 1 (redis_UpsertCAS c k v) (writing c k v) (λ _ st, st.1 = s) nexts (s, n))
    as ([s' n'] & -> & Hs); [|done|simpl in Hs; subst; eauto].
  intros i next [s1 n1] Hi Hs. simpl in Hs. subst s1.
  destruct (server_replies (HMGet key "ver") (stime n1) s) as ([vs err] & s' & Hget & Hr).
  simpl in Hr. subst err. pose proof Hget as Hget'. apply rd_hmget in Hget' as (-> & Hvs & _).
  rewrite (proj1 (rd_persistent (stime n1) (stime n) _ _ Hd)), Hver in Hvs.
  unfold redis_UpsertCAS. rewrite decide_False by lia. simpl. rewrite Hget, (Hvs eq_refl). simpl.
  rewrite decide_False by (apply FormatInt_nonempty; int_lia). rewrite ParseInt_FormatInt by int_lia.
  rewrite decide_False by auto. by eexists.
Qed.

(** The state when [i] writers have written: the edge of the last of them. *)
Definition written (i : nat) (st : St * nat) : Prop :=
  rd_ttl st.1 key = None ∧
  ∀ next, nexts !! pred i = Some next → (0 < i)%nat → edge_hash next (v + 1) (rd_hash 0 st.1 key).

Lemma write_round s n :
  rd_ttl s key = None →
  ∃ st, run_schedule back (round 1 (length nexts)) (writing c k v <$> nexts) (s, n) =
        ((λ _, Ret (true, None)) <$> nexts, st) ∧ written (length nexts) st.
Proof using All.
  intros Hd. apply (run_schedule_round back 1 (writing c k v) (λ _, Ret (true, None)) written); [|split; [done|lia]].
  intros i next [s1 n1] Hi [Hd1 _]. simpl in Hd1.
  pose proof (Forall_lookup_1 _ _ _ _ Htyped Hi) as [_ _ _ _ Hr _].
  destruct (flips_roundtrip _ Hr) as (t & Ht & Hun). unfold writing. rewrite Ht.
  destruct (server_replies (HMSet key (update_fields (set_ScopeKey k next) t v)) (stime n1) s1)
    as (err & s2 & Hset & Hok). simpl in Hok. subst err.
  simpl. rewrite Hset. eexists. split; [done|].
  apply rd_hmset in Hset as [_ Hdone]. destruct (Hdone eq_refl) as [Hh Hd2]. rewrite Hd1 in Hd2.
  assert (rd_ttl s2 key = None) as Hd3 by (by case_decide). split; [done|].
  simpl. intros next' Hn' _. rewrite Hi in Hn'. injection Hn' as <-.
  rewrite (proj1 (rd_persistent 0 (stime n1) _ _ Hd3)), Hh. by apply update_hash.
Qed.

End writers.

(** C33: the compare-and-set is not atomic. On any server that replies to every
    request, let any number of processes update a scope from the version it is
    stored with. If all of them read the version before the first writes, all are
    told that they committed, and only the last update is there, one version on:
    the others are lost. *)
Theorem redis_cas_lost_update s n c k e0 v nexts next :
  rd_hash (stime n) s (getDataKeyName c k) !! "ver" = Some (FormatInt v) → 0 < v < int64_max →
  redis_edge h stime (s, n) c k = Some (e0, v) →
  Forall edge_typed (nexts ++ [next]) →
  let r := run_schedule back (round 1 (length (nexts ++ [next])) ++ round 1 (length (nexts ++ [next])))
             (redis_UpsertCAS c k v <$> nexts ++ [next]) (s, n) in
  r.1 = replicate (length (nexts ++ [next])) (Ret (true, None)) ∧
  redis_edge h stime r.2 c k = Some (stored k next, v + 1).
Proof using All.
  intros Hver Hv Hedge Hty. unfold redis_edge in Hedge. simpl in Hedge.
  case_decide as Hd; [|done]. destruct Hd as [Hd _].
  destruct (read_round c k v (nexts ++ [next]) Hv Hty s n Hd Hver) as [n1 Hread].
  destruct (write_round c k v (nexts ++ [next]) Hv Hty s n1 Hd) as ([s2 n2] & Hwrite & Hd2 & Hlast).
  rewrite run_schedule_app, Hread. cbn [fst snd]. rewrite Hwrite.
  cbn [fst snd] in *. split; [by apply const_fmap|].
  apply Forall_app in Hty as [_ Hn]. rewrite Forall_singleton in Hn.
  apply (redis_edge_hash h stime 0); [done|int_lia|done|].
  apply Hlast; [|rewrite length_app; simpl; lia].
  rewrite length_app. simpl. rewrite Nat.add_1_r. simpl. by apply list_lookup_middle.
Qed.

(** ** Exceeded limits *)

Section acquirers.
Context (scope : string) (m T E cap z : Z) (windows : list Z).
Context (Hz : 0 <= z < cap) (Hcap : is_int64 cap) (Hmax : z + Z.of_nat (length windows) <= int64_max).
Context (HE : Forall (λ window, E <= T + expire_seconds (int64 (2 * window)) * Second) windows).

#[local] Notation key := (getWindowKeyName scope m).

(** The process after it has read the count: absent, or below the limit. *)
Definition granting (absent : bool) (window : Z) : prog RBackE (bool * option error) :=
  err ← trigger (redisE (HIncrBy key "count" 1));
  match err with
  | Some err => mret (false, Some err)
  | None =>
      if absent then
        e2 ← trigger (redisE (Expire key (int64 (2 * window))));
        mret (match e2 with None => true | Some _ => false end, e2)
      else mret (true, None)
  end.

Lemma count_round s n :
  timely clock stime m T E n (2 * length windows) → window_count h scope m T E s z →
  ∃ absent, run_schedule back (round 2 (length windows)) (redis_Acquire scope cap <$> windows) (s, n) =
            (granting absent <$> windows, (s, (n + 2 * length windows)%nat)).
Proof using Hreach Redis0 Hz Hcap Hmax.
  intros Htime Hw. exists (bool_decide (rd_hash T s key !! "count" = None)).
  destruct (run_schedule_round back 2 (redis_Acquire scope cap)
              (granting (bool_decide (rd_hash T s key !! "count" = None)))
              (λ i st, st = (s, (n + 2 * i)%nat)) windows (s, n)) as (st & -> & ->); [|by rewrite Nat.mul_0_r, Nat.add_0_r|done].
  intros i window st Hi ->. apply lookup_lt_Some in Hi.
  destruct (Htime (n + 2 * i)%nat) as [Hm _]; [lia|]. destruct (Htime (S (n + 2 * i))) as [_ Ht]; [lia|].
  destruct (server_replies (HGet key "count") (stime (S (n + 2 * i))) s) as ([v err] & s' & Hget & Hr).
  pose proof Hget as Hget'. apply rd_hget in Hget' as (-> & Hv). rewrite (window_at h scope m T E s z _ Hw Ht) in Hv.
  unfold redis_Acquire. rewrite decide_False by lia. exists (s, (n + 2 * S i)%nat). split; [|done].
  cbn -[Nat.mul]. rewrite Hm. cbn -[Nat.mul]. rewrite Hget. replace (n + 2 * S i)%nat with (S (S (n + 2 * i))) by lia.
  destruct Hw as [_ [Hsome|[Hnone ->]]].
  - rewrite bool_decide_false by by rewrite Hsome. rewrite Hsome in Hv. destruct Hv as [Hv Hnil].
    destruct Hr as [Hr|Hr]; simpl in Hr; subst err; [|by specialize (Hnil _ eq_refl)].
    rewrite (Hv eq_refl), decide_True by (apply FormatInt_nonempty; int_lia).
    by rewrite Atoi_FormatInt, decide_False by (int_lia || lia).
  - rewrite bool_decide_true by done. rewrite Hnone in Hv. destruct Hv as [e ->].
    destruct Hr as [Hr|Hr]; simpl in Hr; simplify_eq. done.
Qed.

Lemma grant_round absent s n :
  timely clock stime m T E n (2 * length windows) → window_count h scope m T E s z →
  ∃ st, run_schedule back (round 2 (length windows)) (granting absent <$> windows) (s, n) =
        ((λ _, Ret (true, None)) <$> windows, st) ∧
        window_count h scope m T E st.1 (z + Z.of_nat (length windows)).
Proof using Hreach Redis0 Hz Hmax HE.
  intros Htime Hw.
  destruct (run_schedule_round back 2 (granting absent) (λ _, Ret (true, None))
              (λ i st, window_count h scope m T E st.1 (z + Z.of_nat i) ∧ (n <= st.2 <= n + 2 * i)%nat) windows (s, n))
    as (st & Hrun & Hw' & _); [|simpl; rewrite Z.add_0_r; split; [done|lia]|eauto].
  intros i window [s1 n1] Hi [Hw1 Hn1]. simpl in Hw1, Hn1.
  pose proof (Forall_lookup_1 _ _ _ _ HE Hi) as HEi. simpl in HEi. apply lookup_lt_Some in Hi.
  destruct (Htime n1) as [_ H1]; [lia|]. destruct (Htime (S n1)) as [_ H2]; [lia|].
  destruct (server_replies (HIncrBy key "count" 1) (stime n1) s1) as (err & s2 & Hinc & Hr). simpl in Hr. subst err.
  destruct (incr_count h scope m T E s1 _ _ s2 Hw1 H1 ltac:(int_lia) ltac:(int_lia) Hinc) as [Hw2 Hne].
  replace (z + Z.of_nat i + 1) with (z + Z.of_nat (S i)) in Hw2 by lia.
  unfold granting. cbn. rewrite Hinc. cbn. destruct absent; cbn.
  - destruct (server_replies (Expire key (int64 (2 * window))) (stime (S n1)) s2) as (err & s3 & Hexp & Hr).
    simpl in Hr. subst err. rewrite Hexp. eexists. split; [done|]. cbn. split; [|lia].
    apply (expire_count h scope m T E s2 _ (stime (S n1)) (int64 (2 * window))); [done..| |done|done].
    by rewrite (window_at h scope m T E s2 _ _ Hw2 H2), <- (window_at h scope m T E s2 _ _ Hw2 H1).
  - eexists. split; [done|]. cbn. split; [done|lia].
Qed.

End acquirers.

(** C34: the rate limit is not atomic either. On any server that replies to every
    request, let any number of processes acquire a slot of one scope in the same
    minute, at least one slot being left. If all of them read the count before the
    first increments it, all are granted a slot, and the count goes up by their
    number, past the limit by as much as one likes. *)
Theorem redis_rate_exceeded scope cap m T E windows s n z :
  0 <= z < cap → is_int64 cap → z + Z.of_nat (length windows) <= int64_max →
  timely clock stime m T E n (4 * length windows) →
  Forall (λ window, E <= T + expire_seconds (int64 (2 * window)) * Second) windows →
  window_count h scope m T E s z →
  let r := run_schedule back (round 2 (length windows) ++ round 2 (length windows))
             (redis_Acquire scope cap <$> windows) (s, n) in
  r.1 = replicate (length windows) (Ret (true, None)) ∧
  window_count h scope m T E r.2.1 (z + Z.of_nat (length windows)).
Proof using Hreach Redis0.
  intros Hz Hcap Hmax Htime HE Hw.
  destruct (count_round scope m T E cap z windows Hz Hcap Hmax s n) as [absent Hread];
    [by eapply timely_sub; [done|lia..]|done|].
  destruct (grant_round scope m T E cap z windows Hz Hmax HE absent s (n + 2 * length windows))
    as (st & Hgrant & Hcount); [by eapply timely_sub; [done|lia..]|done|].
  rewrite run_schedule_app, Hread. cbn [fst snd]. rewrite Hgrant. cbn [fst snd]. split; [by apply const_fmap|done].
Qed.

End race.

(** ** Witnesses *)

Lemma redis_cas_lost_update_witness :
  let r := run_schedule redis_mem [0; 1; 0; 1]%nat
             [redis_UpsertCAS "c" "k" 1 edge_a; redis_UpsertCAS "c" "k" 1 edge_b] (redis_start.1, 0%nat) in
  r.1 = [Ret (true, None); Ret (true, None)] ∧
  redis_edge mem_redis (λ _, 0) r.2 "c" "k" = Some (stored "k" edge_b, 2).
Proof.
  refine (redis_cas_lost_update mem_redis (λ _, 0) (λ _, 0) mem_redis_reachable redis_start.1 0 "c" "k"
            (mkEdge "k" "z" 1 1 0 [] 0 0) 1 [edge_a] edge_b _ _ _ _).
  - vm_compute. reflexivity.
  - int_lia.
  - vm_compute. reflexivity.
  - apply Forall_cons. split; [exact edge_a_typed|]. apply Forall_singleton. exact edge_b_typed.
Defined.

(** Two processes and one slot. *)
Lemma redis_rate_exceeded_witness :
  let r := run_schedule redis_mem [0; 0; 1; 1; 0; 0; 1; 1]%nat
             [redis_Acquire "IP:1.2.3.4" 1 Minute; redis_Acquire "IP:1.2.3.4" 1 Minute] (redis_empty, 0%nat) in
  r.1 = [Ret (true, None); Ret (true, None)] ∧
  window_count mem_redis "IP:1.2.3.4" 0 0 (120 * Second) r.2.1 2.
Proof.
  refine (redis_rate_exceeded mem_redis (λ _, 0) (λ _, 0) mem_redis_reachable "IP:1.2.3.4" 1 0 0 (120 * Second)
            [Minute; Minute] redis_empty 0 0 _ _ _ _ _ _).
  - done.
  - int_lia.
  - by vm_compute.
  - intros i _. split; [reflexivity|]. by vm_compute.
  - repeat constructor; vm_compute; discriminate.
  - split; [intros d Hd; discriminate Hd|]. right. split; reflexivity.
Defined.
