(* ===== verification/Backends.v ===== *)
(** * [internal/backends/helpers.go] and [internal/pub/sns.go]: configuration from
      the environment, and the publisher

    The stores are built from environment variables. The AWS SDK's configuration
    is a parameter ([Aws]): what [NewFromConfig] takes from it before the
    functional options are applied. *)

From S2P Require Import Prelude Errors Strconv Text Types Effects Ports StoreSpec Tags DdbSpec Ddb.

Definition ClientBackendEnvKey : string := "CLIENT_BACKEND".
Definition DataBackendEnvKey : string := "DATA_BACKEND".
Definition BackendDDB : string := "ddb".
Definition BackendRedis : string := "redis".
Definition DDBTableKey : string := "DDB_TABLE".
Definition RedisHost : string := "REDIS_HOST".
Definition RedisPort : string := "REDIS_PORT".
Definition RedisUser : string := "REDIS_USER".
Definition RedisPass : string := "REDIS_PASS".
Definition RedisTLS : string := "REDIS_SSL".
Definition RedisDBNum : string := "REDIS_DB_NUM".

Definition AmazonRootCA1PEM : string := "-----BEGIN CERTIFICATE-----
MIIDQTCCAimgAwIBAgITBmyfz5m/jAo54vB4ikPmljZbyjANBgkqhkiG9w0BAQsF
ADA5MQswCQYDVQQGEwJVUzEPMA0GA1UEChMGQW1hem9uMRkwFwYDVQQDExBBbWF6
b24gUm9vdCBDQSAxMB4XDTE1MDUyNjAwMDAwMFoXDTM4MDExNzAwMDAwMFowOTEL
MAkGA1UEBhMCVVMxDzANBgNVBAoTBkFtYXpvbjEZMBcGA1UEAxMQQW1hem9uIFJv
b3QgQ0EgMTCCASIwDQYJKoZIhvcNAQEBBQADggEPADCCAQoCggEBALJ4gHHKeNXj
ca9HgFB0fW7Y14h29Jlo91ghYPl0hAEvrAIthtOgQ3pOsqTQNroBvo3bSMgHFzZM
9O6II8c+6zf1tRn4SWiw3te5djgdYZ6k/oI2peVKVuRF4fn9tBb6dNqcmzU5L/qw
IFAGbHrQgLKm+a/sRxmPUDgH3KKHOVj4utWp+UhnMJbulHheb4mjUcAwhmahRWa6
VOujw5H5SNz/0egwLX0tdHA114gk957EWW67c4cX8jJGKLhD+rcdqsq08p8kDi1L
93FcXmn/6pUCyziKrlA4b9v7LWIbxcceVOF34GfID5yHI9Y/QCB/IIDEgEw+OyQm
jgSubJrIqg0CAwEAAaNCMEAwDwYDVR0TAQH/BAUwAwEB/zAOBgNVHQ8BAf8EBAMC
AYYwHQYDVR0OBBYEFIQYzIU07LwMlJQuCFmcx7IQTgoIMA0GCSqGSIb3DQEBCwUA
A4IBAQCY8jdaQZChGsV2USggNiMOruYou6r4lK5IpDB/G/wkjUu0yKGX9rbxenDI
U5PMCCjjmCXPI6T53iHTfIUJrU6adTrCC2qJeHZERxhlbI1Bjjt/msv0tadQ1wUs
N+gDS63pYaACbvXy8MWy7Vu33PqUXHeeE6V/Uq2V8viTO96LXFvKWlJbYK8U90vv
o/ufQJVtMVT8QtPHRh8jrdkPSHCa2XV4cdFyQzR1bldZwgJcJmApzyMZFo6IQ6XU
5MsI+yMRQ+hDKXJioaldXgjUkK642M4UwtBV8ob2xJNDd2ZhwLnoQdeXeGADbkpy
rqXRfboQnoZsG4q5WTP468SQvvG5
-----END CERTIFICATE-----".

(** [os.Getenv]: the empty string for an unset variable. *)
Definition Env : Type := gmap string string.
Definition Getenv (env : Env) (key : string) : string := default "" (env !! key).

Definition getenv (env : Env) (key def : string) : string :=
  let v := Getenv env key in
  if decide (v = "") then def else v.

Definition parseBoolean (s : string) : bool :=
  match ParseBool s with
  | inl b => b
  | inr _ => false
  end.

(** [tls.Config]: the oldest version that is accepted and the certificates of the
    pool. *)
Inductive TLSVersion := VersionTLS10 | VersionTLS11 | VersionTLS12 | VersionTLS13.

Record TlsConfig := mkTlsConfig {
  MinVersion : TLSVersion;
  RootCAs : list string;
}.

(** [redis.Options]. *)
Record RedisOptions := mkRedisOptions {
  Addr : string;
  Username : string;
  Password : string;
  DB : Z;
  TLSConfig : option TlsConfig;
}.

(** The options of an AWS client the code sets. *)
Inductive Credentials := DefaultCredentials | StaticCredentials (key secret session : string).

Record AwsOptions := mkAwsOptions {
  BaseEndpoint : option string;
  Region : string;
  CredentialsProvider : Credentials;
}.

(** A loaded AWS configuration, and the options a client of each service takes
    from it. *)
Class Aws (AwsConfig : Type) := {
  dynamodb_base : AwsConfig → AwsOptions;
  sns_base : AwsConfig → AwsOptions;
}.

(** The calls to the libraries while starting: the default AWS configuration, the
    certificate pool (whether a certificate was added), a ping of the server,
    and the calls of the DynamoDB stores' constructors through a client. *)
Inductive StartE (AwsConfig : Type) : Type → Type :=
| LoadDefaultConfig : StartE AwsConfig (AwsConfig + error)
| AppendCertsFromPEM (pem : string) : StartE AwsConfig bool
| Ping (opts : RedisOptions) : StartE AwsConfig (option error)
| ddbCall {X} (opts : AwsOptions) (e : BackE X) : StartE AwsConfig X.
Arguments LoadDefaultConfig {AwsConfig}.
Arguments AppendCertsFromPEM {AwsConfig} pem.
Arguments Ping {AwsConfig} opts.
Arguments ddbCall {AwsConfig X} opts e.

(** A store: its backend and how it is reached. *)
Inductive Store :=
| RedisBackend (opts : RedisOptions)
| DdbBackend (table : string) (opts : AwsOptions).

Section env.
Context `{W : Aws Cfg} (env : Env).

(** The functional option of [dynamodb.NewFromConfig]. *)
Definition ddb_options (o : AwsOptions) : AwsOptions :=
  let de := Getenv env "DDB_ENDPOINT" in
  if decide (de ≠ "") then
    mkAwsOptions (Some de) (getenv env "AWS_REGION" "us-east-1")
      (StaticCredentials (getenv env "AWS_ACCESS_KEY_ID" "x") (getenv env "AWS_SECRET_ACCESS_KEY" "x") "")
  else o.

Definition ddbClientFromEnv : prog (StartE Cfg) (AwsOptions + error) :=
  cfg ← trigger LoadDefaultConfig;
  match cfg with
  | inr err => mret (inr err)
  | inl awsCfg => mret (inl (ddb_options (dynamodb_base awsCfg)))
  end.

Definition redisClientFromEnv : prog (StartE Cfg) (RedisOptions + error) :=
  let host := getenv env RedisHost "localhost" in
  let port := getenv env RedisPort "6379" in
  let user := Getenv env RedisUser in
  let pass := Getenv env RedisPass in
  let tlsEnabled := parseBoolean (getenv env RedisTLS "false") in
  let dbNumStr := getenv env RedisDBNum "0" in
  match Atoi dbNumStr with
  | inr err => mret (inr (Wrapf "invalid Redis DB number" err))
  | inl dbNum =>
      tlsConfig ← (if tlsEnabled then
                     ok ← trigger (AppendCertsFromPEM AmazonRootCA1PEM);
                     mret (if (ok : bool) then inl (Some (mkTlsConfig VersionTLS12 [AmazonRootCA1PEM]))
                           else inr (Errorf "failed to retrieve CA certificate"))
                   else mret (inl None));
      match tlsConfig with
      | inr err => mret (inr err)
      | inl tlsConfig =>
          let redisConfig := mkRedisOptions (host +:+ ":" +:+ port) user pass dbNum tlsConfig in
          err ← trigger (Ping redisConfig);
          match err with
          | Some err => mret (inr (Wrapf "failed to ping Redis" err))
          | None => mret (inl redisConfig)
          end
      end
  end.

(** The two functions differ in the variable they read and in the constructors
    of the stores they call. *)
Definition backendFromEnv (key : string) (newRedis : RedisOptions → Store)
    (newDdb : string → AwsOptions → prog (StartE Cfg) Store) : prog (StartE Cfg) (Store + error) :=
  let backend := Getenv env key in
  if decide (backend = BackendRedis) then
    redisClient ← redisClientFromEnv;
    match redisClient with
    | inr err => mret (inr err)
    | inl redisClient => mret (inl (newRedis redisClient))
    end
  else
    ddbClient ← ddbClientFromEnv;
    match ddbClient with
    | inr err => mret (inr err)
    | inl ddbClient =>
        let table := getenv env DDBTableKey "notify_guard" in
        store ← newDdb table ddbClient;
        mret (inl store)
    end.

(** The calls a store makes through its client. *)
Definition ddb_calls (cli : AwsOptions) : ∀ X, BackE X → StartE Cfg X := λ X, ddbCall cli.

(** The constructors: those of the DynamoDB stores create the table first. *)
Definition ddb_NewDataStore (table : string) (cli : AwsOptions) : prog (StartE Cfg) Store :=
  _ ← translate (ddb_calls cli) (createTableIfNotExists table);
  mret (DdbBackend table cli).

Definition ddb_NewClientStore (table : string) (cli : AwsOptions) : prog (StartE Cfg) Store :=
  _ ← translate (ddb_calls cli) (createTableIfNotExists table);
  mret (DdbBackend table cli).

Definition redis_NewDataStore (cli : RedisOptions) : Store := RedisBackend cli.
Definition redis_NewClientStore (cli : RedisOptions) : Store := RedisBackend cli.

Definition ClientBackendFromEnv : prog (StartE Cfg) (Store + error) :=
  backendFromEnv ClientBackendEnvKey redis_NewClientStore ddb_NewClientStore.
Definition DataBackendFromEnv : prog (StartE Cfg) (Store + error) :=
  backendFromEnv DataBackendEnvKey redis_NewDataStore ddb_NewDataStore.

End env.

(** ** [pub/sns.go] *)

(** [sns.PublishInput]: topic, message, and the attributes with their type and value. *)
Record PublishInput := mkPublishInput {
  TopicArn : string;
  Message : string;
  Attributes : list (string * (string * string));
}.

Inductive SnsE : Type → Type :=
| Publish (input : PublishInput) : SnsE (option error).

Definition snsPub_PublishRaw (arn payload : string) : prog SnsE (option error) :=
  trigger (Publish (mkPublishInput arn payload [("content-type", ("String", "application/json"))])).

(** ** Properties *)

(** The options the environment gives for Redis. *)
Definition redis_options_of (env : Env) (opts : RedisOptions) : Prop :=
  Addr opts = getenv env "REDIS_HOST" "localhost" +:+ ":" +:+ getenv env "REDIS_PORT" "6379" ∧
  Username opts = Getenv env "REDIS_USER" ∧ Password opts = Getenv env "REDIS_PASS" ∧
  inl (DB opts) = Atoi (getenv env "REDIS_DB_NUM" "0") ∧
  TLSConfig opts = if parseBoolean (getenv env "REDIS_SSL" "false")
                   then Some (mkTlsConfig VersionTLS12 [AmazonRootCA1PEM]) else None.

(** The options of a DynamoDB client: those of the loaded configuration, or those
    for a local endpoint. *)
Definition ddb_options_of `{Aws Cfg} (env : Env) (cfg : Cfg) (opts : AwsOptions) : Prop :=
  if decide (Getenv env "DDB_ENDPOINT" = "") then opts = dynamodb_base cfg
  else BaseEndpoint opts = Some (Getenv env "DDB_ENDPOINT") ∧ Region opts = getenv env "AWS_REGION" "us-east-1" ∧
       CredentialsProvider opts =
         StaticCredentials (getenv env "AWS_ACCESS_KEY_ID" "x") (getenv env "AWS_SECRET_ACCESS_KEY" "x") "".

(** The table was created or exists. *)
Definition table_usable (err : option error) : Prop :=
  ∀ e, err = Some e → errors_As e "ResourceInUseException" = true.

(** What is seen of the calls: the configurations that were loaded, the pings that
    were answered, the tables that were created, and the last words. *)
Definition start_load {Cfg} (ev : event (StartE Cfg)) : option (Cfg + error) :=
  match ev with
  | Ev e x => match e in StartE _ X return X → _ with LoadDefaultConfig => λ r, Some r | _ => λ _, None end x
  end.

Definition start_pong {Cfg} (ev : event (StartE Cfg)) : option RedisOptions :=
  match ev with
  | Ev e x =>
      match e in StartE _ X return X → _ with
      | Ping opts => λ err, match err with None => Some opts | Some _ => None end
      | _ => λ _, None
      end x
  end.

Definition start_table {Cfg} (ev : event (StartE Cfg)) : option (CreateTableInput * AwsOptions * option error) :=
  match ev with
  | Ev e x =>
      match e in StartE _ X return X → _ with
      | ddbCall opts e =>
          match e in BackE X return X → _ with
          | ddbE e =>
              match e in DdbE X return X → _ with
              | CreateTable input => λ err, Some (input, opts, err)
              | _ => λ _, None
              end
          | _ => λ _, None
          end
      | _ => λ _, None
      end x
  end.

Definition start_fatal {Cfg} (ev : event (StartE Cfg)) : option (string * error) :=
  match ev with
  | Ev e x => match e with ddbCall _ (fatalE msg err) => Some (msg, err) | _ => None end
  end.

(** The store is the one the environment names, and it was reached: the server
    answered a ping of these options, or the table is usable through this client. *)
Definition store_ready `{Aws Cfg} (env : Env) (key : string) (loads : list (Cfg + error))
    (pongs : list RedisOptions) (tables : list (CreateTableInput * AwsOptions * option error)) (store : Store) : Prop :=
  match store with
  | RedisBackend opts => Getenv env key = "redis" ∧ redis_options_of env opts ∧ opts ∈ pongs
  | DdbBackend table opts =>
      Getenv env key ≠ "redis" ∧ table = getenv env "DDB_TABLE" "notify_guard" ∧
      (∃ cfg, inl cfg ∈ loads ∧ ddb_options_of env cfg opts) ∧
      ∃ err, (table_input table, opts, err) ∈ tables ∧ table_usable err
  end.

(** A store is built from the environment or the process is told why not; it stops
    only with a message that the table could not be created. *)
Definition started `{Aws Cfg} (env : Env) (key : string) (t : list (event (StartE Cfg)))
    (o : option (Store + error)) : Prop :=
  match o with
  | Some (inl store) =>
      omap start_fatal t = [] ∧
      store_ready env key (omap start_load t) (omap start_pong t) (omap start_table t) store
  | Some (inr err) => omap start_fatal t = []
  | None =>
      ∃ table opts err, table = getenv env "DDB_TABLE" "notify_guard" ∧
        omap start_fatal t = [("Failed to create table " +:+ table, err)] ∧
        (table_input table, opts, Some err) ∈ omap start_table t ∧ errors_As err "ResourceInUseException" = false
  end.

Section props.
Context `{W : Aws Cfg} (env : Env).

Lemma redis_client_wp :
  wp (redisClientFromEnv env : prog (StartE Cfg) _) (λ t o, omap start_fatal t = [] ∧ match o with
    | Some (inl opts) => redis_options_of env opts ∧ opts ∈ omap start_pong t
    | Some (inr _) => True
    | None => False
    end).
Proof.
  unfold redisClientFromEnv, redis_options_of. destruct (Atoi _) as [db|e] eqn:Hdb; [|done].
  destruct (parseBoolean (getenv env "REDIS_SSL" "false")) eqn:Hssl;
    (rewrite (Hssl : parseBoolean (getenv env RedisTLS "false") = _)).
  - intros []; [|done]. intros [e|]; [done|]. cbn. split; [done|]. split_and!; [done..|left].
  - intros [e|]; [done|]. cbn. split; [done|]. split_and!; [done..|left].
Qed.

Lemma backend_started key newDdb :
  (∀ table cli, newDdb table cli = prog_bind (λ _, Ret (DdbBackend table cli)) (translate (ddb_calls (Cfg := Cfg) cli) (createTableIfNotExists table))) →
  wp (backendFromEnv env key RedisBackend newDdb) (started env key).
Proof.
  intros Hnew. unfold backendFromEnv. case_decide as Hkey.
  - apply wp_bind. eapply wp_mono; [|apply redis_client_wp].
    intros t [[opts|e]|] [Hf H]; simpl; rewrite ?app_nil_r; [|done..]. by split.
  - intros [cfg|e]; [|done]. simpl. rewrite Hnew.
    assert (∃ cfg', inl cfg' ∈ [inl cfg : Cfg + error] ∧ ddb_options_of env cfg' (ddb_options env (dynamodb_base cfg))) as Hopts.
    { exists cfg. split; [by left|]. unfold ddb_options_of, ddb_options.
      destruct (decide (Getenv env "DDB_ENDPOINT" = "")) as [He|He]; [by rewrite decide_False by tauto|].
      by rewrite decide_True. }
    intros [e|]; simpl; [destruct (errors_As e "ResourceInUseException") eqn:He; simpl|].
    + split; [done|]. split_and!; [done..|]. exists (Some e). split; [by left|]. by intros ? [= <-].
    + intros []. do 3 eexists. split_and!; [done|done|by left|done].
    + split; [done|]. split_and!; [done..|]. exists None. split; [by left|done].
Qed.

Lemma client_backend_wp : wp (ClientBackendFromEnv env) (started env ClientBackendEnvKey).
Proof. by apply backend_started. Qed.

Lemma data_backend_wp : wp (DataBackendFromEnv env) (started env DataBackendEnvKey).
Proof. by apply backend_started. Qed.

End props.
