(* ===== verification/LambdaMain.v ===== *)
(** * [cmd/lambda-sqs/main.go]: starting the SQS Lambda

    [main] reads the environment, builds the publisher and the two stores and
    hands the handler to the Lambda runtime. [log.Fatalf] writes its message
    and ends the process: the call followed by [Panic]. *)

From S2P Require Import Prelude Errors Strconv Text Types Effects Ports StoreSpec Tags DdbSpec Ddb Backends.

(** [LambdaHandler]: the stores, and the publisher by the options of its client. *)
Record LambdaHandler := mkLambdaHandler {
  ClientStore : Store;
  DataStore : Store;
  Publisher : AwsOptions;
}.

(** [godotenv.Load] (with the environment as it leaves it), the libraries the
    stores are started with, [log.Fatalf] and [lambda.Start]. *)
Inductive MainE (Cfg : Type) : Type → Type :=
| LoadDotEnv (file : string) : MainE Cfg (Env * option error)
| startE {X} (e : StartE Cfg X) : MainE Cfg X
| Fatalf (msg : string) (err : error) : MainE Cfg unit
| LambdaStart (handler : LambdaHandler) : MainE Cfg unit.
Arguments LoadDotEnv {Cfg} file.
Arguments startE {Cfg X} e.
Arguments Fatalf {Cfg} msg err.
Arguments LambdaStart {Cfg} handler.

(** The functional option of [sns.NewFromConfig]. *)
Definition sns_options (snsEndpoint : option string) (o : AwsOptions) : AwsOptions :=
  match snsEndpoint with
  | Some _ =>
      mkAwsOptions snsEndpoint (if decide (Region o = "") then "us-east-1" else Region o)
        (StaticCredentials "test" "test" "")
  | None => o
  end.

Section main.
Context `{W : Aws Cfg}.

Definition start_calls : ∀ X, StartE Cfg X → MainE Cfg X := λ X, startE.

Definition fatal {A} (msg : string) (err : error) : prog (MainE Cfg) A :=
  _ ← trigger (Fatalf msg err); Panic.

(** [main], started with the environment [env]. *)
Definition main (env : Env) : prog (MainE Cfg) unit :=
  let envFile := Getenv env "ENV_FILE" in
  let envFile := if decide (envFile = "") then ".env" else envFile in
  '(env, err) ← trigger (LoadDotEnv envFile);
  let se := Getenv env "SNS_ENDPOINT" in
  let snsEndpoint := if decide (se ≠ "") then Some se else None in
  cfg ← trigger (startE LoadDefaultConfig);
  match cfg with
  | inr err => fatal "Failed to load AWS config" err
  | inl awsCfg =>
  let publisher := sns_options snsEndpoint (sns_base awsCfg) in
  clientStore ← translate start_calls (ClientBackendFromEnv env);
  match clientStore with
  | inr err => fatal "Failed to initialize client store" err
  | inl clientStore =>
  dataStore ← translate start_calls (DataBackendFromEnv env);
  match dataStore with
  | inr err => fatal "Failed to initialize data store" err
  | inl dataStore =>
  trigger (LambdaStart (mkLambdaHandler clientStore dataStore publisher))
  end
  end
  end.

End main.

(** ** The calls of an execution *)

Definition as_env {Cfg} (ev : event (MainE Cfg)) : option Env :=
  match ev with
  | Ev e x => match e in MainE _ X return X → _ with LoadDotEnv _ => λ r, Some r.1 | _ => λ _, None end x
  end.

Definition as_handler {Cfg} (ev : event (MainE Cfg)) : option LambdaHandler :=
  match ev with Ev e x => match e with LambdaStart h => Some h | _ => None end end.

Definition as_start {Cfg B} (f : event (StartE Cfg) → option B) (ev : event (MainE Cfg)) : option B :=
  match ev with
  | Ev e x => match e in MainE _ X return X → _ with startE e => λ x, f (Ev e x) | _ => λ _, None end x
  end.

(** The last words of [main] or of a store's constructor. *)
Definition as_fatal {Cfg} (ev : event (MainE Cfg)) : option (string * error) :=
  match ev with
  | Ev e x => match e with Fatalf msg err => Some (msg, err) | _ => as_start start_fatal ev end
  end.

Section props.
Context `{W : Aws Cfg}.

Definition envs (t : list (event (MainE Cfg))) := omap as_env t.
Definition handlers (t : list (event (MainE Cfg))) := omap as_handler t.
Definition fatals (t : list (event (MainE Cfg))) := omap as_fatal t.
Definition loads (t : list (event (MainE Cfg))) := omap (as_start start_load) t.
Definition pongs (t : list (event (MainE Cfg))) := omap (as_start start_pong) t.
Definition tables (t : list (event (MainE Cfg))) := omap (as_start start_table) t.

(** A store the handler is started with: the one the environment names, and it
    was reached. *)
Definition ready (env : Env) (key : string) (t : list (event (MainE Cfg))) (store : Store) : Prop :=
  store_ready env key (loads t) (pongs t) (tables t) store.

(** The options of the publisher: those of the first configuration that was
    loaded, or those for a local endpoint, which always have a region. *)
Definition publisher_ok (env : Env) (t : list (event (MainE Cfg))) (o : AwsOptions) : Prop :=
  ∃ cfg, head (loads t) = Some (inl cfg) ∧
  if decide (Getenv env "SNS_ENDPOINT" = "") then o = sns_base cfg
  else BaseEndpoint o = Some (Getenv env "SNS_ENDPOINT") ∧
       Region o = (if decide (Region (sns_base cfg) = "") then "us-east-1" else Region (sns_base cfg)) ∧
       CredentialsProvider o = StaticCredentials "test" "test" "".

(** Why [main] stops, by its message. *)
Definition stopped (env : Env) (t : list (event (MainE Cfg))) (msg : string) (err : error) : Prop :=
  (msg = "Failed to load AWS config" ∧ loads t = [inr err]) ∨
  msg = "Failed to initialize client store" ∨
  msg = "Failed to initialize data store" ∨
  (msg = "Failed to create table " +:+ getenv env "DDB_TABLE" "notify_guard" ∧
   ∃ opts, (table_input (getenv env "DDB_TABLE" "notify_guard"), opts, Some err) ∈ tables t ∧
           errors_As err "ResourceInUseException" = false).

(** Either the runtime is started, once, with everything in place, or the
    process stops with one message. *)
Definition main_outcome (t : list (event (MainE Cfg))) (o : option unit) : Prop :=
  ∃ env, envs t = [env] ∧
  match o with
  | Some _ =>
      fatals t = [] ∧ ∃ h, handlers t = [h] ∧
        ready env ClientBackendEnvKey t (ClientStore h) ∧
        ready env DataBackendEnvKey t (DataStore h) ∧
        publisher_ok env t (Publisher h)
  | None => handlers t = [] ∧ ∃ msg err, fatals t = [(msg, err)] ∧ stopped env t msg err
  end.

(** What is seen of the calls of the stores' constructors. *)
Lemma start_calls_seen (t : list (event (StartE Cfg))) :
  let t' := event_map start_calls <$> t in
  envs t' = [] ∧ handlers t' = [] ∧ fatals t' = omap start_fatal t ∧
  loads t' = omap start_load t ∧ pongs t' = omap start_pong t ∧ tables t' = omap start_table t.
Proof.
  induction t as [|[X e x] t IH]; [done|]. destruct IH as (H1 & H2 & H3 & H4 & H5 & H6). cbn in *.
  unfold fatals, loads, pongs, tables in *. cbn in *. rewrite H3, H4, H5, H6. done.
Qed.

(** What one of the two constructors adds to the calls. *)
Definition store_calls (env : Env) (key : string) (t : list (event (MainE Cfg)))
    (o : option (Store + error)) : Prop :=
  envs t = [] ∧ handlers t = [] ∧
  match o with
  | Some (inl store) => fatals t = [] ∧ ready env key t store
  | Some (inr _) => fatals t = []
  | None => ∃ msg opts err, fatals t = [(msg, err)] ∧
      msg = "Failed to create table " +:+ getenv env "DDB_TABLE" "notify_guard" ∧
      (table_input (getenv env "DDB_TABLE" "notify_guard"), opts, Some err) ∈ tables t ∧
      errors_As err "ResourceInUseException" = false
  end.

Lemma started_calls env key (t : list (event (StartE Cfg))) o :
  started env key t o → store_calls env key (event_map start_calls <$> t) o.
Proof.
  intros Hs. destruct (start_calls_seen t) as (H1 & H2 & H3 & H4 & H5 & H6). unfold store_calls, ready.
  rewrite H3, H4, H5, H6. split_and!; [done..|]. destruct o as [[store|e]|]; [done..|].
  destruct Hs as (table & opts & err & -> & Hf & Hin & Herr). by do 3 eexists.
Qed.

Lemma client_store_calls env :
  wp (translate start_calls (ClientBackendFromEnv env)) (store_calls env ClientBackendEnvKey).
Proof. apply wp_translate. eapply wp_mono; [|apply client_backend_wp]. apply started_calls. Qed.

Lemma data_store_calls env :
  wp (translate start_calls (DataBackendFromEnv env)) (store_calls env DataBackendEnvKey).
Proof. apply wp_translate. eapply wp_mono; [|apply data_backend_wp]. apply started_calls. Qed.

Lemma ready_mono env key t1 t t2 store : ready env key t store → ready env key (t1 ++ t ++ t2) store.
Proof.
  unfold ready, loads, pongs, tables. rewrite !omap_app. destruct store; simpl.
  - intros (? & ? & ?). split_and!; [done..|set_solver].
  - intros (? & ? & (cfg & Hc & ?) & err & He & ?). split_and!; [done..| |].
    + exists cfg. split; [set_solver|done].
    + exists err. split; [set_solver|done].
Qed.

#[local] Ltac calls := unfold envs, handlers, fatals, tables, loads in *; simpl; rewrite ?omap_app.

Lemma publisher_options env (t t' : list (event (MainE Cfg))) cfg :
  loads t = [inl cfg] →
  publisher_ok env (t ++ t')
    (sns_options (if decide (Getenv env "SNS_ENDPOINT" ≠ "") then Some (Getenv env "SNS_ENDPOINT") else None)
       (sns_base cfg)).
Proof.
  intros Hl. exists cfg. calls. rewrite Hl. split; [done|].
  destruct (decide (Getenv env "SNS_ENDPOINT" = "")) as [He|He].
  - by rewrite decide_False by tauto.
  - by rewrite decide_True by done.
Qed.

(** The ways to stop. *)
Lemma stop_fatal (t : list (event (MainE Cfg))) env m err :
  envs t = [env] → handlers t = [] → fatals t = [] → stopped env t m err →
  main_outcome (t ++ [Ev (Fatalf m err) tt]) None.
Proof.
  intros He Hh Hf Hs. exists env. unfold stopped in *. calls. rewrite He, Hh, Hf. split_and!; [done..|].
  exists m, err. split; [done|]. simpl. by rewrite !app_nil_r.
Qed.

Lemma stop_table (t t' : list (event (MainE Cfg))) env key :
  envs t = [env] → handlers t = [] → fatals t = [] → store_calls env key t' None → main_outcome (t ++ t') None.
Proof.
  intros He Hh Hf (He' & Hh' & msg & opts & err & Hf' & -> & Hin & Herr). exists env. unfold stopped. calls.
  rewrite He, Hh, Hf, He', Hh', Hf'. split_and!; [done..|]. do 2 eexists. split; [done|]. do 3 right.
  split; [done|]. exists opts. split; [set_solver|done].
Qed.

Lemma start_ready (t t1 t2 : list (event (MainE Cfg))) env cs ds pub :
  envs t = [env] → handlers t = [] → fatals t = [] →
  store_calls env ClientBackendEnvKey t1 (Some (inl cs)) → store_calls env DataBackendEnvKey t2 (Some (inl ds)) →
  (∀ t', publisher_ok env (t ++ t') pub) →
  main_outcome (t ++ t1 ++ t2 ++ [Ev (LambdaStart (mkLambdaHandler cs ds pub)) tt]) (Some tt).
Proof.
  intros He Hh Hf (He1 & Hh1 & Hf1 & Hr1) (He2 & Hh2 & Hf2 & Hr2) Hpub. exists env.
  unfold envs, fatals, handlers in *. rewrite !omap_app.
  rewrite He, Hh, Hf, He1, Hh1, Hf1, He2, Hh2, Hf2. split_and!; [done..|]. eexists. split_and!; [done| | |]; simpl.
  - by apply ready_mono.
  - rewrite app_assoc. by apply ready_mono.
  - apply Hpub.
Qed.


End props.

(** ** Witness *)

#[global] Instance demo_aws : Aws string :=
  {| dynamodb_base r := mkAwsOptions None r DefaultCredentials;
     sns_base r := mkAwsOptions None r DefaultCredentials |}.

Definition demo_env : Env :=
  {[ "DATA_BACKEND" := "redis"; "REDIS_HOST" := "cache"; "REDIS_SSL" := "true"; "SNS_ENDPOINT" := "http://sns:4566" ]}.

(** The env file sets the variables; every library call succeeds; the table exists. *)
Definition demo_start : handler (MainE string) unit := λ X e s,
  match e with
  | LoadDotEnv _ => (Some (demo_env, None), s)
  | startE e =>
      match e with
      | LoadDefaultConfig => (Some (inl ""), s)
      | AppendCertsFromPEM _ => (Some true, s)
      | Ping _ => (Some None, s)
      | ddbCall _ e =>
          match e with
          | ddbE e =>
              match e with
              | CreateTable _ => (Some (Some (ServiceError "ResourceInUseException" "")), s)
              | _ => (None, s)
              end
          | nowE => (Some 0, s)
          | fatalE _ _ => (Some tt, s)
          end
      end
  | Fatalf _ _ => (Some tt, s)
  | LambdaStart _ => (Some tt, s)
  end.

