(* ===== verification/Stack.v ===== *)
(** * The service on DynamoDB, down to its requests

    [Handler] is the struct of [internal/api]: the three ports a request handler
    calls, here as the programs of their implementations; running a request with
    a handler replaces every call of a port by the code behind it. The calls
    that remain are the requests to DynamoDB and SNS, the clock, the cache and
    the response. Several processes then interleave at the granularity of those
    requests, which is what really happens; the theorems of the other files that
    take the operations of a port as atomic hold there too, because the
    operations an evaluation makes are one request each. *)

From S2P Require Import Prelude Errors Strconv Text Types Effects Ports Base64 DemoLib EdgeFlap EdgeProps StoreSpec MemStore Concurrency Ttl Flow FlowProps Http HttpProps DdbSpec Ddb DdbProps DdbMem DdbClaims Backends.

(** [api.Handler] and [NewHandler], over the calls [F] of the implementations. *)
Record Handler (F : Type → Type) := mkHandler {
  h_ClientStore : ∀ X, ClientStoreE X → prog F X;
  h_DataStore : ∀ X, DataStoreE X → prog F X;
  h_Pub : ∀ X, PublisherE X → prog F X;
}.
Arguments mkHandler {F}.
Arguments h_ClientStore {F} h X e.
Arguments h_DataStore {F} h X e.
Arguments h_Pub {F} h X e.

Definition NewHandler {F} (cl : ∀ X, ClientStoreE X → prog F X) (es : ∀ X, DataStoreE X → prog F X)
    (pub : ∀ X, PublisherE X → prog F X) : Handler F := mkHandler cl es pub.

(** What the process does itself, and the requests to the services. *)
Inductive StackE : Type → Type :=
| procClock {X} (e : ClockE X) : StackE X
| procCache {X} (e : MapE ClientConfig X) : StackE X
| procResp {X} (e : ResponseE X) : StackE X
| backE {X} (e : BackE X) : StackE X
| snsE {X} (e : SnsE X) : StackE X.

Definition back_call : ∀ X, BackE X → StackE X := λ X, backE.
Definition sns_call : ∀ X, SnsE X → StackE X := λ X, snsE.

(** Where a call of a request handler goes. *)
Definition dispatch (h : Handler StackE) (X : Type) (e : AppE X) : prog StackE X :=
  match e with
  | dataE e => h_DataStore h _ e
  | clientE e => h_ClientStore h _ e
  | pubE e => h_Pub h _ e
  | clockE e => trigger (procClock e)
  | cacheE e => trigger (procCache e)
  | respE e => trigger (procResp e)
  end.

(** [pub.NewSNS]. *)
Definition NewSNS (X : Type) (e : PublisherE X) : prog StackE X :=
  match e with PublishRaw arn p => translate sns_call (snsPub_PublishRaw arn p) end.

(** The handler with both stores on one DynamoDB table. *)
Definition ddb_service `{AttrLib} (table : string) : Handler StackE :=
  NewHandler (λ X e, translate back_call (ddb_client table e))
    (λ X e, translate back_call (ddb_data table e)) NewSNS.

Section stack.
Context {St PSt : Type} (h : handler DdbE St) `{!DynamoDB h} `{!AttrLib} `{!AttrLaws}.
Context (table : string) (clock : nat → Z) (sns : handler SnsE PSt).

#[local] Notation world := (World (St * nat) unit PSt).

(** Both stores share the service's state, [w_data]. *)
Definition stack_handler : handler StackE world := λ X e w,
  match e with
  | procClock e => clock_handler _ e w
  | procCache e => map_handler _ e w
  | procResp e => resp_handler _ e w
  | backE e => let '(r, s) := back_handler h clock _ e (w_data w) in (r, set_data s w)
  | snsE e => let '(r, s) := sns _ e (w_pub w) in (r, set_pub s w)
  end.

(** A store's code only touches the service's state. *)
Lemma run_back {A} (p : prog BackE A) w :
  run stack_handler (translate back_call p) w =
  let '(r, s) := run (back_handler h clock) p (w_data w) in (r, set_data s w).
Proof.
  unfold translate. revert w. induction p as [a| |X e k IH]; intros w; [by destruct w..|].
  simpl. destruct (back_handler h clock X e (w_data w)) as [[x|] s]; [|done].
  rewrite IH. simpl. by destruct (run _ (k x) s).
Qed.

(** ** The operations an evaluation makes are one request each *)

Lemma single_load c k : single (ddb_Load table c k).
Proof. intros [it [err|]]; [done|]. destruct it as [it|]; [|done]. simpl. by destruct (av_UnmarshalEdge it). Qed.

Lemma single_upsert c k prev next :
  ValidString c = true → ValidString k = true → edge_typed next → single (ddb_UpsertCAS table c k prev next).
Proof.
  intros Hc Hk Hty. unfold ddb_UpsertCAS. case_decide; [|done].
  assert (edge_typed (set_Version 1 (set_ScopeKey k next))) as Hty' by (destruct Hty; by split).
  destruct (marshal_edge c k (set_Version 1 (set_ScopeKey k next)) Hc Hk Hty' eq_refl)
    as (m & -> & _ & _); [simpl; int_lia|]. done.
Qed.

#[local] Notation app hc hp := (app_handler (ddb_handler h table clock) hc hp).

Context (hc : handler ClientStoreE unit) (hp : handler PublisherE PSt).

Lemma run_data X (e : DataStoreE X) w :
  app hc hp _ (dataE e) w = run stack_handler (dispatch (ddb_service table) _ (dataE e)) w.
Proof. simpl. by rewrite run_back. Qed.

Lemma evaluating_atomic c k newVal (p : prog AppE Result) :
  ValidString c = true → ValidString k = true → evaluating c k newVal p →
  atomic_next (dispatch (ddb_service table)) (app hc hp) stack_handler p.
Proof.
  intros Hc Hk. destruct p as [| |X e kk]; [done..|]. simpl.
  destruct e as [X []|X []|X []|X e|X []|X e]; try done.
  - intros Hev. destruct Hev as [[= -> ->] _]. split; [|intros w; apply (run_data _ (Load c k))].
    apply single_translate, single_load.
  - intros Hev. destruct Hev as ([= -> ->] & _ & Hty & _). split; [|intros w; apply (run_data _ (UpsertCAS c k _ _))].
    by apply single_translate, single_upsert.
Qed.

(** A thread that ended with a notification to publish. *)
Definition announces (q : prog StackE Result) : bool :=
  match q with
  | Ret (a, _, _) => bool_decide (a = EdgeTriggeredForward ∨ a = AggregateSent)
  | _ => false
  end.

Lemma announces_interp c k newVal (p : prog AppE Result) :
  ValidString c = true → ValidString k = true → evaluating c k newVal p →
  announces (interp (dispatch (ddb_service table)) p) = announced p.
Proof.
  intros Hc Hk Hev. destruct p as [a| |X e kk]; [done..|].
  apply evaluating_atomic in Hev as [Hs _]; [|done..]. simpl.
  by destruct (dispatch (ddb_service table) X e).
Qed.

Lemma stack_total : total_handler sns → total_handler stack_handler.
Proof.
  intros Hs X e w. destruct e as [X []|X []|X []|X e|X e]; simpl; eauto.
  - destruct (back_total h clock X e (w_data w)) as (x & s' & ->). eauto.
  - destruct (Hs X e (w_pub w)) as (x & s' & ->). eauto.
Qed.

End stack.

(** ** Claims *)

(** The ports an evaluation does not call. *)
Definition no_clients : handler ClientStoreE unit := λ X e s, (None, s).
Definition no_pub {PSt} : handler PublisherE PSt := λ X e s, (None, s).

Section claims.
Context {St PSt : Type} (h : handler DdbE St) `{!DynamoDB h} `{!AttrLib} `{!AttrLaws} `{L : Lib}.
Context (table : string) (clock : nat → Z) (sns : handler SnsE PSt).

(** C3: on DynamoDB a change of value is announced at most once, with processes
    interleaved request by request: of any number of evaluations of one new value
    running the store's own code, each request to the service being atomic and
    allowed to fail, at most one asks for a notification, and then the table holds
    the new value, exactly one version on. *)
Theorem ddb_edge_announced_once c k newVal jobs (w : World (St * nat) unit PSt) qs' w' :
  total_handler sns →
  ValidString c = true → ValidString k = true → ValidString newVal = true →
  ddb_inv h table (w_data w) → (∀ n, is_int64 (Unix (w_clock w n))) →
  fresh_value newVal (ddb_edge h table (w_data w) c k) →
  rtc (pool_step (stack_handler h clock sns))
      ((λ '(f, payload), interp (dispatch (ddb_service table)) (EvaluateEdgeAndFlap c k newVal f payload)) <$> jobs, w)
      (qs', w') →
  tally announces qs' <= 1 ∧
  (tally announces qs' = 1 →
   ∃ e, ddb_edge h table (w_data w') c k = Some (e, version0 (ddb_edge h table (w_data w) c k) + 1) ∧
        LastValue e = newVal).
Proof.
  intros Hsns Hc Hk Hv Hinv Hclock Hf Hsteps.
  set (I := pool_inv (CSt := unit) (PSt := PSt) (ddb_handler h table clock) c k newVal (ddb_edge h table (w_data w) c k)).
  destruct (lockstep_pool (dispatch (ddb_service table)) (app_handler (ddb_handler h table clock) no_clients no_pub)
    (stack_handler h clock sns) I ((λ '(f, payload), EvaluateEdgeAndFlap c k newVal f payload) <$> jobs) w qs' w')
    as (ps' & -> & HI & _).
  - by apply stack_total.
  - intros c1 c2 HI Hs. by eapply pool_inv_step.
  - intros c1 HI. eapply Forall_impl; [apply HI|]. intros p Hp.
    by apply (evaluating_atomic h table clock sns no_clients no_pub c k newVal).
  - exact (pool_inv_start (ddb_handler h table clock) c k newVal jobs w Hv Hinv Hclock).
  - rewrite <-list_fmap_compose. erewrite list_fmap_ext; [exact Hsteps|]. by intros i [f payload] _.
  - assert (tally announces (interp (dispatch (ddb_service table)) <$> ps') = tally announced ps') as ->.
    { apply tally_fmap. eapply Forall_impl; [apply HI|]. intros p Hp.
      by apply (announces_interp h table clock sns no_clients no_pub c k newVal). }
    exact (pool_inv_announced (ddb_handler h table clock) c k newVal (ddb_edge h table (w_data w) c k) ps' w' HI).
Qed.

End claims.

(** ** Witness *)

(** A topic that accepts everything and keeps it. *)
Definition mem_sns : handler SnsE (list PublishInput) := λ X e l,
  match e with Publish input => (Some None, l ++ [input]) end.

Lemma mem_sns_total : total_handler mem_sns.
Proof. intros X [] l. simpl. eauto. Qed.

Definition demo_stack : handler StackE (World (Tables * nat) unit (list PublishInput)) :=
  stack_handler mem_ddb (λ _, 1000 * Second) mem_sns.

Definition demo_table : World (Tables * nat) unit (list PublishInput) :=
  mkWorld (λ _, 1000 * Second) 0 (∅, 0%nat) tt [] ∅ [] [].

(** Two processes see the first value [b]; both load before either writes. *)
Definition demo_requests : list (prog StackE Result) * World (Tables * nat) unit (list PublishInput) :=
  run_schedule demo_stack [0; 1; 0; 1; 1; 0]%nat
    ((λ '(f, payload), interp (dispatch (ddb_service "enoti")) (EvaluateEdgeAndFlap "c" "k" "b" f payload)) <$> demo_jobs)
    demo_table.

Example demo_requests_result :
  demo_requests.1 = [Ret (SuppressFlapping, None, None); Ret (EdgeTriggeredForward, None, None)].
Proof. vm_compute. reflexivity. Qed.

Lemma ddb_edge_announced_once_witness : tally announces demo_requests.1 <= 1.
Proof.
  apply (ddb_edge_announced_once mem_ddb "enoti" (λ _, 1000 * Second) mem_sns "c" "k" "b" demo_jobs demo_table
           demo_requests.1 demo_requests.2).
  - exact mem_sns_total.
  - reflexivity.
  - reflexivity.
  - reflexivity.
  - apply demo_empty_inv.
  - intros n. vm_compute. split; discriminate.
  - intros e v H. discriminate H.
  - rewrite <- surjective_pairing. apply run_schedule_steps.
Defined.

(** A client is registered and sends the same notification twice: the first one is
    published through SNS, the second one is not; both are answered with 202. *)
Definition demo_visit : prog StackE unit :=
  _ ← translate back_call (ddb_PutClientConfig "enoti" "acme" demo_config);
  _ ← interp (dispatch (ddb_service "enoti")) (Router demo_request);
  interp (dispatch (ddb_service "enoti")) (Router demo_request).

Example demo_visit_result :
  let '(r, w) := run demo_stack demo_visit demo_table in
  r = Some tt ∧
  w_pub w = [mkPublishInput "arn:t" "v=b" [("content-type", ("String", "application/json"))]] ∧
  w_status w = [StatusAccepted; StatusAccepted].
Proof. vm_compute. repeat split. Qed.
