(* ===== verification/Server.v ===== *)
(** * [internal/api/app.go]: starting and stopping the HTTP server

    [RunServerInterruptible] starts two goroutines: one serves until the
    listener fails or the server is shut down and then reports on [doneCh], the
    other waits for [stopCh] and shuts the server down. Both are programs over
    [ServerE]: the channel operations of [app.go] and the steps of
    [http.Server] that other goroutines can observe. [ListenAndServe] and
    [Shutdown] are those of [net/http], step by step: the flag, the listener,
    its registration, the accept loop, and the wait for requests in flight.

    [Server] is the shared state: that of the [http.Server], the two channels, the
    deadline of the context and the time. [action] is what the surroundings do:
    the caller sends on or closes [stopCh] and receives from [doneCh], requests
    come and finish, the network fails or recovers, time passes. *)

From S2P Require Import Prelude Errors Strconv Text Types Effects Ports Sched Http Stack.

(** [http.Server]: the fields the code sets. The handler serves a request with the
    code behind its ports. *)
Record HttpServer := mkHttpServer {
  srv_Addr : string;
  srv_Handler : Request → prog StackE unit;
  ReadHeaderTimeout : Z;
}.

Inductive ServerE : Type → Type :=
(* srv.inShutdown.Load() and Store(true) *)
| ShuttingDown : ServerE bool
| StoreInShutdown : ServerE unit
(* net.Listen *)
| NetListen (addr : string) : ServerE (option error)
(* srv.trackListener(&l, true), refused once the server is shutting down, and
   srv.trackListener(&l, false) *)
| TrackListener : ServerE bool
| UntrackListener : ServerE unit
(* l.Close() *)
| CloseListener : ServerE unit
(* the accept loop, which starts a goroutine per connection that serves its
   requests with srv.Handler, and retries temporary errors: the error it ends
   with *)
| Accept (srv : HttpServer) : ServerE error
(* srv.closeListenersLocked() and srv.listenerGroup.Wait() *)
| CloseListeners : ServerE unit
| WaitListeners : ServerE unit
(* context.WithTimeout *)
| WithTimeout (d : Z) : ServerE unit
(* the polling loop of Shutdown: until no request is in flight or the context
   is done *)
| Drain : ServerE (option error)
(* <-stopCh and doneCh <- v *)
| RecvStop : ServerE unit
| SendDone (v : option error) : ServerE unit.

(** ** [net/http] *)

(** [srv.Serve(l)]. *)
Definition Serve (srv : HttpServer) : prog ServerE (option error) :=
  tracked ← trigger TrackListener;
  if (tracked : bool) then
    err ← trigger (Accept srv);
    closing ← trigger ShuttingDown;
    _ ← trigger UntrackListener;
    _ ← trigger CloseListener;
    mret (Some (if (closing : bool) then Sentinel ErrServerClosed else err))
  else
    _ ← trigger CloseListener;
    mret (Some (Sentinel ErrServerClosed)).

(** [srv.ListenAndServe()]. *)
Definition ListenAndServe (srv : HttpServer) : prog ServerE (option error) :=
  closing ← trigger ShuttingDown;
  if (closing : bool) then mret (Some (Sentinel ErrServerClosed))
  else
    err ← trigger (NetListen (srv_Addr srv));
    match err with
    | Some err => mret (Some err)
    | None => Serve srv
    end.

(** [srv.Shutdown(ctx)]. *)
Definition Shutdown : prog ServerE (option error) :=
  _ ← trigger StoreInShutdown;
  _ ← trigger CloseListeners;
  _ ← trigger WaitListeners;
  trigger Drain.

(** ** [app.go] *)

(** The server that both functions make. *)
Section app.
Context `{L : Lib}.

Definition app_server (port : Z) (clientStore : ∀ X, ClientStoreE X → prog StackE X)
    (dataStore : ∀ X, DataStoreE X → prog StackE X) (publisher : ∀ X, PublisherE X → prog StackE X) : HttpServer :=
  let h := NewHandler clientStore dataStore publisher in
  mkHttpServer (":" +:+ FormatInt port) (λ r, interp (dispatch h) (Router r)) (10 * Second).

(** The goroutine that serves. *)
Definition serve_goroutine (srv : HttpServer) : prog ServerE unit :=
  err ← ListenAndServe srv;
  match err with
  | Some err =>
      if errors_Is err ErrServerClosed then trigger (SendDone None)
      else trigger (SendDone (Some err))
  | None => trigger (SendDone None)
  end.

(** The goroutine that waits for the stop signal. *)
Definition stop_goroutine : prog ServerE unit :=
  _ ← trigger RecvStop;
  _ ← trigger (WithTimeout (15 * Second));
  _ ← Shutdown;
  mret tt.

(** [RunServerInterruptible]: the goroutines it leaves behind; the channels it
    makes and returns are in [Server]. *)
Definition RunServerInterruptible (port : Z) (clientStore : ∀ X, ClientStoreE X → prog StackE X)
    (dataStore : ∀ X, DataStoreE X → prog StackE X) (publisher : ∀ X, PublisherE X → prog StackE X) :
    list (prog ServerE unit) :=
  let srv := app_server port clientStore dataStore publisher in
  [serve_goroutine srv; stop_goroutine].

(** [RunServer]: the error that [log.Fatal] is called with, which ends the
    process. *)
Definition RunServer (port : Z) (clientStore : ∀ X, ClientStoreE X → prog StackE X)
    (dataStore : ∀ X, DataStoreE X → prog StackE X) (publisher : ∀ X, PublisherE X → prog StackE X) :
    prog ServerE (option error) :=
  ListenAndServe (app_server port clientStore dataStore publisher).

End app.

(** [RunSNSLambdaEntryPoint] is a placeholder: it makes no call. *)
Inductive SNSInboundEvent := mkSNSInboundEvent.

Definition RunSNSLambdaEntryPoint (event : SNSInboundEvent) : prog AppE (option error) := mret None.

(** ** The shared state *)

Inductive Listener := Unbound | Listening | ListenerClosed.

#[global] Instance Listener_eq_dec : EqDecision Listener.
Proof. solve_decision. Defined.

Record Server := mkServer {
  inShutdown : bool;
  listener : Listener;
  tracked : bool;
  (** Requests in flight. *)
  active : nat;
  (** What the network does to the next [net.Listen] or accept. *)
  fault : option string;
  (** The time, the deadline of the context, and when the stop signal was received. *)
  now : Z;
  deadline : option Z;
  signalled : option Z;
  (** [stopCh]: the senders that wait, and whether it is closed. *)
  senders : nat;
  closed : bool;
  (** [doneCh]: its buffer of one, and what was received from it. *)
  done : list (option error);
  received : list (option error);
  (** Whether the caller has ever asked to stop. *)
  asked : bool;
}.

Definition idle_server : Server :=
  mkServer false Unbound false 0 None 0 None None 0 false [] [] false.

(** Setters of the fields, as assignments. *)
Definition set_inShutdown (s : Server) : Server :=
  mkServer true (listener s) (tracked s) (active s) (fault s) (now s) (deadline s) (signalled s) (senders s) (closed s) (done s) (received s) (asked s).
Definition set_listener (l : Listener) (s : Server) : Server :=
  mkServer (inShutdown s) l (tracked s) (active s) (fault s) (now s) (deadline s) (signalled s) (senders s) (closed s) (done s) (received s) (asked s).
Definition set_tracked (b : bool) (s : Server) : Server :=
  mkServer (inShutdown s) (listener s) b (active s) (fault s) (now s) (deadline s) (signalled s) (senders s) (closed s) (done s) (received s) (asked s).
Definition set_active (n : nat) (s : Server) : Server :=
  mkServer (inShutdown s) (listener s) (tracked s) n (fault s) (now s) (deadline s) (signalled s) (senders s) (closed s) (done s) (received s) (asked s).
Definition set_fault (f : option string) (s : Server) : Server :=
  mkServer (inShutdown s) (listener s) (tracked s) (active s) f (now s) (deadline s) (signalled s) (senders s) (closed s) (done s) (received s) (asked s).
Definition set_now (t : Z) (s : Server) : Server :=
  mkServer (inShutdown s) (listener s) (tracked s) (active s) (fault s) t (deadline s) (signalled s) (senders s) (closed s) (done s) (received s) (asked s).
Definition set_deadline (d : option Z) (s : Server) : Server :=
  mkServer (inShutdown s) (listener s) (tracked s) (active s) (fault s) (now s) d (signalled s) (senders s) (closed s) (done s) (received s) (asked s).
Definition set_signalled (d : option Z) (s : Server) : Server :=
  mkServer (inShutdown s) (listener s) (tracked s) (active s) (fault s) (now s) (deadline s) d (senders s) (closed s) (done s) (received s) (asked s).
Definition set_stop (n : nat) (b a : bool) (s : Server) : Server :=
  mkServer (inShutdown s) (listener s) (tracked s) (active s) (fault s) (now s) (deadline s) (signalled s) n b (done s) (received s) a.
Definition set_done (l r : list (option error)) (s : Server) : Server :=
  mkServer (inShutdown s) (listener s) (tracked s) (active s) (fault s) (now s) (deadline s) (signalled s) (senders s) (closed s) l r (asked s).

(** The deadline of the context has passed. *)
Definition expired (s : Server) : bool :=
  match deadline s with Some d => bool_decide (d <= now s) | None => false end.

Definition server_handler : waiting_handler ServerE Server := λ X e s,
  match e with
  | ShuttingDown => Some (inShutdown s, s)
  | StoreInShutdown => Some (tt, set_inShutdown s)
  | NetListen _ =>
      match fault s with
      | Some msg => Some (Some (OpError "listen" msg), s)
      | None => Some (None, set_listener Listening s)
      end
  | TrackListener => if inShutdown s then Some (false, s) else Some (true, set_tracked true s)
  | UntrackListener => Some (tt, set_tracked false s)
  | CloseListener => Some (tt, set_listener ListenerClosed s)
  | Accept _ =>
      if decide (listener s = ListenerClosed) then
        Some (OpError "accept" "use of closed network connection", s)
      else msg ← fault s; Some (OpError "accept" msg, s)
  | CloseListeners =>
      Some (tt, if tracked s then set_listener ListenerClosed s else s)
  | WaitListeners => if tracked s then None else Some (tt, s)
  | WithTimeout d => Some (tt, set_deadline (Some (now s + d)) s)
  | Drain =>
      if decide (active s = 0%nat) then Some (None, s)
      else if expired s then Some (Some (Errorf "context deadline exceeded"), s)
      else None
  | RecvStop =>
      match senders s with
      | Datatypes.S n => Some (tt, set_signalled (Some (now s)) (set_stop n (closed s) (asked s) s))
      | O => if closed s then Some (tt, set_signalled (Some (now s)) s) else None
      end
  | SendDone v => if decide (done s = []) then Some (tt, set_done [v] (received s) s) else None
  end.

(** ** The surroundings *)

Inductive action :=
| CallerSend | CallerClose | CallerReceive
| Connect | Finish
| NetFault (msg : string) | NetRecover
| Elapse (d : Z).

Definition act (a : action) (s : Server) : option Server :=
  match a with
  | CallerSend => if closed s then None else Some (set_stop (Datatypes.S (senders s)) false true s)
  | CallerClose => if closed s then None else Some (set_stop (senders s) true true s)
  | CallerReceive => match done s with v :: l => Some (set_done l (received s ++ [v]) s) | [] => None end
  | Connect =>
      if decide (tracked s = true ∧ listener s = Listening) then Some (set_active (Datatypes.S (active s)) s) else None
  | Finish => match active s with Datatypes.S n => Some (set_active n s) | O => None end
  | NetFault msg => Some (set_fault (Some msg) s)
  | NetRecover => Some (set_fault None s)
  | Elapse d => if decide (0 < d) then Some (set_now (now s + d) s) else None
  end.

Definition acts (s s' : Server) : Prop := ∃ a, act a s = Some s'.

(** A configuration: the goroutines and the state. *)
Definition server_step := step (A := unit) server_handler acts.
Definition start `{Lib} port cl es pub : list (prog ServerE unit) * Server :=
  (RunServerInterruptible port cl es pub, idle_server).

(** What [doneCh] has delivered or holds. *)
Definition reported (s : Server) : list (option error) := received s ++ done s.

(** ** Executable runs *)

Inductive move := Go (i : nat) | Act (a : action).

Definition apply_move (m : move) (c : list (prog ServerE unit) * Server) : option (list (prog ServerE unit) * Server) :=
  match m with
  | Go i => advance server_handler i c
  | Act a => s ← act a c.2; Some (c.1, s)
  end.

Fixpoint play (ms : list move) (c : list (prog ServerE unit) * Server) : option (list (prog ServerE unit) * Server) :=
  match ms with
  | [] => Some c
  | m :: ms => c' ← apply_move m c; play ms c'
  end.

Lemma apply_move_step m c c' : apply_move m c = Some c' → server_step c c'.
Proof.
  destruct m as [i|a]; simpl; intros Hm.
  - apply step_go. by eapply advance_go.
  - destruct c as [ps s]. simpl in Hm. destruct (act a s) as [s1|] eqn:Ha; [|done]. simplify_eq/=.
    apply step_env. by exists a.
Qed.

Lemma play_steps ms c c' : play ms c = Some c' → rtc server_step c c'.
Proof.
  revert c. induction ms as [|m ms IH]; intros c; simpl; [by intros [= <-]|].
  destruct (apply_move m c) as [c1|] eqn:Hm; [|done]. intros H%IH.
  eapply rtc_l; [by eapply apply_move_step|exact H].
Qed.

(** The run that makes the given moves and then rests. *)
Definition scripted (ms : list move) (c : list (prog ServerE unit) * Server) (n : nat) : list (prog ServerE unit) * Server :=
  default c (play (take n ms) c).

Lemma play_app ms ms' c : play (ms ++ ms') c = c' ← play ms c; play ms' c'.
Proof. revert c. induction ms as [|m ms IH]; intros c; simpl; [done|]. by destruct (apply_move m c); simpl. Qed.

Lemma scripted_fair ms c c' :
  play ms c = Some c' → ¬ enabled server_handler c' → fair server_handler acts (scripted ms c).
Proof.
  intros Hp Hrest.
  assert (∀ n, ∃ d, play (take n ms) c = Some d) as Hall.
  { intros n. rewrite <-(take_drop n ms), play_app in Hp. destruct (play (take n ms) c); simpl in Hp; eauto. }
  split.
  - intros n. unfold scripted. destruct (Hall n) as [d Hd]. rewrite Hd.
    destruct (ms !! n) as [m|] eqn:Hm.
    + left. destruct (Hall (Datatypes.S n)) as [d' Hd']. rewrite Hd'. simpl.
      rewrite (take_S_r _ _ _ Hm), play_app, Hd in Hd'. simpl in Hd'.
      destruct (apply_move m d) as [d1|] eqn:Hm'; [|done]. simplify_eq/=. by eapply apply_move_step.
    + right. apply lookup_ge_None in Hm. rewrite take_ge in Hd |- * by lia. by rewrite Hd.
  - intros n. exists (n + length ms)%nat. split; [lia|]. right. unfold scripted.
    by rewrite take_ge, Hp by lia.
Qed.
