(* ===== verification/ServerProps.v ===== *)
(** * What starting and stopping the HTTP server guarantees *)

From S2P Require Import Prelude Errors Strconv Text Types Effects Ports Sched Http Stack DdbMem DemoLib Server.

(** ** Where a goroutine is

    The rest of a goroutine's program from each of its calls on. *)

Inductive serve_pc :=
| PCheck | PListen | PTrack | PRefused | PAccept
| PRecheck (err : error) | PUntrack (err : error) | PClose (err : error)
| PSend (v : option error) | PEnd.

Inductive stop_pc := QRecv | QTimeout | QStore | QClose | QWait | QDrain | QEnd.

(** The value the goroutine sends for the error of [ListenAndServe]. *)
Definition completion (err : error) : option error :=
  if errors_Is err ErrServerClosed then None else Some err.

(** The code that follows [ListenAndServe]. *)
Definition report (err : option error) : prog ServerE unit :=
  match err with
  | Some err =>
      if errors_Is err ErrServerClosed then trigger (SendDone None)
      else trigger (SendDone (Some err))
  | None => trigger (SendDone None)
  end.

Definition accept_code (srv : HttpServer) : prog ServerE (option error) :=
  err ← trigger (Accept srv);
  closing ← trigger ShuttingDown;
  _ ← trigger UntrackListener;
  _ ← trigger CloseListener;
  mret (Some (if (closing : bool) then Sentinel ErrServerClosed else err)).

Definition serve_code (srv : HttpServer) (pc : serve_pc) : prog ServerE unit :=
  match pc with
  | PCheck => prog_bind report (ListenAndServe srv)
  | PListen => prog_bind report (prog_bind (λ err, match err with Some err => Ret (Some err) | None => Serve srv end)
                                   (trigger (NetListen (srv_Addr srv))))
  | PTrack => prog_bind report (Serve srv)
  | PRefused => prog_bind report (_ ← trigger CloseListener; mret (Some (Sentinel ErrServerClosed)))
  | PAccept => prog_bind report (accept_code srv)
  | PRecheck err => prog_bind report
      (closing ← trigger ShuttingDown; _ ← trigger UntrackListener; _ ← trigger CloseListener;
       mret (Some (if (closing : bool) then Sentinel ErrServerClosed else err)))
  | PUntrack err => prog_bind report (_ ← trigger UntrackListener; _ ← trigger CloseListener; mret (Some err))
  | PClose err => prog_bind report (_ ← trigger CloseListener; mret (Some err))
  | PSend v => trigger (SendDone v)
  | PEnd => Ret tt
  end.

Definition stop_code (pc : stop_pc) : prog ServerE unit :=
  match pc with
  | QRecv => stop_goroutine
  | QTimeout => _ ← trigger (WithTimeout (15 * Second)); _ ← Shutdown; mret tt
  | QStore => _ ← Shutdown; mret tt
  | QClose => _ ← (_ ← trigger CloseListeners; _ ← trigger WaitListeners; trigger Drain); mret tt
  | QWait => _ ← (_ ← trigger WaitListeners; trigger Drain); mret tt
  | QDrain => _ ← trigger Drain; mret tt
  | QEnd => Ret tt
  end.

Lemma report_code srv err : report (Some err) = serve_code srv (PSend (completion err)).
Proof. unfold report, completion. by destruct (errors_Is err ErrServerClosed). Qed.

(** Where one call leads. *)
Lemma serve_step srv pc s p' s' :
  step_thread server_handler (serve_code srv pc) s = Some (p', s') →
  ∃ pc', p' = serve_code srv pc' ∧
  match pc with
  | PCheck => s' = s ∧ pc' = if inShutdown s then PSend None else PListen
  | PListen =>
      match fault s with
      | Some msg => s' = s ∧ pc' = PSend (Some (OpError "listen" msg))
      | None => s' = set_listener Listening s ∧ pc' = PTrack
      end
  | PTrack =>
      if inShutdown s then s' = s ∧ pc' = PRefused else s' = set_tracked true s ∧ pc' = PAccept
  | PRefused => s' = set_listener ListenerClosed s ∧ pc' = PSend None
  | PAccept =>
      s' = s ∧ (listener s = ListenerClosed ∨ is_Some (fault s)) ∧
      ∃ msg, pc' = PRecheck (OpError "accept" msg)
  | PRecheck err => s' = s ∧ pc' = PUntrack (if inShutdown s then Sentinel ErrServerClosed else err)
  | PUntrack err => s' = set_tracked false s ∧ pc' = PClose err
  | PClose err => s' = set_listener ListenerClosed s ∧ pc' = PSend (completion err)
  | PSend v => done s = [] ∧ s' = set_done [v] (received s) s ∧ pc' = PEnd
  | PEnd => False
  end.
Proof.
  destruct pc as [| | | | |err|err|err|v|]; simpl; try done.
  - intros [= <- <-]. destruct (inShutdown s); [by exists (PSend None)|by exists PListen].
  - destruct (fault s) as [msg|]; intros [= <- <-]; [by exists (PSend (Some (OpError "listen" msg)))|by exists PTrack].
  - destruct (inShutdown s); intros [= <- <-]; [by exists PRefused|by exists PAccept].
  - intros [= <- <-]. by exists (PSend None).
  - case_decide as Hl; [|destruct (fault s) as [msg|] eqn:Hf; [|done]];
      intros [= <- <-]; (eexists (PRecheck _); split; [reflexivity|]); eauto.
  - intros [= <- <-]. eexists (PUntrack _). split; [|done]. by destruct (inShutdown s).
  - intros [= <- <-]. by eexists (PClose _).
  - intros [= <- <-]. exists (PSend (completion err)). split; [|done]. apply (report_code srv).
  - case_decide as Hd; [|done]. intros [= <- <-]. by exists PEnd.
Qed.

Lemma stop_step pc s p' s' :
  step_thread server_handler (stop_code pc) s = Some (p', s') →
  ∃ pc', p' = stop_code pc' ∧
  match pc with
  | QRecv => pc' = QTimeout ∧ asked s' = asked s ∧
             (s' = set_signalled (Some (now s)) s ∧ closed s = true ∨
              ∃ n, senders s = Datatypes.S n ∧ s' = set_signalled (Some (now s)) (set_stop n (closed s) (asked s) s))
  | QTimeout => pc' = QStore ∧ s' = set_deadline (Some (now s + 15 * Second)) s
  | QStore => pc' = QClose ∧ s' = set_inShutdown s
  | QClose => pc' = QWait ∧ s' = if tracked s then set_listener ListenerClosed s else s
  | QWait => pc' = QDrain ∧ s' = s ∧ tracked s = false
  | QDrain => pc' = QEnd ∧ s' = s ∧ (active s = 0%nat ∨ expired s = true)
  | QEnd => False
  end.
Proof.
  destruct pc; simpl; try done.
  - destruct (senders s) as [|n] eqn:Hn; [destruct (closed s) eqn:Hc; [|done]|];
      intros [= <- <-]; exists QTimeout; split_and!; eauto.
  - intros [= <- <-]. by exists QStore.
  - intros [= <- <-]. by exists QClose.
  - intros [= <- <-]. by exists QWait.
  - destruct (tracked s) eqn:Ht; [done|]. intros [= <- <-]. by exists QDrain.
  - case_decide; [|destruct (expired s) eqn:He; [|done]]; intros [= <- <-]; exists QEnd; eauto.
Qed.

(** ** The invariant *)

Definition net_error (err : error) : Prop := ∃ op msg, err = OpError op msg.

(** A report and why it is made: nil only while shutting down, otherwise the
    error of the network. *)
Definition justified (s : Server) (v : option error) : Prop :=
  match v with
  | None => inShutdown s = true
  | Some err => net_error err
  end.

(** The error [ListenAndServe] is about to return. *)
Definition outcome_ok (s : Server) (err : error) : Prop :=
  err = Sentinel ErrServerClosed ∧ inShutdown s = true ∨ net_error err.

Definition serving (a : serve_pc) : bool :=
  match a with PAccept | PRecheck _ | PUntrack _ => true | _ => false end.

(** The serving goroutine at [a]. *)
Definition serve_ok (s : Server) (a : serve_pc) : Prop :=
  tracked s = serving a ∧
  match a with
  | PCheck | PListen => reported s = [] ∧ listener s = Unbound
  | PTrack => reported s = [] ∧ listener s = Listening
  | PRefused => reported s = [] ∧ inShutdown s = true
  | PAccept => reported s = [] ∧ listener s ≠ Unbound
  | PRecheck err => reported s = [] ∧ net_error err
  | PUntrack err | PClose err => reported s = [] ∧ outcome_ok s err
  | PSend v => reported s = [] ∧ listener s ≠ Listening ∧ justified s v
  | PEnd => ∃ v, reported s = [v] ∧ listener s ≠ Listening ∧ justified s v
  end.

(** The stop signal was received; then the context was given fifteen seconds. *)
Definition heard (s : Server) : Prop := ∃ t0, signalled s = Some t0 ∧ t0 <= now s.
Definition armed (s : Server) : Prop :=
  ∃ t0 t1, signalled s = Some t0 ∧ t0 <= t1 <= now s ∧ deadline s = Some (t1 + 15 * Second).

(** The stopping goroutine at [b]. *)
Definition stop_ok (s : Server) (b : stop_pc) : Prop :=
  match b with
  | QRecv => inShutdown s = false ∧ (asked s = true → closed s = true ∨ senders s ≠ 0%nat)
  | QTimeout => inShutdown s = false ∧ heard s
  | QStore => inShutdown s = false ∧ armed s
  | QClose => inShutdown s = true ∧ armed s
  | QWait => inShutdown s = true ∧ (tracked s = true → listener s = ListenerClosed) ∧ armed s
  | QDrain => inShutdown s = true ∧ tracked s = false ∧ armed s
  | QEnd => inShutdown s = true ∧ tracked s = false ∧ armed s ∧ (active s = 0%nat ∨ expired s = true)
  end ∧ (b ≠ QRecv → asked s = true) ∧ (asked s = false → closed s = false ∧ senders s = 0%nat).

Definition server_inv (srv : HttpServer) (c : list (prog ServerE unit) * Server) : Prop :=
  ∃ a b, c.1 = [serve_code srv a; stop_code b] ∧ serve_ok c.2 a ∧ stop_ok c.2 b.

Lemma justified_completion s err : outcome_ok s err → justified s (completion err).
Proof. by intros [[-> ?]|(op & msg & ->)]; [|eexists _, _]. Qed.

Lemma heard_mono s s' : signalled s' = signalled s → now s <= now s' → heard s → heard s'.
Proof. intros Hs Hn (t0 & Ht & ?). exists t0. rewrite Hs. split; [done|lia]. Qed.

Lemma armed_mono s s' :
  signalled s' = signalled s → deadline s' = deadline s → now s <= now s' → armed s → armed s'.
Proof. intros Hs Hd Hn (t0 & t1 & ? & ? & ?). exists t0, t1. rewrite Hs, Hd. split_and!; [done|lia..|done]. Qed.

Lemma expired_mono s s' : deadline s' = deadline s → now s <= now s' → expired s = true → expired s' = true.
Proof.
  unfold expired. intros -> Hn. destruct (deadline s); [|done]. rewrite !bool_decide_eq_true. lia.
Qed.

(** What the stopping goroutine relies on. *)
Lemma stop_ok_mono s s' b :
  stop_ok s b → inShutdown s' = inShutdown s →
  (asked s', closed s', senders s', signalled s', deadline s') =
    (asked s, closed s, senders s, signalled s, deadline s) → now s <= now s' →
  (active s = 0%nat → tracked s = false → active s' = 0%nat) →
  (tracked s' = true → inShutdown s = false ∨
     tracked s = true ∧ (listener s' = listener s ∨ listener s' = ListenerClosed)) → stop_ok s' b.
Proof.
  unfold stop_ok. intros Hb -> [= -> -> -> Hs Hd] Hn Hact Htr.
  pose proof (heard_mono s s' Hs Hn). pose proof (armed_mono s s' Hs Hd Hn). pose proof (expired_mono s s' Hd Hn).
  destruct (tracked s'), b; intuition congruence.
Qed.

Ltac stop_mono := eapply stop_ok_mono; [eassumption|done|done|simpl; lia|done|simpl; intuition congruence].

Lemma serve_keeps srv a b s p' s' :
  step_thread server_handler (serve_code srv a) s = Some (p', s') →
  serve_ok s a → stop_ok s b →
  ∃ a', p' = serve_code srv a' ∧ serve_ok s' a' ∧ stop_ok s' b.
Proof.
  intros (a' & -> & H)%serve_step [Htr Ha] Hb. exists a'. split; [done|].
  destruct a as [| | | | |err|err|err|v|]; simpl in *.
  - destruct H as [-> ->]. split; [|done]. destruct (inShutdown s) eqn:Hd; unfold serve_ok; simpl; [|by destruct Ha].
    rewrite Hd. destruct Ha as [? ->]. done.
  - destruct (fault s) as [msg|]; destruct H as [-> ->], Ha as [? Hl].
    + split; [|done]. split; [done|]. simpl. rewrite Hl. split_and!; [done..|by eexists _, _].
    + split; [by split|]. stop_mono.
  - destruct (inShutdown s) eqn:Hd; destruct H as [-> ->], Ha as [? Hl]; [by split|].
    split; [split; [done|]; simpl; by rewrite Hl|]. stop_mono.
  - destruct H as [-> ->], Ha as [? Hd]. split; [by split|]. stop_mono.
  - destruct H as (-> & _ & msg & ->), Ha as [? _]. split; [|done]. split; [done|]. split; [done|]. by eexists _, _.
  - destruct H as [-> ->], Ha as [? He]. split; [|done]. split; [done|]. split; [done|].
    unfold outcome_ok. destruct (inShutdown s); eauto.
  - destruct H as [-> ->], Ha as [? He]. split; [by split|]. stop_mono.
  - destruct H as [-> ->], Ha as [? He]. split; [|stop_mono].
    split; [done|]. split_and!; [done..|]. by apply (justified_completion s).
  - destruct H as (Hd & -> & ->), Ha as (Hr & Hl & Hj). split; [|done]. split; [done|]. exists v.
    unfold reported in *. rewrite Hd, app_nil_r in Hr. simpl. by rewrite Hr.
  - done.
Qed.

(** What the serving goroutine relies on only grows. *)
Lemma serve_ok_mono s s' a :
  serve_ok s a → tracked s' = tracked s → reported s' = reported s →
  (listener s' = listener s ∨ tracked s = true ∧ listener s' = ListenerClosed) →
  (inShutdown s = true → inShutdown s' = true) → serve_ok s' a.
Proof.
  unfold serve_ok, outcome_ok, justified. intros [Ht Ha] -> -> Hl Hi. split; [done|].
  rewrite Ht in Hl. destruct a as [| | | | |err|err|err|[v|]|]; simpl in *;
    [intuition congruence..|].
  destruct Ha as (v & ? & ? & ?). exists v. destruct v; intuition congruence.
Qed.

Lemma stop_keeps a b s p' s' :
  step_thread server_handler (stop_code b) s = Some (p', s') →
  serve_ok s a → stop_ok s b →
  ∃ b', p' = stop_code b' ∧ serve_ok s' a ∧ stop_ok s' b'.
Proof.
  intros (b' & -> & H)%stop_step Ha (Hb & Hq & Hn). exists b'. split; [done|].
  assert (b ≠ QRecv → b' ≠ QRecv → asked s = true) as Hask by auto.
  destruct b; simpl in *.
  - destruct H as (-> & Hsame & H), Hb as [Hi Hs].
    assert (asked s = true) as Hyes.
    { destruct (asked s); [done|]. destruct (Hn eq_refl) as [Hc0 Hs0]. destruct H as [[_ ?]|(n & ? & _)]; congruence. }
    assert (heard s' ∧ inShutdown s' = false) as [Hh Hi'].
    { destruct H as [[-> _]|(n & _ & ->)]; (split; [exists (now s); split; simpl; [done|lia]|done]). }
    split; [destruct H as [[-> _]|(n & _ & ->)]; by eapply serve_ok_mono; eauto|].
    split; [done|]. rewrite Hsame, Hyes. done.
  - destruct H as [-> ->], Hb as [Hi (t0 & Ht & Hle)]. split; [by eapply serve_ok_mono; eauto|].
    split; [|naive_solver]. split; [done|]. exists t0, (now s). simpl. split_and!; [done|lia..|done].
  - destruct H as [-> ->]. split; [by eapply serve_ok_mono; eauto|]. split; [|naive_solver]. by destruct Hb.
  - destruct H as [-> ->], Hb as [Hi Harm]. destruct (tracked s) eqn:Ht.
    + split; [eapply serve_ok_mono; eauto|]. split; [|naive_solver]. by split_and!.
    + split; [done|]. split; [|naive_solver]. split_and!; [done|congruence|done].
  - destruct H as (-> & -> & Ht). split; [done|]. split; [|naive_solver]. naive_solver.
  - destruct H as (-> & -> & Ht). split; [done|]. split; [|naive_solver]. naive_solver.
  - done.
Qed.

Lemma act_keeps a b s s' :
  acts s s' → serve_ok s a → stop_ok s b → serve_ok s' a ∧ stop_ok s' b.
Proof.
  intros [x Hx] Ha Hb. split.
  - destruct x as [| | | | |msg| |d]; simpl in Hx; repeat case_match; simplify_eq/=;
      eapply serve_ok_mono; eauto. unfold reported. simpl.
    by rewrite <-app_assoc, H.
  - destruct x as [| | | | |msg| |d]; simpl in Hx; repeat case_match; simplify_eq/=;
      try (eapply stop_ok_mono; [eassumption|done|done|simpl; lia|simpl; intuition congruence|simpl; intuition congruence]);
      unfold stop_ok, heard, armed, expired in *; simpl; destruct b; try intuition congruence.
    destruct a0. intuition congruence.
Qed.

Lemma server_inv_step srv c c' : server_inv srv c → server_step c c' → server_inv srv c'.
Proof.
  intros (a & b & Hps & Ha & Hb) Hs. destruct Hs as [c c' Hs|ps s s' Hact].
  - destruct Hs as [i p ps s p' s' Hi Hp]. simpl in *. subst ps.
    destruct i as [|[|i]]; simplify_eq/=.
    + destruct (serve_keeps srv a b s p' s' Hp Ha Hb) as (a' & -> & ? & ?). by exists a', b.
    + destruct (stop_keeps a b s p' s' Hp Ha Hb) as (b' & -> & ? & ?). by exists a, b'.
  - simpl in *. destruct (act_keeps a b s s' Hact Ha Hb). by exists a, b.
Qed.

(** ** Coming to rest *)

(** The serving goroutine has returned. *)
Definition serving_over (c : list (prog ServerE unit) * Server) : Prop := c.1 !! 0%nat = Some (Ret tt).

(** The stopping goroutine has returned. *)
Definition stopping_over (c : list (prog ServerE unit) * Server) : Prop := c.1 !! 1%nat = Some (Ret tt).

Lemma serve_within srv : within 8 (serve_goroutine srv).
Proof.
  assert (∀ n err, within (S n) (report (Some err))) as Hr.
  { intros n err. unfold report. by destruct (errors_Is err ErrServerClosed). }
  intros [|]; [apply (Hr 6%nat (Sentinel ErrServerClosed))|]. intros [err|]; [apply (Hr 5%nat err)|].
  intros [|]; [|intros []; apply (Hr 3%nat (Sentinel ErrServerClosed))].
  intros err closing [] []. apply (Hr 0%nat (if closing : bool then Sentinel ErrServerClosed else err)).
Qed.

Lemma stop_within : within 6 stop_goroutine.
Proof. by intros [] [] [] [] [] ?. Qed.

(** A goroutine that waits does so for a reason. *)
Lemma serve_waits srv a s :
  step_thread server_handler (serve_code srv a) s = None → serve_ok s a →
  a = PEnd ∨ a = PAccept ∧ listener s = Listening.
Proof.
  destruct a as [| | | | |err|err|err|v|]; simpl; try done; try by left.
  - by destruct (fault s).
  - by destruct (inShutdown s).
  - case_decide; [done|]. intros _ [_ [_ ?]]. right. by destruct (listener s).
  - case_decide as Hd; [done|]. intros _ [_ (Hr & _)]. destruct Hd. unfold reported in Hr.
    by apply app_eq_nil in Hr as [_ ?].
Qed.

Lemma stop_waits b s :
  step_thread server_handler (stop_code b) s = None → stop_ok s b → asked s = true →
  b = QEnd ∨ b = QWait ∧ tracked s = true ∨ b = QDrain ∧ active s ≠ 0%nat ∧ expired s = false.
Proof.
  destruct b; simpl; try done; try by left.
  - intros H ([_ Hs] & _) Hask. destruct (Hs Hask) as [Hc|Hn]; destruct (senders s); try done. by rewrite Hc in H.
  - destruct (tracked s); [|done]. auto.
  - case_decide; [done|]. destruct (expired s); [done|]. auto.
Qed.

(** A stop request is not forgotten. *)
Lemma asked_handler X (e : ServerE X) s x s' : server_handler X e s = Some (x, s') → asked s' = asked s.
Proof.
  destruct e; simpl; intros H; simplify_eq/=; try done.
  - by destruct (fault s); simplify_eq/=.
  - by destruct (inShutdown s); simplify_eq/=.
  - case_decide; [by simplify_eq/=|]. by destruct (fault s); simplify_eq/=.
  - by destruct (tracked s); simplify_eq/=.
  - by destruct (tracked s); simplify_eq/=.
  - case_decide; [by simplify_eq/=|]. by destruct (expired s); simplify_eq/=.
  - destruct (senders s); [|by simplify_eq/=]. by destruct (closed s); simplify_eq/=.
  - by case_decide; simplify_eq/=.
Qed.

Lemma asked_step c c' : asked c.2 = true → server_step c c' → asked c'.2 = true.
Proof.
  intros Hask Hs. destruct Hs as [c c' Hs|ps s s' [a Ha]].
  - destruct Hs as [i p ps s p' s' Hi Hp]. simpl in *. destruct p as [| |X e k]; [done..|].
    simpl in Hp. destruct (server_handler X e s) as [[x s1]|] eqn:He; [|done]. simplify_eq/=.
    by rewrite (asked_handler _ _ _ _ _ He).
  - destruct a; simpl in Ha; repeat case_match; by simplify_eq/=.
Qed.

(** At rest after a stop signal, the serving goroutine has returned. *)
Lemma rest_served srv c :
  server_inv srv c → ¬ enabled server_handler c → asked c.2 = true → serving_over c.
Proof.
  destruct c as [ps s]. intros (a & b & Hps & Ha & Hb) Hno Hask. simpl in *. subst ps.
  pose proof (not_enabled _ _ _ 0%nat _ Hno eq_refl) as [->|(-> & Hl)]%(serve_waits srv); [done| |done].
  pose proof (not_enabled _ _ _ 1%nat _ Hno eq_refl) as H%stop_waits; [|done..].
  destruct Ha as [Htr _]. simpl in Htr. exfalso.
  destruct H as [->|[[-> _]|[-> _]]]; destruct Hb as [Hb _]; simpl in Hb; intuition congruence.
Qed.

Lemma serve_code_over srv a : serve_code srv a = Ret tt → a = PEnd.
Proof. by destruct a. Qed.

Lemma stop_code_over b : stop_code b = Ret tt → b = QEnd.
Proof. by destruct b. Qed.

(** From the end of [Shutdown] on, no request begins. *)
Definition draining (srv : HttpServer) (n : nat) (c : list (prog ServerE unit) * Server) : Prop :=
  server_inv srv c ∧ stopping_over c ∧ (active c.2 <= n)%nat.

Lemma handler_active X (e : ServerE X) s x s' : server_handler X e s = Some (x, s') → active s' = active s.
Proof.
  destruct e; simpl; intros H; repeat case_match; simplify_eq/=; try done. by destruct (fault s); simplify_eq/=.
Qed.

Lemma stopping_over_closed srv c : server_inv srv c → stopping_over c → inShutdown c.2 = true ∧ tracked c.2 = false.
Proof.
  intros (a & b & Hps & _ & Hb). unfold stopping_over. rewrite Hps. intros [= ->%stop_code_over].
  destruct Hb as [(? & ? & _) _]. done.
Qed.

Lemma draining_step srv n c c' : draining srv n c → server_step c c' → draining srv n c'.
Proof.
  intros (Hinv & Hover & Hn) Hs. split; [by eapply server_inv_step|].
  destruct (stopping_over_closed srv c Hinv Hover) as [_ Htr]. unfold stopping_over in *.
  destruct Hs as [c c' Hs|ps s s' [a Ha]]; simpl in *.
  - destruct Hs as [i p ps s p' s' Hi Hp]. simpl in *. destruct (decide (i = 1%nat)) as [->|Hne]; [simplify_eq/=|].
    split; [by rewrite list_lookup_insert_ne|]. destruct p as [| |X e k]; [done..|]. simpl in Hp.
    destruct (server_handler X e s) as [[x s1]|] eqn:He; [|done]. simplify_eq/=.
    by rewrite (handler_active _ _ _ _ _ He).
  - split; [done|]. destruct a; simpl in Ha; repeat case_match; simplify_eq/=; try done; [|lia].
    destruct a. congruence.
Qed.

(** ** Claims *)

Section claims.
Context `{L : Lib} (port : Z) (cl : ∀ X, ClientStoreE X → prog StackE X).
Context (es : ∀ X, DataStoreE X → prog StackE X) (pub : ∀ X, PublisherE X → prog StackE X).

#[local] Notation srv := (app_server port cl es pub).
#[local] Notation start := (start port cl es pub).

Lemma server_inv_start : server_inv srv start.
Proof. exists PCheck, QRecv. split; [done|]. by repeat split. Qed.

Lemma server_inv_reach c : rtc server_step start c → server_inv srv c.
Proof.
  intros H. pose proof server_inv_start as Hi. induction H as [c|c c1 c2 Hs _ IH]; [done|].
  by apply IH, (server_inv_step _ c).
Qed.

Lemma server_budget : budget 14 (RunServerInterruptible port cl es pub).
Proof.
  exists [8; 6]%nat. split; [|done]. constructor; [apply serve_within|]. constructor; [apply stop_within|done].
Qed.

(** C17: [doneCh] reports once and truthfully. In every reachable state it has
    carried nothing, or one value and the serving goroutine has returned with
    the listener closed; nil is reported only after the caller asked to stop,
    and an error is the one the network gave, never [http.ErrServerClosed]. *)
Theorem server_reports_once c :
  rtc server_step start c →
  reported c.2 = [] ∧ ¬ serving_over c ∨
  ∃ v, reported c.2 = [v] ∧ serving_over c ∧ listener c.2 ≠ Listening ∧
    match v with
    | None => asked c.2 = true ∧ inShutdown c.2 = true
    | Some err => net_error err ∧ errors_Is err ErrServerClosed = false
    end.
Proof.
  intros (a & b & Hps & [_ Ha] & Hb)%server_inv_reach. unfold serving_over. rewrite Hps. simpl.
  assert (a = PEnd ∨ a ≠ PEnd) as [->|Hne] by (destruct a; by auto).
  - right. destruct Ha as ([err|] & Hr & Hl & Hj); eexists; (split; [done|]); split_and!; try done.
    + by destruct Hj as (op & msg & ->).
    + destruct Hb as (Hb & Hq & _). apply Hq. intros ->. simpl in *. destruct Hb. congruence.
  - left. split; [|intros [= ?%serve_code_over]; done].
    by destruct a; naive_solver.
Qed.

(** C35: the shutdown is graceful for [Shutdown] itself. When the stopping
    goroutine has returned, the stop signal was received at some time [t0] and the
    context was given until fifteen seconds after a time [t1], not earlier than
    [t0] nor later than now; no request is in flight or those fifteen seconds are
    over; and from then on no connection is accepted and no request begins. *)
Theorem server_shutdown_drains c :
  rtc server_step start c → stopping_over c →
  asked c.2 = true ∧
  (∃ t0 t1, signalled c.2 = Some t0 ∧ t0 <= t1 <= now c.2 ∧ deadline c.2 = Some (t1 + 15 * Second) ∧
     (active c.2 = 0%nat ∨ t1 + 15 * Second <= now c.2)) ∧
  (∀ c', rtc server_step c c' → act Connect c'.2 = None ∧ (active c'.2 <= active c.2)%nat).
Proof.
  intros Hinv%server_inv_reach Hover. pose proof Hinv as (a & b & Hps & _ & Hb). pose proof Hover as Hb'.
  unfold stopping_over in Hb'. rewrite Hps in Hb'. injection Hb' as ->%stop_code_over.
  destruct Hb as ((_ & _ & (t0 & t1 & Hs & Ht & Hd) & Hend) & Hq & _). split; [by apply Hq|]. split.
  - exists t0, t1. split_and!; [done|lia..|done|]. unfold expired in Hend. rewrite Hd, bool_decide_eq_true in Hend. done.
  - intros c' Hsteps. assert (draining srv (active c.2) c') as (Hinv' & Hover' & Hact).
    { assert (draining srv (active c.2) c) as Hd0 by by split_and!.
      revert Hd0. generalize (active c.2). clear -Hsteps. intros n Hd0.
      induction Hsteps as [c|c c1 c2 Hs _ IH]; [done|]. by apply IH, (draining_step _ _ c). }
    split; [|done]. destruct (stopping_over_closed _ _ Hinv' Hover') as [_ Htr]. simpl. rewrite Htr.
    by rewrite decide_False by (by intros [? _]).
Qed.

(** A fair run comes to rest after a stop signal. *)
Lemma server_rests σ n :
  fair server_handler acts σ → σ 0%nat = start → asked (σ n).2 = true →
  ∃ m, (n <= m)%nat ∧ server_inv srv (σ m) ∧ ¬ enabled server_handler (σ m) ∧ asked (σ m).2 = true.
Proof.
  intros Hfair H0 Hask. pose proof Hfair as [Hrun _].
  destruct (budget_run _ _ σ 0 n 14 Hrun ltac:(lia)) as (b & _ & Hb).
  { rewrite H0. apply server_budget. }
  destruct (fair_rest _ _ σ n b Hfair Hb) as (m & Hle & Hrest).
  exists m. split_and!; [done| |done|].
  - eapply run_invariant; [done|apply server_inv_step|rewrite H0; apply server_inv_start].
  - eapply (run_invariant_from _ _ (λ c, asked c.2 = true)); [done|apply asked_step|done|done].
Qed.

(** C9: a stop signal is honoured. In every run in which goroutines that can move
    are not starved, once the caller has sent on or closed the stop channel, the
    serving goroutine returns and [doneCh] has its one value, whatever the
    network, the clients and the time do, and even if requests never finish. *)
Theorem server_stop_honoured σ n :
  fair server_handler acts σ → σ 0%nat = start → asked (σ n).2 = true →
  ∃ m v, (n <= m)%nat ∧ serving_over (σ m) ∧ reported (σ m).2 = [v].
Proof.
  intros Hfair H0 Hask. destruct (server_rests σ n Hfair H0 Hask) as (m & Hle & Hinv & Hrest & Hm).
  pose proof (rest_served _ _ Hinv Hrest Hm) as Hover.
  destruct Hinv as (a & b & Hps & [_ Ha] & _). pose proof Hover as Ha'. unfold serving_over in Ha'.
  rewrite Hps in Ha'. injection Ha' as ->%serve_code_over. destruct Ha as (v & Hr & _). by exists m, v.
Qed.

(** The stopping goroutine returns too once the requests in flight have ended or
    its fifteen seconds are over for good. *)
Lemma server_stop_returns σ n :
  fair server_handler acts σ → σ 0%nat = start → asked (σ n).2 = true →
  (∀ m, (n <= m)%nat → active (σ m).2 = 0%nat ∨ expired (σ m).2 = true) →
  ∃ m, (n <= m)%nat ∧ serving_over (σ m) ∧ stopping_over (σ m).
Proof.
  intros Hfair H0 Hask Hend. destruct (server_rests σ n Hfair H0 Hask) as (m & Hle & Hinv & Hrest & Hm).
  exists m. split; [done|]. split; [by eapply rest_served|].
  destruct (σ m) as [ps s] eqn:Em. destruct Hinv as (a & b & Hps & [Htr Ha] & Hb). simpl in *. subst ps.
  pose proof (not_enabled _ _ _ 1%nat _ Hrest eq_refl) as H%stop_waits; [|done..].
  pose proof (Hend m Hle) as He. rewrite Em in He. simpl in He.
  pose proof (rest_served srv ([serve_code srv a; stop_code b], s)) as Hover.
  destruct H as [->|[[-> Ht]|(-> & ? & ?)]]; [done| |by destruct He; congruence].
  assert (a = PEnd) as ->; [|by rewrite Ht in Htr].
  assert (serving_over ([serve_code srv a; stop_code QWait], s)) as Hs.
  { apply Hover; [by exists a, QWait|done|done]. }
  injection Hs. apply serve_code_over.
Qed.

(** Start, connect, stop, and receive from [doneCh]. *)
Definition early_script : list move :=
  repeat (Go 0) 3 ++ [Act Connect; Act CallerSend] ++ repeat (Go 1) 4 ++ repeat (Go 0) 5 ++ [Act CallerReceive].

Lemma early_script_plays :
  play early_script start =
  Some ([Ret tt; stop_code QWait],
        mkServer true ListenerClosed false 1 None 0 (Some (15 * Second)) (Some 0) 0 false [] [None] true).
Proof. reflexivity. Qed.

(** C36: a value on [doneCh] does not mean that the requests are done. The caller
    can receive nil while a request is in flight, the context is still running and
    [Shutdown] has not returned: [ListenAndServe] returns as soon as [Shutdown]
    closes the listener, and only that is reported. A process that exits on it
    cuts the request off. *)
Theorem server_done_before_drained :
  ∃ c, rtc server_step start c ∧ received c.2 = [None] ∧ active c.2 = 1%nat ∧
       (∃ d, deadline c.2 = Some d ∧ now c.2 < d) ∧ serving_over c ∧ ¬ stopping_over c.
Proof.
  eexists. split; [exact (play_steps _ _ _ early_script_plays)|].
  split_and!; [done|done|by eexists|done|by intros [=]].
Qed.

End claims.

(** ** Witnesses *)

(** A server on one DynamoDB table. *)
#[local] Notation demo_srv := (ddb_service "enoti").
Definition demo_server : list (prog ServerE unit) * Server :=
  start 8080 (h_ClientStore demo_srv) (h_DataStore demo_srv) (h_Pub demo_srv).

(** Start, connect, stop, let a minute pass and give up. *)
Definition stop_script : list move :=
  repeat (Go 0) 3 ++ [Act Connect; Act CallerSend] ++ repeat (Go 1) 4 ++ repeat (Go 0) 5 ++ [Act (Elapse Minute)] ++
  repeat (Go 1) 2.

Definition stopped : list (prog ServerE unit) * Server :=
  ([Ret tt; Ret tt],
   mkServer true ListenerClosed false 1 None Minute (Some (15 * Second)) (Some 0) 0 false [None] [] true).

Lemma stop_script_plays : play stop_script demo_server = Some stopped.
Proof. reflexivity. Qed.

Lemma stop_script_fair : fair server_handler acts (scripted stop_script demo_server).
Proof.
  apply (scripted_fair _ _ _ stop_script_plays). intros [c' Hs].
  inversion Hs as [i p ps s p' s' Hi Hp]; subst. by destruct i as [|[|i]]; simplify_eq/=.
Qed.

Lemma stop_script_asked : asked (scripted stop_script demo_server 5).2 = true.
Proof. reflexivity. Qed.

Lemma server_stop_honoured_witness :
  ∃ m v, (5 <= m)%nat ∧ serving_over (scripted stop_script demo_server m) ∧
         reported (scripted stop_script demo_server m).2 = [v].
Proof.
  apply (server_stop_honoured 8080 (h_ClientStore demo_srv) (h_DataStore demo_srv) (h_Pub demo_srv));
    [apply stop_script_fair|done|apply stop_script_asked].
Defined.

Lemma server_reports_once_witness :
  reported stopped.2 = [] ∧ ¬ serving_over stopped ∨
  ∃ v, reported stopped.2 = [v] ∧ serving_over stopped ∧ listener stopped.2 ≠ Listening ∧
    match v with
    | None => asked stopped.2 = true ∧ inShutdown stopped.2 = true
    | Some err => net_error err ∧ errors_Is err ErrServerClosed = false
    end.
Proof.
  apply (server_reports_once 8080 (h_ClientStore demo_srv) (h_DataStore demo_srv) (h_Pub demo_srv)).
  exact (play_steps _ _ _ stop_script_plays).
Defined.

Lemma server_shutdown_drains_witness :
  asked stopped.2 = true ∧
  ∃ t0 t1, signalled stopped.2 = Some t0 ∧ t0 <= t1 <= now stopped.2 ∧ deadline stopped.2 = Some (t1 + 15 * Second) ∧
     (active stopped.2 = 0%nat ∨ t1 + 15 * Second <= now stopped.2).
Proof.
  destruct (server_shutdown_drains 8080 (h_ClientStore demo_srv) (h_DataStore demo_srv) (h_Pub demo_srv) stopped)
    as (Ha & Ht & _); [exact (play_steps _ _ _ stop_script_plays)|reflexivity|by split].
Defined.
